(** * Smart pointers: SharedPtr / WeakPtr / EnableSharedFromThis / UniquePtr

    A shallow embedding of
      - src/shared-from-this/shared.h  (ControlBlockBase, ControlBlockPointer,
        ControlBlockHolder, EnableSharedFromThis, SharedPtr, operator==, MakeShared)
      - src/shared-from-this/weak.h    (WeakPtr)
      - src/shared/shared.h            (the single-counter SharedPtr, modules
        Basic and BasicOps)
      - src/unique/compressed_pair.h, src/unique/unique.h (module Unique, and
        the programs of UniqueOp)

    The C++ heap is an explicit store.  Control blocks live in a finite map
    from block addresses to block records; a block that went through
    [delete block_] stays in the map with its [freed] flag set, so that a later
    access is visible as undefined behaviour.  A block owns its managed
    object (ControlBlockPointer through ptr_, ControlBlockHolder in storage_),
    so the state of the object is kept with the block.  The programs of [Op]
    are over handles held in variables and managed objects whose only handle
    is the member weak_this_ of the mixin; the destructor of a managed object
    with SharedPtr or WeakPtr members of its own is [DeleteObject_with].
    Every SharedPtr / WeakPtr object has an address of its own (needed for
    the [this == &other] guards) and is a pair of two nullable pointers.
    Calls of DeleteObject() and [delete block_] are recorded in a trace.

    Code runs in a monad over the store with three outcomes: a value, a
    thrown exception, undefined behaviour.  The int counters are integers:
    along a program they count live handles, and signed overflow is undefined
    in C++ anyway; UseCount() converts a counter that is never negative. *)

From Stdlib Require Import ZArith.
From stdpp Require Import base option list gmap fin_maps.

Local Open Scope Z_scope.

(** ** Outcomes of running a piece of C++ *)

(** What the C++ standard leaves undefined, and what the store makes of the
    misuse of an address. *)
Inductive Fault :=
| NullDeref        (* member access through a null pointer *)
| UseAfterFree     (* member access through a pointer to a deleted block *)
| WildPointer      (* a block pointer that was never allocated *)
| DoubleDelete     (* the managed object is destroyed a second time *)
| NoSuchObject     (* a handle address that holds no live handle *)
| AddressInUse.    (* constructing a handle where one already lives *)

Inductive Exception := BadWeakPtr.

Inductive Res (S A : Type) :=
| Ok (a : A) (s : S)
| Throw (e : Exception) (s : S)
| Undefined (f : Fault).
Arguments Ok {S A} a s.
Arguments Throw {S A} e s.
Arguments Undefined {S A} f.

Definition M (S A : Type) : Type := S → Res S A.

Definition M_ret {S A} (a : A) : M S A := λ s, Ok a s.

Definition M_bind {S A B} (f : A → M S B) (m : M S A) : M S B :=
  λ s, match m s with
       | Ok a s' => f a s'
       | Throw e s' => Throw e s'
       | Undefined u => Undefined u
       end.

Notation "'let*' x := m 'in' k" := (M_bind (fun x => k) m)
  (at level 10, x name, m at level 100, k at level 200).
Notation "m ;> k" := (M_bind (fun _ => k) m)
  (at level 100, k at level 200, right associativity).

Definition throw {S A} (e : Exception) : M S A := λ s, Throw e s.
Definition undefined {S A} (u : Fault) : M S A := λ _, Undefined u.

(** ** Pointers, control blocks, handles *)

(** A raw pointer: [None] is [nullptr]. *)
Abbreviation ptr := (option nat).
Abbreviation nullptr := (@None nat).

Definition non_null (p : ptr) : bool := if p is Some _ then true else false.

(** The two fields of a SharedPtr<X> and of a WeakPtr<X>. *)
Record Handle := mkHandle { ptr_ : ptr; block_ : ptr }.

Definition null_handle : Handle := mkHandle nullptr nullptr.

#[global] Instance Handle_eq_dec : EqDecision Handle.
Proof. solve_decision. Defined.

(** The managed object, as far as the handles can tell: either a type that
    does not derive from EnableSharedFromThis, or one that does and so
    carries the member [weak_this_]. *)
Inductive Managed :=
| Plain
| SelfRef (weak_this_ : Handle).

(** [NoObject] is a pointer-backed block built over a null raw pointer. *)
Inductive ObjState :=
| NoObject
| Alive (m : Managed)
| Destroyed.

(** ControlBlockBase with the part of the derived block the handles use:
    [GetPointer] (ptr_ of ControlBlockPointer, the address of storage_ of
    ControlBlockHolder) and the object the block owns.  [freed] is a ghost
    flag set by [delete block_]. *)
Record ControlBlock := mkBlock {
  strong_counter_ : Z;
  weak_counter_ : Z;
  GetPointer : ptr;
  object_ : ObjState;
  freed : bool
}.

Definition GetStrongCounter (cb : ControlBlock) : Z := strong_counter_ cb.
Definition GetWeakCounter (cb : ControlBlock) : Z := weak_counter_ cb.

Definition IncreaseStrongCounter (cb : ControlBlock) : ControlBlock :=
  mkBlock (strong_counter_ cb + 1) (weak_counter_ cb) (GetPointer cb) (object_ cb) (freed cb).
Definition IncreaseWeakCounter (cb : ControlBlock) : ControlBlock :=
  mkBlock (strong_counter_ cb) (weak_counter_ cb + 1) (GetPointer cb) (object_ cb) (freed cb).
Definition DecreaseStrongCounter (cb : ControlBlock) : ControlBlock :=
  mkBlock (strong_counter_ cb - 1) (weak_counter_ cb) (GetPointer cb) (object_ cb) (freed cb).
Definition DecreaseWeakCounter (cb : ControlBlock) : ControlBlock :=
  mkBlock (strong_counter_ cb) (weak_counter_ cb - 1) (GetPointer cb) (object_ cb) (freed cb).

Definition set_object (o : ObjState) (cb : ControlBlock) : ControlBlock :=
  mkBlock (strong_counter_ cb) (weak_counter_ cb) (GetPointer cb) o (freed cb).
Definition set_freed (cb : ControlBlock) : ControlBlock :=
  mkBlock (strong_counter_ cb) (weak_counter_ cb) (GetPointer cb) (object_ cb) true.

(** A block as its constructor leaves it: strong_counter_ = 1, weak_counter_ = 0. *)
Definition fresh_block (p : ptr) (o : ObjState) : ControlBlock := mkBlock 1 0 p o false.

Inductive Event :=
| EvDeleteObject (b : nat)    (* block b ran DeleteObject() *)
| EvDeleteBlock (b : nat).    (* delete block_ on block b *)

#[global] Instance Event_eq_dec : EqDecision Event.
Proof. solve_decision. Defined.

(** ** The store *)

Record State := mkState {
  blocks : gmap nat ControlBlock;
  shared : gmap nat Handle;     (* the live SharedPtr objects, by address *)
  weak : gmap nat Handle;       (* the live WeakPtr objects, by address *)
  trace : list Event
}.

Definition init : State := mkState ∅ ∅ ∅ [].

Definition set_blocks (f : gmap nat ControlBlock → gmap nat ControlBlock) (st : State) : State :=
  mkState (f (blocks st)) (shared st) (weak st) (trace st).
Definition set_shared (f : gmap nat Handle → gmap nat Handle) (st : State) : State :=
  mkState (blocks st) (f (shared st)) (weak st) (trace st).
Definition set_weak (f : gmap nat Handle → gmap nat Handle) (st : State) : State :=
  mkState (blocks st) (shared st) (f (weak st)) (trace st).
Definition log (e : Event) (st : State) : State :=
  mkState (blocks st) (shared st) (weak st) (trace st ++ [e]).

(** [block_->...]: reading through a block pointer. *)
Definition load (p : ptr) : M State ControlBlock := λ st,
  match p with
  | None => Undefined NullDeref
  | Some b =>
      match blocks st !! b with
      | None => Undefined WildPointer
      | Some cb => if freed cb then Undefined UseAfterFree else Ok cb st
      end
  end.

Definition read {A} (p : ptr) (f : ControlBlock → A) : M State A :=
  let* cb := load p in M_ret (f cb).

Definition modify (p : ptr) (f : ControlBlock → ControlBlock) : M State unit :=
  let* cb := load p in
  match p with
  | Some b => λ st, Ok tt (set_blocks <[b := f cb]> st)
  | None => undefined NullDeref
  end.

Definition emit (e : Event) : M State unit := λ st, Ok tt (log e st).

(** [new ControlBlockPointer<Y>(ptr)] / [new ControlBlockHolder<X>(args...)]:
    the allocator returns an address not in use (a freed block keeps its
    address, so none is handed out twice).  This is the run in which the
    allocation succeeds and the constructor of the managed object returns;
    std::bad_alloc and exceptions of that constructor are not modelled. *)
Definition new_block (mk : nat → ControlBlock) : M State nat := λ st,
  let b := fresh (dom (blocks st)) in
  Ok b (set_blocks <[b := mk b]> st).

Definition delete_block (p : ptr) : M State unit :=
  let* cb := load p in
  match p with
  | Some b => modify p set_freed ;> emit (EvDeleteBlock b)
  | None => undefined NullDeref
  end.

(** ** WeakPtr (weak.h), the part that needs no SharedPtr *)

(** WeakPtr(const WeakPtr&), WeakPtr(const WeakPtr<Y>&) and
    WeakPtr(const SharedPtr<X>&) have one body. *)
Definition WeakPtr_copy (other : Handle) : M State Handle :=
  let this := mkHandle (ptr_ other) (block_ other) in
  (if non_null (block_ this) then modify (block_ this) IncreaseWeakCounter else M_ret tt) ;>
  M_ret this.

Definition WeakPtr_from_shared (other : Handle) : M State Handle := WeakPtr_copy other.

(** WeakPtr(WeakPtr&&): the new handle and what is left of the source. *)
Definition WeakPtr_move (other : Handle) : Handle * Handle :=
  (mkHandle (ptr_ other) (block_ other), null_handle).

Definition WeakPtr_Decrement (this : Handle) : M State unit :=
  if non_null (block_ this) then
    modify (block_ this) DecreaseWeakCounter ;>
    let* s := read (block_ this) GetStrongCounter in
    let* w := read (block_ this) GetWeakCounter in
    if (s =? 0) && (w =? 0) then delete_block (block_ this) else M_ret tt
  else M_ret tt.

Definition WeakPtr_UseCount (this : Handle) : M State Z :=
  if non_null (block_ this) then read (block_ this) GetStrongCounter else M_ret 0.

Definition WeakPtr_Expired (this : Handle) : M State bool :=
  let* n := WeakPtr_UseCount this in M_ret (n =? 0).

(** ** The managed object and ControlBlock::DeleteObject *)

(** ~EnableSharedFromThis(), followed by the destructor of its member. *)
Definition destroy_EnableSharedFromThis (weak_this_ : Handle) : M State unit :=
  modify (block_ weak_this_) DecreaseWeakCounter ;>
  let weak_this_ := mkHandle nullptr nullptr in
  WeakPtr_Decrement weak_this_.

Definition destroy_object (m : Managed) : M State unit :=
  match m with
  | Plain => M_ret tt
  | SelfRef w => destroy_EnableSharedFromThis w
  end.

(** [delete ptr_] (ControlBlockPointer) / [GetPointer()->~T()] (ControlBlockHolder). *)
Definition DeleteObject (p : ptr) : M State unit :=
  let* cb := load p in
  (if p is Some b then emit (EvDeleteObject b) else undefined NullDeref) ;>
  match object_ cb with
  | NoObject => M_ret tt
  | Alive m => destroy_object m ;> modify p (set_object Destroyed)
  | Destroyed => undefined DoubleDelete
  end.

(** ** SharedPtr (shared-from-this/shared.h) *)

Definition SharedPtr_Decrement (this : Handle) : M State unit :=
  if non_null (block_ this) then
    modify (block_ this) DecreaseStrongCounter ;>
    let* s := read (block_ this) GetStrongCounter in
    let* w := read (block_ this) GetWeakCounter in
    if (s =? 0) && negb (w =? 0) then
      DeleteObject (block_ this) ;>
      let* w' := read (block_ this) GetWeakCounter in
      if w' =? 0 then delete_block (block_ this) else M_ret tt
    else if (s =? 0) && (w =? 0) then
      DeleteObject (block_ this) ;>
      delete_block (block_ this)
    else M_ret tt
  else M_ret tt.

(** SharedPtr() and SharedPtr(std::nullptr_t). *)
Definition SharedPtr_nullptr : Handle := mkHandle nullptr nullptr.

(** SharedPtr(const SharedPtr&) and SharedPtr(const SharedPtr<Y>&). *)
Definition SharedPtr_copy (other : Handle) : M State Handle :=
  let this := mkHandle (ptr_ other) (block_ other) in
  (if non_null (block_ this) then modify (block_ this) IncreaseStrongCounter else M_ret tt) ;>
  M_ret this.

(** SharedPtr(SharedPtr&&) and SharedPtr(SharedPtr<Y>&&). *)
Definition SharedPtr_move (other : Handle) : Handle * Handle :=
  (mkHandle (ptr_ other) (block_ other), mkHandle nullptr nullptr).

(** The aliasing constructor SharedPtr(const SharedPtr<T>& other, X* ptr). *)
Definition SharedPtr_alias (other : Handle) (p : ptr) : M State Handle :=
  let this := mkHandle p (block_ other) in
  (if non_null (block_ this) then modify (block_ this) IncreaseStrongCounter else M_ret tt) ;>
  M_ret this.

(** explicit SharedPtr(const WeakPtr<X>& other).  The left operand of [||]
    reads through [block_] before the right operand tests it. *)
Definition SharedPtr_from_weak (other : Handle) : M State Handle :=
  let this := mkHandle (ptr_ other) (block_ other) in
  let* s := read (block_ this) GetStrongCounter in
  if (s =? 0) || negb (non_null (block_ this)) then throw BadWeakPtr
  else modify (block_ this) IncreaseStrongCounter ;> M_ret this.

(** WeakPtr::Lock() *)
Definition WeakPtr_Lock (this : Handle) : M State Handle :=
  if non_null (block_ this) then
    let* s := read (block_ this) GetStrongCounter in
    if s =? 0 then M_ret SharedPtr_nullptr else SharedPtr_from_weak this
  else M_ret SharedPtr_nullptr.

Definition SharedPtr_Get (this : Handle) : ptr := ptr_ this.
Definition SharedPtr_GetBlock (this : Handle) : ptr := block_ this.
Definition SharedPtr_bool (this : Handle) : bool := non_null (ptr_ this).

Definition SharedPtr_UseCount (this : Handle) : M State Z :=
  if non_null (block_ this) then read (block_ this) GetStrongCounter else M_ret 0.

(** operator==(const SharedPtr<X>&, const SharedPtr<U>&) *)
Definition SharedPtr_eq (left right : Handle) : bool :=
  bool_decide (SharedPtr_Get left = SharedPtr_Get right)
  && bool_decide (SharedPtr_GetBlock left = SharedPtr_GetBlock right).

(** operator=(const SharedPtr&) and operator=(SharedPtr&&) behind their
    [this == &other] guards; the second also yields what is left of [other]. *)
Definition SharedPtr_assign_copy_body (this other : Handle) : M State Handle :=
  SharedPtr_Decrement this ;>
  let this := mkHandle (ptr_ other) (block_ other) in
  (if non_null (block_ this) then modify (block_ this) IncreaseStrongCounter else M_ret tt) ;>
  M_ret this.

Definition SharedPtr_assign_move_body (this other : Handle) : M State (Handle * Handle) :=
  SharedPtr_Decrement this ;>
  M_ret (mkHandle (ptr_ other) (block_ other), mkHandle nullptr nullptr).

Definition WeakPtr_assign_copy_body (this other : Handle) : M State Handle :=
  WeakPtr_Decrement this ;>
  let this := mkHandle (ptr_ other) (block_ other) in
  (if non_null (block_ this) then modify (block_ this) IncreaseWeakCounter else M_ret tt) ;>
  M_ret this.

Definition WeakPtr_assign_move_body (this other : Handle) : M State (Handle * Handle) :=
  WeakPtr_Decrement this ;>
  M_ret (mkHandle (ptr_ other) (block_ other), mkHandle nullptr nullptr).

(** ** EnableSharedFromThis *)

(** How the pointee type Y and the handle type X of a constructor relate to
    the mixin. *)
Inductive PointeeKind :=
| KPlain         (* Y does not derive from EnableSharedFromThis *)
| KMixinHidden   (* Y does, but X* does not convert to EnableSharedFromThisBase* *)
| KMixin.        (* X* converts to EnableSharedFromThisBase*, so Y derives too *)

(** std::is_convertible_v<X*, EnableSharedFromThisBase*> *)
Definition is_convertible_X (k : PointeeKind) : bool :=
  match k with KMixin => true | _ => false end.

(** The object as its own constructor leaves it: weak_this_ is WeakPtr(). *)
Definition new_object (k : PointeeKind) : Managed :=
  match k with KPlain => Plain | _ => SelfRef (mkHandle nullptr nullptr) end.

(** The member weak_this_ of the object that block [home] owns. *)
Definition get_weak_this (home : nat) : M State Handle :=
  let* cb := load (Some home) in
  match object_ cb with
  | Alive (SelfRef w) => M_ret w
  | _ => undefined NoSuchObject
  end.

Definition set_weak_this (home : nat) (w : Handle) : M State unit :=
  let* cb := load (Some home) in
  match object_ cb with
  | Alive (SelfRef _) => modify (Some home) (set_object (Alive (SelfRef w)))
  | _ => undefined NoSuchObject
  end.

(** [self->SetWeakThis(arg)]: the parameter is taken by value, and
    [weak_this_ = other] converts [other] to a temporary WeakPtr that is then
    move-assigned ([this != &tmp]). *)
Definition SetWeakThis (self : ptr) (home : nat) (arg : Handle) : M State unit :=
  if non_null self then
    let* other := SharedPtr_copy arg in
    let* tmp := WeakPtr_from_shared other in
    let* weak_this_ := get_weak_this home in
    let* r := WeakPtr_assign_move_body weak_this_ tmp in
    set_weak_this home (fst r) ;>
    WeakPtr_Decrement (snd r) ;>
    SharedPtr_Decrement other
  else undefined NullDeref.

Definition SharedFromThis (home : nat) : M State Handle :=
  let* weak_this_ := get_weak_this home in WeakPtr_Lock weak_this_.

Definition WeakFromThis (home : nat) : M State Handle :=
  let* weak_this_ := get_weak_this home in WeakPtr_copy weak_this_.

(** explicit SharedPtr(X* ptr) and SharedPtr(Y* ptr).  The new block takes
    the object at [ptr] for its own, whether or not another block manages it
    already; a correct program hands over a pointer that none does
    ([unowned]). *)
Definition SharedPtr_from_raw (k : PointeeKind) (p : ptr) : M State Handle :=
  let* b := new_block (λ _, fresh_block p (if p is Some _ then Alive (new_object k) else NoObject)) in
  let this := mkHandle p (Some b) in
  (if is_convertible_X k then SetWeakThis p b this else M_ret tt) ;>
  M_ret this.

(** SharedPtr(ControlBlockHolder<X>* block) *)
Definition SharedPtr_from_holder (k : PointeeKind) (block : nat) : M State Handle :=
  let* p := read (Some block) GetPointer in
  let this := mkHandle p (Some block) in
  (if is_convertible_X k then SetWeakThis (ptr_ this) block this else M_ret tt) ;>
  M_ret this.

Definition MakeShared (k : PointeeKind) : M State Handle :=
  let* block := new_block (λ b, fresh_block (Some b) (Alive (new_object k))) in
  SharedPtr_from_holder k block.

(** Reset(X* ptr) and Reset(Y* ptr): no self-reference wiring here, and as
    in the constructor the new block takes the object for its own. *)
Definition SharedPtr_Reset_ptr_body (k : PointeeKind) (this : Handle) (p : ptr) : M State Handle :=
  SharedPtr_Decrement this ;>
  let* b := new_block (λ _, fresh_block p (if p is Some _ then Alive (new_object k) else NoObject)) in
  M_ret (mkHandle p (Some b)).

(** ** Handles as objects with addresses *)

Definition get_shared (a : nat) : M State Handle := λ st,
  match shared st !! a with
  | Some x => Ok x st
  | None => Undefined NoSuchObject
  end.
Definition put_shared (a : nat) (x : Handle) : M State unit := λ st,
  Ok tt (set_shared <[a := x]> st).
Definition new_shared (a : nat) (x : Handle) : M State unit := λ st,
  match shared st !! a with
  | None => Ok tt (set_shared <[a := x]> st)
  | Some _ => Undefined AddressInUse
  end.
Definition del_shared (a : nat) : M State unit := λ st,
  Ok tt (set_shared (delete a) st).

Definition get_weak (a : nat) : M State Handle := λ st,
  match weak st !! a with
  | Some x => Ok x st
  | None => Undefined NoSuchObject
  end.
Definition put_weak (a : nat) (x : Handle) : M State unit := λ st,
  Ok tt (set_weak <[a := x]> st).
Definition new_weak (a : nat) (x : Handle) : M State unit := λ st,
  match weak st !! a with
  | None => Ok tt (set_weak <[a := x]> st)
  | Some _ => Undefined AddressInUse
  end.
Definition del_weak (a : nat) : M State unit := λ st,
  Ok tt (set_weak (delete a) st).

(** SharedPtr& operator=(const SharedPtr& other) *)
Definition SharedPtr_assign_copy (this other : nat) : M State unit :=
  if bool_decide (this ≠ other) then
    let* t := get_shared this in
    let* o := get_shared other in
    let* t' := SharedPtr_assign_copy_body t o in
    put_shared this t'
  else M_ret tt.

(** SharedPtr& operator=(SharedPtr&& other) *)
Definition SharedPtr_assign_move (this other : nat) : M State unit :=
  if bool_decide (this = other) then M_ret tt
  else
    let* t := get_shared this in
    let* o := get_shared other in
    let* r := SharedPtr_assign_move_body t o in
    put_shared this (fst r) ;>
    put_shared other (snd r).

Definition SharedPtr_dtor (this : nat) : M State unit :=
  let* t := get_shared this in
  SharedPtr_Decrement t ;>
  del_shared this.

Definition SharedPtr_Reset (this : nat) : M State unit :=
  let* t := get_shared this in
  SharedPtr_Decrement t ;>
  put_shared this (mkHandle nullptr nullptr).

Definition SharedPtr_Reset_ptr (k : PointeeKind) (this : nat) (p : ptr) : M State unit :=
  let* t := get_shared this in
  let* t' := SharedPtr_Reset_ptr_body k t p in
  put_shared this t'.

Definition SharedPtr_Swap (this other : nat) : M State unit :=
  let* t := get_shared this in
  let* o := get_shared other in
  put_shared this (mkHandle (ptr_ o) (block_ o)) ;>
  put_shared other (mkHandle (ptr_ t) (block_ t)).

Definition WeakPtr_assign_copy (this other : nat) : M State unit :=
  if bool_decide (this ≠ other) then
    let* t := get_weak this in
    let* o := get_weak other in
    let* t' := WeakPtr_assign_copy_body t o in
    put_weak this t'
  else M_ret tt.

Definition WeakPtr_assign_move (this other : nat) : M State unit :=
  if bool_decide (this = other) then M_ret tt
  else
    let* t := get_weak this in
    let* o := get_weak other in
    let* r := WeakPtr_assign_move_body t o in
    put_weak this (fst r) ;>
    put_weak other (snd r).

Definition WeakPtr_dtor (this : nat) : M State unit :=
  let* t := get_weak this in
  WeakPtr_Decrement t ;>
  del_weak this.

Definition WeakPtr_Reset (this : nat) : M State unit :=
  let* t := get_weak this in
  WeakPtr_Decrement t ;>
  put_weak this (mkHandle nullptr nullptr).

Definition WeakPtr_Swap (this other : nat) : M State unit :=
  let* t := get_weak this in
  let* o := get_weak other in
  put_weak this (mkHandle (ptr_ o) (block_ o)) ;>
  put_weak other (mkHandle (ptr_ t) (block_ t)).

(** ** Programs: sequences of operations on handles *)

(** In the last two, [obj] is the object that block [home] owns. *)
Inductive Op :=
| SpDefault (h : nat)                               (* SharedPtr<X> h; *)
| SpFromRaw (k : PointeeKind) (h : nat) (p : ptr)   (* SharedPtr<X> h(p); *)
| SpMakeShared (k : PointeeKind) (h : nat)          (* auto h = MakeShared<X>(...); *)
| SpCopy (h src : nat)                              (* SharedPtr<X> h(src); *)
| SpMove (h src : nat)                              (* SharedPtr<X> h(std::move(src)); *)
| SpAlias (h src : nat) (p : ptr)                   (* SharedPtr<X> h(src, p); *)
| SpFromWeak (h w : nat)                            (* SharedPtr<X> h(w); *)
| SpAssignCopy (h src : nat)                        (* h = src; *)
| SpAssignMove (h src : nat)                        (* h = std::move(src); *)
| SpReset (h : nat)                                 (* h.Reset(); *)
| SpResetPtr (k : PointeeKind) (h : nat) (p : ptr)  (* h.Reset(p); *)
| SpSwap (h other : nat)                            (* h.Swap(other); *)
| SpDtor (h : nat)                                  (* h goes out of scope *)
| WpDefault (w : nat)                               (* WeakPtr<X> w; *)
| WpCopy (w src : nat)                              (* WeakPtr<X> w(src); *)
| WpMove (w src : nat)                              (* WeakPtr<X> w(std::move(src)); *)
| WpFromShared (w h : nat)                          (* WeakPtr<X> w(h); *)
| WpAssignCopy (w src : nat)                        (* w = src; *)
| WpAssignMove (w src : nat)                        (* w = std::move(src); *)
| WpReset (w : nat)                                 (* w.Reset(); *)
| WpSwap (w other : nat)                            (* w.Swap(other); *)
| WpLock (h w : nat)                                (* auto h = w.Lock(); *)
| WpDtor (w : nat)                                  (* w goes out of scope *)
| SpSharedFromThis (h home : nat)                   (* auto h = obj->SharedFromThis(); *)
| WpWeakFromThis (w home : nat).                    (* auto w = obj->WeakFromThis(); *)

Definition step (op : Op) : M State unit :=
  match op with
  | SpDefault h => new_shared h SharedPtr_nullptr
  | SpFromRaw k h p => let* x := SharedPtr_from_raw k p in new_shared h x
  | SpMakeShared k h => let* x := MakeShared k in new_shared h x
  | SpCopy h src => let* o := get_shared src in let* x := SharedPtr_copy o in new_shared h x
  | SpMove h src =>
      let* o := get_shared src in
      put_shared src (snd (SharedPtr_move o)) ;> new_shared h (fst (SharedPtr_move o))
  | SpAlias h src p => let* o := get_shared src in let* x := SharedPtr_alias o p in new_shared h x
  | SpFromWeak h w => let* o := get_weak w in let* x := SharedPtr_from_weak o in new_shared h x
  | SpAssignCopy h src => SharedPtr_assign_copy h src
  | SpAssignMove h src => SharedPtr_assign_move h src
  | SpReset h => SharedPtr_Reset h
  | SpResetPtr k h p => SharedPtr_Reset_ptr k h p
  | SpSwap h other => SharedPtr_Swap h other
  | SpDtor h => SharedPtr_dtor h
  | WpDefault w => new_weak w (mkHandle nullptr nullptr)
  | WpCopy w src => let* o := get_weak src in let* x := WeakPtr_copy o in new_weak w x
  | WpMove w src =>
      let* o := get_weak src in
      put_weak src (snd (WeakPtr_move o)) ;> new_weak w (fst (WeakPtr_move o))
  | WpFromShared w h => let* o := get_shared h in let* x := WeakPtr_from_shared o in new_weak w x
  | WpAssignCopy w src => WeakPtr_assign_copy w src
  | WpAssignMove w src => WeakPtr_assign_move w src
  | WpReset w => WeakPtr_Reset w
  | WpSwap w other => WeakPtr_Swap w other
  | WpLock h w => let* o := get_weak w in let* x := WeakPtr_Lock o in new_shared h x
  | WpDtor w => WeakPtr_dtor w
  | SpSharedFromThis h home => let* x := SharedFromThis home in new_shared h x
  | WpWeakFromThis w home => let* x := WeakFromThis home in new_weak w x
  end.

(** One operation of a program.  An exception leaves the constructor of the
    handle that was being built; the program catches it and goes on.  [None]
    is undefined behaviour. *)
Definition exec (st : State) (op : Op) : option State :=
  match step op st with
  | Ok _ st' => Some st'
  | Throw _ st' => Some st'
  | Undefined _ => None
  end.

Fixpoint run (st : State) (ops : list Op) : option State :=
  match ops with
  | [] => Some st
  | op :: ops => match exec st op with Some st' => run st' ops | None => None end
  end.

(** ** Counting owners and events *)

(** 1 if the handle refers to block [b], else 0. *)
Definition owns (b : nat) (x : Handle) : Z :=
  if decide (block_ x = Some b) then 1 else 0.

Definition owns_opt (b : nat) (o : option Handle) : Z :=
  match o with Some x => owns b x | None => 0 end.

(** The number of live handles of a store that refer to block [b]. *)
Definition refs (m : gmap nat Handle) (b : nat) : Z :=
  Z.of_nat (size (filter (λ kv, block_ kv.2 = Some b) m)).

Definition count_ev (e : Event) (t : list Event) : Z :=
  Z.of_nat (length (filter (λ x, x = e) t)).

(** The weak registration the object of block [b] holds on [b] itself. *)
Definition self_reg (b : nat) (cb : ControlBlock) : Z :=
  match object_ cb with
  | Alive (SelfRef w) => owns b w
  | _ => 0
  end.

(** The block after its last strong owner let go. *)
Definition released (b : nat) (cb : ControlBlock) : ControlBlock :=
  let w := weak_counter_ cb - self_reg b cb in
  mkBlock 0 w (GetPointer cb)
    (match object_ cb with NoObject => NoObject | _ => Destroyed end) (w =? 0).

Definition released_events (b : nat) (cb : ControlBlock) : list Event :=
  EvDeleteObject b ::
  (if weak_counter_ cb - self_reg b cb =? 0 then [EvDeleteBlock b] else []).

(** The block after DeleteObject() ran. *)
Definition object_deleted (b : nat) (cb : ControlBlock) : ControlBlock :=
  mkBlock (strong_counter_ cb) (weak_counter_ cb - self_reg b cb) (GetPointer cb)
    (match object_ cb with NoObject => NoObject | _ => Destroyed end) (freed cb).

(** The block after a WeakPtr let go. *)
Definition weak_released (cb : ControlBlock) : ControlBlock :=
  mkBlock (strong_counter_ cb) (weak_counter_ cb - 1) (GetPointer cb) (object_ cb)
    ((strong_counter_ cb =? 0) && (weak_counter_ cb - 1 =? 0)).

Definition weak_released_events (b : nat) (cb : ControlBlock) : list Event :=
  if (strong_counter_ cb =? 0) && (weak_counter_ cb - 1 =? 0) then [EvDeleteBlock b] else [].

(** The block of an object with the mixin once a constructor wired it. *)
Definition wired_block (p : ptr) (b : nat) : ControlBlock :=
  mkBlock 1 1 p (Alive (SelfRef (mkHandle p (Some b)))) false.

(** weak_this_ of a managed object is empty or registered on the block that
    owns the object. *)
Definition wired_home (b : nat) (cb : ControlBlock) : Prop :=
  ∀ w, object_ cb = Alive (SelfRef w) → block_ w = None ∨ block_ w = Some b.

Record block_inv (st : State) (b : nat) (cb : ControlBlock) : Prop := {
  bi_strong : strong_counter_ cb = refs (shared st) b;
  bi_weak : weak_counter_ cb = refs (weak st) b + self_reg b cb;
  bi_home : wired_home b cb;
  bi_freed : freed cb = (strong_counter_ cb =? 0) && (weak_counter_ cb =? 0);
  bi_object : match object_ cb with
              | NoObject => True
              | Alive _ => 0 < strong_counter_ cb
              | Destroyed => strong_counter_ cb = 0
              end;
  bi_deleted :
    count_ev (EvDeleteObject b) (trace st) = (if strong_counter_ cb =? 0 then 1 else 0);
  bi_block_deleted :
    count_ev (EvDeleteBlock b) (trace st) = (if freed cb then 1 else 0)
}.

Record unallocated (st : State) (b : nat) : Prop := {
  un_shared : refs (shared st) b = 0;
  un_weak : refs (weak st) b = 0;
  un_deleted : count_ev (EvDeleteObject b) (trace st) = 0;
  un_block_deleted : count_ev (EvDeleteBlock b) (trace st) = 0
}.

Definition inv (st : State) : Prop :=
  ∀ b, match blocks st !! b with
       | Some cb => block_inv st b cb
       | None => unallocated st b
       end.

(** How one operation may move the strong counter of a block. *)
Record block_step (cb cb' : ControlBlock) : Prop := {
  bs_dec : strong_counter_ cb - 1 ≤ strong_counter_ cb';
  bs_dead : strong_counter_ cb = 0 → strong_counter_ cb' = 0
}.

Record block_grow (cb cb' : ControlBlock) : Prop := {
  bg_inc : strong_counter_ cb ≤ strong_counter_ cb';
  bg_dead : strong_counter_ cb = 0 → strong_counter_ cb' = 0
}.

Definition blocks_rel (R : ControlBlock → ControlBlock → Prop) (st st' : State) : Prop :=
  ∀ b, match blocks st !! b with
       | Some cb => ∃ cb', blocks st' !! b = Some cb' ∧ R cb cb'
       | None => ∀ cb', blocks st' !! b = Some cb' → 0 < strong_counter_ cb'
       end.

Definition shrinks (st st' : State) : Prop :=
  (∃ evs, trace st' = trace st ++ evs) ∧ blocks_rel block_step st st'.

Definition grows (st st' : State) : Prop :=
  (∃ evs, trace st' = trace st ++ evs) ∧ blocks_rel block_grow st st'.

(** ** Observations on a run *)

Definition strong_of (st : State) (b : nat) : option Z :=
  strong_counter_ <$> blocks st !! b.

Definition weak_of (st : State) (b : nat) : option Z :=
  weak_counter_ <$> blocks st !! b.

Definition freed_of (st : State) (b : nat) : option bool :=
  freed <$> blocks st !! b.

(** The events the step from [st] to [st'] added to the trace. *)
Definition new_events (st st' : State) : list Event :=
  drop (length (trace st)) (trace st').

(** The store a program leaves behind ([init] if it runs into undefined
    behaviour). *)
Definition state_after (ops : list Op) : State := default init (run init ops).

(** UseCount() of the SharedPtr at address [h], if there is one. *)
Definition UseCount_of (st : State) (h : nat) : option Z :=
  match shared st !! h with
  | Some x => match SharedPtr_UseCount x st with Ok n _ => Some n | _ => None end
  | None => None
  end.

(** The copy and the move constructor run on the storage of the SharedPtr at
    [this], which holds an empty handle: what an assignment does once the
    previous binding of [this] is released. *)
Definition construct_copy_at (this other : nat) : M State unit :=
  let* o := get_shared other in
  let* x := SharedPtr_copy o in
  put_shared this x.

Definition construct_move_at (this other : nat) : M State unit :=
  let* o := get_shared other in
  put_shared this (fst (SharedPtr_move o)) ;>
  put_shared other (snd (SharedPtr_move o)).

(** A computation that leaves the handle stores alone. *)
Definition keeps_handles {A} (m : M State A) : Prop :=
  ∀ st a st', m st = Ok a st' → shared st' = shared st ∧ weak st' = weak st.

(** ** Managed objects that hold handles

    A managed type may have SharedPtr and WeakPtr members of its own: a node
    that holds a WeakPtr to itself, a child that holds a WeakPtr to its
    parent.  The destructor of such an object destroys these members inside
    DeleteObject(), which [destroy_object] does not cover; the programs of
    [Op] are over managed objects without such members. *)

(** The ghost state of the object, set without a read through the block
    pointer: the block may be gone by then. *)
Definition mark_destroyed (p : ptr) : M State unit := λ st,
  match p with
  | Some b =>
      match blocks st !! b with
      | Some cb => Ok tt (set_blocks <[b := set_object Destroyed cb]> st)
      | None => Ok tt st
      end
  | None => Ok tt st
  end.

(** ControlBlock::DeleteObject() for a managed type with members:
    [delete ptr_] (ControlBlockPointer) and [GetPointer()->~T()]
    (ControlBlockHolder) run the destructor of T, which destroys the members
    of the object, [members], and then its base EnableSharedFromThis, before
    DeleteObject() returns. *)
Definition DeleteObject_with (members : M State unit) (p : ptr) : M State unit :=
  let* cb := load p in
  (if p is Some b then emit (EvDeleteObject b) else undefined NullDeref) ;>
  match object_ cb with
  | NoObject => M_ret tt
  | Alive m => members ;> destroy_object m ;> mark_destroyed p
  | Destroyed => undefined DoubleDelete
  end.

(** SharedPtr::Decrement() on a handle whose managed object has the members
    that [members] destroys. *)
Definition SharedPtr_Decrement_with (members : M State unit) (this : Handle) : M State unit :=
  if non_null (block_ this) then
    modify (block_ this) DecreaseStrongCounter ;>
    let* s := read (block_ this) GetStrongCounter in
    let* w := read (block_ this) GetWeakCounter in
    if (s =? 0) && negb (w =? 0) then
      DeleteObject_with members (block_ this) ;>
      let* w' := read (block_ this) GetWeakCounter in
      if w' =? 0 then delete_block (block_ this) else M_ret tt
    else if (s =? 0) && (w =? 0) then
      DeleteObject_with members (block_ this) ;>
      delete_block (block_ this)
    else M_ret tt
  else M_ret tt.

(** [auto sp = MakeShared<Node>(); sp->self = sp;] for a type Node with a
    member [WeakPtr<Node> self]: the assignment converts [sp] to a temporary
    WeakPtr and move-assigns that to the member, which the constructor of
    Node left empty.  Yields [sp] and the member. *)
Definition Node_with_self : M State (Handle * Handle) :=
  let* sp := MakeShared KPlain in
  let self := mkHandle nullptr nullptr in
  let* tmp := WeakPtr_from_shared sp in
  let* r := WeakPtr_assign_move_body self tmp in
  WeakPtr_Decrement (snd r) ;>
  M_ret (sp, fst r).

(** [sp.Reset()] or the end of the scope of [sp], the only SharedPtr on the
    Node: the destructor of Node destroys the member. *)
Definition release_Node_with_self : M State unit :=
  let* r := Node_with_self in
  SharedPtr_Decrement_with (WeakPtr_Decrement (snd r)) (fst r).

(** ** UniquePtr and CompressedPair (src/unique) *)

Module Unique.

(** [T()]: the value a default constructor gives. *)
Class DefaultConstructible (T : Type) := default_construct : T.

#[global] Instance ptr_default : DefaultConstructible ptr := nullptr.

(** CompressedPair<F, S>.  Whether an element is a member or an empty base is
    a matter of layout; every specialisation has the same two accessors. *)
Record CompressedPair (F S : Type) := mkPair { first_ : F; second_ : S }.
Arguments mkPair {F S} first_ second_.
Arguments first_ {F S} _.
Arguments second_ {F S} _.

Definition GetFirst {F S} (p : CompressedPair F S) : F := first_ p.
Definition GetSecond {F S} (p : CompressedPair F S) : S := second_ p.

(** Assignment through the references GetFirst() and GetSecond() return. *)
Definition set_first {F S} (x : F) (p : CompressedPair F S) : CompressedPair F S :=
  mkPair x (second_ p).
Definition set_second {F S} (y : S) (p : CompressedPair F S) : CompressedPair F S :=
  mkPair (first_ p) y.

(** CompressedPair() *)
Definition CompressedPair_default {F S} `{DefaultConstructible F} `{DefaultConstructible S}
  : CompressedPair F S := mkPair default_construct default_construct.

(** CustomDeleter<T> and CustomDeleter<T[]> carry no state. *)
Inductive CustomDeleter := CustomDeleter_value.

#[global] Instance CustomDeleter_default : DefaultConstructible CustomDeleter :=
  CustomDeleter_value.

(** [T y(std::move(x))] and [y = std::move(x)] give the target the value of
    [x]; [moved_from x] is the value the move leaves in the source. *)
Class Movable (T : Type) := moved_from : T → T.

(** CustomDeleter has no state for a move to take. *)
#[global] Instance CustomDeleter_movable : Movable CustomDeleter := λ d, d.

(** The live UniquePtr objects by address, each with its member pair_, and
    the calls of the destruction policy so far: which deleter, on which
    pointer. *)
Record Store (Deleter : Type) := mkStore {
  objects : gmap nat (CompressedPair ptr Deleter);
  calls : list (Deleter * ptr)
}.
Arguments mkStore {Deleter} objects calls.
Arguments objects {Deleter} _.
Arguments calls {Deleter} _.

Section Deleter.
Context {Deleter : Type} `{DefaultConstructible Deleter} `{Movable Deleter}.

Definition empty : Store Deleter := mkStore ∅ [].

(** [deleter(p)] *)
Definition invoke (deleter : Deleter) (p : ptr) : M (Store Deleter) unit := λ st,
  Ok tt (mkStore (objects st) (calls st ++ [(deleter, p)])).

Definition get (a : nat) : M (Store Deleter) (CompressedPair ptr Deleter) := λ st,
  match objects st !! a with
  | Some x => Ok x st
  | None => Undefined NoSuchObject
  end.
Definition put (a : nat) (x : CompressedPair ptr Deleter) : M (Store Deleter) unit := λ st,
  Ok tt (mkStore (<[a := x]> (objects st)) (calls st)).
Definition construct (a : nat) (x : CompressedPair ptr Deleter) : M (Store Deleter) unit :=
  λ st,
  match objects st !! a with
  | None => Ok tt (mkStore (<[a := x]> (objects st)) (calls st))
  | Some _ => Undefined AddressInUse
  end.
Definition destroy (a : nat) : M (Store Deleter) unit := λ st,
  Ok tt (mkStore (delete a (objects st)) (calls st)).

(** explicit UniquePtr(T* ptr = nullptr) *)
Definition UniquePtr_ctor (this : nat) (p : ptr) : M (Store Deleter) unit :=
  construct this (mkPair p default_construct).

(** UniquePtr(T* ptr, const Deleter& deleter) and UniquePtr(T* ptr, Deleter&& deleter) *)
Definition UniquePtr_ctor_deleter (this : nat) (p : ptr) (deleter : Deleter)
  : M (Store Deleter) unit :=
  construct this (mkPair p deleter).

(** UniquePtr(UniquePtr&& other): pair_ is default-constructed, then swapped
    (std::swap moves three times and so exchanges the two values). *)
Definition UniquePtr_move_ctor (this other : nat) : M (Store Deleter) unit :=
  let* o := get other in
  let pair_ : CompressedPair ptr Deleter := CompressedPair_default in
  put other pair_ ;>
  construct this o.

(** T* Release() *)
Definition UniquePtr_Release (this : nat) : M (Store Deleter) ptr :=
  let* t := get this in
  let tmp := GetFirst t in
  put this (set_first nullptr t) ;>
  M_ret tmp.

(** UniquePtr(UniquePtr<U, E>&& pointer): std::forward<E> moves the deleter
    out of [pointer]. *)
Definition UniquePtr_move_ctor_converting (this pointer : nat) : M (Store Deleter) unit :=
  let* p := UniquePtr_Release pointer in
  let* o := get pointer in
  put pointer (set_second (moved_from (GetSecond o)) o) ;>
  construct this (mkPair p (GetSecond o)).

(** UniquePtr& operator=(UniquePtr&& other) *)
Definition UniquePtr_assign_move (this other : nat) : M (Store Deleter) unit :=
  if bool_decide (this = other) then M_ret tt
  else
    let* t := get this in
    let* o := get other in
    invoke (GetSecond t) (GetFirst t) ;>
    let t := set_first (GetFirst o) t in
    let o := set_first nullptr o in
    let t := set_second (GetSecond o) t in
    let o := set_second (moved_from (GetSecond o)) o in
    put this t ;>
    put other o.

(** UniquePtr& operator=(std::nullptr_t) *)
Definition UniquePtr_assign_nullptr (this : nat) : M (Store Deleter) unit :=
  let* t := get this in
  invoke (GetSecond t) (GetFirst t) ;>
  put this (set_first nullptr t).

(** ~UniquePtr() *)
Definition UniquePtr_dtor (this : nat) : M (Store Deleter) unit :=
  let* t := get this in
  (if non_null (GetFirst t) then invoke (GetSecond t) (GetFirst t) else M_ret tt) ;>
  destroy this.

(** void Reset(T* ptr = nullptr) *)
Definition UniquePtr_Reset (this : nat) (p : ptr) : M (Store Deleter) unit :=
  let* t := get this in
  let old_ptr := GetFirst t in
  let t := set_first p t in
  put this t ;>
  invoke (GetSecond t) old_ptr.

(** void Swap(UniquePtr& other) *)
Definition UniquePtr_Swap (this other : nat) : M (Store Deleter) unit :=
  let* t := get this in
  let* o := get other in
  put this o ;>
  put other t.

(** T* Get() const and explicit operator bool() const *)
Definition UniquePtr_Get (this : nat) : M (Store Deleter) ptr :=
  let* t := get this in M_ret (GetFirst t).
Definition UniquePtr_bool (this : nat) : M (Store Deleter) bool :=
  let* p := UniquePtr_Get this in M_ret (non_null p).

End Deleter.
End Unique.

(** ** Correct use *)

(** Every live object with the mixin was wired by the constructor that
    built its block. *)
Definition wired (st : State) : Prop :=
  ∀ b cb w, blocks st !! b = Some cb → object_ cb = Alive (SelfRef w) → block_ w = Some b.

Definition free_shared (st : State) (h : nat) : bool :=
  if shared st !! h is Some _ then false else true.
Definition live_shared (st : State) (h : nat) : bool :=
  if shared st !! h is Some _ then true else false.
Definition free_weak (st : State) (w : nat) : bool :=
  if weak st !! w is Some _ then false else true.
Definition live_weak (st : State) (w : nat) : bool :=
  if weak st !! w is Some _ then true else false.
Definition bound_weak (st : State) (w : nat) : bool :=
  if weak st !! w is Some x then non_null (block_ x) else false.

(** Block [home] is allocated and its object is alive and has the mixin. *)
Definition mixin_alive (st : State) (home : nat) : bool :=
  match blocks st !! home with
  | Some cb =>
      negb (freed cb) && (if object_ cb is Alive (SelfRef _) then true else false)
  | None => false
  end.

(** The constructor wires whatever object it is given. *)
Definition wires (k : PointeeKind) (p : ptr) : bool :=
  match k with
  | KPlain => true
  | KMixinHidden => negb (non_null p)
  | KMixin => non_null p
  end.

(** The object handed to Reset(ptr) has no mixin to wire. *)
Definition needs_no_wiring (k : PointeeKind) (p : ptr) : bool :=
  match k with
  | KPlain => true
  | _ => negb (non_null p)
  end.

(** No control block manages the object at [p]: the raw pointer was not
    handed to a SharedPtr before, and it does not point into the storage of a
    ControlBlockHolder.  A raw pointer stands for the object it points to
    (storage that the allocator uses again holds another object), and a null
    pointer for none. *)
Definition unowned (st : State) (p : ptr) : bool :=
  match p with
  | None => true
  | Some _ => bool_decide (map_Forall (λ _ cb, GetPointer cb ≠ p) (blocks st))
  end.

(** What an operation asks of the program: handles are constructed on free
    addresses and used while alive, a raw pointer is handed to one
    constructor or Reset(ptr) only, objects that embed the mixin are built
    through a constructor that wires them, and only a bound WeakPtr is
    promoted through the constructor. *)
Definition op_ok (st : State) (op : Op) : bool :=
  match op with
  | SpDefault h => free_shared st h
  | SpFromRaw k h p => free_shared st h && wires k p && unowned st p
  | SpMakeShared k h => free_shared st h && wires k (Some 0%nat)
  | SpCopy h src | SpMove h src | SpAlias h src _ => free_shared st h && live_shared st src
  | SpFromWeak h w => free_shared st h && bound_weak st w
  | SpAssignCopy h src | SpAssignMove h src | SpSwap h src =>
      live_shared st h && live_shared st src
  | SpReset h | SpDtor h => live_shared st h
  | SpResetPtr k h p => live_shared st h && needs_no_wiring k p && unowned st p
  | WpDefault w => free_weak st w
  | WpCopy w src | WpMove w src => free_weak st w && live_weak st src
  | WpFromShared w h => free_weak st w && live_shared st h
  | WpAssignCopy w src | WpAssignMove w src | WpSwap w src =>
      live_weak st w && live_weak st src
  | WpReset w | WpDtor w => live_weak st w
  | WpLock h w => free_shared st h && live_weak st w
  | SpSharedFromThis h home => free_shared st h && mixin_alive st home
  | WpWeakFromThis w home => free_weak st w && mixin_alive st home
  end.

(** A program every operation of which is in order in the store it runs
    in. *)
Fixpoint well_used (st : State) (ops : list Op) : Prop :=
  match ops with
  | [] => True
  | op :: ops => op_ok st op = true ∧ ∀ st', exec st op = Some st' → well_used st' ops
  end.

(** ** The single-counter SharedPtr (src/shared/shared.h) *)

Module Basic.

(** ControlBlockBase with its one counter and, of the derived block,
    [GetPointer] (ptr_ of ControlBlockPointer, the address of storage_ of
    ControlBlockHolder); [deleted] and [freed] are ghost flags set by
    DeleteObject() and by [delete block_]. *)
Record ControlBlockBase := mkBase {
  counter_ : Z;
  GetPointer : ptr;
  deleted : bool;
  freed : bool
}.

Definition GetCounter (cb : ControlBlockBase) : Z := counter_ cb.
Definition IncreaseCounter (cb : ControlBlockBase) : ControlBlockBase :=
  mkBase (counter_ cb + 1) (GetPointer cb) (deleted cb) (freed cb).
Definition DecreaseCounter (cb : ControlBlockBase) : ControlBlockBase :=
  mkBase (counter_ cb - 1) (GetPointer cb) (deleted cb) (freed cb).

Record Heap := mkHeap {
  blocks : gmap nat ControlBlockBase;
  trace : list Event
}.

Definition load (p : ptr) : M Heap ControlBlockBase := λ st,
  match p with
  | None => Undefined NullDeref
  | Some b =>
      match blocks st !! b with
      | None => Undefined WildPointer
      | Some cb => if freed cb then Undefined UseAfterFree else Ok cb st
      end
  end.

Definition modify (p : ptr) (f : ControlBlockBase → ControlBlockBase) : M Heap unit :=
  let* cb := load p in
  match p with
  | Some b => λ st, Ok tt (mkHeap (<[b := f cb]> (blocks st)) (trace st))
  | None => undefined NullDeref
  end.

Definition emit (e : Event) : M Heap unit := λ st,
  Ok tt (mkHeap (blocks st) (trace st ++ [e])).

Definition DeleteObject (p : ptr) : M Heap unit :=
  let* cb := load p in
  if deleted cb then undefined DoubleDelete
  else
    modify p (λ cb, mkBase (counter_ cb) (GetPointer cb) true (freed cb)) ;>
    (if p is Some b then emit (EvDeleteObject b) else undefined NullDeref).

Definition delete_block (p : ptr) : M Heap unit :=
  modify p (λ cb, mkBase (counter_ cb) (GetPointer cb) (deleted cb) true) ;>
  (if p is Some b then emit (EvDeleteBlock b) else undefined NullDeref).

(** SharedPtr::Decrement() *)
Definition SharedPtr_Decrement (this : Handle) : M Heap unit :=
  if non_null (block_ this) then
    modify (block_ this) DecreaseCounter ;>
    let* c := (let* cb := load (block_ this) in M_ret (GetCounter cb)) in
    if c =? 0 then
      DeleteObject (block_ this) ;>
      delete_block (block_ this)
    else M_ret tt
  else M_ret tt.

(** SharedPtr(const SharedPtr&) *)
Definition SharedPtr_copy (other : Handle) : M Heap Handle :=
  let this := mkHandle (ptr_ other) (block_ other) in
  (if non_null (block_ this) then modify (block_ this) IncreaseCounter else M_ret tt) ;>
  M_ret this.

(** The aliasing constructor: no test of [block_] in this version. *)
Definition SharedPtr_alias (other : Handle) (p : ptr) : M Heap Handle :=
  let this := mkHandle p (block_ other) in
  modify (block_ this) IncreaseCounter ;>
  M_ret this.

End Basic.

(** ** What a computation leaves alone *)

(** A computation that throws nothing. *)
Definition no_throw {A} (m : M State A) : Prop := ∀ st e st', m st ≠ Throw e st'.

(** The operations on a WeakPtr other than Lock(), and WeakFromThis(). *)
Definition is_weak_op (op : Op) : bool :=
  match op with
  | WpDefault _ | WpCopy _ _ | WpMove _ _ | WpFromShared _ _ | WpAssignCopy _ _
  | WpAssignMove _ _ | WpReset _ | WpSwap _ _ | WpDtor _ | WpWeakFromThis _ _ => true
  | _ => false
  end.

(** The operations that allocate a control block; [operator new] and, in
    MakeShared, the constructor of the managed object may throw there, which
    [new_block] leaves out. *)
Definition allocates (op : Op) : bool :=
  match op with
  | SpFromRaw _ _ _ | SpMakeShared _ _ | SpResetPtr _ _ _ => true
  | _ => false
  end.

(** The state of the object a block owns. *)
Definition object_of (st : State) (b : nat) : option ObjState :=
  object_ <$> blocks st !! b.

(** From [st] to [st'] no SharedPtr, no strong counter and no managed object
    changed, and the only events are [delete block_]. *)
Record owners_untouched (st st' : State) : Prop := {
  ou_shared : shared st' = shared st;
  ou_strong : ∀ b, strong_of st' b = strong_of st b;
  ou_object : ∀ b, object_of st' b = object_of st b;
  ou_trace : ∃ evs, trace st' = trace st ++ evs
                    ∧ Forall (λ e, ∃ b, e = EvDeleteBlock b) evs
}.

Definition leaves_owners {A} (m : M State A) : Prop :=
  ∀ st a st', m st = Ok a st' → owners_untouched st st'.

(** ** Programs over the single-counter SharedPtr (src/shared/shared.h) *)

Module BasicOps.

(** The heap of control blocks and the live SharedPtr objects, by address. *)
Record Store := mkStore {
  heap : Basic.Heap;
  shared : gmap nat Handle
}.

Definition init : Store := mkStore (Basic.mkHeap ∅ []) ∅.

(** Code of a member function runs on the heap. *)
Definition on_heap {A} (m : M Basic.Heap A) : M Store A := λ st,
  match m (heap st) with
  | Ok a h => Ok a (mkStore h (shared st))
  | Throw e h => Throw e (mkStore h (shared st))
  | Undefined u => Undefined u
  end.

Definition get_shared (a : nat) : M Store Handle := λ st,
  match shared st !! a with
  | Some x => Ok x st
  | None => Undefined NoSuchObject
  end.
Definition put_shared (a : nat) (x : Handle) : M Store unit := λ st,
  Ok tt (mkStore (heap st) (<[a := x]> (shared st))).
Definition new_shared (a : nat) (x : Handle) : M Store unit := λ st,
  match shared st !! a with
  | None => Ok tt (mkStore (heap st) (<[a := x]> (shared st)))
  | Some _ => Undefined AddressInUse
  end.
Definition del_shared (a : nat) : M Store unit := λ st,
  Ok tt (mkStore (heap st) (delete a (shared st))).

(** [new ControlBlockPointer<Y>(ptr)] / [new ControlBlockHolder<X>(args...)]:
    counter_ = 1; [object b] is the object of the block at address [b]. *)
Definition new_block (object : nat → ptr) : M Basic.Heap nat := λ h,
  let b := fresh (dom (Basic.blocks h)) in
  Ok b (Basic.mkHeap (<[b := Basic.mkBase 1 (object b) false false]> (Basic.blocks h))
                     (Basic.trace h)).

(** explicit SharedPtr(X* ptr) and SharedPtr(Y* ptr); a correct program
    hands over a pointer that no block manages yet ([unowned]). *)
Definition SharedPtr_from_raw (p : ptr) : M Basic.Heap Handle :=
  let* b := new_block (λ _, p) in M_ret (mkHandle p (Some b)).

(** MakeShared: the block holds the object, and the constructor
    SharedPtr(ControlBlockHolder<X>* block) takes its address from the block. *)
Definition MakeShared : M Basic.Heap Handle :=
  let* block := new_block (λ b, Some b) in M_ret (mkHandle (Some block) (Some block)).

(** size_t UseCount() const *)
Definition SharedPtr_UseCount (this : Handle) : M Basic.Heap Z :=
  if non_null (block_ this) then
    let* cb := Basic.load (block_ this) in M_ret (Basic.GetCounter cb)
  else M_ret 0.

Inductive Op :=
| BpDefault (h : nat)                 (* SharedPtr<X> h; *)
| BpFromRaw (h : nat) (p : ptr)       (* SharedPtr<X> h(p); *)
| BpMakeShared (h : nat)              (* auto h = MakeShared<X>(...); *)
| BpCopy (h src : nat)                (* SharedPtr<X> h(src); *)
| BpMove (h src : nat)                (* SharedPtr<X> h(std::move(src)); *)
| BpAlias (h src : nat) (p : ptr)     (* SharedPtr<X> h(src, p); *)
| BpAssignCopy (h src : nat)          (* h = src; *)
| BpAssignMove (h src : nat)          (* h = std::move(src); *)
| BpReset (h : nat)                   (* h.Reset(); *)
| BpResetPtr (h : nat) (p : ptr)      (* h.Reset(p); *)
| BpSwap (h other : nat)              (* h.Swap(other); *)
| BpDtor (h : nat).                   (* h goes out of scope *)

Definition step (op : Op) : M Store unit :=
  match op with
  | BpDefault h => new_shared h (mkHandle nullptr nullptr)
  | BpFromRaw h p => let* x := on_heap (SharedPtr_from_raw p) in new_shared h x
  | BpMakeShared h => let* x := on_heap MakeShared in new_shared h x
  | BpCopy h src =>
      let* o := get_shared src in
      let* x := on_heap (Basic.SharedPtr_copy o) in
      new_shared h x
  | BpMove h src =>
      let* o := get_shared src in
      put_shared src (mkHandle nullptr nullptr) ;>
      new_shared h (mkHandle (ptr_ o) (block_ o))
  | BpAlias h src p =>
      let* o := get_shared src in
      let* x := on_heap (Basic.SharedPtr_alias o p) in
      new_shared h x
  | BpAssignCopy h src =>
      if bool_decide (h ≠ src) then
        let* t := get_shared h in
        let* o := get_shared src in
        on_heap (Basic.SharedPtr_Decrement t) ;>
        let* x := on_heap (Basic.SharedPtr_copy o) in
        put_shared h x
      else M_ret tt
  | BpAssignMove h src =>
      if bool_decide (h = src) then M_ret tt
      else
        let* t := get_shared h in
        let* o := get_shared src in
        on_heap (Basic.SharedPtr_Decrement t) ;>
        put_shared h (mkHandle (ptr_ o) (block_ o)) ;>
        put_shared src (mkHandle nullptr nullptr)
  | BpReset h =>
      let* t := get_shared h in
      on_heap (Basic.SharedPtr_Decrement t) ;>
      put_shared h (mkHandle nullptr nullptr)
  | BpResetPtr h p =>
      let* t := get_shared h in
      on_heap (Basic.SharedPtr_Decrement t) ;>
      let* b := on_heap (new_block (λ _, p)) in
      put_shared h (mkHandle p (Some b))
  | BpSwap h other =>
      let* t := get_shared h in
      let* o := get_shared other in
      put_shared h (mkHandle (ptr_ o) (block_ o)) ;>
      put_shared other (mkHandle (ptr_ t) (block_ t))
  | BpDtor h =>
      let* t := get_shared h in
      on_heap (Basic.SharedPtr_Decrement t) ;>
      del_shared h
  end.

Definition exec (st : Store) (op : Op) : option Store :=
  match step op st with
  | Ok _ st' => Some st'
  | Throw _ st' => Some st'
  | Undefined _ => None
  end.

Fixpoint run (st : Store) (ops : list Op) : option Store :=
  match ops with
  | [] => Some st
  | op :: ops => match exec st op with Some st' => run st' ops | None => None end
  end.

Definition free (st : Store) (h : nat) : bool :=
  if shared st !! h is Some _ then false else true.
Definition live (st : Store) (h : nat) : bool :=
  if shared st !! h is Some _ then true else false.
Definition bound (st : Store) (h : nat) : bool :=
  if shared st !! h is Some x then non_null (block_ x) else false.

(** No control block manages the object at [p]. *)
Definition unowned (st : Store) (p : ptr) : bool :=
  match p with
  | None => true
  | Some _ => bool_decide (map_Forall (λ _ cb, Basic.GetPointer cb ≠ p) (Basic.blocks (heap st)))
  end.

(** Handles are constructed on free addresses and used while alive, a raw
    pointer is handed to one constructor or Reset(ptr) only, and the
    aliasing constructor is given a parent that has a block. *)
Definition op_ok (st : Store) (op : Op) : bool :=
  match op with
  | BpDefault h | BpMakeShared h => free st h
  | BpFromRaw h p => free st h && unowned st p
  | BpCopy h src | BpMove h src => free st h && live st src
  | BpAlias h src _ => free st h && bound st src
  | BpAssignCopy h src | BpAssignMove h src | BpSwap h src => live st h && live st src
  | BpReset h | BpDtor h => live st h
  | BpResetPtr h p => live st h && unowned st p
  end.

Fixpoint well_used (st : Store) (ops : list Op) : Prop :=
  match ops with
  | [] => True
  | op :: ops => op_ok st op = true ∧ ∀ st', exec st op = Some st' → well_used st' ops
  end.

Record block_inv (st : Store) (b : nat) (cb : Basic.ControlBlockBase) : Prop := {
  bi_counter : Basic.counter_ cb = refs (shared st) b;
  bi_deleted : Basic.deleted cb = (Basic.counter_ cb =? 0);
  bi_freed : Basic.freed cb = (Basic.counter_ cb =? 0);
  bi_object_events :
    count_ev (EvDeleteObject b) (Basic.trace (heap st))
    = (if Basic.counter_ cb =? 0 then 1 else 0);
  bi_block_events :
    count_ev (EvDeleteBlock b) (Basic.trace (heap st))
    = (if Basic.counter_ cb =? 0 then 1 else 0)
}.

Record unallocated (st : Store) (b : nat) : Prop := {
  un_refs : refs (shared st) b = 0;
  un_object_events : count_ev (EvDeleteObject b) (Basic.trace (heap st)) = 0;
  un_block_events : count_ev (EvDeleteBlock b) (Basic.trace (heap st)) = 0
}.

Definition inv (st : Store) : Prop :=
  ∀ b, match Basic.blocks (heap st) !! b with
       | Some cb => block_inv st b cb
       | None => unallocated st b
       end.

(** How one operation may move the counter of a block. *)
Record block_step (cb cb' : Basic.ControlBlockBase) : Prop := {
  bs_dec : Basic.counter_ cb - 1 ≤ Basic.counter_ cb';
  bs_dead : Basic.counter_ cb = 0 → Basic.counter_ cb' = 0
}.

Record block_grow (cb cb' : Basic.ControlBlockBase) : Prop := {
  bg_inc : Basic.counter_ cb ≤ Basic.counter_ cb';
  bg_dead : Basic.counter_ cb = 0 → Basic.counter_ cb' = 0
}.

Definition blocks_rel (R : Basic.ControlBlockBase → Basic.ControlBlockBase → Prop)
    (h h' : Basic.Heap) : Prop :=
  ∀ b, match Basic.blocks h !! b with
       | Some cb => ∃ cb', Basic.blocks h' !! b = Some cb' ∧ R cb cb'
       | None => ∀ cb', Basic.blocks h' !! b = Some cb' → 0 < Basic.counter_ cb'
       end.

Definition shrinks (h h' : Basic.Heap) : Prop :=
  (∃ evs, Basic.trace h' = Basic.trace h ++ evs) ∧ blocks_rel block_step h h'.

Definition grows (h h' : Basic.Heap) : Prop :=
  (∃ evs, Basic.trace h' = Basic.trace h ++ evs) ∧ blocks_rel block_grow h h'.


(** The events the step from [st] to [st'] added to the trace. *)
Definition new_events (st st' : Store) : list Event :=
  drop (length (Basic.trace (heap st))) (Basic.trace (heap st')).

End BasicOps.

(** ** Programs over UniquePtr *)

Section UniqueProgram.
Context {Deleter : Type} `{Unique.DefaultConstructible Deleter} `{Unique.Movable Deleter}.

Inductive UniqueOp :=
| UpCtor (a : nat) (p : ptr)                        (* UniquePtr<T> a(p); *)
| UpCtorDeleter (a : nat) (p : ptr) (d : Deleter)   (* UniquePtr<T, D> a(p, d); *)
| UpMove (a src : nat)                              (* UniquePtr<T> a(std::move(src)); *)
| UpMoveConverting (a src : nat)                    (* UniquePtr<T> a(std::move(src)), src a UniquePtr<U, E> *)
| UpAssignMove (a src : nat)                        (* a = std::move(src); *)
| UpAssignNull (a : nat)                            (* a = nullptr; *)
| UpRelease (a : nat)                               (* a.Release(); *)
| UpReset (a : nat) (p : ptr)                       (* a.Reset(p); *)
| UpSwap (a other : nat)                            (* a.Swap(other); *)
| UpDtor (a : nat).                                 (* a goes out of scope *)

Definition UniquePtr_step (op : UniqueOp) : M (Unique.Store Deleter) unit :=
  match op with
  | UpCtor a p => Unique.UniquePtr_ctor a p
  | UpCtorDeleter a p d => Unique.UniquePtr_ctor_deleter a p d
  | UpMove a src => Unique.UniquePtr_move_ctor a src
  | UpMoveConverting a src => Unique.UniquePtr_move_ctor_converting a src
  | UpAssignMove a src => Unique.UniquePtr_assign_move a src
  | UpAssignNull a => Unique.UniquePtr_assign_nullptr a
  | UpRelease a => let* _ := Unique.UniquePtr_Release a in M_ret tt
  | UpReset a p => Unique.UniquePtr_Reset a p
  | UpSwap a other => Unique.UniquePtr_Swap a other
  | UpDtor a => Unique.UniquePtr_dtor a
  end.

Definition UniquePtr_exec (st : Unique.Store Deleter) (op : UniqueOp)
  : option (Unique.Store Deleter) :=
  match UniquePtr_step op st with
  | Ok _ st' => Some st'
  | Throw _ st' => Some st'
  | Undefined _ => None
  end.

Fixpoint UniquePtr_run (st : Unique.Store Deleter) (ops : list UniqueOp)
  : option (Unique.Store Deleter) :=
  match ops with
  | [] => Some st
  | op :: ops =>
      match UniquePtr_exec st op with Some st' => UniquePtr_run st' ops | None => None end
  end.

(** The objects the destruction policy was called on, in order. *)
Definition policy_ran_on (st : Unique.Store Deleter) : list nat :=
  omap snd (Unique.calls st).

(** A raw pointer a UniquePtr may take over: null, or an object that no
    live UniquePtr holds and no policy was called on. *)
Definition adoptable (st : Unique.Store Deleter) (p : ptr) : Prop :=
  match p with
  | None => True
  | Some q =>
      (q ∉ policy_ran_on st)
      ∧ map_Forall (λ _ x, Unique.GetFirst x ≠ Some q) (Unique.objects st)
  end.

Definition UniqueOp_ok (st : Unique.Store Deleter) (op : UniqueOp) : Prop :=
  match op with
  | UpCtor _ p | UpCtorDeleter _ p _ | UpReset _ p => adoptable st p
  | _ => True
  end.

Fixpoint UniquePtr_well_used (st : Unique.Store Deleter) (ops : list UniqueOp) : Prop :=
  match ops with
  | [] => True
  | op :: ops =>
      UniqueOp_ok st op
      ∧ ∀ st', UniquePtr_exec st op = Some st' → UniquePtr_well_used st' ops
  end.

Record unique_inv (st : Unique.Store Deleter) : Prop := {
  ui_once : NoDup (policy_ran_on st);
  ui_live : ∀ a x q, Unique.objects st !! a = Some x → Unique.GetFirst x = Some q →
                     q ∉ policy_ran_on st;
  ui_unique : ∀ a a' x x' q,
      Unique.objects st !! a = Some x → Unique.objects st !! a' = Some x' →
      Unique.GetFirst x = Some q → Unique.GetFirst x' = Some q → a = a'
}.

End UniqueProgram.

Section UniqueLeak.
Context {Deleter : Type} `{Unique.DefaultConstructible Deleter} `{Unique.Movable Deleter}.

(** The raw pointer an operation hands to a UniquePtr. *)
Definition adopts (op : @UniqueOp Deleter) : ptr :=
  match op with
  | UpCtor _ p | UpCtorDeleter _ p _ | UpReset _ p => p
  | _ => nullptr
  end.

(** The raw pointer Release() hands back to the program. *)
Definition gives_back (st : Unique.Store Deleter) (op : @UniqueOp Deleter) : ptr :=
  match op with
  | UpRelease a =>
      match Unique.objects st !! a with
      | Some x => Unique.GetFirst x
      | None => nullptr
      end
  | _ => nullptr
  end.

Fixpoint given_back (st : Unique.Store Deleter) (ops : list (@UniqueOp Deleter)) : list nat :=
  match ops with
  | [] => []
  | op :: ops =>
      option_list (gives_back st op)
      ++ match UniquePtr_exec st op with
         | Some st' => given_back st' ops
         | None => []
         end
  end.

(** Some live UniquePtr holds the object. *)
Definition held (st : Unique.Store Deleter) (q : nat) : Prop :=
  ∃ a x, Unique.objects st !! a = Some x ∧ Unique.GetFirst x = Some q.

End UniqueLeak.

(** * Properties *)

Lemma owns_range b x : 0 ≤ owns b x ≤ 1.
Proof. unfold owns. case_decide; lia. Qed.

Lemma owns_null b : owns b (mkHandle nullptr nullptr) = 0.
Proof. reflexivity. Qed.

Lemma refs_empty b : refs ∅ b = 0.
Proof. unfold refs. by rewrite map_filter_empty, map_size_empty. Qed.

Lemma refs_nonneg m b : 0 ≤ refs m b.
Proof. unfold refs. lia. Qed.

Lemma refs_delete m a b : refs (delete a m) b = refs m b - owns_opt b (m !! a).
Proof.
  unfold refs. rewrite map_filter_delete, map_size_delete.
  destruct (filter _ m !! a) as [y|] eqn:Hf.
  - apply map_lookup_filter_Some in Hf as [Hm Hy]. simpl in Hy.
    rewrite Hm. simpl. unfold owns. rewrite decide_True by done.
    assert (size (filter (λ kv : nat * Handle, block_ kv.2 = Some b) m) ≠ 0%nat).
    { intros Hz. apply map_size_empty_inv in Hz.
      pose proof (map_lookup_filter_Some_2 (λ kv : nat * Handle, block_ kv.2 = Some b) m a y Hm Hy) as Hl.
      rewrite Hz in Hl. by rewrite lookup_empty in Hl. }
    lia.
  - destruct (m !! a) as [y|] eqn:Hm; simpl; [|lia].
    unfold owns. case_decide as Hy; [|lia].
    pose proof (map_lookup_filter_Some_2 (λ kv : nat * Handle, block_ kv.2 = Some b) m a y Hm Hy) as Hl.
    congruence.
Qed.

Lemma refs_insert_fresh m a x b :
  m !! a = None → refs (<[a:=x]> m) b = refs m b + owns b x.
Proof.
  intros Hm. unfold refs, owns. rewrite map_filter_insert. simpl.
  case_decide.
  - rewrite map_size_insert_None; [lia|].
    apply map_lookup_filter_None. by left.
  - rewrite delete_id by done. lia.
Qed.

Lemma refs_insert m a x b :
  refs (<[a:=x]> m) b = refs m b - owns_opt b (m !! a) + owns b x.
Proof.
  rewrite <-insert_delete_eq.
  rewrite refs_insert_fresh by apply lookup_delete_eq.
  by rewrite refs_delete.
Qed.

Lemma refs_lookup m a x b : m !! a = Some x → block_ x = Some b → 1 ≤ refs m b.
Proof.
  intros Hm Hx. pose proof (refs_delete m a b) as Hd. pose proof (refs_nonneg (delete a m) b).
  rewrite Hm in Hd. simpl in Hd. unfold owns in Hd. rewrite decide_True in Hd by done. lia.
Qed.

Lemma count_ev_nil e : count_ev e [] = 0.
Proof. reflexivity. Qed.

Lemma count_ev_app e t1 t2 : count_ev e (t1 ++ t2) = count_ev e t1 + count_ev e t2.
Proof. unfold count_ev. rewrite filter_app, length_app. lia. Qed.

Lemma count_ev_cons e x t :
  count_ev e (x :: t) = (if decide (x = e) then 1 else 0) + count_ev e t.
Proof.
  unfold count_ev. rewrite filter_cons. case_decide; simpl; lia.
Qed.

Lemma count_ev_nonneg e t : 0 ≤ count_ev e t.
Proof. unfold count_ev. lia. Qed.

(** ** Stepping through the monad *)

Lemma bind_ret {A B} (a : A) (k : A → M State B) st : M_bind k (M_ret a) st = k a st.
Proof. reflexivity. Qed.

Lemma load_ok st b cb :
  blocks st !! b = Some cb → freed cb = false → load (Some b) st = Ok cb st.
Proof. intros Hb Hf. unfold load. by rewrite Hb, Hf. Qed.

Lemma bind_read {A B} (f : ControlBlock → A) (k : A → M State B) st b cb :
  blocks st !! b = Some cb → freed cb = false →
  M_bind k (read (Some b) f) st = k (f cb) st.
Proof. intros Hb Hf. unfold read, M_bind. by rewrite (load_ok _ _ _ Hb Hf). Qed.

Lemma bind_modify {B} f (k : unit → M State B) st b cb :
  blocks st !! b = Some cb → freed cb = false →
  M_bind k (modify (Some b) f) st = k tt (set_blocks <[b := f cb]> st).
Proof. intros Hb Hf. unfold modify, M_bind. by rewrite (load_ok _ _ _ Hb Hf). Qed.

Lemma modify_ok f st b cb :
  blocks st !! b = Some cb → freed cb = false →
  modify (Some b) f st = Ok tt (set_blocks <[b := f cb]> st).
Proof. intros Hb Hf. unfold modify, M_bind. by rewrite (load_ok _ _ _ Hb Hf). Qed.

Lemma bind_emit {B} e (k : unit → M State B) st : M_bind k (emit e) st = k tt (log e st).
Proof. reflexivity. Qed.

Lemma delete_block_ok st b cb :
  blocks st !! b = Some cb → freed cb = false →
  delete_block (Some b) st
  = Ok tt (log (EvDeleteBlock b) (set_blocks <[b := set_freed cb]> st)).
Proof.
  intros Hb Hf. unfold delete_block.
  unfold M_bind at 1. rewrite (load_ok _ _ _ Hb Hf).
  by rewrite (bind_modify _ _ _ _ _ Hb Hf).
Qed.

Ltac norm_state :=
  unfold set_blocks, set_shared, set_weak, log;
  cbn [blocks shared weak trace];
  rewrite ?insert_insert_eq, <-?app_assoc.

Ltac side := first [eassumption | cbn; rewrite lookup_insert_eq; reflexivity | reflexivity | cbn; eassumption].
Ltac mstep :=
  first
    [ erewrite bind_modify by side
    | erewrite bind_read by side
    | rewrite bind_emit
    | rewrite bind_ret
    | erewrite modify_ok by side
    | erewrite delete_block_ok by side ].

(** ** What the release of an owner does to its block *)

Lemma SharedPtr_Decrement_null st t :
  block_ t = None → SharedPtr_Decrement t st = Ok tt st.
Proof. intros Ht. unfold SharedPtr_Decrement. by rewrite Ht. Qed.

Lemma SharedPtr_Decrement_more st t b cb :
  block_ t = Some b → blocks st !! b = Some cb → freed cb = false →
  strong_counter_ cb ≠ 1 →
  SharedPtr_Decrement t st = Ok tt (set_blocks <[b := DecreaseStrongCounter cb]> st).
Proof.
  intros Ht Hb Hf Hs. unfold SharedPtr_Decrement. rewrite Ht. cbn [non_null].
  repeat mstep. cbn.
  destruct (Z.eqb_spec (strong_counter_ cb - 1) 0); [lia|]. done.
Qed.

Lemma bind_ok {A B} (m : M State A) (k : A → M State B) st a st' :
  m st = Ok a st' → M_bind k m st = k a st'.
Proof. intros H. unfold M_bind. by rewrite H. Qed.

Lemma bind_undefined {A B} (m : M State A) (k : A → M State B) st u :
  m st = Undefined u → M_bind k m st = Undefined u.
Proof. intros H. unfold M_bind. by rewrite H. Qed.

Lemma bind_assoc {A B C} (m : M State A) (k : A → M State B) (k' : B → M State C) st :
  M_bind k' (M_bind k m) st = M_bind (λ a, M_bind k' (k a)) m st.
Proof. unfold M_bind. by destruct (m st). Qed.

Lemma bind_cong {A B} (m : M State A) (k1 k2 : A → M State B) st :
  (∀ a s, m st = Ok a s → k1 a s = k2 a s) → M_bind k1 m st = M_bind k2 m st.
Proof. intros H. unfold M_bind. destruct (m st) eqn:Hm; auto. Qed.

Lemma WeakPtr_Decrement_null st t :
  block_ t = None → WeakPtr_Decrement t st = Ok tt st.
Proof. intros Ht. unfold WeakPtr_Decrement. by rewrite Ht. Qed.

Lemma destroy_EnableSharedFromThis_ok st w b cb :
  block_ w = Some b → blocks st !! b = Some cb → freed cb = false →
  destroy_EnableSharedFromThis w st = Ok tt (set_blocks <[b := DecreaseWeakCounter cb]> st).
Proof.
  intros Hw Hb Hf. unfold destroy_EnableSharedFromThis. rewrite Hw.
  erewrite bind_modify by side. by apply WeakPtr_Decrement_null.
Qed.

Lemma DeleteObject_ok st b cb :
  blocks st !! b = Some cb → freed cb = false → object_ cb ≠ Destroyed →
  (∀ w, object_ cb = Alive (SelfRef w) → block_ w = Some b) →
  DeleteObject (Some b) st
  = Ok tt (log (EvDeleteObject b) (set_blocks <[b := object_deleted b cb]> st)).
Proof.
  intros Hb Hf Ho Hw. unfold DeleteObject.
  erewrite bind_ok by (by apply load_ok). rewrite bind_emit.
  unfold object_deleted, self_reg.
  destruct cb as [s w p o f]; simpl in *; subst f.
  destruct o as [|[|x]|]; [| | |done].
  - unfold M_ret, set_blocks, log. cbn. rewrite Z.sub_0_r, insert_id by done. done.
  - cbn [destroy_object]. rewrite bind_ret.
    erewrite modify_ok by side. unfold set_blocks, log. cbn. by rewrite Z.sub_0_r.
  - cbn [destroy_object]. unfold owns. rewrite decide_True by apply (Hw x eq_refl).
    erewrite bind_ok by (eapply destroy_EnableSharedFromThis_ok; [apply (Hw x eq_refl)|side|side]).
    erewrite modify_ok by side. unfold set_blocks, log. cbn. by rewrite insert_insert_eq.
Qed.

Lemma DeleteObject_unwired st b cb p :
  blocks st !! b = Some cb → freed cb = false →
  object_ cb = Alive (SelfRef (mkHandle p nullptr)) →
  DeleteObject (Some b) st = Undefined NullDeref.
Proof.
  intros Hb Hf Ho. unfold DeleteObject.
  erewrite bind_ok by (by apply load_ok). rewrite bind_emit. by rewrite Ho.
Qed.

Lemma SharedPtr_Decrement_last st t b cb :
  block_ t = Some b → blocks st !! b = Some cb → freed cb = false →
  strong_counter_ cb = 1 → object_ cb ≠ Destroyed →
  (∀ w, object_ cb = Alive (SelfRef w) → block_ w = Some b) →
  self_reg b cb ≤ weak_counter_ cb →
  SharedPtr_Decrement t st =
    Ok tt (mkState (<[b := released b cb]> (blocks st)) (shared st) (weak st)
                   (trace st ++ released_events b cb)).
Proof.
  intros Ht Hb Hf Hs Ho Hw Hreg. unfold SharedPtr_Decrement. rewrite Ht. cbn [non_null].
  repeat mstep. cbn [GetStrongCounter GetWeakCounter DecreaseStrongCounter strong_counter_ weak_counter_].
  rewrite Hs. change (1 - 1 =? 0) with true. cbn [andb].
  pose proof (owns_range b) as Hrange.
  assert (Hreg0 : 0 ≤ self_reg b cb).
  { unfold self_reg. destruct (object_ cb) as [|[|x]|]; try lia. apply Hrange. }
  destruct (Z.eqb_spec (weak_counter_ cb) 0) as [Hw0|Hw0]; cbn [negb].
  - erewrite bind_ok by (apply DeleteObject_ok; [side|done|done|done]).
    erewrite delete_block_ok by side.
    unfold released, released_events. norm_state. cbn.
    replace (weak_counter_ cb - self_reg b cb) with 0 by lia.
    cbn. unfold object_deleted, set_freed. cbn.
    rewrite Hs. change (self_reg b (DecreaseStrongCounter cb)) with (self_reg b cb). repeat f_equal; lia.
  - erewrite bind_ok by (apply DeleteObject_ok; [side|done|done|done]).
    erewrite bind_read by side.
    unfold released, released_events. cbn.
    change (self_reg b (DecreaseStrongCounter cb)) with (self_reg b cb).
    destruct (Z.eqb_spec (weak_counter_ cb - self_reg b cb) 0).
    + erewrite delete_block_ok by side. norm_state. cbn.
      unfold object_deleted, set_freed; cbn. rewrite Hs. change (self_reg b (DecreaseStrongCounter cb)) with (self_reg b cb). repeat f_equal; lia.
    + norm_state. cbn.
      unfold object_deleted; cbn. rewrite Hs, Hf. change (self_reg b (DecreaseStrongCounter cb)) with (self_reg b cb). repeat f_equal; lia.
Qed.

Lemma SharedPtr_Decrement_unwired st t b cb p :
  block_ t = Some b → blocks st !! b = Some cb → freed cb = false →
  strong_counter_ cb = 1 → object_ cb = Alive (SelfRef (mkHandle p nullptr)) →
  SharedPtr_Decrement t st = Undefined NullDeref.
Proof.
  intros Ht Hb Hf Hs Ho. unfold SharedPtr_Decrement. rewrite Ht. cbn [non_null].
  repeat mstep. cbn [GetStrongCounter GetWeakCounter DecreaseStrongCounter strong_counter_ weak_counter_].
  rewrite Hs. change (1 - 1 =? 0) with true. cbn [andb].
  destruct (Z.eqb_spec (weak_counter_ cb) 0) as [Hw0|Hw0]; cbn [negb];
    by erewrite bind_undefined by (eapply DeleteObject_unwired; [side|done|done]).
Qed.

Lemma WeakPtr_Decrement_ok st t b cb :
  block_ t = Some b → blocks st !! b = Some cb → freed cb = false →
  WeakPtr_Decrement t st =
    Ok tt (mkState (<[b := weak_released cb]> (blocks st)) (shared st) (weak st)
                   (trace st ++ weak_released_events b cb)).
Proof.
  intros Ht Hb Hf. unfold WeakPtr_Decrement. rewrite Ht. cbn [non_null].
  repeat mstep. cbn [GetStrongCounter GetWeakCounter DecreaseWeakCounter strong_counter_ weak_counter_].
  unfold weak_released, weak_released_events.
  destruct (_ && _).
  - erewrite delete_block_ok by side. norm_state. done.
  - norm_state. cbn. rewrite app_nil_r. unfold M_ret, DecreaseWeakCounter. by rewrite Hf.
Qed.

(** ** What the constructors do *)

Lemma SharedPtr_copy_null st o :
  block_ o = None → SharedPtr_copy o st = Ok (mkHandle (ptr_ o) nullptr) st.
Proof. intros Ho. unfold SharedPtr_copy. cbn. by rewrite Ho. Qed.

Lemma SharedPtr_copy_ok st o b cb :
  block_ o = Some b → blocks st !! b = Some cb → freed cb = false →
  SharedPtr_copy o st
  = Ok (mkHandle (ptr_ o) (Some b)) (set_blocks <[b := IncreaseStrongCounter cb]> st).
Proof.
  intros Ho Hb Hf. unfold SharedPtr_copy. cbn [block_]. rewrite Ho. cbn [non_null].
  by erewrite bind_modify by side.
Qed.

Lemma SharedPtr_alias_null st o p :
  block_ o = None → SharedPtr_alias o p st = Ok (mkHandle p nullptr) st.
Proof. intros Ho. unfold SharedPtr_alias. cbn. by rewrite Ho. Qed.

Lemma SharedPtr_alias_ok st o p b cb :
  block_ o = Some b → blocks st !! b = Some cb → freed cb = false →
  SharedPtr_alias o p st
  = Ok (mkHandle p (Some b)) (set_blocks <[b := IncreaseStrongCounter cb]> st).
Proof.
  intros Ho Hb Hf. unfold SharedPtr_alias. cbn [block_]. rewrite Ho. cbn [non_null].
  by erewrite bind_modify by side.
Qed.

Lemma WeakPtr_copy_null st o :
  block_ o = None → WeakPtr_copy o st = Ok (mkHandle (ptr_ o) nullptr) st.
Proof. intros Ho. unfold WeakPtr_copy. cbn. by rewrite Ho. Qed.

Lemma WeakPtr_copy_ok st o b cb :
  block_ o = Some b → blocks st !! b = Some cb → freed cb = false →
  WeakPtr_copy o st
  = Ok (mkHandle (ptr_ o) (Some b)) (set_blocks <[b := IncreaseWeakCounter cb]> st).
Proof.
  intros Ho Hb Hf. unfold WeakPtr_copy. cbn [block_]. rewrite Ho. cbn [non_null].
  by erewrite bind_modify by side.
Qed.

Lemma SharedPtr_from_weak_null st o :
  block_ o = None → SharedPtr_from_weak o st = Undefined NullDeref.
Proof. intros Ho. unfold SharedPtr_from_weak. cbn [block_]. by rewrite Ho. Qed.

Lemma SharedPtr_from_weak_expired st o b cb :
  block_ o = Some b → blocks st !! b = Some cb → freed cb = false →
  strong_counter_ cb = 0 →
  SharedPtr_from_weak o st = Throw BadWeakPtr st.
Proof.
  intros Ho Hb Hf Hs. unfold SharedPtr_from_weak. cbn [block_]. rewrite Ho.
  erewrite bind_read by side. unfold GetStrongCounter. by rewrite Hs.
Qed.

Lemma SharedPtr_from_weak_ok st o b cb :
  block_ o = Some b → blocks st !! b = Some cb → freed cb = false →
  strong_counter_ cb ≠ 0 →
  SharedPtr_from_weak o st
  = Ok (mkHandle (ptr_ o) (Some b)) (set_blocks <[b := IncreaseStrongCounter cb]> st).
Proof.
  intros Ho Hb Hf Hs. unfold SharedPtr_from_weak. cbn [block_]. rewrite Ho.
  erewrite bind_read by side. unfold GetStrongCounter.
  destruct (Z.eqb_spec (strong_counter_ cb) 0); [done|]. cbn [orb non_null negb].
  by erewrite bind_modify by side.
Qed.

Lemma WeakPtr_Lock_null st o :
  block_ o = None → WeakPtr_Lock o st = Ok SharedPtr_nullptr st.
Proof. intros Ho. unfold WeakPtr_Lock. by rewrite Ho. Qed.

Lemma WeakPtr_Lock_expired st o b cb :
  block_ o = Some b → blocks st !! b = Some cb → freed cb = false →
  strong_counter_ cb = 0 →
  WeakPtr_Lock o st = Ok SharedPtr_nullptr st.
Proof.
  intros Ho Hb Hf Hs. unfold WeakPtr_Lock. rewrite Ho. cbn [non_null].
  erewrite bind_read by side. unfold GetStrongCounter. by rewrite Hs.
Qed.

Lemma WeakPtr_Lock_ok st o b cb :
  block_ o = Some b → blocks st !! b = Some cb → freed cb = false →
  strong_counter_ cb ≠ 0 →
  WeakPtr_Lock o st
  = Ok (mkHandle (ptr_ o) (Some b)) (set_blocks <[b := IncreaseStrongCounter cb]> st).
Proof.
  intros Ho Hb Hf Hs. unfold WeakPtr_Lock. rewrite Ho. cbn [non_null].
  erewrite bind_read by side. unfold GetStrongCounter.
  destruct (Z.eqb_spec (strong_counter_ cb) 0); [done|].
  by apply SharedPtr_from_weak_ok.
Qed.

Ltac crunch :=
  unfold get_weak_this, set_weak_this, WeakPtr_assign_move_body, WeakPtr_Decrement,
    SharedPtr_Decrement, SharedPtr_copy, WeakPtr_from_shared, WeakPtr_copy,
    read, modify, load, delete_block, emit, M_bind, M_ret, undefined,
    set_blocks, log, fresh_block;
  repeat (cbn -[lookup insert fresh dom]; rewrite ?lookup_insert_eq, ?insert_insert_eq).

Lemma SetWeakThis_fresh st a b p :
  blocks st !! b = Some (fresh_block p (Alive (SelfRef (mkHandle nullptr nullptr)))) →
  SetWeakThis (Some a) b (mkHandle p (Some b)) st
  = Ok tt (set_blocks <[b := wired_block p b]> st).
Proof.
  intros Hb. unfold SetWeakThis. cbn [non_null]. crunch. rewrite Hb. crunch. done.
Qed.

Lemma SharedPtr_from_raw_plain st k p :
  is_convertible_X k = false →
  SharedPtr_from_raw k p st
  = let b := fresh (dom (blocks st)) in
    Ok (mkHandle p (Some b))
       (set_blocks <[b := fresh_block p (if p is Some _ then Alive (new_object k) else NoObject)]> st).
Proof. intros Hk. unfold SharedPtr_from_raw, new_block. rewrite Hk. done. Qed.

Lemma SharedPtr_from_raw_mixin st a :
  SharedPtr_from_raw KMixin (Some a) st
  = let b := fresh (dom (blocks st)) in
    Ok (mkHandle (Some a) (Some b)) (set_blocks <[b := wired_block (Some a) b]> st).
Proof.
  unfold SharedPtr_from_raw, new_block. cbn [is_convertible_X new_object].
  unfold M_bind at 1. unfold M_bind at 1.
  erewrite SetWeakThis_fresh by (cbn; apply lookup_insert_eq).
  norm_state. done.
Qed.

Lemma SharedPtr_from_raw_mixin_null st :
  SharedPtr_from_raw KMixin nullptr st = Undefined NullDeref.
Proof. reflexivity. Qed.

Lemma MakeShared_plain st k :
  is_convertible_X k = false →
  MakeShared k st
  = let b := fresh (dom (blocks st)) in
    Ok (mkHandle (Some b) (Some b))
       (set_blocks <[b := fresh_block (Some b) (Alive (new_object k))]> st).
Proof.
  intros Hk. unfold MakeShared, SharedPtr_from_holder, new_block. rewrite Hk.
  crunch. done.
Qed.

Lemma MakeShared_mixin st :
  MakeShared KMixin st
  = let b := fresh (dom (blocks st)) in
    Ok (mkHandle (Some b) (Some b)) (set_blocks <[b := wired_block (Some b) b]> st).
Proof.
  unfold MakeShared, SharedPtr_from_holder, new_block. cbn [is_convertible_X new_object].
  unfold M_bind at 1. erewrite bind_read by side.
  cbn [GetPointer fresh_block ptr_]. unfold M_bind at 1.
  erewrite SetWeakThis_fresh by (cbn; apply lookup_insert_eq).
  norm_state. done.
Qed.

(** ** The invariant of the store *)

Lemma inv_init : inv init.
Proof.
  intros b. cbn. rewrite lookup_empty. split; cbn; by rewrite ?refs_empty.
Qed.

Lemma inv_shared_owner st h t b :
  inv st → shared st !! h = Some t → block_ t = Some b →
  ∃ cb, blocks st !! b = Some cb ∧ freed cb = false ∧ 1 ≤ strong_counter_ cb
        ∧ block_inv st b cb.
Proof.
  intros Hinv Hh Ht. specialize (Hinv b).
  pose proof (refs_lookup _ _ _ _ Hh Ht) as Hr.
  destruct (blocks st !! b) as [cb|].
  - exists cb. pose proof (bi_strong _ _ _ Hinv). pose proof (bi_freed _ _ _ Hinv) as Hf.
    split; [done|]. split; [|split; [lia|done]].
    rewrite Hf. destruct (Z.eqb_spec (strong_counter_ cb) 0); [lia|done].
  - pose proof (un_shared _ _ Hinv). lia.
Qed.

Lemma self_reg_range b cb : 0 ≤ self_reg b cb ≤ 1.
Proof.
  unfold self_reg. destruct (object_ cb) as [|[|w]|]; try lia. apply owns_range.
Qed.

Lemma inv_weak_owner st h t b :
  inv st → weak st !! h = Some t → block_ t = Some b →
  ∃ cb, blocks st !! b = Some cb ∧ freed cb = false
        ∧ 1 ≤ weak_counter_ cb - self_reg b cb ∧ block_inv st b cb.
Proof.
  intros Hinv Hh Ht. specialize (Hinv b).
  pose proof (refs_lookup _ _ _ _ Hh Ht) as Hr.
  destruct (blocks st !! b) as [cb|].
  - exists cb. pose proof (bi_weak _ _ _ Hinv). pose proof (bi_freed _ _ _ Hinv) as Hf.
    pose proof (self_reg_range b cb).
    split; [done|]. split; [|split; [lia|done]].
    rewrite Hf. destruct (Z.eqb_spec (weak_counter_ cb) 0); [lia|]. by rewrite andb_false_r.
  - pose proof (un_weak _ _ Hinv). lia.
Qed.

Lemma self_reg_released b cb : self_reg b (released b cb) = 0.
Proof. unfold self_reg, released. cbn. by destruct (object_ cb). Qed.

Lemma wired_home_released b cb : wired_home b (released b cb).
Proof. intros w. unfold released. cbn. by destruct (object_ cb). Qed.

Lemma count_deleted_released b' b cb :
  count_ev (EvDeleteObject b') (released_events b cb) = if decide (b = b') then 1 else 0.
Proof.
  unfold released_events. rewrite count_ev_cons.
  destruct (_ =? _); rewrite ?count_ev_cons, count_ev_nil;
    repeat case_decide; simplify_eq; lia.
Qed.

Lemma count_block_deleted_released b' b cb :
  count_ev (EvDeleteBlock b') (released_events b cb)
  = if decide (b = b') then (if weak_counter_ cb - self_reg b cb =? 0 then 1 else 0) else 0.
Proof.
  unfold released_events. rewrite count_ev_cons.
  destruct (_ =? _); rewrite ?count_ev_cons, count_ev_nil;
    repeat case_decide; simplify_eq; lia.
Qed.

Lemma count_deleted_weak_released b' b cb :
  count_ev (EvDeleteObject b') (weak_released_events b cb) = 0.
Proof.
  unfold weak_released_events.
  destruct (_ && _); rewrite ?count_ev_cons, count_ev_nil;
    repeat case_decide; simplify_eq; lia.
Qed.

Lemma count_block_deleted_weak_released b' b cb :
  count_ev (EvDeleteBlock b') (weak_released_events b cb)
  = if decide (b = b')
    then (if (strong_counter_ cb =? 0) && (weak_counter_ cb - 1 =? 0) then 1 else 0)
    else 0.
Proof.
  unfold weak_released_events.
  destruct (_ && _); rewrite ?count_ev_cons, count_ev_nil;
    repeat case_decide; simplify_eq; lia.
Qed.

Lemma shrinks_refl st : shrinks st st.
Proof.
  split; [exists []; by rewrite app_nil_r|].
  intros b. destruct (blocks st !! b) as [cb|]; [|done].
  exists cb. split; [done|]. split; lia.
Qed.

Lemma grows_refl st : grows st st.
Proof.
  split; [exists []; by rewrite app_nil_r|].
  intros b. destruct (blocks st !! b) as [cb|]; [|done].
  exists cb. split; [done|]. split; lia.
Qed.

(** Goals about counters, after the case analysis on zero tests. *)
Ltac zcases :=
  repeat match goal with
         | |- context [Z.eqb ?a ?b] => destruct (Z.eqb_spec a b)
         | H : context [Z.eqb ?a ?b] |- _ => destruct (Z.eqb_spec a b)
         end;
  cbn [andb orb negb] in *.

Lemma release_shared st h t m' :
  inv st → shared st !! h = Some t →
  (∀ b, refs m' b = refs (shared st) b - owns b t) →
  match SharedPtr_Decrement t st with
  | Ok _ st1 =>
      (inv (mkState (blocks st1) m' (weak st1) (trace st1)) ∧ shrinks st st1)
      ∧ shared st1 = shared st ∧ weak st1 = weak st
  | Throw _ _ => False
  | Undefined _ => True
  end.
Proof.
  intros Hinv Hh Hm'.
  destruct (block_ t) as [b|] eqn:Ht.
  2:{ rewrite SharedPtr_Decrement_null by done.
      split; [|done]. split; [|apply shrinks_refl].
      intros b. specialize (Hinv b). cbn. specialize (Hm' b).
      unfold owns in Hm'. rewrite Ht, decide_False in Hm' by done.
      destruct (blocks st !! b) as [cb|]; destruct Hinv; split; cbn; try done; lia. }
  destruct (inv_shared_owner _ _ _ _ Hinv Hh Ht) as (cb & Hb & Hf & Hs & Hbi).
  pose proof (self_reg_range b cb) as Hsr.
  destruct (decide (strong_counter_ cb = 1)) as [Hs1|Hs1].
  - pose proof (bi_object _ _ _ Hbi) as Hobj.
    pose proof (bi_home _ _ _ Hbi) as Hhome.
    pose proof (bi_weak _ _ _ Hbi) as Hweak.
    pose proof (refs_nonneg (weak st) b).
    assert (Hcase : (∃ p, object_ cb = Alive (SelfRef (mkHandle p nullptr)))
                    ∨ (∀ w, object_ cb = Alive (SelfRef w) → block_ w = Some b)).
    { destruct (object_ cb) as [|[|[p [b'|]]]|] eqn:Ho; try (by right).
      - right. intros w [= <-]. by destruct (Hhome _ Ho).
      - left. by exists p. }
    destruct Hcase as [[p Hp]|Hwired].
    { by rewrite (SharedPtr_Decrement_unwired _ _ _ _ _ Ht Hb Hf Hs1 Hp). }
    rewrite (SharedPtr_Decrement_last _ _ _ _ Ht Hb Hf Hs1);
      [|by destruct (object_ cb); try lia|done|lia].
    cbn [blocks weak trace]. split; [|done]. split.
    + intros b'. specialize (Hinv b'). cbn [blocks]. specialize (Hm' b').
      unfold owns in Hm'. rewrite Ht in Hm'.
      destruct (decide (b' = b)) as [->|Hne].
      * rewrite lookup_insert_eq. rewrite Hb in Hinv.
        rewrite decide_True in Hm' by done.
        destruct Hinv. split; cbn [blocks shared weak trace].
        -- cbn. lia.
        -- rewrite self_reg_released. cbn. lia.
        -- apply wired_home_released.
        -- cbn. done.
        -- cbn. by destruct (object_ cb).
        -- rewrite count_ev_app, count_deleted_released, decide_True by done.
           cbn. zcases; lia.
        -- rewrite count_ev_app, count_block_deleted_released, decide_True by done.
           cbn. rewrite Hf in *. lia.
      * rewrite lookup_insert_ne by done.
        rewrite decide_False in Hm' by congruence.
        destruct (blocks st !! b') as [cb'|]; destruct Hinv; split;
          cbn [blocks shared weak trace]; try done; try lia;
          rewrite count_ev_app, ?count_deleted_released, ?count_block_deleted_released,
            decide_False by done; lia.
    + split; [by eexists|]. intros b'. cbn [blocks].
      destruct (decide (b' = b)) as [->|Hne].
      * rewrite lookup_insert_eq, Hb. eexists. split; [done|]. split; cbn; lia.
      * rewrite lookup_insert_ne by done.
        destruct (blocks st !! b') as [cb'|]; [|done].
        exists cb'. split; [done|]. split; lia.
  - rewrite (SharedPtr_Decrement_more _ _ _ _ Ht Hb Hf Hs1).
    unfold set_blocks. cbn [blocks weak trace]. split; [|done]. split.
    + intros b'. specialize (Hinv b'). cbn [blocks]. specialize (Hm' b').
      unfold owns in Hm'. rewrite Ht in Hm'.
      destruct (decide (b' = b)) as [->|Hne].
      * rewrite lookup_insert_eq. rewrite Hb in Hinv.
        rewrite decide_True in Hm' by done.
        destruct Hinv. split; cbn [blocks shared weak trace]; cbn; try done; try lia.
        -- rewrite Hf in *. zcases; try lia; done.
        -- destruct (object_ cb); try done; lia.
        -- zcases; lia.
      * rewrite lookup_insert_ne by done.
        rewrite decide_False in Hm' by congruence.
        destruct (blocks st !! b') as [cb'|]; destruct Hinv; split;
          cbn [blocks shared weak trace]; try done; lia.
    + split; [exists []; cbn; by rewrite app_nil_r|]. intros b'. cbn [blocks].
      destruct (decide (b' = b)) as [->|Hne].
      * rewrite lookup_insert_eq, Hb. eexists. split; [done|]. split; cbn; lia.
      * rewrite lookup_insert_ne by done.
        destruct (blocks st !! b') as [cb'|]; [|done].
        exists cb'. split; [done|]. split; lia.
Qed.

Lemma release_weak st h t m' :
  inv st → weak st !! h = Some t →
  (∀ b, refs m' b = refs (weak st) b - owns b t) →
  match WeakPtr_Decrement t st with
  | Ok _ st1 =>
      (inv (mkState (blocks st1) (shared st1) m' (trace st1)) ∧ grows st st1)
      ∧ shared st1 = shared st ∧ weak st1 = weak st
  | Throw _ _ => False
  | Undefined _ => True
  end.
Proof.
  intros Hinv Hh Hm'.
  destruct (block_ t) as [b|] eqn:Ht.
  2:{ rewrite WeakPtr_Decrement_null by done.
      split; [|done]. split; [|apply grows_refl].
      intros b. specialize (Hinv b). cbn. specialize (Hm' b).
      unfold owns in Hm'. rewrite Ht, decide_False in Hm' by done.
      destruct (blocks st !! b) as [cb|]; destruct Hinv; split; cbn; try done; lia. }
  destruct (inv_weak_owner _ _ _ _ Hinv Hh Ht) as (cb & Hb & Hf & Hs & Hbi).
  pose proof (self_reg_range b cb) as Hsr.
  rewrite (WeakPtr_Decrement_ok _ _ _ _ Ht Hb Hf).
  cbn [blocks shared weak trace]. split; [|done]. split.
  - intros b'. specialize (Hinv b'). cbn [blocks]. specialize (Hm' b').
    unfold owns in Hm'. rewrite Ht in Hm'.
    destruct (decide (b' = b)) as [->|Hne].
    + rewrite lookup_insert_eq. rewrite Hb in Hinv.
      rewrite decide_True in Hm' by done.
      destruct Hinv. split; cbn [blocks shared weak trace].
      * done.
      * change (self_reg b (weak_released cb)) with (self_reg b cb). cbn. lia.
      * done.
      * done.
      * done.
      * by rewrite count_ev_app, count_deleted_weak_released, Z.add_0_r.
      * rewrite count_ev_app, count_block_deleted_weak_released, decide_True by done.
        cbn. rewrite Hf in *. lia.
    + rewrite lookup_insert_ne by done.
      rewrite decide_False in Hm' by congruence.
      destruct (blocks st !! b') as [cb'|]; destruct Hinv; split;
        cbn [blocks shared weak trace]; try done; try lia;
        rewrite count_ev_app, ?count_deleted_weak_released,
          ?count_block_deleted_weak_released, ?decide_False by done; lia.
  - split; [by eexists|]. intros b'. cbn [blocks].
    destruct (decide (b' = b)) as [->|Hne].
    + rewrite lookup_insert_eq, Hb. eexists. split; [done|]. split; cbn; lia.
    + rewrite lookup_insert_ne by done.
      destruct (blocks st !! b') as [cb'|]; [|done].
      exists cb'. split; [done|]. split; lia.
Qed.

(** The invariant sees the handle stores only through [refs]. *)
Lemma inv_ext st s' w' :
  inv st →
  (∀ b, refs s' b = refs (shared st) b) → (∀ b, refs w' b = refs (weak st) b) →
  inv (mkState (blocks st) s' w' (trace st)).
Proof.
  intros Hinv Hs Hw b. specialize (Hinv b). cbn [blocks].
  destruct (blocks st !! b) as [cb|]; destruct Hinv; split; cbn; rewrite ?Hs, ?Hw; done.
Qed.

Lemma acquire_shared st b cb x m' :
  inv st → blocks st !! b = Some cb → freed cb = false → 0 < strong_counter_ cb →
  block_ x = Some b →
  (∀ b', refs m' b' = refs (shared st) b' + owns b' x) →
  let st' := mkState (<[b := IncreaseStrongCounter cb]> (blocks st)) m' (weak st) (trace st) in
  inv st' ∧ grows st st'.
Proof.
  intros Hinv Hb Hf Hs Hx Hm'. cbn zeta. split.
  - intros b'. specialize (Hinv b'). cbn [blocks]. specialize (Hm' b').
    unfold owns in Hm'. rewrite Hx in Hm'.
    destruct (decide (b' = b)) as [->|Hne].
    + rewrite lookup_insert_eq. rewrite Hb in Hinv.
      rewrite decide_True in Hm' by done.
      destruct Hinv. split; cbn [blocks shared weak trace]; cbn; try done; try lia.
      * rewrite Hf in *. zcases; try lia; done.
      * destruct (object_ cb); try done; lia.
      * zcases; lia.
    + rewrite lookup_insert_ne by done.
      rewrite decide_False in Hm' by congruence.
      destruct (blocks st !! b') as [cb'|]; destruct Hinv; split;
        cbn [blocks shared weak trace]; try done; lia.
  - split; [exists []; cbn; by rewrite app_nil_r|]. intros b'. cbn [blocks].
    destruct (decide (b' = b)) as [->|Hne].
    + rewrite lookup_insert_eq, Hb. eexists. split; [done|]. split; cbn; lia.
    + rewrite lookup_insert_ne by done.
      destruct (blocks st !! b') as [cb'|]; [|done].
      exists cb'. split; [done|]. split; lia.
Qed.

Lemma acquire_weak st b cb x m' :
  inv st → blocks st !! b = Some cb → freed cb = false →
  block_ x = Some b →
  (∀ b', refs m' b' = refs (weak st) b' + owns b' x) →
  let st' := mkState (<[b := IncreaseWeakCounter cb]> (blocks st)) (shared st) m' (trace st) in
  inv st' ∧ grows st st'.
Proof.
  intros Hinv Hb Hf Hx Hm'. cbn zeta. split.
  - intros b'. specialize (Hinv b'). cbn [blocks]. specialize (Hm' b').
    unfold owns in Hm'. rewrite Hx in Hm'.
    pose proof (refs_nonneg (weak st) b'). pose proof (self_reg_range b' cb).
    destruct (decide (b' = b)) as [->|Hne].
    + rewrite lookup_insert_eq. rewrite Hb in Hinv.
      rewrite decide_True in Hm' by done.
      destruct Hinv. split; cbn [blocks shared weak trace]; cbn; try done; try lia.
      * change (self_reg b (IncreaseWeakCounter cb)) with (self_reg b cb). lia.
      * rewrite Hf in *. zcases; try lia; done.
    + rewrite lookup_insert_ne by done.
      rewrite decide_False in Hm' by congruence.
      destruct (blocks st !! b') as [cb'|]; destruct Hinv; split;
        cbn [blocks shared weak trace]; try done; lia.
  - split; [exists []; cbn; by rewrite app_nil_r|]. intros b'. cbn [blocks].
    destruct (decide (b' = b)) as [->|Hne].
    + rewrite lookup_insert_eq, Hb. eexists. split; [done|]. split; cbn; lia.
    + rewrite lookup_insert_ne by done.
      destruct (blocks st !! b') as [cb'|]; [|done].
      exists cb'. split; [done|]. split; lia.
Qed.

Lemma fresh_block_unallocated st : blocks st !! fresh (dom (blocks st)) = None.
Proof. apply not_elem_of_dom. apply is_fresh. Qed.

Lemma acquire_new st b cb x m' :
  inv st →
  b = fresh (dom (blocks st)) →
  strong_counter_ cb = 1 → weak_counter_ cb = self_reg b cb → freed cb = false →
  wired_home b cb → object_ cb ≠ Destroyed →
  block_ x = Some b →
  (∀ b', refs m' b' = refs (shared st) b' + owns b' x) →
  let st' := mkState (<[b := cb]> (blocks st)) m' (weak st) (trace st) in
  inv st' ∧ grows st st'.
Proof.
  intros Hinv Hfresh Hs Hw Hf Hhome Hobj Hx Hm'. cbn zeta.
  pose proof (fresh_block_unallocated st) as Hb. rewrite <-Hfresh in Hb. split.
  - intros b'. specialize (Hinv b'). cbn [blocks]. specialize (Hm' b').
    unfold owns in Hm'. rewrite Hx in Hm'.
    destruct (decide (b' = b)) as [->|Hne].
    + rewrite lookup_insert_eq. rewrite Hb in Hinv.
      rewrite decide_True in Hm' by done.
      destruct Hinv. split; cbn [blocks shared weak trace]; try done; try lia.
      * rewrite Hf, Hs. done.
      * destruct (object_ cb); try done; lia.
      * rewrite Hs. done.
      * rewrite Hf. done.
    + rewrite lookup_insert_ne by done.
      rewrite decide_False in Hm' by congruence.
      destruct (blocks st !! b') as [cb'|]; destruct Hinv; split;
        cbn [blocks shared weak trace]; try done; lia.
  - split; [exists []; cbn; by rewrite app_nil_r|]. intros b'. cbn [blocks].
    destruct (decide (b' = b)) as [->|Hne].
    + rewrite lookup_insert_eq, Hb. intros cb' [= <-]. lia.
    + rewrite lookup_insert_ne by done.
      destruct (blocks st !! b') as [cb'|]; [|done].
      exists cb'. split; [done|]. split; lia.
Qed.

Lemma grows_shrinks st st' : grows st st' → shrinks st st'.
Proof.
  intros [Ht Hb]. split; [done|]. intros b. specialize (Hb b).
  destruct (blocks st !! b) as [cb|]; [|done].
  destruct Hb as (cb' & Hb' & [? ?]). exists cb'. split; [done|]. split; [lia|done].
Qed.

Lemma grows_trans st1 st2 st2' st3 :
  grows st1 st2 → blocks st2' = blocks st2 → trace st2' = trace st2 →
  grows st2' st3 → grows st1 st3.
Proof.
  intros [[e1 Ht1] Hb1] Hbe Hte [[e2 Ht2] Hb2]. split.
  - exists (e1 ++ e2). by rewrite Ht2, Hte, Ht1, app_assoc.
  - intros b. specialize (Hb1 b). specialize (Hb2 b). rewrite Hbe in Hb2.
    destruct (blocks st1 !! b) as [cb|].
    + destruct Hb1 as (cb' & Hb' & [? ?]). rewrite Hb' in Hb2.
      destruct Hb2 as (cb'' & Hb'' & [? ?]). exists cb''. split; [done|].
      split; [lia|auto].
    + intros cb'' Hb''. destruct (blocks st2 !! b) as [cb'|] eqn:Hb'.
      * specialize (Hb1 cb' eq_refl). destruct Hb2 as (cb3 & Hb3 & [? ?]).
        simplify_eq. lia.
      * by apply Hb2.
Qed.

Lemma shrinks_grows st1 st2 st2' st3 :
  shrinks st1 st2 → blocks st2' = blocks st2 → trace st2' = trace st2 →
  grows st2' st3 → shrinks st1 st3.
Proof.
  intros [[e1 Ht1] Hb1] Hbe Hte [[e2 Ht2] Hb2]. split.
  - exists (e1 ++ e2). by rewrite Ht2, Hte, Ht1, app_assoc.
  - intros b. specialize (Hb1 b). specialize (Hb2 b). rewrite Hbe in Hb2.
    destruct (blocks st1 !! b) as [cb|].
    + destruct Hb1 as (cb' & Hb' & [? ?]). rewrite Hb' in Hb2.
      destruct Hb2 as (cb'' & Hb'' & [? ?]). exists cb''. split; [done|].
      split; [lia|auto].
    + intros cb'' Hb''. destruct (blocks st2 !! b) as [cb'|] eqn:Hb'.
      * specialize (Hb1 cb' eq_refl). destruct Hb2 as (cb3 & Hb3 & [? ?]).
        simplify_eq. lia.
      * by apply Hb2.
Qed.

Lemma shrinks_same st st1 st2 :
  shrinks st st1 → blocks st2 = blocks st1 → trace st2 = trace st1 → shrinks st st2.
Proof.
  intros H Hb Ht. eapply shrinks_grows; [exact H|exact Hb|exact Ht|apply grows_refl].
Qed.

(** ** Every operation keeps the invariant *)

Ltac use_lookups :=
  repeat match goal with
         | H : ?m !! ?a = _ |- context [?m !! ?a] => rewrite H
         end.

Ltac refs_tac :=
  intros;
  cbn [ptr_ block_ fst snd shared weak SharedPtr_move WeakPtr_move SharedPtr_nullptr null_handle];
  rewrite ?refs_insert, ?refs_delete;
  repeat first [rewrite lookup_insert_eq | rewrite lookup_insert_ne by congruence];
  use_lookups; unfold owns_opt, owns; cbn [ptr_ block_];
  repeat case_decide; simplify_eq; lia.

Ltac inv_exec H :=
  unfold exec in H; cbn [step] in H;
  unfold SharedPtr_assign_copy, SharedPtr_assign_move, SharedPtr_dtor, SharedPtr_Reset,
    SharedPtr_Reset_ptr, SharedPtr_Swap, WeakPtr_assign_copy, WeakPtr_assign_move,
    WeakPtr_dtor, WeakPtr_Reset, WeakPtr_Swap in H.

Lemma bind_throw {A B} (m : M State A) (k : A → M State B) st e st' :
  m st = Throw e st' → M_bind k m st = Throw e st'.
Proof. intros H. unfold M_bind. by rewrite H. Qed.

Lemma bind_get_shared {B} (k : Handle → M State B) st a :
  M_bind k (get_shared a) st
  = match shared st !! a with Some x => k x st | None => Undefined NoSuchObject end.
Proof. unfold M_bind, get_shared. by destruct (shared st !! a). Qed.

Lemma bind_get_weak {B} (k : Handle → M State B) st a :
  M_bind k (get_weak a) st
  = match weak st !! a with Some x => k x st | None => Undefined NoSuchObject end.
Proof. unfold M_bind, get_weak. by destruct (weak st !! a). Qed.

Lemma bind_put_shared {B} (k : unit → M State B) st a x :
  M_bind k (put_shared a x) st = k tt (set_shared <[a := x]> st).
Proof. reflexivity. Qed.

Lemma bind_put_weak {B} (k : unit → M State B) st a x :
  M_bind k (put_weak a x) st = k tt (set_weak <[a := x]> st).
Proof. reflexivity. Qed.

Lemma new_shared_eq st a x :
  new_shared a x st
  = match shared st !! a with
    | None => Ok tt (set_shared <[a := x]> st)
    | Some _ => Undefined AddressInUse
    end.
Proof. reflexivity. Qed.

Lemma new_weak_eq st a x :
  new_weak a x st
  = match weak st !! a with
    | None => Ok tt (set_weak <[a := x]> st)
    | Some _ => Undefined AddressInUse
    end.
Proof. reflexivity. Qed.

Lemma handles_only st s' w' :
  inv st →
  (∀ b, refs s' b = refs (shared st) b) → (∀ b, refs w' b = refs (weak st) b) →
  inv (mkState (blocks st) s' w' (trace st))
  ∧ shrinks st (mkState (blocks st) s' w' (trace st)).
Proof.
  intros Hinv Hs Hw. split; [by apply inv_ext|].
  by eapply shrinks_same; [apply shrinks_refl|..].
Qed.

Section Sound.
Variables (st st' : State).
Hypothesis Hinv : inv st.

Lemma step_SpDefault_sound h :
  exec st (SpDefault h) = Some st' → inv st' ∧ shrinks st st'.
Proof.
  intros H. inv_exec H. rewrite new_shared_eq in H.
  destruct (shared st !! h) eqn:Hh; [done|]. injection H as <-.
  norm_state. apply handles_only; [done|refs_tac|done].
Qed.

Lemma step_SpFromRaw_sound k h p :
  exec st (SpFromRaw k h p) = Some st' → inv st' ∧ shrinks st st'.
Proof.
  intros H. inv_exec H.
  destruct (is_convertible_X k) eqn:Hk.
  - destruct k; try discriminate Hk. destruct p as [a|].
    + rewrite (bind_ok _ _ _ _ _ (SharedPtr_from_raw_mixin st a)) in H.
      rewrite new_shared_eq in H. cbn [set_blocks shared] in H.
      destruct (shared st !! h) eqn:Hh; [discriminate H|]. injection H as <-.
      norm_state.
      set (b := fresh (dom (blocks st))).
      destruct (acquire_new st b (wired_block (Some a) b) (mkHandle (Some a) (Some b))
                 (<[h := mkHandle (Some a) (Some b)]> (shared st)) Hinv eq_refl)
        as [Hi Hg].
      * reflexivity.
      * unfold self_reg, wired_block, owns. cbn [object_ weak_counter_ block_].
        by rewrite decide_True.
      * reflexivity.
      * intros w [= <-]. by right.
      * discriminate.
      * reflexivity.
      * refs_tac.
      * split; [exact Hi|by apply grows_shrinks].
    + rewrite (bind_undefined _ _ _ _ (SharedPtr_from_raw_mixin_null st)) in H.
      discriminate H.
  - rewrite (bind_ok _ _ _ _ _ (SharedPtr_from_raw_plain st k p Hk)) in H.
    rewrite new_shared_eq in H. cbn [set_blocks shared] in H.
    destruct (shared st !! h) eqn:Hh; [discriminate H|]. injection H as <-.
    norm_state.
    set (b := fresh (dom (blocks st))).
    destruct (acquire_new st b
                (fresh_block p (if p is Some _ then Alive (new_object k) else NoObject))
                (mkHandle p (Some b))
                (<[h := mkHandle p (Some b)]> (shared st)) Hinv eq_refl)
      as [Hi Hg].
    * reflexivity.
    * unfold self_reg, fresh_block. cbn [object_ weak_counter_].
      by destruct p, k.
    * reflexivity.
    * intros w Hw. left. unfold fresh_block in Hw. cbn [object_] in Hw.
      destruct p, k; cbn in Hw; by simplify_eq.
    * unfold fresh_block. cbn [object_]. by destruct p.
    * reflexivity.
    * refs_tac.
    * split; [exact Hi|by apply grows_shrinks].
Qed.

Lemma step_SpMakeShared_sound k h :
  exec st (SpMakeShared k h) = Some st' → inv st' ∧ shrinks st st'.
Proof.
  intros H. inv_exec H.
  destruct (is_convertible_X k) eqn:Hk.
  - destruct k; try discriminate Hk.
    rewrite (bind_ok _ _ _ _ _ (MakeShared_mixin st)) in H.
    rewrite new_shared_eq in H. cbn [set_blocks shared] in H.
    destruct (shared st !! h) eqn:Hh; [discriminate H|]. injection H as <-.
    norm_state.
    set (b := fresh (dom (blocks st))).
    destruct (acquire_new st b (wired_block (Some b) b) (mkHandle (Some b) (Some b))
               (<[h := mkHandle (Some b) (Some b)]> (shared st)) Hinv eq_refl)
      as [Hi Hg].
    * reflexivity.
    * unfold self_reg, wired_block, owns. cbn [object_ weak_counter_ block_].
      by rewrite decide_True.
    * reflexivity.
    * intros w [= <-]. by right.
    * discriminate.
    * reflexivity.
    * refs_tac.
    * split; [exact Hi|by apply grows_shrinks].
  - rewrite (bind_ok _ _ _ _ _ (MakeShared_plain st k Hk)) in H.
    rewrite new_shared_eq in H. cbn [set_blocks shared] in H.
    destruct (shared st !! h) eqn:Hh; [discriminate H|]. injection H as <-.
    norm_state.
    set (b := fresh (dom (blocks st))).
    destruct (acquire_new st b (fresh_block (Some b) (Alive (new_object k)))
                (mkHandle (Some b) (Some b))
                (<[h := mkHandle (Some b) (Some b)]> (shared st)) Hinv eq_refl)
      as [Hi Hg].
    * reflexivity.
    * unfold self_reg, fresh_block. cbn [object_ weak_counter_]. by destruct k.
    * reflexivity.
    * intros w Hw. left. unfold fresh_block in Hw. cbn [object_] in Hw.
      destruct k; cbn in Hw; by simplify_eq.
    * discriminate.
    * reflexivity.
    * refs_tac.
    * split; [exact Hi|by apply grows_shrinks].
Qed.

Lemma step_SpCopy_sound h src :
  exec st (SpCopy h src) = Some st' → inv st' ∧ shrinks st st'.
Proof.
  intros H. inv_exec H. rewrite bind_get_shared in H.
  destruct (shared st !! src) as [o|] eqn:Hsrc; [|discriminate H].
  destruct (block_ o) as [b|] eqn:Hos.
  - destruct (inv_shared_owner _ _ _ _ Hinv Hsrc Hos) as (cb & Hb & Hf & Hs & Hbi).
    rewrite (bind_ok _ _ _ _ _ (SharedPtr_copy_ok st o b cb Hos Hb Hf)) in H.
    rewrite new_shared_eq in H. cbn [set_blocks shared] in H.
    destruct (shared st !! h) eqn:Hh; [discriminate H|]. injection H as <-.
    norm_state.
    destruct (acquire_shared st b cb (mkHandle (ptr_ o) (Some b))
                (<[h := mkHandle (ptr_ o) (Some b)]> (shared st)) Hinv Hb Hf)
      as [Hi Hg]; [lia|reflexivity|refs_tac|].
    split; [exact Hi|by apply grows_shrinks].
  - rewrite (bind_ok _ _ _ _ _ (SharedPtr_copy_null st o Hos)) in H.
    rewrite new_shared_eq in H.
    destruct (shared st !! h) eqn:Hh; [discriminate H|]. injection H as <-.
    norm_state. apply handles_only; [exact Hinv|refs_tac|reflexivity].
Qed.

Lemma step_SpAlias_sound h src p :
  exec st (SpAlias h src p) = Some st' → inv st' ∧ shrinks st st'.
Proof.
  intros H. inv_exec H. rewrite bind_get_shared in H.
  destruct (shared st !! src) as [o|] eqn:Hsrc; [|discriminate H].
  destruct (block_ o) as [b|] eqn:Hos.
  - destruct (inv_shared_owner _ _ _ _ Hinv Hsrc Hos) as (cb & Hb & Hf & Hs & Hbi).
    rewrite (bind_ok _ _ _ _ _ (SharedPtr_alias_ok st o p b cb Hos Hb Hf)) in H.
    rewrite new_shared_eq in H. cbn [set_blocks shared] in H.
    destruct (shared st !! h) eqn:Hh; [discriminate H|]. injection H as <-.
    norm_state.
    destruct (acquire_shared st b cb (mkHandle p (Some b))
                (<[h := mkHandle p (Some b)]> (shared st)) Hinv Hb Hf)
      as [Hi Hg]; [lia|reflexivity|refs_tac|].
    split; [exact Hi|by apply grows_shrinks].
  - rewrite (bind_ok _ _ _ _ _ (SharedPtr_alias_null st o p Hos)) in H.
    rewrite new_shared_eq in H.
    destruct (shared st !! h) eqn:Hh; [discriminate H|]. injection H as <-.
    norm_state. apply handles_only; [exact Hinv|refs_tac|reflexivity].
Qed.

Lemma step_SpMove_sound h src :
  exec st (SpMove h src) = Some st' → inv st' ∧ shrinks st st'.
Proof.
  intros H. inv_exec H. rewrite bind_get_shared in H.
  destruct (shared st !! src) as [o|] eqn:Hsrc; [|discriminate H].
  rewrite bind_put_shared, new_shared_eq in H. cbn [set_shared shared] in H.
  destruct (decide (h = src)) as [->|Hne].
  { rewrite lookup_insert_eq in H. discriminate H. }
  rewrite lookup_insert_ne in H by congruence.
  destruct (shared st !! h) eqn:Hh; [discriminate H|]. injection H as <-.
  norm_state. apply handles_only; [exact Hinv|refs_tac|reflexivity].
Qed.

Lemma step_SpFromWeak_sound h w :
  exec st (SpFromWeak h w) = Some st' → inv st' ∧ shrinks st st'.
Proof.
  intros H. inv_exec H. rewrite bind_get_weak in H.
  destruct (weak st !! w) as [o|] eqn:Hw; [|discriminate H].
  destruct (block_ o) as [b|] eqn:Hos.
  2:{ rewrite (bind_undefined _ _ _ _ (SharedPtr_from_weak_null st o Hos)) in H.
      discriminate H. }
  destruct (inv_weak_owner _ _ _ _ Hinv Hw Hos) as (cb & Hb & Hf & Hs & Hbi).
  destruct (decide (strong_counter_ cb = 0)) as [Hz|Hnz].
  - rewrite (bind_throw _ _ _ _ _ (SharedPtr_from_weak_expired st o b cb Hos Hb Hf Hz)) in H.
    injection H as <-. split; [exact Hinv|apply shrinks_refl].
  - rewrite (bind_ok _ _ _ _ _ (SharedPtr_from_weak_ok st o b cb Hos Hb Hf Hnz)) in H.
    rewrite new_shared_eq in H. cbn [set_blocks shared] in H.
    destruct (shared st !! h) eqn:Hh; [discriminate H|]. injection H as <-.
    norm_state.
    pose proof (bi_strong _ _ _ Hbi). pose proof (refs_nonneg (shared st) b).
    destruct (acquire_shared st b cb (mkHandle (ptr_ o) (Some b))
                (<[h := mkHandle (ptr_ o) (Some b)]> (shared st)) Hinv Hb Hf)
      as [Hi Hg]; [lia|reflexivity|refs_tac|].
    split; [exact Hi|by apply grows_shrinks].
Qed.

Lemma step_WpLock_sound h w :
  exec st (WpLock h w) = Some st' → inv st' ∧ shrinks st st'.
Proof.
  intros H. inv_exec H. rewrite bind_get_weak in H.
  destruct (weak st !! w) as [o|] eqn:Hw; [|discriminate H].
  destruct (block_ o) as [b|] eqn:Hos.
  2:{ rewrite (bind_ok _ _ _ _ _ (WeakPtr_Lock_null st o Hos)) in H.
      rewrite new_shared_eq in H.
      destruct (shared st !! h) eqn:Hh; [discriminate H|]. injection H as <-.
      norm_state. apply handles_only; [exact Hinv|refs_tac|reflexivity]. }
  destruct (inv_weak_owner _ _ _ _ Hinv Hw Hos) as (cb & Hb & Hf & Hs & Hbi).
  destruct (decide (strong_counter_ cb = 0)) as [Hz|Hnz].
  - rewrite (bind_ok _ _ _ _ _ (WeakPtr_Lock_expired st o b cb Hos Hb Hf Hz)) in H.
    rewrite new_shared_eq in H.
    destruct (shared st !! h) eqn:Hh; [discriminate H|]. injection H as <-.
    norm_state. apply handles_only; [exact Hinv|refs_tac|reflexivity].
  - rewrite (bind_ok _ _ _ _ _ (WeakPtr_Lock_ok st o b cb Hos Hb Hf Hnz)) in H.
    rewrite new_shared_eq in H. cbn [set_blocks shared] in H.
    destruct (shared st !! h) eqn:Hh; [discriminate H|]. injection H as <-.
    norm_state.
    pose proof (bi_strong _ _ _ Hbi). pose proof (refs_nonneg (shared st) b).
    destruct (acquire_shared st b cb (mkHandle (ptr_ o) (Some b))
                (<[h := mkHandle (ptr_ o) (Some b)]> (shared st)) Hinv Hb Hf)
      as [Hi Hg]; [lia|reflexivity|refs_tac|].
    split; [exact Hi|by apply grows_shrinks].
Qed.

Lemma step_SpSwap_sound h other :
  exec st (SpSwap h other) = Some st' → inv st' ∧ shrinks st st'.
Proof.
  intros H. inv_exec H. rewrite bind_get_shared in H.
  destruct (shared st !! h) as [t|] eqn:Hh; [|discriminate H].
  rewrite bind_get_shared in H.
  destruct (shared st !! other) as [o|] eqn:Ho; [|discriminate H].
  rewrite bind_put_shared in H. unfold put_shared in H. injection H as <-.
  norm_state. apply handles_only; [exact Hinv| |reflexivity].
  destruct (decide (h = other)) as [->|Hne]; refs_tac.
Qed.

Lemma step_SpDtor_sound h :
  exec st (SpDtor h) = Some st' → inv st' ∧ shrinks st st'.
Proof.
  intros H. inv_exec H. rewrite bind_get_shared in H.
  destruct (shared st !! h) as [t|] eqn:Hh; [|discriminate H].
  pose proof (release_shared st h t (delete h (shared st)) Hinv Hh) as Hrel.
  unfold M_bind in H.
  destruct (SharedPtr_Decrement t st) as [[] st1|e st1|u];
    [|destruct Hrel; refs_tac|discriminate H].
  destruct Hrel as [[Hi Hs] [Hsh Hwk]]; [refs_tac|].
  unfold del_shared in H. injection H as <-. norm_state. rewrite Hsh.
  split; [exact Hi|]. by eapply shrinks_same.
Qed.

Lemma step_SpReset_sound h :
  exec st (SpReset h) = Some st' → inv st' ∧ shrinks st st'.
Proof.
  intros H. inv_exec H. rewrite bind_get_shared in H.
  destruct (shared st !! h) as [t|] eqn:Hh; [|discriminate H].
  pose proof (release_shared st h t (<[h := mkHandle nullptr nullptr]> (shared st)) Hinv Hh)
    as Hrel.
  unfold M_bind in H.
  destruct (SharedPtr_Decrement t st) as [[] st1|e st1|u];
    [|destruct Hrel; refs_tac|discriminate H].
  destruct Hrel as [[Hi Hs] [Hsh Hwk]]; [refs_tac|].
  unfold put_shared in H. injection H as <-. norm_state. rewrite Hsh.
  split; [exact Hi|]. by eapply shrinks_same.
Qed.

Lemma step_SpAssignCopy_sound h src :
  exec st (SpAssignCopy h src) = Some st' → inv st' ∧ shrinks st st'.
Proof.
  intros H. inv_exec H.
  destruct (decide (h = src)) as [->|Hne].
  { rewrite bool_decide_eq_false_2 in H by auto. injection H as <-.
    split; [exact Hinv|apply shrinks_refl]. }
  rewrite bool_decide_eq_true_2 in H by exact Hne.
  rewrite bind_get_shared in H.
  destruct (shared st !! h) as [t|] eqn:Hh; [|discriminate H].
  rewrite bind_get_shared in H.
  destruct (shared st !! src) as [o|] eqn:Hsrc; [|discriminate H].
  pose proof (release_shared st h t (<[h := mkHandle nullptr nullptr]> (shared st)) Hinv Hh)
    as Hrel.
  unfold SharedPtr_assign_copy_body in H. unfold M_bind at 1 2 in H.
  destruct (SharedPtr_Decrement t st) as [[] st1|e st1|u];
    [|destruct Hrel; refs_tac|discriminate H].
  destruct Hrel as [[Hi Hs] [Hsh Hwk]]; [refs_tac|].
  cbn [block_] in H.
  destruct (block_ o) as [b|] eqn:Hos; cbn [non_null] in H.
  - destruct (inv_shared_owner _ src o b Hi) as (cb & Hb & Hf & Hs1 & Hbi);
      [cbn [shared]; rewrite lookup_insert_ne by exact Hne; exact Hsrc|exact Hos|].
    cbn [blocks] in Hb.
    rewrite (bind_modify _ _ _ _ _ Hb Hf) in H.
    unfold M_ret, put_shared in H. injection H as <-. norm_state. rewrite Hsh.
    destruct (acquire_shared _ b cb (mkHandle (ptr_ o) (Some b))
                 (<[h := mkHandle (ptr_ o) (Some b)]> (shared st)) Hi Hb Hf)
      as [Hi' Hg]; [lia|reflexivity|refs_tac|].
    split; [exact Hi'|]. by eapply shrinks_grows; [exact Hs|..|exact Hg].
  - unfold M_ret, put_shared in H. injection H as <-. norm_state. rewrite Hsh. split.
    + apply (inv_ext _ _ _ Hi); [refs_tac|reflexivity].
    + by eapply shrinks_same.
Qed.

Lemma step_SpAssignMove_sound h src :
  exec st (SpAssignMove h src) = Some st' → inv st' ∧ shrinks st st'.
Proof.
  intros H. inv_exec H.
  destruct (decide (h = src)) as [->|Hne].
  { rewrite bool_decide_eq_true_2 in H by auto. injection H as <-.
    split; [exact Hinv|apply shrinks_refl]. }
  rewrite bool_decide_eq_false_2 in H by exact Hne.
  rewrite bind_get_shared in H.
  destruct (shared st !! h) as [t|] eqn:Hh; [|discriminate H].
  rewrite bind_get_shared in H.
  destruct (shared st !! src) as [o|] eqn:Hsrc; [|discriminate H].
  pose proof (release_shared st h t (<[h := mkHandle nullptr nullptr]> (shared st)) Hinv Hh)
    as Hrel.
  unfold SharedPtr_assign_move_body in H. unfold M_bind in H.
  destruct (SharedPtr_Decrement t st) as [[] st1|e st1|u];
    [|destruct Hrel; refs_tac|discriminate H].
  destruct Hrel as [[Hi Hs] [Hsh Hwk]]; [refs_tac|].
  unfold M_ret, put_shared in H.
  cbn [fst snd] in H. injection H as <-. norm_state. rewrite Hsh. split.
  - apply (inv_ext _ _ _ Hi); [refs_tac|reflexivity].
  - by eapply shrinks_same.
Qed.

Lemma step_SpResetPtr_sound k h p :
  exec st (SpResetPtr k h p) = Some st' → inv st' ∧ shrinks st st'.
Proof.
  intros H. inv_exec H.
  rewrite bind_get_shared in H.
  destruct (shared st !! h) as [t|] eqn:Hh; [|discriminate H].
  pose proof (release_shared st h t (<[h := mkHandle nullptr nullptr]> (shared st)) Hinv Hh)
    as Hrel.
  unfold SharedPtr_Reset_ptr_body in H. unfold M_bind at 1 2 in H.
  destruct (SharedPtr_Decrement t st) as [[] st1|e st1|u];
    [|destruct Hrel; refs_tac|discriminate H].
  destruct Hrel as [[Hi Hs] [Hsh Hwk]]; [refs_tac|].
  unfold new_block, M_bind, M_ret, put_shared in H. injection H as <-.
  norm_state. rewrite Hsh.
  set (b := fresh (dom (blocks st1))).
  destruct (acquire_new _ b
               (fresh_block p (if p is Some _ then Alive (new_object k) else NoObject))
               (mkHandle p (Some b))
               (<[h := mkHandle p (Some b)]> (shared st)) Hi eq_refl)
    as [Hi' Hg].
  - reflexivity.
  - unfold self_reg, fresh_block. cbn [object_ weak_counter_]. by destruct p, k.
  - reflexivity.
  - intros w Hw. left. unfold fresh_block in Hw. cbn [object_] in Hw.
    destruct p, k; cbn in Hw; by simplify_eq.
  - unfold fresh_block. cbn [object_]. by destruct p.
  - reflexivity.
  - refs_tac.
  - split; [exact Hi'|]. by eapply shrinks_grows; [exact Hs|..|exact Hg].
Qed.

Lemma step_WpDefault_sound w :
  exec st (WpDefault w) = Some st' → inv st' ∧ shrinks st st'.
Proof.
  intros H. inv_exec H. rewrite new_weak_eq in H.
  destruct (weak st !! w) eqn:Hw; [discriminate H|]. injection H as <-.
  norm_state. apply handles_only; [exact Hinv|reflexivity|refs_tac].
Qed.

Lemma step_WpCopy_sound w src :
  exec st (WpCopy w src) = Some st' → inv st' ∧ shrinks st st'.
Proof.
  intros H. inv_exec H. rewrite bind_get_weak in H.
  destruct (weak st !! src) as [o|] eqn:Hsrc; [|discriminate H].
  destruct (block_ o) as [b|] eqn:Hos.
  - destruct (inv_weak_owner _ _ _ _ Hinv Hsrc Hos) as (cb & Hb & Hf & Hs & Hbi).
    rewrite (bind_ok _ _ _ _ _ (WeakPtr_copy_ok st o b cb Hos Hb Hf)) in H.
    rewrite new_weak_eq in H. cbn [set_blocks weak] in H.
    destruct (weak st !! w) eqn:Hw; [discriminate H|]. injection H as <-.
    norm_state.
    destruct (acquire_weak st b cb (mkHandle (ptr_ o) (Some b))
                (<[w := mkHandle (ptr_ o) (Some b)]> (weak st)) Hinv Hb Hf)
      as [Hi Hg]; [reflexivity|refs_tac|].
    split; [exact Hi|by apply grows_shrinks].
  - rewrite (bind_ok _ _ _ _ _ (WeakPtr_copy_null st o Hos)) in H.
    rewrite new_weak_eq in H.
    destruct (weak st !! w) eqn:Hw; [discriminate H|]. injection H as <-.
    norm_state. apply handles_only; [exact Hinv|reflexivity|refs_tac].
Qed.

Lemma step_WpFromShared_sound w h :
  exec st (WpFromShared w h) = Some st' → inv st' ∧ shrinks st st'.
Proof.
  intros H. inv_exec H. rewrite bind_get_shared in H.
  destruct (shared st !! h) as [o|] eqn:Hsrc; [|discriminate H].
  unfold WeakPtr_from_shared in H.
  destruct (block_ o) as [b|] eqn:Hos.
  - destruct (inv_shared_owner _ _ _ _ Hinv Hsrc Hos) as (cb & Hb & Hf & Hs & Hbi).
    rewrite (bind_ok _ _ _ _ _ (WeakPtr_copy_ok st o b cb Hos Hb Hf)) in H.
    rewrite new_weak_eq in H. cbn [set_blocks weak] in H.
    destruct (weak st !! w) eqn:Hw; [discriminate H|]. injection H as <-.
    norm_state.
    destruct (acquire_weak st b cb (mkHandle (ptr_ o) (Some b))
                (<[w := mkHandle (ptr_ o) (Some b)]> (weak st)) Hinv Hb Hf)
      as [Hi Hg]; [reflexivity|refs_tac|].
    split; [exact Hi|by apply grows_shrinks].
  - rewrite (bind_ok _ _ _ _ _ (WeakPtr_copy_null st o Hos)) in H.
    rewrite new_weak_eq in H.
    destruct (weak st !! w) eqn:Hw; [discriminate H|]. injection H as <-.
    norm_state. apply handles_only; [exact Hinv|reflexivity|refs_tac].
Qed.

Lemma step_WpMove_sound w src :
  exec st (WpMove w src) = Some st' → inv st' ∧ shrinks st st'.
Proof.
  intros H. inv_exec H. rewrite bind_get_weak in H.
  destruct (weak st !! src) as [o|] eqn:Hsrc; [|discriminate H].
  rewrite bind_put_weak, new_weak_eq in H. cbn [set_weak weak] in H.
  destruct (decide (w = src)) as [->|Hne].
  { rewrite lookup_insert_eq in H. discriminate H. }
  rewrite lookup_insert_ne in H by congruence.
  destruct (weak st !! w) eqn:Hw; [discriminate H|]. injection H as <-.
  norm_state. apply handles_only; [exact Hinv|reflexivity|refs_tac].
Qed.

Lemma step_WpSwap_sound w other :
  exec st (WpSwap w other) = Some st' → inv st' ∧ shrinks st st'.
Proof.
  intros H. inv_exec H. rewrite bind_get_weak in H.
  destruct (weak st !! w) as [t|] eqn:Hw; [|discriminate H].
  rewrite bind_get_weak in H.
  destruct (weak st !! other) as [o|] eqn:Ho; [|discriminate H].
  rewrite bind_put_weak in H. unfold put_weak in H. injection H as <-.
  norm_state. apply handles_only; [exact Hinv|reflexivity|].
  destruct (decide (w = other)) as [->|Hne]; refs_tac.
Qed.

Lemma step_WpDtor_sound w :
  exec st (WpDtor w) = Some st' → inv st' ∧ shrinks st st'.
Proof.
  intros H. inv_exec H. rewrite bind_get_weak in H.
  destruct (weak st !! w) as [t|] eqn:Hw; [|discriminate H].
  pose proof (release_weak st w t (delete w (weak st)) Hinv Hw) as Hrel.
  unfold M_bind in H.
  destruct (WeakPtr_Decrement t st) as [[] st1|e st1|u];
    [|destruct Hrel; refs_tac|discriminate H].
  destruct Hrel as [[Hi Hs] [Hsh Hwk]]; [refs_tac|].
  unfold del_weak in H. injection H as <-. norm_state. rewrite Hwk.
  split; [exact Hi|]. apply grows_shrinks in Hs. by eapply shrinks_same.
Qed.

Lemma step_WpReset_sound w :
  exec st (WpReset w) = Some st' → inv st' ∧ shrinks st st'.
Proof.
  intros H. inv_exec H. rewrite bind_get_weak in H.
  destruct (weak st !! w) as [t|] eqn:Hw; [|discriminate H].
  pose proof (release_weak st w t (<[w := mkHandle nullptr nullptr]> (weak st)) Hinv Hw)
    as Hrel.
  unfold M_bind in H.
  destruct (WeakPtr_Decrement t st) as [[] st1|e st1|u];
    [|destruct Hrel; refs_tac|discriminate H].
  destruct Hrel as [[Hi Hs] [Hsh Hwk]]; [refs_tac|].
  unfold put_weak in H. injection H as <-. norm_state. rewrite Hwk.
  split; [exact Hi|]. apply grows_shrinks in Hs. by eapply shrinks_same.
Qed.

Lemma step_WpAssignCopy_sound w src :
  exec st (WpAssignCopy w src) = Some st' → inv st' ∧ shrinks st st'.
Proof.
  intros H. inv_exec H.
  destruct (decide (w = src)) as [->|Hne].
  { rewrite bool_decide_eq_false_2 in H by auto. injection H as <-.
    split; [exact Hinv|apply shrinks_refl]. }
  rewrite bool_decide_eq_true_2 in H by exact Hne.
  rewrite bind_get_weak in H.
  destruct (weak st !! w) as [t|] eqn:Hw; [|discriminate H].
  rewrite bind_get_weak in H.
  destruct (weak st !! src) as [o|] eqn:Hsrc; [|discriminate H].
  pose proof (release_weak st w t (<[w := mkHandle nullptr nullptr]> (weak st)) Hinv Hw)
    as Hrel.
  unfold WeakPtr_assign_copy_body in H. unfold M_bind at 1 2 in H.
  destruct (WeakPtr_Decrement t st) as [[] st1|e st1|u];
    [|destruct Hrel; refs_tac|discriminate H].
  destruct Hrel as [[Hi Hs] [Hsh Hwk]]; [refs_tac|].
  cbn [block_] in H.
  destruct (block_ o) as [b|] eqn:Hos; cbn [non_null] in H.
  - destruct (inv_weak_owner _ src o b Hi) as (cb & Hb & Hf & Hs1 & Hbi);
      [cbn [weak]; rewrite lookup_insert_ne by exact Hne; exact Hsrc|exact Hos|].
    cbn [blocks] in Hb.
    rewrite (bind_modify _ _ _ _ _ Hb Hf) in H.
    unfold M_ret, put_weak in H. injection H as <-. norm_state. rewrite Hwk.
    destruct (acquire_weak _ b cb (mkHandle (ptr_ o) (Some b))
                 (<[w := mkHandle (ptr_ o) (Some b)]> (weak st)) Hi Hb Hf)
      as [Hi' Hg]; [reflexivity|refs_tac|].
    split; [exact Hi'|]. apply grows_shrinks.
    by eapply grows_trans; [exact Hs|..|exact Hg].
  - unfold M_ret, put_weak in H. injection H as <-. norm_state. rewrite Hwk. split.
    + apply (inv_ext _ _ _ Hi); [reflexivity|refs_tac].
    + apply grows_shrinks in Hs. by eapply shrinks_same.
Qed.

Lemma step_WpAssignMove_sound w src :
  exec st (WpAssignMove w src) = Some st' → inv st' ∧ shrinks st st'.
Proof.
  intros H. inv_exec H.
  destruct (decide (w = src)) as [->|Hne].
  { rewrite bool_decide_eq_true_2 in H by auto. injection H as <-.
    split; [exact Hinv|apply shrinks_refl]. }
  rewrite bool_decide_eq_false_2 in H by exact Hne.
  rewrite bind_get_weak in H.
  destruct (weak st !! w) as [t|] eqn:Hw; [|discriminate H].
  rewrite bind_get_weak in H.
  destruct (weak st !! src) as [o|] eqn:Hsrc; [|discriminate H].
  pose proof (release_weak st w t (<[w := mkHandle nullptr nullptr]> (weak st)) Hinv Hw)
    as Hrel.
  unfold WeakPtr_assign_move_body in H. unfold M_bind in H.
  destruct (WeakPtr_Decrement t st) as [[] st1|e st1|u];
    [|destruct Hrel; refs_tac|discriminate H].
  destruct Hrel as [[Hi Hs] [Hsh Hwk]]; [refs_tac|].
  unfold M_ret, put_weak in H. cbn [fst snd] in H. injection H as <-.
  norm_state. rewrite Hwk. split.
  - apply (inv_ext _ _ _ Hi); [reflexivity|refs_tac].
  - apply grows_shrinks in Hs. by eapply shrinks_same.
Qed.
Lemma get_weak_this_inv home r :
  get_weak_this home st = r →
  match r with
  | Ok w st1 =>
      st1 = st ∧ ∃ cb, blocks st !! home = Some cb ∧ freed cb = false
                       ∧ object_ cb = Alive (SelfRef w)
  | Throw _ _ => False
  | Undefined _ => True
  end.
Proof.
  intros <-. unfold get_weak_this, M_bind, load.
  destruct (blocks st !! home) as [cb|]; [|exact I].
  destruct (freed cb) eqn:Hf; [exact I|].
  destruct (object_ cb) as [|[|w]|] eqn:Ho; try exact I.
  split; [reflexivity|]. by exists cb.
Qed.

Lemma step_SpSharedFromThis_sound h home :
  exec st (SpSharedFromThis h home) = Some st' → inv st' ∧ shrinks st st'.
Proof.
  intros H. inv_exec H. unfold SharedFromThis in H. rewrite bind_assoc in H.
  pose proof (get_weak_this_inv home _ eq_refl) as Hg.
  unfold M_bind at 1 in H.
  destruct (get_weak_this home st) as [w st1|e st1|u]; [|destruct Hg|discriminate H].
  destruct Hg as (-> & cb & Hb & Hf & Ho).
  pose proof (Hinv home) as Hbi. rewrite Hb in Hbi.
  pose proof (bi_object _ _ _ Hbi) as Hobj. rewrite Ho in Hobj.
  destruct (bi_home _ _ _ Hbi w Ho) as [Hw|Hw].
  - rewrite (bind_ok _ _ _ _ _ (WeakPtr_Lock_null st w Hw)) in H.
    rewrite new_shared_eq in H.
    destruct (shared st !! h) eqn:Hh; [discriminate H|]. injection H as <-.
    norm_state. apply handles_only; [exact Hinv|refs_tac|reflexivity].
  - rewrite (bind_ok _ _ _ _ _ (WeakPtr_Lock_ok st w home cb Hw Hb Hf ltac:(lia))) in H.
    rewrite new_shared_eq in H. cbn [set_blocks shared] in H.
    destruct (shared st !! h) eqn:Hh; [discriminate H|]. injection H as <-.
    norm_state.
    destruct (acquire_shared st home cb (mkHandle (ptr_ w) (Some home))
                (<[h := mkHandle (ptr_ w) (Some home)]> (shared st)) Hinv Hb Hf)
      as [Hi Hg]; [lia|reflexivity|refs_tac|].
    split; [exact Hi|by apply grows_shrinks].
Qed.

Lemma step_WpWeakFromThis_sound a home :
  exec st (WpWeakFromThis a home) = Some st' → inv st' ∧ shrinks st st'.
Proof.
  intros H. inv_exec H. unfold WeakFromThis in H. rewrite bind_assoc in H.
  pose proof (get_weak_this_inv home _ eq_refl) as Hg.
  unfold M_bind at 1 in H.
  destruct (get_weak_this home st) as [w st1|e st1|u]; [|destruct Hg|discriminate H].
  destruct Hg as (-> & cb & Hb & Hf & Ho).
  pose proof (Hinv home) as Hbi. rewrite Hb in Hbi.
  destruct (bi_home _ _ _ Hbi w Ho) as [Hw|Hw].
  - rewrite (bind_ok _ _ _ _ _ (WeakPtr_copy_null st w Hw)) in H.
    rewrite new_weak_eq in H.
    destruct (weak st !! a) eqn:Ha; [discriminate H|]. injection H as <-.
    norm_state. apply handles_only; [exact Hinv|reflexivity|refs_tac].
  - rewrite (bind_ok _ _ _ _ _ (WeakPtr_copy_ok st w home cb Hw Hb Hf)) in H.
    rewrite new_weak_eq in H. cbn [set_blocks weak] in H.
    destruct (weak st !! a) eqn:Ha; [discriminate H|]. injection H as <-.
    norm_state.
    destruct (acquire_weak st home cb (mkHandle (ptr_ w) (Some home))
                (<[a := mkHandle (ptr_ w) (Some home)]> (weak st)) Hinv Hb Hf)
      as [Hi Hg]; [reflexivity|refs_tac|].
    split; [exact Hi|by apply grows_shrinks].
Qed.
End Sound.

Theorem exec_sound st st' op :
  inv st → exec st op = Some st' → inv st' ∧ shrinks st st'.
Proof.
  intros Hinv. destruct op.
  - by apply step_SpDefault_sound.
  - by apply step_SpFromRaw_sound.
  - by apply step_SpMakeShared_sound.
  - by apply step_SpCopy_sound.
  - by apply step_SpMove_sound.
  - by apply step_SpAlias_sound.
  - by apply step_SpFromWeak_sound.
  - by apply step_SpAssignCopy_sound.
  - by apply step_SpAssignMove_sound.
  - by apply step_SpReset_sound.
  - by apply step_SpResetPtr_sound.
  - by apply step_SpSwap_sound.
  - by apply step_SpDtor_sound.
  - by apply step_WpDefault_sound.
  - by apply step_WpCopy_sound.
  - by apply step_WpMove_sound.
  - by apply step_WpFromShared_sound.
  - by apply step_WpAssignCopy_sound.
  - by apply step_WpAssignMove_sound.
  - by apply step_WpReset_sound.
  - by apply step_WpSwap_sound.
  - by apply step_WpLock_sound.
  - by apply step_WpDtor_sound.
  - by apply step_SpSharedFromThis_sound.
  - by apply step_WpWeakFromThis_sound.
Qed.

Lemma run_inv ops st st' : inv st → run st ops = Some st' → inv st'.
Proof.
  revert st. induction ops as [|op ops IH]; intros st Hinv H; cbn in H.
  - by injection H as <-.
  - destruct (exec st op) as [st1|] eqn:Hop; [|discriminate H].
    apply (IH st1); [|exact H]. by apply (exec_sound st st1 op).
Qed.

(** ** Destruction of the managed object and of the control block *)

Lemma new_events_app st st' evs :
  trace st' = trace st ++ evs → new_events st st' = evs.
Proof. intros H. unfold new_events. rewrite H. apply drop_app_length. Qed.

Lemma reachable_inv ops st : run init ops = Some st → inv st.
Proof. apply run_inv, inv_init. Qed.


Lemma step_block_deleted st st' b :
  inv st → inv st' → shrinks st st' →
  count_ev (EvDeleteBlock b) (new_events st st')
  = if decide (freed_of st b = Some false ∧ freed_of st' b = Some true) then 1 else 0.
Proof.
  intros Hi Hi' [[evs Ht] Hb]. rewrite (new_events_app _ _ _ Ht).
  specialize (Hi b). specialize (Hi' b). specialize (Hb b). unfold freed_of.
  pose proof (count_ev_nonneg (EvDeleteBlock b) evs) as Hnn.
  assert (Hc : count_ev (EvDeleteBlock b) evs
               = count_ev (EvDeleteBlock b) (trace st') - count_ev (EvDeleteBlock b) (trace st)).
  { rewrite Ht, count_ev_app. lia. }
  rewrite Hc in *. clear Hc.
  destruct (blocks st !! b) as [cb|].
  - destruct Hb as (cb' & Hb' & _). rewrite Hb' in *. cbn.
    rewrite (bi_block_deleted _ _ _ Hi), (bi_block_deleted _ _ _ Hi') in *.
    destruct (freed cb), (freed cb'); case_decide as Hd; try lia;
      try (destruct Hd; split; reflexivity); destruct Hd; discriminate.
  - cbn. rewrite decide_False by (intros [? ?]; discriminate).
    rewrite (un_block_deleted _ _ Hi).
    destruct (blocks st' !! b) as [cb'|].
    + specialize (Hb cb' eq_refl). rewrite (bi_block_deleted _ _ _ Hi').
      rewrite (bi_freed _ _ _ Hi'). zcases; lia.
    + rewrite (un_block_deleted _ _ Hi'). lia.
Qed.

Lemma WeakPtr_UseCount_null st x :
  block_ x = None → WeakPtr_UseCount x st = Ok 0 st.
Proof. intros Hx. unfold WeakPtr_UseCount. by rewrite Hx. Qed.

Lemma WeakPtr_UseCount_ok st x b cb :
  block_ x = Some b → blocks st !! b = Some cb → freed cb = false →
  WeakPtr_UseCount x st = Ok (strong_counter_ cb) st.
Proof.
  intros Hx Hb Hf. unfold WeakPtr_UseCount, read. rewrite Hx. cbn [non_null].
  by rewrite (bind_ok _ _ _ _ _ (load_ok _ _ _ Hb Hf)).
Qed.

Lemma WeakPtr_Expired_null st x :
  block_ x = None → WeakPtr_Expired x st = Ok true st.
Proof.
  intros Hx. unfold WeakPtr_Expired.
  by rewrite (bind_ok _ _ _ _ _ (WeakPtr_UseCount_null _ _ Hx)).
Qed.

Lemma WeakPtr_Expired_ok st x b cb :
  block_ x = Some b → blocks st !! b = Some cb → freed cb = false →
  WeakPtr_Expired x st = Ok (strong_counter_ cb =? 0) st.
Proof.
  intros Hx Hb Hf. unfold WeakPtr_Expired.
  by rewrite (bind_ok _ _ _ _ _ (WeakPtr_UseCount_ok _ _ _ _ Hx Hb Hf)).
Qed.

(** ** Promotion of a WeakPtr *)

(** C3, the unbound case.  SharedPtr(const WeakPtr<X>&) evaluates
    [block_->GetStrongCounter() == 0] before [!block_]: for a WeakPtr whose
    block pointer is null the constructor reads through the null pointer
    instead of throwing BadWeakPtr. *)
Theorem promotion_of_unbound_WeakPtr st p h w :
  SharedPtr_from_weak (mkHandle p nullptr) st = Undefined NullDeref
  ∧ step (SpFromWeak h w) (set_weak <[w := mkHandle nullptr nullptr]> st)
    = Undefined NullDeref
  ∧ exec (set_weak <[w := mkHandle nullptr nullptr]> st) (SpFromWeak h w) = None.
Proof.
  split; [reflexivity|].
  assert (step (SpFromWeak h w) (set_weak <[w := mkHandle nullptr nullptr]> st)
          = Undefined NullDeref) as H.
  { cbn [step]. rewrite bind_get_weak. cbn [set_weak weak].
    rewrite lookup_insert_eq. reflexivity. }
  split; [exact H|]. unfold exec. by rewrite H.
Qed.

(** The bound cases of the promoting constructor: BadWeakPtr and an untouched
    store when the strong counter is 0, one more strong owner otherwise. *)
Lemma promotion_of_bound_WeakPtr st o b cb :
  block_ o = Some b → blocks st !! b = Some cb → freed cb = false →
  SharedPtr_from_weak o st
  = if decide (strong_counter_ cb = 0) then Throw BadWeakPtr st
    else Ok (mkHandle (ptr_ o) (Some b))
            (set_blocks <[b := mkBlock (strong_counter_ cb + 1) (weak_counter_ cb)
                                      (GetPointer cb) (object_ cb) (freed cb)]> st).
Proof.
  intros Ho Hb Hf. case_decide.
  - by apply (SharedPtr_from_weak_expired _ _ b cb).
  - by apply (SharedPtr_from_weak_ok _ _ b cb).
Qed.

(** ** Lock, Expired, UseCount *)

(** C5. For every WeakPtr of a program: unbound, Lock() returns the empty
    SharedPtr, Expired() is true and UseCount() is 0; bound, its block is
    allocated, UseCount() is the strong counter, Expired() tells whether that
    counter is 0, and Lock() returns the empty SharedPtr when it is 0 and
    else a SharedPtr with the pointer and block of the WeakPtr, after adding
    one to the strong counter and changing nothing else. *)
Theorem WeakPtr_Lock_Expired_UseCount ops st a w :
  run init ops = Some st → weak st !! a = Some w →
  match block_ w with
  | None =>
      WeakPtr_Lock w st = Ok (mkHandle nullptr nullptr) st
      ∧ WeakPtr_Expired w st = Ok true st
      ∧ WeakPtr_UseCount w st = Ok 0 st
  | Some b =>
      ∃ cb, blocks st !! b = Some cb
        ∧ WeakPtr_UseCount w st = Ok (strong_counter_ cb) st
        ∧ WeakPtr_Expired w st = Ok (bool_decide (strong_counter_ cb = 0)) st
        ∧ WeakPtr_Lock w st
          = if decide (strong_counter_ cb = 0) then Ok (mkHandle nullptr nullptr) st
            else Ok (mkHandle (ptr_ w) (Some b))
                    (mkState (<[b := mkBlock (strong_counter_ cb + 1) (weak_counter_ cb)
                                             (GetPointer cb) (object_ cb) (freed cb)]>
                                (blocks st))
                             (shared st) (weak st) (trace st))
  end.
Proof.
  intros Hrun Hw. pose proof (reachable_inv _ _ Hrun) as Hi.
  destruct (block_ w) as [b|] eqn:Hb.
  - destruct (inv_weak_owner _ _ _ _ Hi Hw Hb) as (cb & Hcb & Hf & _ & _).
    exists cb. split; [exact Hcb|]. split; [by apply (WeakPtr_UseCount_ok _ _ b)|].
    split.
    + rewrite (WeakPtr_Expired_ok _ _ b cb) by done.
      f_equal. zcases; case_bool_decide; done.
    + case_decide.
      * by apply (WeakPtr_Lock_expired _ _ b cb).
      * by apply (WeakPtr_Lock_ok _ _ b cb).
  - split; [by apply WeakPtr_Lock_null|].
    split; [by apply WeakPtr_Expired_null|by apply WeakPtr_UseCount_null].
Qed.

Lemma WeakPtr_Lock_Expired_UseCount_witness :
  ∃ st w,
    run init [SpMakeShared KPlain 0%nat; WpFromShared 1%nat 0%nat] = Some st
    ∧ weak st !! 1%nat = Some w
    ∧ WeakPtr_UseCount w st = Ok 1 st
    ∧ WeakPtr_Expired w st = Ok false st.
Proof.
  eexists _, _.
  split; [vm_compute; reflexivity|].
  split; [vm_compute; reflexivity|].
  pose proof (WeakPtr_Lock_Expired_UseCount
                [SpMakeShared KPlain 0%nat; WpFromShared 1%nat 0%nat] _ 1%nat _
                ltac:(vm_compute; reflexivity) ltac:(vm_compute; reflexivity)) as H.
  cbn [block_] in H. destruct H as (cb & Hcb & Hu & He & _).
  vm_compute in Hcb. injection Hcb as <-.
  split; [exact Hu|exact He].
Defined.

(** ** Equality of SharedPtrs *)

(** C8. operator== holds exactly when both the stored pointers and the block
    pointers are equal: two aliasing handles over different blocks are
    unequal although Get() agrees, and two handles over one block that
    observe different pointers are unequal. *)
Theorem SharedPtr_eq_iff left right :
  (SharedPtr_eq left right = true
   ↔ SharedPtr_Get left = SharedPtr_Get right
     ∧ SharedPtr_GetBlock left = SharedPtr_GetBlock right)
  ∧ (∀ st st1 st2 a b p x y,
       SharedPtr_alias a p st = Ok x st1 → SharedPtr_alias b p st1 = Ok y st2 →
       block_ a ≠ block_ b →
       SharedPtr_Get x = SharedPtr_Get y ∧ SharedPtr_eq x y = false)
  ∧ (∀ st st1 st2 a p q x y,
       SharedPtr_alias a p st = Ok x st1 → SharedPtr_alias a q st1 = Ok y st2 →
       p ≠ q →
       SharedPtr_GetBlock x = SharedPtr_GetBlock y ∧ SharedPtr_eq x y = false).
Proof.
  split; [|split].
  - unfold SharedPtr_eq. rewrite andb_true_iff, !bool_decide_eq_true. reflexivity.
  - intros st st1 st2 a b p x y Hx Hy Hne.
    unfold SharedPtr_alias, M_bind, M_ret in Hx, Hy. cbn [block_] in Hx, Hy.
    destruct (_ st) in Hx; try discriminate Hx. injection Hx as <- _.
    destruct (_ st1) in Hy; try discriminate Hy. injection Hy as <- _.
    split; [reflexivity|]. unfold SharedPtr_eq, SharedPtr_GetBlock. cbn [block_].
    rewrite (bool_decide_eq_false_2 (block_ a = block_ b)) by exact Hne.
    apply andb_false_r.
  - intros st st1 st2 a p q x y Hx Hy Hne.
    unfold SharedPtr_alias, M_bind, M_ret in Hx, Hy. cbn [block_] in Hx, Hy.
    destruct (_ st) in Hx; try discriminate Hx. injection Hx as <- _.
    destruct (_ st1) in Hy; try discriminate Hy. injection Hy as <- _.
    split; [reflexivity|]. unfold SharedPtr_eq, SharedPtr_Get. cbn [ptr_].
    by rewrite (bool_decide_eq_false_2 (p = q)) by exact Hne.
Qed.

Lemma SharedPtr_eq_iff_witness :
  ∃ x y st1 st2,
    SharedPtr_alias (mkHandle (Some 5%nat) nullptr) (Some 7%nat)
      (state_after [SpMakeShared KPlain 0%nat]) = Ok x st1
    ∧ SharedPtr_alias (mkHandle (Some 0%nat) (Some 0%nat)) (Some 7%nat) st1 = Ok y st2
    ∧ SharedPtr_Get x = SharedPtr_Get y ∧ SharedPtr_eq x y = false.
Proof.
  eexists _, _, _, _.
  split; [vm_compute; reflexivity|].
  split; [vm_compute; reflexivity|].
  refine (proj1 (proj2 (SharedPtr_eq_iff null_handle null_handle))
            (state_after [SpMakeShared KPlain 0%nat]) _ _
            (mkHandle (Some 5%nat) nullptr) (mkHandle (Some 0%nat) (Some 0%nat))
            (Some 7%nat) _ _ _ _ _).
  - vm_compute; reflexivity.
  - vm_compute; reflexivity.
  - vm_compute. discriminate.
Defined.

(** ** Teardown of an object with the self-reference mixin *)

Lemma self_reg_wired b cb w :
  object_ cb = Alive (SelfRef w) → block_ w = Some b → self_reg b cb = 1.
Proof. intros Ho Hw. unfold self_reg, owns. rewrite Ho. by rewrite decide_True. Qed.

Lemma SharedPtr_Decrement_last_wired st t b cb w :
  block_ t = Some b → blocks st !! b = Some cb → freed cb = false →
  strong_counter_ cb = 1 → object_ cb = Alive (SelfRef w) → block_ w = Some b →
  1 ≤ weak_counter_ cb →
  SharedPtr_Decrement t st
  = Ok tt (mkState
             (<[b := mkBlock 0 (weak_counter_ cb - 1) (GetPointer cb) Destroyed
                             (weak_counter_ cb - 1 =? 0)]> (blocks st))
             (shared st) (weak st)
             (trace st ++ EvDeleteObject b ::
                (if weak_counter_ cb - 1 =? 0 then [EvDeleteBlock b] else []))).
Proof.
  intros Ht Hb Hf Hs Ho Hw Hwk.
  pose proof (self_reg_wired b cb w Ho Hw) as Hreg.
  rewrite (SharedPtr_Decrement_last st t b cb Ht Hb Hf Hs).
  - unfold released, released_events. by rewrite Hreg, Ho.
  - by rewrite Ho.
  - intros w' Hw'. rewrite Ho in Hw'. by injection Hw' as <-.
  - lia.
Qed.

Lemma step_SpDtor_last_wired st h p b :
  shared st !! h = Some (mkHandle p (Some b)) →
  blocks st !! b = Some (wired_block p b) →
  step (SpDtor h) st
  = Ok tt (mkState (<[b := mkBlock 0 0 p Destroyed true]> (blocks st))
                   (delete h (shared st)) (weak st)
                   (trace st ++ [EvDeleteObject b; EvDeleteBlock b])).
Proof.
  intros Hh Hb. cbn [step]. unfold SharedPtr_dtor.
  rewrite bind_get_shared, Hh.
  rewrite (bind_ok _ _ _ _ _
             (SharedPtr_Decrement_last_wired st (mkHandle p (Some b)) b (wired_block p b)
                (mkHandle p (Some b))
                eq_refl Hb eq_refl eq_refl eq_refl eq_refl ltac:(cbn; lia))).
  reflexivity.
Qed.

(** C4. The destructor of the mixin takes one off the weak counter of the
    block weak_this_ refers to and nothing else (the member is nulled, so its
    own destructor does nothing).  Releasing the last SharedPtr of a wired
    object destroys the object once, leaves the weak counter exactly one
    lower, and frees the block once if no other WeakPtr remains.  An object
    wired by the raw-pointer constructor or by MakeShared and then released
    ends with both counters 0, destroyed and freed once. *)
Theorem self_reference_teardown st :
  (∀ w b cb, block_ w = Some b → blocks st !! b = Some cb → freed cb = false →
     destroy_EnableSharedFromThis w st
     = Ok tt (set_blocks <[b := mkBlock (strong_counter_ cb) (weak_counter_ cb - 1)
                                        (GetPointer cb) (object_ cb) (freed cb)]> st))
  ∧ (∀ t b cb w,
       block_ t = Some b → blocks st !! b = Some cb → freed cb = false →
       strong_counter_ cb = 1 → object_ cb = Alive (SelfRef w) → block_ w = Some b →
       1 ≤ weak_counter_ cb →
       SharedPtr_Decrement t st
       = Ok tt (mkState
                  (<[b := mkBlock 0 (weak_counter_ cb - 1) (GetPointer cb) Destroyed
                                  (weak_counter_ cb - 1 =? 0)]> (blocks st))
                  (shared st) (weak st)
                  (trace st ++ EvDeleteObject b ::
                     (if weak_counter_ cb - 1 =? 0 then [EvDeleteBlock b] else []))))
  ∧ (∀ h a, shared st !! h = None →
       ∃ st1 st2,
         step (SpFromRaw KMixin h (Some a)) st = Ok tt st1
         ∧ blocks st1 !! fresh (dom (blocks st))
           = Some (mkBlock 1 1 (Some a)
                     (Alive (SelfRef (mkHandle (Some a) (Some (fresh (dom (blocks st)))))))
                     false)
         ∧ step (SpDtor h) st1 = Ok tt st2
         ∧ blocks st2 !! fresh (dom (blocks st)) = Some (mkBlock 0 0 (Some a) Destroyed true)
         ∧ trace st2 = trace st ++ [EvDeleteObject (fresh (dom (blocks st)));
                                    EvDeleteBlock (fresh (dom (blocks st)))])
  ∧ (∀ h, shared st !! h = None →
       ∃ st1 st2,
         step (SpMakeShared KMixin h) st = Ok tt st1
         ∧ blocks st1 !! fresh (dom (blocks st))
           = Some (mkBlock 1 1 (Some (fresh (dom (blocks st))))
                     (Alive (SelfRef (mkHandle (Some (fresh (dom (blocks st))))
                                               (Some (fresh (dom (blocks st)))))))
                     false)
         ∧ step (SpDtor h) st1 = Ok tt st2
         ∧ blocks st2 !! fresh (dom (blocks st))
           = Some (mkBlock 0 0 (Some (fresh (dom (blocks st)))) Destroyed true)
         ∧ trace st2 = trace st ++ [EvDeleteObject (fresh (dom (blocks st)));
                                    EvDeleteBlock (fresh (dom (blocks st)))]).
Proof.
  split; [|split; [|split]].
  - intros w b cb Hw Hb Hf. by apply destroy_EnableSharedFromThis_ok.
  - intros t b cb w. apply SharedPtr_Decrement_last_wired.
  - intros h a Hh. set (b := fresh (dom (blocks st))).
    eexists _, _. split.
    { cbn [step]. rewrite (bind_ok _ _ _ _ _ (SharedPtr_from_raw_mixin st a)).
      rewrite new_shared_eq. cbn [set_blocks shared]. rewrite Hh. reflexivity. }
    split; [cbn; apply lookup_insert_eq|]. split.
    { apply (step_SpDtor_last_wired _ h (Some a) b); cbn; apply lookup_insert_eq. }
    split; [cbn; apply lookup_insert_eq|reflexivity].
  - intros h Hh. set (b := fresh (dom (blocks st))).
    eexists _, _. split.
    { cbn [step]. rewrite (bind_ok _ _ _ _ _ (MakeShared_mixin st)).
      rewrite new_shared_eq. cbn [set_blocks shared]. rewrite Hh. reflexivity. }
    split; [cbn; apply lookup_insert_eq|]. split.
    { apply (step_SpDtor_last_wired _ h (Some b) b); cbn; apply lookup_insert_eq. }
    split; [cbn; apply lookup_insert_eq|reflexivity].
Qed.

Lemma self_reference_teardown_witness :
  ∃ st1 st2,
    step (SpMakeShared KMixin 0%nat) init = Ok tt st1
    ∧ strong_of st1 0%nat = Some 1 ∧ weak_of st1 0%nat = Some 1
    ∧ step (SpDtor 0%nat) st1 = Ok tt st2
    ∧ strong_of st2 0%nat = Some 0 ∧ weak_of st2 0%nat = Some 0
    ∧ trace st2 = [EvDeleteObject 0%nat; EvDeleteBlock 0%nat].
Proof.
  destruct (proj2 (proj2 (proj2 (self_reference_teardown init))) 0%nat
              ltac:(reflexivity))
    as (st1 & st2 & H1 & Hb1 & H2 & Hb2 & Ht).
  exists st1, st2. unfold strong_of, weak_of.
  change (fresh (dom (blocks init))) with 0%nat in *.
  rewrite Hb1, Hb2. repeat split; assumption.
Defined.

(** ** An object with the mixin that no constructor wired *)

(** C10. The destructor of the mixin reads through the block pointer of
    weak_this_ whatever it is: on an object that was never wired this is a
    null pointer dereference.  The converting raw-pointer constructor wires
    only when the handle type X converts to EnableSharedFromThisBase, so an
    object whose own type derives from the mixin can be owned and left
    unwired; releasing its last SharedPtr then runs into the dereference.
    On a wired object the destructor is defined. *)
Theorem unwired_self_reference st :
  (∀ p, destroy_EnableSharedFromThis (mkHandle p nullptr) st = Undefined NullDeref)
  ∧ (∀ h a, shared st !! h = None →
       ∃ st1,
         step (SpFromRaw KMixinHidden h (Some a)) st = Ok tt st1
         ∧ shared st1 !! h = Some (mkHandle (Some a) (Some (fresh (dom (blocks st)))))
         ∧ blocks st1 !! fresh (dom (blocks st))
           = Some (mkBlock 1 0 (Some a) (Alive (SelfRef (mkHandle nullptr nullptr))) false)
         ∧ step (SpDtor h) st1 = Undefined NullDeref)
  ∧ (∀ w b cb, block_ w = Some b → blocks st !! b = Some cb → freed cb = false →
       ∃ st1, destroy_EnableSharedFromThis w st = Ok tt st1).
Proof.
  split; [|split].
  - intros p. reflexivity.
  - intros h a Hh. set (b := fresh (dom (blocks st))).
    eexists. split.
    { cbn [step].
      rewrite (bind_ok _ _ _ _ _ (SharedPtr_from_raw_plain st KMixinHidden (Some a) eq_refl)).
      rewrite new_shared_eq. cbn [set_blocks shared]. rewrite Hh. reflexivity. }
    split; [cbn; apply lookup_insert_eq|].
    split; [cbn; apply lookup_insert_eq|].
    cbn [step]. unfold SharedPtr_dtor. rewrite bind_get_shared.
    cbn [set_shared set_blocks shared]. rewrite lookup_insert_eq.
    apply bind_undefined.
    apply (SharedPtr_Decrement_unwired _ _ b
             (fresh_block (Some a) (Alive (new_object KMixinHidden))) nullptr);
      try reflexivity.
    cbn. apply lookup_insert_eq.
  - intros w b cb Hw Hb Hf. eexists. by apply (destroy_EnableSharedFromThis_ok _ _ b cb).
Qed.

Lemma unwired_self_reference_witness :
  ∃ st1,
    step (SpFromRaw KMixinHidden 0%nat (Some 42%nat)) init = Ok tt st1
    ∧ step (SpDtor 0%nat) st1 = Undefined NullDeref.
Proof.
  destruct (proj1 (proj2 (unwired_self_reference init)) 0%nat 42%nat ltac:(reflexivity))
    as (st1 & H1 & _ & _ & H2).
  exists st1. split; assumption.
Defined.

(** ** Copy and move *)

Lemma keeps_ret {A} (a : A) : keeps_handles (M_ret a).
Proof. intros st a' st' [= _ <-]. split; reflexivity. Qed.

Lemma keeps_undefined {A} u : keeps_handles (@undefined State A u).
Proof. intros st a st' H. discriminate H. Qed.

Lemma keeps_bind {A B} (m : M State A) (k : A → M State B) :
  keeps_handles m → (∀ a, keeps_handles (k a)) → keeps_handles (M_bind k m).
Proof.
  intros Hm Hk st b st' H. unfold M_bind in H.
  destruct (m st) as [a s1| |] eqn:Hms; try discriminate H.
  destruct (Hk a _ _ _ H) as [-> ->]. by apply (Hm _ _ _ Hms).
Qed.

Lemma keeps_load p : keeps_handles (load p).
Proof.
  intros st a st' H. unfold load in H.
  destruct p as [b|]; [|discriminate H].
  destruct (blocks st !! b) as [cb|]; [|discriminate H].
  destruct (freed cb); [discriminate H|]. injection H as _ <-. split; reflexivity.
Qed.

Lemma keeps_read {A} p (f : ControlBlock → A) : keeps_handles (read p f).
Proof. apply keeps_bind; [apply keeps_load|intros; apply keeps_ret]. Qed.

Lemma keeps_modify p f : keeps_handles (modify p f).
Proof.
  apply keeps_bind; [apply keeps_load|]. intros cb. destruct p; [|apply keeps_undefined].
  intros st a st' [= _ <-]. split; reflexivity.
Qed.

Lemma keeps_emit e : keeps_handles (emit e).
Proof. intros st a st' [= _ <-]. split; reflexivity. Qed.

Lemma keeps_delete_block p : keeps_handles (delete_block p).
Proof.
  apply keeps_bind; [apply keeps_load|]. intros cb. destruct p; [|apply keeps_undefined].
  apply keeps_bind; [apply keeps_modify|intros; apply keeps_emit].
Qed.

Lemma keeps_WeakPtr_Decrement t : keeps_handles (WeakPtr_Decrement t).
Proof.
  unfold WeakPtr_Decrement. destruct (non_null _); [|apply keeps_ret].
  apply keeps_bind; [apply keeps_modify|]. intros _.
  apply keeps_bind; [apply keeps_read|]. intros s.
  apply keeps_bind; [apply keeps_read|]. intros w.
  destruct (_ && _); [apply keeps_delete_block|apply keeps_ret].
Qed.

Lemma keeps_DeleteObject p : keeps_handles (DeleteObject p).
Proof.
  apply keeps_bind; [apply keeps_load|]. intros cb.
  apply keeps_bind.
  { destruct p; [apply keeps_emit|apply keeps_undefined]. }
  intros _. destruct (object_ cb) as [|[|w]|].
  - apply keeps_ret.
  - apply keeps_bind; [apply keeps_ret|intros; apply keeps_modify].
  - apply keeps_bind; [|intros; apply keeps_modify].
    apply keeps_bind; [apply keeps_modify|intros; apply keeps_WeakPtr_Decrement].
  - apply keeps_undefined.
Qed.

Lemma keeps_SharedPtr_Decrement t : keeps_handles (SharedPtr_Decrement t).
Proof.
  unfold SharedPtr_Decrement. destruct (non_null _); [|apply keeps_ret].
  apply keeps_bind; [apply keeps_modify|]. intros _.
  apply keeps_bind; [apply keeps_read|]. intros s.
  apply keeps_bind; [apply keeps_read|]. intros w.
  destruct (_ && negb _).
  - apply keeps_bind; [apply keeps_DeleteObject|]. intros _.
    apply keeps_bind; [apply keeps_read|]. intros w'.
    destruct (_ =? _); [apply keeps_delete_block|apply keeps_ret].
  - destruct (_ && _); [|apply keeps_ret].
    apply keeps_bind; [apply keeps_DeleteObject|intros; apply keeps_delete_block].
Qed.

(** The copy constructor does not look at the handle stores. *)
Lemma SharedPtr_copy_set_shared o f st :
  SharedPtr_copy o (set_shared f st)
  = match SharedPtr_copy o st with
    | Ok x s => Ok x (set_shared f s)
    | Throw e s => Throw e s
    | Undefined u => Undefined u
    end.
Proof.
  unfold SharedPtr_copy, modify, load, M_bind, M_ret. cbn [block_].
  destruct (block_ o) as [b|]; [|reflexivity]. cbn [non_null].
  change (blocks (set_shared f st)) with (blocks st).
  destruct (blocks st !! b) as [cb|]; [|reflexivity].
  destruct (freed cb); reflexivity.
Qed.

Lemma SharedPtr_Reset_empty st h t :
  shared st !! h = Some t → block_ t = None →
  SharedPtr_Reset h st = Ok tt (set_shared <[h := mkHandle nullptr nullptr]> st).
Proof.
  intros Hh Ht. unfold SharedPtr_Reset. rewrite bind_get_shared, Hh.
  by rewrite (bind_ok _ _ _ _ _ (SharedPtr_Decrement_null st t Ht)).
Qed.

Lemma assign_copy_is_release_then_copy st h src :
  h ≠ src → is_Some (shared st !! h) → is_Some (shared st !! src) →
  step (SpAssignCopy h src) st = (SharedPtr_Reset h ;> construct_copy_at h src) st.
Proof.
  intros Hne [t Hh] [o Hsrc]. cbn [step].
  unfold SharedPtr_assign_copy, SharedPtr_Reset, construct_copy_at.
  rewrite bool_decide_eq_true_2 by exact Hne.
  rewrite bind_get_shared, Hh, bind_get_shared, Hsrc.
  unfold SharedPtr_assign_copy_body.
  rewrite (bind_assoc (get_shared h)), bind_get_shared, Hh.
  rewrite !(bind_assoc (SharedPtr_Decrement t)).
  apply bind_cong. intros [] st1 Hd.
  destruct (keeps_SharedPtr_Decrement t _ _ _ Hd) as [Hsh _].
  rewrite bind_put_shared, bind_get_shared. cbn [set_shared shared].
  rewrite lookup_insert_ne by exact Hne. rewrite Hsh, Hsrc.
  change ((if non_null (block_ (mkHandle (ptr_ o) (block_ o)))
           then modify (block_ (mkHandle (ptr_ o) (block_ o))) IncreaseStrongCounter
           else M_ret ()) ;> M_ret (mkHandle (ptr_ o) (block_ o)))
    with (SharedPtr_copy o).
  unfold M_bind.
  change (mkState (blocks st1) (<[h := mkHandle nullptr nullptr]> (shared st1))
            (weak st1) (trace st1))
    with (set_shared <[h := mkHandle nullptr nullptr]> st1).
  rewrite SharedPtr_copy_set_shared.
  destruct (SharedPtr_copy o st1) as [x st2|e st2|u]; [|reflexivity..].
  unfold put_shared, set_shared. cbn [blocks shared weak trace].
  by rewrite insert_insert_eq.
Qed.

Lemma assign_move_is_release_then_move st h src :
  h ≠ src → is_Some (shared st !! h) → is_Some (shared st !! src) →
  step (SpAssignMove h src) st = (SharedPtr_Reset h ;> construct_move_at h src) st.
Proof.
  intros Hne [t Hh] [o Hsrc]. cbn [step].
  unfold SharedPtr_assign_move, SharedPtr_Reset, construct_move_at.
  rewrite bool_decide_eq_false_2 by exact Hne.
  rewrite bind_get_shared, Hh, bind_get_shared, Hsrc.
  unfold SharedPtr_assign_move_body.
  rewrite (bind_assoc (get_shared h)), bind_get_shared, Hh.
  rewrite !(bind_assoc (SharedPtr_Decrement t)).
  apply bind_cong. intros [] st1 Hd.
  destruct (keeps_SharedPtr_Decrement t _ _ _ Hd) as [Hsh _].
  rewrite bind_put_shared, bind_get_shared. cbn [set_shared shared].
  rewrite lookup_insert_ne by exact Hne. rewrite Hsh, Hsrc.
  unfold M_bind, M_ret, put_shared, set_shared.
  cbn [blocks shared weak trace fst snd SharedPtr_move].
  by rewrite insert_insert_eq.
Qed.

(** C6 as stated fails for assignment between two handles that share a
    block: copy assignment leaves the strong counter where it was, and move
    assignment lowers it by one. *)
Lemma assignment_between_sharing_handles :
  strong_of (state_after [SpMakeShared KPlain 0%nat; SpCopy 1%nat 0%nat]) 0%nat = Some 2
  ∧ (∃ st', step (SpAssignCopy 0%nat 1%nat)
              (state_after [SpMakeShared KPlain 0%nat; SpCopy 1%nat 0%nat]) = Ok tt st'
            ∧ strong_of st' 0%nat = Some 2)
  ∧ (∃ st', step (SpAssignMove 0%nat 1%nat)
              (state_after [SpMakeShared KPlain 0%nat; SpCopy 1%nat 0%nat]) = Ok tt st'
            ∧ strong_of st' 0%nat = Some 1
            ∧ strong_of st' 0%nat
              ≠ strong_of (state_after [SpMakeShared KPlain 0%nat; SpCopy 1%nat 0%nat]) 0%nat).
Proof.
  split; [vm_compute; reflexivity|]. split.
  - eexists. split; vm_compute; reflexivity.
  - eexists. split; [vm_compute; reflexivity|]. split; [vm_compute; reflexivity|].
    vm_compute. discriminate.
Qed.

(** C6, amended.  Copy construction from a bound SharedPtr shares its block
    and adds exactly one to the strong counter; move construction hands over
    the pair, touches no block and leaves the source null.  Copy and move
    assignment between two distinct handles first release the binding of the
    destination as Reset() does and then act as the constructor: with an
    empty destination copy assignment adds exactly one to the strong counter
    of the source's block and move assignment touches no block.  The
    MakeShared / copy / destroy / destroy scenario reads use counts 1, 2, 2,
    1 and destroys the object at the last step only. *)
Theorem SharedPtr_copy_and_move st h src o :
  shared st !! src = Some o →
  (∀ b cb, shared st !! h = None → block_ o = Some b → blocks st !! b = Some cb →
     freed cb = false →
     step (SpCopy h src) st
     = Ok tt (mkState (<[b := mkBlock (strong_counter_ cb + 1) (weak_counter_ cb)
                                      (GetPointer cb) (object_ cb) (freed cb)]> (blocks st))
                      (<[h := mkHandle (ptr_ o) (Some b)]> (shared st))
                      (weak st) (trace st)))
  ∧ (shared st !! h = None →
     step (SpMove h src) st
     = Ok tt (mkState (blocks st)
                      (<[h := mkHandle (ptr_ o) (block_ o)]>
                         (<[src := mkHandle nullptr nullptr]> (shared st)))
                      (weak st) (trace st)))
  ∧ (h ≠ src → is_Some (shared st !! h) →
     step (SpAssignCopy h src) st = (SharedPtr_Reset h ;> construct_copy_at h src) st
     ∧ step (SpAssignMove h src) st = (SharedPtr_Reset h ;> construct_move_at h src) st)
  ∧ (∀ t, h ≠ src → shared st !! h = Some t → block_ t = None →
     step (SpAssignMove h src) st
     = Ok tt (mkState (blocks st)
                      (<[src := mkHandle nullptr nullptr]>
                         (<[h := mkHandle (ptr_ o) (block_ o)]> (shared st)))
                      (weak st) (trace st))
     ∧ ∀ b cb, block_ o = Some b → blocks st !! b = Some cb → freed cb = false →
         step (SpAssignCopy h src) st
         = Ok tt (mkState (<[b := mkBlock (strong_counter_ cb + 1) (weak_counter_ cb)
                                          (GetPointer cb) (object_ cb) (freed cb)]>
                             (blocks st))
                          (<[h := mkHandle (ptr_ o) (Some b)]> (shared st))
                          (weak st) (trace st)))
  ∧ (∀ k, k ≠ KMixinHidden →
     UseCount_of (state_after [SpMakeShared k 0%nat]) 0%nat = Some 1
     ∧ UseCount_of (state_after [SpMakeShared k 0%nat; SpCopy 1%nat 0%nat]) 0%nat = Some 2
     ∧ UseCount_of (state_after [SpMakeShared k 0%nat; SpCopy 1%nat 0%nat]) 1%nat = Some 2
     ∧ UseCount_of (state_after [SpMakeShared k 0%nat; SpCopy 1%nat 0%nat; SpDtor 0%nat])
         1%nat = Some 1
     ∧ trace (state_after [SpMakeShared k 0%nat; SpCopy 1%nat 0%nat; SpDtor 0%nat]) = []
     ∧ run init [SpMakeShared k 0%nat; SpCopy 1%nat 0%nat; SpDtor 0%nat; SpDtor 1%nat]
       ≠ None
     ∧ trace (state_after [SpMakeShared k 0%nat; SpCopy 1%nat 0%nat; SpDtor 0%nat;
                           SpDtor 1%nat])
       = [EvDeleteObject 0%nat; EvDeleteBlock 0%nat]).
Proof.
  intros Hsrc. split; [|split; [|split; [|split]]].
  - intros b cb Hh Ho Hb Hf. cbn [step]. rewrite bind_get_shared, Hsrc.
    rewrite (bind_ok _ _ _ _ _ (SharedPtr_copy_ok st o b cb Ho Hb Hf)).
    rewrite new_shared_eq. cbn [set_blocks shared]. rewrite Hh. reflexivity.
  - intros Hh. cbn [step]. rewrite bind_get_shared, Hsrc.
    rewrite bind_put_shared, new_shared_eq. cbn [set_shared shared].
    rewrite lookup_insert_ne by congruence. rewrite Hh. reflexivity.
  - intros Hne Hh. split.
    + by apply assign_copy_is_release_then_copy.
    + by apply assign_move_is_release_then_move.
  - intros t Hne Hh Ht. split.
    + rewrite assign_move_is_release_then_move by eauto.
      rewrite (bind_ok _ _ _ _ _ (SharedPtr_Reset_empty st h t Hh Ht)).
      unfold construct_move_at. rewrite bind_get_shared. cbn [set_shared shared].
      rewrite lookup_insert_ne by exact Hne. rewrite Hsrc.
      unfold M_bind, put_shared, set_shared. cbn [blocks shared weak trace fst snd SharedPtr_move].
      by rewrite insert_insert_eq.
    + intros b cb Ho Hb Hf.
      rewrite assign_copy_is_release_then_copy by eauto.
      rewrite (bind_ok _ _ _ _ _ (SharedPtr_Reset_empty st h t Hh Ht)).
      unfold construct_copy_at. rewrite bind_get_shared. cbn [set_shared shared].
      rewrite lookup_insert_ne by exact Hne. rewrite Hsrc.
      rewrite (bind_ok _ _ _ _ _
                 (SharedPtr_copy_ok (set_shared _ st) o b cb Ho Hb Hf)).
      unfold put_shared, set_shared, set_blocks. cbn [blocks shared weak trace].
      by rewrite insert_insert_eq.
  - intros k Hk. destruct k; [|done|]; repeat split; try (vm_compute; reflexivity);
      vm_compute; discriminate.
Qed.

Lemma SharedPtr_copy_and_move_witness :
  ∃ st',
    step (SpCopy 1%nat 0%nat) (state_after [SpMakeShared KPlain 0%nat]) = Ok tt st'
    ∧ strong_of (state_after [SpMakeShared KPlain 0%nat]) 0%nat = Some 1
    ∧ strong_of st' 0%nat = Some 2.
Proof.
  eexists. split.
  - refine (proj1 (SharedPtr_copy_and_move (state_after [SpMakeShared KPlain 0%nat])
                     1%nat 0%nat (mkHandle (Some 0%nat) (Some 0%nat)) _)
              0%nat (mkBlock 1 0 (Some 0%nat) (Alive Plain) false) _ _ _ _);
      vm_compute; reflexivity.
  - split; vm_compute; reflexivity.
Defined.

(** ** UniquePtr *)

Section UniquePtr.
Context {Deleter : Type} `{Unique.DefaultConstructible Deleter} `{Unique.Movable Deleter}.
Implicit Types (st : Unique.Store Deleter) (d : Deleter) (p q r : ptr).

Lemma UniquePtr_Release_ok st a p d :
  Unique.objects st !! a = Some (Unique.mkPair p d) →
  Unique.UniquePtr_Release a st
  = Ok p (Unique.mkStore (<[a := Unique.mkPair nullptr d]> (Unique.objects st))
                         (Unique.calls st)).
Proof.
  intros Ha. unfold Unique.UniquePtr_Release, M_bind, Unique.get. by rewrite Ha.
Qed.

Lemma UniquePtr_Reset_ok st a p d q :
  Unique.objects st !! a = Some (Unique.mkPair p d) →
  Unique.UniquePtr_Reset a q st
  = Ok tt (Unique.mkStore (<[a := Unique.mkPair q d]> (Unique.objects st))
                          (Unique.calls st ++ [(d, p)])).
Proof.
  intros Ha. unfold Unique.UniquePtr_Reset, M_bind, Unique.get. by rewrite Ha.
Qed.

Lemma UniquePtr_dtor_owning st a p d :
  Unique.objects st !! a = Some (Unique.mkPair p d) → p ≠ nullptr →
  Unique.UniquePtr_dtor a st
  = Ok tt (Unique.mkStore (delete a (Unique.objects st)) (Unique.calls st ++ [(d, p)])).
Proof.
  intros Ha Hp. unfold Unique.UniquePtr_dtor, M_bind, Unique.get. rewrite Ha.
  by destruct p.
Qed.

Lemma UniquePtr_dtor_empty st a d :
  Unique.objects st !! a = Some (Unique.mkPair nullptr d) →
  Unique.UniquePtr_dtor a st
  = Ok tt (Unique.mkStore (delete a (Unique.objects st)) (Unique.calls st)).
Proof.
  intros Ha. unfold Unique.UniquePtr_dtor, M_bind, Unique.get. by rewrite Ha.
Qed.

(** Reset, operator=(UniquePtr&&) and operator=(nullptr_t) call the policy
    without looking at the pointer: on an empty UniquePtr the policy is
    called with a null pointer (the destructor does test the pointer). *)
Lemma UniquePtr_Reset_empty_calls_policy st a d q :
  Unique.objects st !! a = Some (Unique.mkPair nullptr d) →
  Unique.UniquePtr_Reset a q st
  = Ok tt (Unique.mkStore (<[a := Unique.mkPair q d]> (Unique.objects st))
                          (Unique.calls st ++ [(d, nullptr)])).
Proof. apply UniquePtr_Reset_ok. Qed.

(** C9. For a UniquePtr that owns p with deleter d: Release() returns p,
    nulls the stored pointer and calls no policy; Reset(q) calls the policy
    once, on p, and stores q; after move construction or move assignment
    into another UniquePtr the source holds null (with the deleter the move
    left it) and the destination holds p with d, and the destructor of the
    destination calls the policy once, on p (the destructor of the source
    calls nothing). *)
Theorem UniquePtr_Release_Reset_move st a p d :
  Unique.objects st !! a = Some (Unique.mkPair p d) → p ≠ nullptr →
  Unique.UniquePtr_Release a st
  = Ok p (Unique.mkStore (<[a := Unique.mkPair nullptr d]> (Unique.objects st))
                         (Unique.calls st))
  ∧ (∀ q, Unique.UniquePtr_Reset a q st
          = Ok tt (Unique.mkStore (<[a := Unique.mkPair q d]> (Unique.objects st))
                                  (Unique.calls st ++ [(d, p)])))
  ∧ (∀ b, Unique.objects st !! b = None →
       ∃ st1,
         Unique.UniquePtr_move_ctor b a st = Ok tt st1
         ∧ Unique.objects st1 !! a = Some (Unique.mkPair nullptr Unique.default_construct)
         ∧ Unique.objects st1 !! b = Some (Unique.mkPair p d)
         ∧ Unique.calls st1 = Unique.calls st
         ∧ Unique.UniquePtr_dtor b st1
           = Ok tt (Unique.mkStore (delete b (Unique.objects st1))
                                   (Unique.calls st ++ [(d, p)]))
         ∧ Unique.UniquePtr_dtor a st1
           = Ok tt (Unique.mkStore (delete a (Unique.objects st1)) (Unique.calls st)))
  ∧ (∀ b r dr, b ≠ a → Unique.objects st !! b = Some (Unique.mkPair r dr) →
       ∃ st1,
         Unique.UniquePtr_assign_move b a st = Ok tt st1
         ∧ Unique.objects st1 !! a = Some (Unique.mkPair nullptr (Unique.moved_from d))
         ∧ Unique.objects st1 !! b = Some (Unique.mkPair p d)
         ∧ Unique.calls st1 = Unique.calls st ++ [(dr, r)]
         ∧ Unique.UniquePtr_dtor b st1
           = Ok tt (Unique.mkStore (delete b (Unique.objects st1))
                                   (Unique.calls st1 ++ [(d, p)]))
         ∧ Unique.UniquePtr_dtor a st1
           = Ok tt (Unique.mkStore (delete a (Unique.objects st1)) (Unique.calls st1))).
Proof.
  intros Ha Hp. split; [by apply UniquePtr_Release_ok|].
  split; [intros q; by apply UniquePtr_Reset_ok|]. split.
  - intros b Hb. assert (b ≠ a) as Hne by congruence.
    eexists. split.
    { unfold Unique.UniquePtr_move_ctor, M_bind, Unique.get, Unique.put, Unique.construct.
      rewrite Ha. cbn [Unique.objects]. rewrite lookup_insert_ne by congruence.
      rewrite Hb. reflexivity. }
    cbn [Unique.objects Unique.calls].
    split; [rewrite lookup_insert_ne by exact Hne; apply lookup_insert_eq|].
    split; [apply lookup_insert_eq|]. split; [reflexivity|]. split.
    + match goal with
      | |- Unique.UniquePtr_dtor _ ?s = _ => apply (UniquePtr_dtor_owning s b p d)
      end; [apply lookup_insert_eq|exact Hp].
    + match goal with
      | |- Unique.UniquePtr_dtor _ ?s = _ =>
          apply (UniquePtr_dtor_empty s a Unique.default_construct)
      end.
      cbn [Unique.objects]. rewrite lookup_insert_ne by exact Hne. apply lookup_insert_eq.
  - intros b r dr Hne Hb. eexists. split.
    { unfold Unique.UniquePtr_assign_move.
      rewrite bool_decide_eq_false_2 by exact Hne.
      unfold M_bind, Unique.get, Unique.put, Unique.invoke.
      rewrite Hb, Ha. cbn [Unique.objects]. reflexivity. }
    cbn [Unique.objects Unique.calls Unique.GetFirst Unique.GetSecond Unique.set_first
         Unique.set_second Unique.first_ Unique.second_].
    split; [apply lookup_insert_eq|].
    split; [rewrite lookup_insert_ne by congruence; apply lookup_insert_eq|].
    split; [reflexivity|]. split.
    + match goal with
      | |- Unique.UniquePtr_dtor _ ?s = _ => apply (UniquePtr_dtor_owning s b p d)
      end; [|exact Hp]. cbn [Unique.objects].
      rewrite lookup_insert_ne by congruence. apply lookup_insert_eq.
    + match goal with
      | |- Unique.UniquePtr_dtor _ ?s = _ =>
          apply (UniquePtr_dtor_empty s a (Unique.moved_from d))
      end.
      cbn [Unique.objects]. apply lookup_insert_eq.
Qed.

Lemma UniquePtr_assign_move_self st a :
  Unique.UniquePtr_assign_move a a st = Ok tt st.
Proof.
  unfold Unique.UniquePtr_assign_move. by rewrite bool_decide_eq_true_2.
Qed.

End UniquePtr.

Lemma UniquePtr_Release_Reset_move_witness :
  ∃ st1,
    Unique.UniquePtr_move_ctor 1%nat 0%nat
      (Unique.mkStore
         (<[0%nat := Unique.mkPair (Some 7%nat) Unique.CustomDeleter_value]> ∅) [])
    = Ok tt st1
    ∧ Unique.objects st1 !! 0%nat = Some (Unique.mkPair nullptr Unique.CustomDeleter_value)
    ∧ Unique.calls st1 = []
    ∧ Unique.UniquePtr_dtor 1%nat st1
      = Ok tt (Unique.mkStore (delete 1%nat (Unique.objects st1))
                 [(Unique.CustomDeleter_value, Some 7%nat)]).
Proof.
  set (st := Unique.mkStore
               (<[0%nat := Unique.mkPair (Some 7%nat) Unique.CustomDeleter_value]> ∅) []).
  assert (Ha : Unique.objects st !! 0%nat
               = Some (Unique.mkPair (Some 7%nat) Unique.CustomDeleter_value))
    by (vm_compute; reflexivity).
  assert (Hp : Some 7%nat ≠ nullptr) by discriminate.
  assert (Hb : Unique.objects st !! 1%nat = None) by (vm_compute; reflexivity).
  destruct (proj1 (proj2 (proj2 (UniquePtr_Release_Reset_move st 0%nat (Some 7%nat)
                                   Unique.CustomDeleter_value Ha Hp))) 1%nat Hb)
    as (st1 & H1 & Ha1 & _ & Hc & Hd & _).
  exists st1. repeat split; assumption.
Defined.

(** ** Self-assignment *)

(** C7. Assigning a SharedPtr or a WeakPtr to itself, by copy or by move,
    and move-assigning a UniquePtr to itself return behind the address test
    and leave the whole store as it was: handles, counters, blocks, and no
    DeleteObject, [delete block_] or policy call. *)
Theorem self_assignment_is_a_no_op (st : State) (h : nat)
    (Deleter : Type) `{Unique.Movable Deleter} (ust : Unique.Store Deleter) :
  step (SpAssignCopy h h) st = Ok tt st
  ∧ step (SpAssignMove h h) st = Ok tt st
  ∧ step (WpAssignCopy h h) st = Ok tt st
  ∧ step (WpAssignMove h h) st = Ok tt st
  ∧ Unique.UniquePtr_assign_move h h ust = Ok tt ust.
Proof.
  cbn [step].
  unfold SharedPtr_assign_copy, SharedPtr_assign_move, WeakPtr_assign_copy,
    WeakPtr_assign_move, Unique.UniquePtr_assign_move.
  rewrite !(bool_decide_eq_true_2 (h = h)) by reflexivity.
  rewrite !(bool_decide_eq_false_2 (h ≠ h)) by auto.
  repeat split; reflexivity.
Qed.

(** ** Correct use never runs into undefined behaviour *)

Lemma wired_init : wired init.
Proof. intros b cb w Hb. cbn in Hb. by rewrite lookup_empty in Hb. Qed.

Lemma wired_blocks st st' : blocks st' = blocks st → wired st → wired st'.
Proof. intros Hb Hw b cb w. rewrite Hb. apply Hw. Qed.

Lemma wired_insert st st' b cb :
  blocks st' = <[b := cb]> (blocks st) →
  (∀ w, object_ cb = Alive (SelfRef w) → block_ w = Some b) →
  wired st → wired st'.
Proof.
  intros Hb Hcb Hw b' cb' w. rewrite Hb.
  destruct (decide (b' = b)) as [->|Hne].
  - rewrite lookup_insert_eq. intros [= <-]. apply Hcb.
  - rewrite lookup_insert_ne by congruence. apply Hw.
Qed.

Lemma SharedPtr_Decrement_defined st h t :
  inv st → wired st → shared st !! h = Some t →
  ∃ st1, SharedPtr_Decrement t st = Ok tt st1 ∧ wired st1.
Proof.
  intros Hinv Hw Hh.
  destruct (block_ t) as [b|] eqn:Ht.
  2:{ exists st. split; [by apply SharedPtr_Decrement_null|exact Hw]. }
  destruct (inv_shared_owner _ _ _ _ Hinv Hh Ht) as (cb & Hb & Hf & Hs & Hbi).
  destruct (decide (strong_counter_ cb = 1)) as [Hs1|Hs1].
  - pose proof (bi_object _ _ _ Hbi) as Hobj.
    pose proof (bi_weak _ _ _ Hbi) as Hweak.
    pose proof (refs_nonneg (weak st) b).
    eexists. split.
    + apply (SharedPtr_Decrement_last _ _ b cb); try assumption.
      * destruct (object_ cb); try discriminate. lia.
      * intros w. apply (Hw b cb w Hb).
      * lia.
    + apply (wired_insert st _ b (released b cb)); [reflexivity| |exact Hw].
      intros w. unfold released. cbn [object_]. by destruct (object_ cb).
  - eexists. split.
    + by apply (SharedPtr_Decrement_more _ _ b cb).
    + apply (wired_insert st _ b (DecreaseStrongCounter cb)); [reflexivity| |exact Hw].
      intros w. apply (Hw b cb w Hb).
Qed.

Lemma WeakPtr_Decrement_defined st h t :
  inv st → wired st → weak st !! h = Some t →
  ∃ st1, WeakPtr_Decrement t st = Ok tt st1 ∧ wired st1.
Proof.
  intros Hinv Hw Hh.
  destruct (block_ t) as [b|] eqn:Ht.
  2:{ exists st. split; [by apply WeakPtr_Decrement_null|exact Hw]. }
  destruct (inv_weak_owner _ _ _ _ Hinv Hh Ht) as (cb & Hb & Hf & Hs & Hbi).
  eexists. split.
  - by apply (WeakPtr_Decrement_ok _ _ b cb).
  - apply (wired_insert st _ b (weak_released cb)); [reflexivity| |exact Hw].
    intros w. apply (Hw b cb w Hb).
Qed.

Lemma exec_of_step st op st' : step op st = Ok tt st' → exec st op = Some st'.
Proof. intros H. unfold exec. by rewrite H. Qed.

Lemma exec_of_throw st op e st' : step op st = Throw e st' → exec st op = Some st'.
Proof. intros H. unfold exec. by rewrite H. Qed.

Ltac split_ok H :=
  cbn [op_ok] in H;
  repeat match type of H with
         | _ && _ = true => let H' := fresh "Hok" in apply andb_true_iff in H as [H' H]
         end.

Ltac lookup_ok H :=
  cbn [op_ok] in H;
  unfold free_shared, live_shared, free_weak, live_weak, bound_weak in H;
  match type of H with
  | context [?m !! ?a] =>
      let Hl := fresh "Hl" in destruct (m !! a) eqn:Hl; try discriminate H
  end.

Section Defined.
Variable st : State.
Hypothesis Hinv : inv st.
Hypothesis Hw : wired st.

Lemma step_SpDefault_defined h :
  op_ok st (SpDefault h) = true → ∃ st', exec st (SpDefault h) = Some st' ∧ wired st'.
Proof.
  intros H. split_ok H. lookup_ok H.
  eexists. split.
  - apply exec_of_step. cbn [step]. rewrite new_shared_eq, Hl. reflexivity.
  - by apply (wired_blocks st).
Qed.

Lemma step_SpFromRaw_defined k h p :
  op_ok st (SpFromRaw k h p) = true →
  ∃ st', exec st (SpFromRaw k h p) = Some st' ∧ wired st'.
Proof.
  intros H. split_ok H. clear H. rename Hok into H. split_ok H. lookup_ok Hok.
  destruct (is_convertible_X k) eqn:Hk.
  - destruct k; try discriminate Hk. destruct p as [a|]; [|discriminate H].
    eexists. split.
    + apply exec_of_step. cbn [step].
      rewrite (bind_ok _ _ _ _ _ (SharedPtr_from_raw_mixin st a)).
      rewrite new_shared_eq. cbn [set_blocks shared]. rewrite Hl. reflexivity.
    + eapply (wired_insert st); [reflexivity| |exact Hw].
      intros w [= <-]. reflexivity.
  - eexists. split.
    + apply exec_of_step. cbn [step].
      rewrite (bind_ok _ _ _ _ _ (SharedPtr_from_raw_plain st k p Hk)).
      rewrite new_shared_eq. cbn [set_blocks shared]. rewrite Hl. reflexivity.
    + eapply (wired_insert st); [reflexivity| |exact Hw].
      intros w Hobj. unfold fresh_block in Hobj. cbn [object_] in Hobj.
      destruct k, p; cbn in H, Hobj; discriminate.
Qed.

Lemma step_SpMakeShared_defined k h :
  op_ok st (SpMakeShared k h) = true →
  ∃ st', exec st (SpMakeShared k h) = Some st' ∧ wired st'.
Proof.
  intros H. split_ok H. lookup_ok Hok.
  destruct (is_convertible_X k) eqn:Hk.
  - destruct k; try discriminate Hk.
    eexists. split.
    + apply exec_of_step. cbn [step].
      rewrite (bind_ok _ _ _ _ _ (MakeShared_mixin st)).
      rewrite new_shared_eq. cbn [set_blocks shared]. rewrite Hl. reflexivity.
    + eapply (wired_insert st); [reflexivity| |exact Hw].
      intros w [= <-]. reflexivity.
  - eexists. split.
    + apply exec_of_step. cbn [step].
      rewrite (bind_ok _ _ _ _ _ (MakeShared_plain st k Hk)).
      rewrite new_shared_eq. cbn [set_blocks shared]. rewrite Hl. reflexivity.
    + eapply (wired_insert st); [reflexivity| |exact Hw].
      intros w Hobj. unfold fresh_block in Hobj. cbn [object_] in Hobj.
      destruct k; cbn in H, Hobj; discriminate.
Qed.

Lemma step_SpCopy_defined h src :
  op_ok st (SpCopy h src) = true → ∃ st', exec st (SpCopy h src) = Some st' ∧ wired st'.
Proof.
  intros H. split_ok H. lookup_ok Hok. lookup_ok H. rename h0 into o.
  destruct (block_ o) as [b|] eqn:Ho.
  - destruct (inv_shared_owner _ _ _ _ Hinv Hl0 Ho) as (cb & Hb & Hf & _ & _).
    eexists. split.
    + apply exec_of_step. cbn [step]. rewrite bind_get_shared, Hl0.
      rewrite (bind_ok _ _ _ _ _ (SharedPtr_copy_ok st o b cb Ho Hb Hf)).
      rewrite new_shared_eq. cbn [set_blocks shared]. rewrite Hl. reflexivity.
    + eapply (wired_insert st _ b); [reflexivity| |exact Hw].
      intros w. apply (Hw b cb w Hb).
  - eexists. split.
    + apply exec_of_step. cbn [step]. rewrite bind_get_shared, Hl0.
      rewrite (bind_ok _ _ _ _ _ (SharedPtr_copy_null st o Ho)).
      rewrite new_shared_eq, Hl. reflexivity.
    + by apply (wired_blocks st).
Qed.

Lemma step_SpAlias_defined h src p :
  op_ok st (SpAlias h src p) = true →
  ∃ st', exec st (SpAlias h src p) = Some st' ∧ wired st'.
Proof.
  intros H. split_ok H. lookup_ok Hok. lookup_ok H. rename h0 into o.
  destruct (block_ o) as [b|] eqn:Ho.
  - destruct (inv_shared_owner _ _ _ _ Hinv Hl0 Ho) as (cb & Hb & Hf & _ & _).
    eexists. split.
    + apply exec_of_step. cbn [step]. rewrite bind_get_shared, Hl0.
      rewrite (bind_ok _ _ _ _ _ (SharedPtr_alias_ok st o p b cb Ho Hb Hf)).
      rewrite new_shared_eq. cbn [set_blocks shared]. rewrite Hl. reflexivity.
    + eapply (wired_insert st _ b); [reflexivity| |exact Hw].
      intros w. apply (Hw b cb w Hb).
  - eexists. split.
    + apply exec_of_step. cbn [step]. rewrite bind_get_shared, Hl0.
      rewrite (bind_ok _ _ _ _ _ (SharedPtr_alias_null st o p Ho)).
      rewrite new_shared_eq, Hl. reflexivity.
    + by apply (wired_blocks st).
Qed.

Lemma step_SpMove_defined h src :
  op_ok st (SpMove h src) = true → ∃ st', exec st (SpMove h src) = Some st' ∧ wired st'.
Proof.
  intros H. split_ok H. lookup_ok Hok. lookup_ok H.
  eexists. split.
  - apply exec_of_step. cbn [step]. rewrite bind_get_shared, Hl0.
    rewrite bind_put_shared, new_shared_eq. cbn [set_shared shared].
    rewrite lookup_insert_ne by congruence. rewrite Hl. reflexivity.
  - by apply (wired_blocks st).
Qed.

Lemma step_SpFromWeak_defined h w :
  op_ok st (SpFromWeak h w) = true →
  ∃ st', exec st (SpFromWeak h w) = Some st' ∧ wired st'.
Proof.
  intros H. split_ok H. lookup_ok Hok. lookup_ok H. rename h0 into o.
  destruct (block_ o) as [b|] eqn:Ho; [|discriminate H].
  destruct (inv_weak_owner _ _ _ _ Hinv Hl0 Ho) as (cb & Hb & Hf & _ & _).
  destruct (decide (strong_counter_ cb = 0)) as [Hz|Hnz].
  - exists st. split; [|exact Hw].
    apply (exec_of_throw _ _ BadWeakPtr). cbn [step]. rewrite bind_get_weak, Hl0.
    by rewrite (bind_throw _ _ _ _ _ (SharedPtr_from_weak_expired st o b cb Ho Hb Hf Hz)).
  - eexists. split.
    + apply exec_of_step. cbn [step]. rewrite bind_get_weak, Hl0.
      rewrite (bind_ok _ _ _ _ _ (SharedPtr_from_weak_ok st o b cb Ho Hb Hf Hnz)).
      rewrite new_shared_eq. cbn [set_blocks shared]. rewrite Hl. reflexivity.
    + eapply (wired_insert st _ b); [reflexivity| |exact Hw].
      intros w'. apply (Hw b cb w' Hb).
Qed.

Lemma step_WpLock_defined h w :
  op_ok st (WpLock h w) = true → ∃ st', exec st (WpLock h w) = Some st' ∧ wired st'.
Proof.
  intros H. split_ok H. lookup_ok Hok. lookup_ok H. rename h0 into o.
  destruct (block_ o) as [b|] eqn:Ho.
  2:{ eexists. split.
      - apply exec_of_step. cbn [step]. rewrite bind_get_weak, Hl0.
        rewrite (bind_ok _ _ _ _ _ (WeakPtr_Lock_null st o Ho)).
        rewrite new_shared_eq, Hl. reflexivity.
      - by apply (wired_blocks st). }
  destruct (inv_weak_owner _ _ _ _ Hinv Hl0 Ho) as (cb & Hb & Hf & _ & _).
  destruct (decide (strong_counter_ cb = 0)) as [Hz|Hnz].
  - eexists. split.
    + apply exec_of_step. cbn [step]. rewrite bind_get_weak, Hl0.
      rewrite (bind_ok _ _ _ _ _ (WeakPtr_Lock_expired st o b cb Ho Hb Hf Hz)).
      rewrite new_shared_eq, Hl. reflexivity.
    + by apply (wired_blocks st).
  - eexists. split.
    + apply exec_of_step. cbn [step]. rewrite bind_get_weak, Hl0.
      rewrite (bind_ok _ _ _ _ _ (WeakPtr_Lock_ok st o b cb Ho Hb Hf Hnz)).
      rewrite new_shared_eq. cbn [set_blocks shared]. rewrite Hl. reflexivity.
    + eapply (wired_insert st _ b); [reflexivity| |exact Hw].
      intros w'. apply (Hw b cb w' Hb).
Qed.

Lemma step_SpSwap_defined h other :
  op_ok st (SpSwap h other) = true →
  ∃ st', exec st (SpSwap h other) = Some st' ∧ wired st'.
Proof.
  intros H. split_ok H. lookup_ok Hok. lookup_ok H.
  eexists. split.
  - apply exec_of_step. cbn [step]. unfold SharedPtr_Swap.
    rewrite bind_get_shared, Hl, bind_get_shared, Hl0. reflexivity.
  - by apply (wired_blocks st).
Qed.

Lemma step_SpDtor_defined h :
  op_ok st (SpDtor h) = true → ∃ st', exec st (SpDtor h) = Some st' ∧ wired st'.
Proof.
  intros H. lookup_ok H. rename h0 into t.
  destruct (SharedPtr_Decrement_defined st h t Hinv Hw Hl) as (st1 & Hd & Hw1).
  eexists. split.
  - apply exec_of_step. cbn [step]. unfold SharedPtr_dtor.
    rewrite bind_get_shared, Hl. rewrite (bind_ok _ _ _ _ _ Hd). reflexivity.
  - by apply (wired_blocks st1).
Qed.

Lemma step_SpReset_defined h :
  op_ok st (SpReset h) = true → ∃ st', exec st (SpReset h) = Some st' ∧ wired st'.
Proof.
  intros H. lookup_ok H. rename h0 into t.
  destruct (SharedPtr_Decrement_defined st h t Hinv Hw Hl) as (st1 & Hd & Hw1).
  eexists. split.
  - apply exec_of_step. cbn [step]. unfold SharedPtr_Reset.
    rewrite bind_get_shared, Hl. rewrite (bind_ok _ _ _ _ _ Hd). reflexivity.
  - by apply (wired_blocks st1).
Qed.

Lemma step_SpResetPtr_defined k h p :
  op_ok st (SpResetPtr k h p) = true →
  ∃ st', exec st (SpResetPtr k h p) = Some st' ∧ wired st'.
Proof.
  intros H. split_ok H. clear H. rename Hok into H. split_ok H. lookup_ok Hok.
  rename h0 into t.
  destruct (SharedPtr_Decrement_defined st h t Hinv Hw Hl) as (st1 & Hd & Hw1).
  eexists. split.
  - apply exec_of_step. cbn [step]. unfold SharedPtr_Reset_ptr, SharedPtr_Reset_ptr_body.
    rewrite bind_get_shared, Hl. rewrite bind_assoc, (bind_ok _ _ _ _ _ Hd).
    reflexivity.
  - eapply (wired_insert st1); [reflexivity| |exact Hw1].
    intros w Hobj. unfold fresh_block in Hobj. cbn [object_] in Hobj.
    destruct k, p; cbn in H, Hobj; discriminate.
Qed.

Lemma step_SpAssignCopy_defined h src :
  op_ok st (SpAssignCopy h src) = true →
  ∃ st', exec st (SpAssignCopy h src) = Some st' ∧ wired st'.
Proof.
  intros H. split_ok H. lookup_ok Hok. lookup_ok H. rename h0 into t, h1 into o.
  destruct (decide (h = src)) as [->|Hne].
  { exists st. split; [|exact Hw]. apply exec_of_step. cbn [step].
    unfold SharedPtr_assign_copy. by rewrite bool_decide_eq_false_2 by auto. }
  destruct (SharedPtr_Decrement_defined st h t Hinv Hw Hl) as (st1 & Hd & Hw1).
  pose proof (release_shared st h t (<[h := mkHandle nullptr nullptr]> (shared st)) Hinv Hl)
    as Hrel.
  rewrite Hd in Hrel. destruct Hrel as [[Hi _] [Hsh _]]; [refs_tac|].
  destruct (block_ o) as [b|] eqn:Ho.
  - destruct (inv_shared_owner _ src o b Hi) as (cb & Hb & Hf & _ & _);
      [cbn [shared]; rewrite lookup_insert_ne by exact Hne; exact Hl0|exact Ho|].
    cbn [blocks] in Hb.
    eexists. split.
    + apply exec_of_step. cbn [step]. unfold SharedPtr_assign_copy, SharedPtr_assign_copy_body.
      rewrite bool_decide_eq_true_2 by exact Hne.
      rewrite bind_get_shared, Hl, bind_get_shared, Hl0.
      rewrite bind_assoc, (bind_ok _ _ _ _ _ Hd). cbn [block_]. rewrite Ho. cbn [non_null].
      rewrite bind_assoc, (bind_modify _ _ _ _ _ Hb Hf). reflexivity.
    + eapply (wired_insert st1 _ b); [reflexivity| |exact Hw1].
      intros w. apply (Hw1 b cb w Hb).
  - eexists. split.
    + apply exec_of_step. cbn [step]. unfold SharedPtr_assign_copy, SharedPtr_assign_copy_body.
      rewrite bool_decide_eq_true_2 by exact Hne.
      rewrite bind_get_shared, Hl, bind_get_shared, Hl0.
      rewrite bind_assoc, (bind_ok _ _ _ _ _ Hd). cbn [block_]. rewrite Ho. reflexivity.
    + by apply (wired_blocks st1).
Qed.

Lemma step_SpAssignMove_defined h src :
  op_ok st (SpAssignMove h src) = true →
  ∃ st', exec st (SpAssignMove h src) = Some st' ∧ wired st'.
Proof.
  intros H. split_ok H. lookup_ok Hok. lookup_ok H. rename h0 into t, h1 into o.
  destruct (decide (h = src)) as [->|Hne].
  { exists st. split; [|exact Hw]. apply exec_of_step. cbn [step].
    unfold SharedPtr_assign_move. by rewrite bool_decide_eq_true_2 by auto. }
  destruct (SharedPtr_Decrement_defined st h t Hinv Hw Hl) as (st1 & Hd & Hw1).
  eexists. split.
  - apply exec_of_step. cbn [step]. unfold SharedPtr_assign_move, SharedPtr_assign_move_body.
    rewrite bool_decide_eq_false_2 by exact Hne.
    rewrite bind_get_shared, Hl, bind_get_shared, Hl0.
    rewrite bind_assoc, (bind_ok _ _ _ _ _ Hd). reflexivity.
  - by apply (wired_blocks st1).
Qed.

Lemma step_WpDefault_defined w :
  op_ok st (WpDefault w) = true → ∃ st', exec st (WpDefault w) = Some st' ∧ wired st'.
Proof.
  intros H. split_ok H. lookup_ok H.
  eexists. split.
  - apply exec_of_step. cbn [step]. rewrite new_weak_eq, Hl. reflexivity.
  - by apply (wired_blocks st).
Qed.

Lemma step_WpCopy_defined w src :
  op_ok st (WpCopy w src) = true → ∃ st', exec st (WpCopy w src) = Some st' ∧ wired st'.
Proof.
  intros H. split_ok H. lookup_ok Hok. lookup_ok H. rename h into o.
  destruct (block_ o) as [b|] eqn:Ho.
  - destruct (inv_weak_owner _ _ _ _ Hinv Hl0 Ho) as (cb & Hb & Hf & _ & _).
    eexists. split.
    + apply exec_of_step. cbn [step]. rewrite bind_get_weak, Hl0.
      rewrite (bind_ok _ _ _ _ _ (WeakPtr_copy_ok st o b cb Ho Hb Hf)).
      rewrite new_weak_eq. cbn [set_blocks weak]. rewrite Hl. reflexivity.
    + eapply (wired_insert st _ b); [reflexivity| |exact Hw].
      intros w'. apply (Hw b cb w' Hb).
  - eexists. split.
    + apply exec_of_step. cbn [step]. rewrite bind_get_weak, Hl0.
      rewrite (bind_ok _ _ _ _ _ (WeakPtr_copy_null st o Ho)).
      rewrite new_weak_eq, Hl. reflexivity.
    + by apply (wired_blocks st).
Qed.

Lemma step_WpFromShared_defined w h :
  op_ok st (WpFromShared w h) = true →
  ∃ st', exec st (WpFromShared w h) = Some st' ∧ wired st'.
Proof.
  intros H. split_ok H. lookup_ok Hok. lookup_ok H. rename h0 into o.
  destruct (block_ o) as [b|] eqn:Ho.
  - destruct (inv_shared_owner _ _ _ _ Hinv Hl0 Ho) as (cb & Hb & Hf & _ & _).
    eexists. split.
    + apply exec_of_step. cbn [step]. rewrite bind_get_shared, Hl0.
      unfold WeakPtr_from_shared.
      rewrite (bind_ok _ _ _ _ _ (WeakPtr_copy_ok st o b cb Ho Hb Hf)).
      rewrite new_weak_eq. cbn [set_blocks weak]. rewrite Hl. reflexivity.
    + eapply (wired_insert st _ b); [reflexivity| |exact Hw].
      intros w'. apply (Hw b cb w' Hb).
  - eexists. split.
    + apply exec_of_step. cbn [step]. rewrite bind_get_shared, Hl0.
      unfold WeakPtr_from_shared.
      rewrite (bind_ok _ _ _ _ _ (WeakPtr_copy_null st o Ho)).
      rewrite new_weak_eq, Hl. reflexivity.
    + by apply (wired_blocks st).
Qed.

Lemma step_WpMove_defined w src :
  op_ok st (WpMove w src) = true → ∃ st', exec st (WpMove w src) = Some st' ∧ wired st'.
Proof.
  intros H. split_ok H. lookup_ok Hok. lookup_ok H.
  eexists. split.
  - apply exec_of_step. cbn [step]. rewrite bind_get_weak, Hl0.
    rewrite bind_put_weak, new_weak_eq. cbn [set_weak weak].
    rewrite lookup_insert_ne by congruence. rewrite Hl. reflexivity.
  - by apply (wired_blocks st).
Qed.

Lemma step_WpSwap_defined w other :
  op_ok st (WpSwap w other) = true →
  ∃ st', exec st (WpSwap w other) = Some st' ∧ wired st'.
Proof.
  intros H. split_ok H. lookup_ok Hok. lookup_ok H.
  eexists. split.
  - apply exec_of_step. cbn [step]. unfold WeakPtr_Swap.
    rewrite bind_get_weak, Hl, bind_get_weak, Hl0. reflexivity.
  - by apply (wired_blocks st).
Qed.

Lemma step_WpDtor_defined w :
  op_ok st (WpDtor w) = true → ∃ st', exec st (WpDtor w) = Some st' ∧ wired st'.
Proof.
  intros H. lookup_ok H. rename h into t.
  destruct (WeakPtr_Decrement_defined st w t Hinv Hw Hl) as (st1 & Hd & Hw1).
  eexists. split.
  - apply exec_of_step. cbn [step]. unfold WeakPtr_dtor.
    rewrite bind_get_weak, Hl. rewrite (bind_ok _ _ _ _ _ Hd). reflexivity.
  - by apply (wired_blocks st1).
Qed.

Lemma step_WpReset_defined w :
  op_ok st (WpReset w) = true → ∃ st', exec st (WpReset w) = Some st' ∧ wired st'.
Proof.
  intros H. lookup_ok H. rename h into t.
  destruct (WeakPtr_Decrement_defined st w t Hinv Hw Hl) as (st1 & Hd & Hw1).
  eexists. split.
  - apply exec_of_step. cbn [step]. unfold WeakPtr_Reset.
    rewrite bind_get_weak, Hl. rewrite (bind_ok _ _ _ _ _ Hd). reflexivity.
  - by apply (wired_blocks st1).
Qed.

Lemma step_WpAssignCopy_defined w src :
  op_ok st (WpAssignCopy w src) = true →
  ∃ st', exec st (WpAssignCopy w src) = Some st' ∧ wired st'.
Proof.
  intros H. split_ok H. lookup_ok Hok. lookup_ok H. rename h into t, h0 into o.
  destruct (decide (w = src)) as [->|Hne].
  { exists st. split; [|exact Hw]. apply exec_of_step. cbn [step].
    unfold WeakPtr_assign_copy. by rewrite bool_decide_eq_false_2 by auto. }
  destruct (WeakPtr_Decrement_defined st w t Hinv Hw Hl) as (st1 & Hd & Hw1).
  pose proof (release_weak st w t (<[w := mkHandle nullptr nullptr]> (weak st)) Hinv Hl)
    as Hrel.
  rewrite Hd in Hrel. destruct Hrel as [[Hi _] [_ Hwk]]; [refs_tac|].
  destruct (block_ o) as [b|] eqn:Ho.
  - destruct (inv_weak_owner _ src o b Hi) as (cb & Hb & Hf & _ & _);
      [cbn [weak]; rewrite lookup_insert_ne by exact Hne; exact Hl0|exact Ho|].
    cbn [blocks] in Hb.
    eexists. split.
    + apply exec_of_step. cbn [step]. unfold WeakPtr_assign_copy, WeakPtr_assign_copy_body.
      rewrite bool_decide_eq_true_2 by exact Hne.
      rewrite bind_get_weak, Hl, bind_get_weak, Hl0.
      rewrite bind_assoc, (bind_ok _ _ _ _ _ Hd). cbn [block_]. rewrite Ho. cbn [non_null].
      rewrite bind_assoc, (bind_modify _ _ _ _ _ Hb Hf). reflexivity.
    + eapply (wired_insert st1 _ b); [reflexivity| |exact Hw1].
      intros w'. apply (Hw1 b cb w' Hb).
  - eexists. split.
    + apply exec_of_step. cbn [step]. unfold WeakPtr_assign_copy, WeakPtr_assign_copy_body.
      rewrite bool_decide_eq_true_2 by exact Hne.
      rewrite bind_get_weak, Hl, bind_get_weak, Hl0.
      rewrite bind_assoc, (bind_ok _ _ _ _ _ Hd). cbn [block_]. rewrite Ho. reflexivity.
    + by apply (wired_blocks st1).
Qed.

Lemma step_WpAssignMove_defined w src :
  op_ok st (WpAssignMove w src) = true →
  ∃ st', exec st (WpAssignMove w src) = Some st' ∧ wired st'.
Proof.
  intros H. split_ok H. lookup_ok Hok. lookup_ok H. rename h into t, h0 into o.
  destruct (decide (w = src)) as [->|Hne].
  { exists st. split; [|exact Hw]. apply exec_of_step. cbn [step].
    unfold WeakPtr_assign_move. by rewrite bool_decide_eq_true_2 by auto. }
  destruct (WeakPtr_Decrement_defined st w t Hinv Hw Hl) as (st1 & Hd & Hw1).
  eexists. split.
  - apply exec_of_step. cbn [step]. unfold WeakPtr_assign_move, WeakPtr_assign_move_body.
    rewrite bool_decide_eq_false_2 by exact Hne.
    rewrite bind_get_weak, Hl, bind_get_weak, Hl0.
    rewrite bind_assoc, (bind_ok _ _ _ _ _ Hd). reflexivity.
  - by apply (wired_blocks st1).
Qed.

Lemma mixin_alive_block home :
  mixin_alive st home = true →
  ∃ cb w, blocks st !! home = Some cb ∧ freed cb = false
          ∧ object_ cb = Alive (SelfRef w) ∧ block_ w = Some home
          ∧ get_weak_this home st = Ok w st.
Proof.
  unfold mixin_alive. intros H.
  destruct (blocks st !! home) as [cb|] eqn:Hb; [|discriminate H].
  destruct (freed cb) eqn:Hf; [discriminate H|].
  destruct (object_ cb) as [|[|w]|] eqn:Ho; try discriminate H.
  exists cb, w. split; [reflexivity|]. split; [exact Hf|]. split; [exact Ho|].
  split; [apply (Hw home cb w Hb Ho)|].
  unfold get_weak_this. rewrite (bind_ok _ _ _ _ _ (load_ok _ _ _ Hb Hf)).
  by rewrite Ho.
Qed.

Lemma step_SpSharedFromThis_defined h home :
  op_ok st (SpSharedFromThis h home) = true →
  ∃ st', exec st (SpSharedFromThis h home) = Some st' ∧ wired st'.
Proof.
  intros H. split_ok H. lookup_ok Hok.
  destruct (mixin_alive_block home H) as (cb & w & Hb & Hf & Ho & Hwb & Hg).
  pose proof (Hinv home) as Hbi. rewrite Hb in Hbi.
  pose proof (bi_object _ _ _ Hbi) as Hobj. rewrite Ho in Hobj.
  eexists. split.
  - apply exec_of_step. cbn [step]. unfold SharedFromThis.
    rewrite bind_assoc, (bind_ok _ _ _ _ _ Hg).
    rewrite (bind_ok _ _ _ _ _ (WeakPtr_Lock_ok st w home cb Hwb Hb Hf ltac:(lia))).
    rewrite new_shared_eq. cbn [set_blocks shared]. rewrite Hl. reflexivity.
  - eapply (wired_insert st _ home); [reflexivity| |exact Hw].
    intros w'. apply (Hw home cb w' Hb).
Qed.

Lemma step_WpWeakFromThis_defined a home :
  op_ok st (WpWeakFromThis a home) = true →
  ∃ st', exec st (WpWeakFromThis a home) = Some st' ∧ wired st'.
Proof.
  intros H. split_ok H. lookup_ok Hok.
  destruct (mixin_alive_block home H) as (cb & w & Hb & Hf & Ho & Hwb & Hg).
  eexists. split.
  - apply exec_of_step. cbn [step]. unfold WeakFromThis.
    rewrite bind_assoc, (bind_ok _ _ _ _ _ Hg).
    rewrite (bind_ok _ _ _ _ _ (WeakPtr_copy_ok st w home cb Hwb Hb Hf)).
    rewrite new_weak_eq. cbn [set_blocks weak]. rewrite Hl. reflexivity.
  - eapply (wired_insert st _ home); [reflexivity| |exact Hw].
    intros w'. apply (Hw home cb w' Hb).
Qed.

End Defined.

(** An operation that is in order runs to a store; the mixin objects of that
    store are wired again. *)
Theorem exec_defined st op :
  inv st → wired st → op_ok st op = true →
  ∃ st', exec st op = Some st' ∧ inv st' ∧ wired st'.
Proof.
  intros Hinv Hw Hok.
  assert (∃ st', exec st op = Some st' ∧ wired st') as (st' & He & Hw').
  { destruct op.
    - by apply step_SpDefault_defined.
    - by apply step_SpFromRaw_defined.
    - by apply step_SpMakeShared_defined.
    - by apply step_SpCopy_defined.
    - by apply step_SpMove_defined.
    - by apply step_SpAlias_defined.
    - by apply step_SpFromWeak_defined.
    - by apply step_SpAssignCopy_defined.
    - by apply step_SpAssignMove_defined.
    - by apply step_SpReset_defined.
    - by apply step_SpResetPtr_defined.
    - by apply step_SpSwap_defined.
    - by apply step_SpDtor_defined.
    - by apply step_WpDefault_defined.
    - by apply step_WpCopy_defined.
    - by apply step_WpMove_defined.
    - by apply step_WpFromShared_defined.
    - by apply step_WpAssignCopy_defined.
    - by apply step_WpAssignMove_defined.
    - by apply step_WpReset_defined.
    - by apply step_WpSwap_defined.
    - by apply step_WpLock_defined.
    - by apply step_WpDtor_defined.
    - by apply step_SpSharedFromThis_defined.
    - by apply step_WpWeakFromThis_defined. }
  exists st'. split; [exact He|]. split; [|exact Hw'].
  by apply (exec_sound st st' op).
Qed.

(** Correct use: a program every operation of which is in order runs to its
    end without undefined behaviour. *)
Theorem well_used_runs ops st :
  inv st → wired st → well_used st ops → ∃ st', run st ops = Some st' ∧ inv st' ∧ wired st'.
Proof.
  revert st. induction ops as [|op ops IH]; intros st Hinv Hw Hok; cbn in *.
  - by exists st.
  - destruct Hok as [Hop Hrest].
    destruct (exec_defined st op Hinv Hw Hop) as (st1 & He & Hi1 & Hw1).
    rewrite He. apply IH; auto.
Qed.

Lemma well_used_runs_witness :
  ∃ st',
    run init [SpMakeShared KMixin 0%nat; WpFromShared 1%nat 0%nat; SpDtor 0%nat;
              SpFromWeak 2%nat 1%nat; WpDtor 1%nat] = Some st'
    ∧ inv st' ∧ wired st'.
Proof.
  apply (well_used_runs _ init inv_init wired_init).
  repeat (split; [vm_compute; reflexivity|];
          let st' := fresh "st" in let H := fresh "H" in
          intros st' H; vm_compute in H; injection H as <-).
  exact I.
Defined.

Lemma run_app ops1 ops2 st :
  run st (ops1 ++ ops2) = match run st ops1 with Some st1 => run st1 ops2 | None => None end.
Proof.
  revert st. induction ops1 as [|op ops1 IH]; intros st; cbn; [reflexivity|].
  destruct (exec st op); [apply IH|reflexivity].
Qed.

Lemma well_used_steps ops op :
  well_used init (ops ++ [op]) →
  ∃ st st', run init ops = Some st ∧ exec st op = Some st'.
Proof.
  intros Hok.
  destruct (well_used_runs _ init inv_init wired_init Hok) as (st' & Hrun & _).
  rewrite run_app in Hrun. destruct (run init ops) as [st|]; [|discriminate Hrun].
  cbn in Hrun. destruct (exec st op) as [st1|] eqn:He; [|discriminate Hrun].
  by exists st, st1.
Qed.

(** The store a correctly used program reaches. *)
Lemma well_used_reaches ops st :
  well_used init ops → run init ops = Some st → inv st ∧ wired st.
Proof.
  intros Hok Hrun.
  destruct (well_used_runs _ init inv_init wired_init Hok) as (st' & Hrun' & Hi & Hw).
  rewrite Hrun in Hrun'. injection Hrun' as <-. by split.
Qed.

(** ** Destruction of the control block *)

(** For managed objects without SharedPtr or WeakPtr members (the programs
    of [Op]): a correctly used program runs without undefined behaviour,
    each of its operations runs [delete block_] on a block exactly when it
    takes the block from allocated to freed, a block is freed if and only if
    both of its counters are 0, and so it is freed at most once and only by a
    step that leaves both counters at 0.  A WeakPtr that still refers to a
    block finds it allocated: UseCount() and Expired() read the strong
    counter of the block and do not fault. *)
Theorem block_freed_once_without_members ops op :
  well_used init (ops ++ [op]) →
  ∃ st st',
    run init ops = Some st ∧ exec st op = Some st'
    ∧ (∀ b, count_ev (EvDeleteBlock b) (new_events st st')
            = if decide (freed_of st b = Some false ∧ freed_of st' b = Some true)
              then 1 else 0)
    ∧ (∀ b cb, blocks st' !! b = Some cb →
         freed cb = bool_decide (strong_counter_ cb = 0 ∧ weak_counter_ cb = 0)
         ∧ weak_counter_ cb = refs (weak st') b + self_reg b cb
         ∧ count_ev (EvDeleteBlock b) (trace st') = if freed cb then 1 else 0)
    ∧ (∀ b, blocks st' !! b = None → count_ev (EvDeleteBlock b) (trace st') = 0)
    ∧ (∀ w x b, weak st' !! w = Some x → block_ x = Some b →
         ∃ cb, blocks st' !! b = Some cb ∧ freed cb = false
               ∧ 0 < weak_counter_ cb
               ∧ WeakPtr_UseCount x st' = Ok (strong_counter_ cb) st'
               ∧ WeakPtr_Expired x st' = Ok (strong_counter_ cb =? 0) st').
Proof.
  intros Hok. destruct (well_used_steps ops op Hok) as (st & st' & Hrun & Hop).
  exists st, st'. split; [exact Hrun|]. split; [exact Hop|].
  pose proof (reachable_inv _ _ Hrun) as Hi.
  destruct (exec_sound _ _ _ Hi Hop) as [Hi' Hs].
  split; [|split; [|split]].
  - intros b. by apply step_block_deleted.
  - intros b cb Hb. specialize (Hi' b). rewrite Hb in Hi'.
    split; [|split; [apply (bi_weak _ _ _ Hi')|apply (bi_block_deleted _ _ _ Hi')]].
    rewrite (bi_freed _ _ _ Hi'). zcases; case_bool_decide; try reflexivity; lia.
  - intros b Hb. specialize (Hi' b). rewrite Hb in Hi'. apply (un_block_deleted _ _ Hi').
  - intros w x b Hw Hx.
    destruct (inv_weak_owner _ _ _ _ Hi' Hw Hx) as (cb & Hb & Hf & Hwk & _).
    pose proof (self_reg_range b cb).
    exists cb. split; [exact Hb|]. split; [exact Hf|]. split; [lia|]. split.
    + by apply (WeakPtr_UseCount_ok _ _ b).
    + by apply (WeakPtr_Expired_ok _ _ b).
Qed.


(** ** The control block of a managed object that holds a WeakPtr *)

(** Without members, [DeleteObject_with] and [SharedPtr_Decrement_with]
    are DeleteObject() and Decrement() as the programs of [Op] run them. *)
Lemma DeleteObject_without_members p st :
  DeleteObject_with (M_ret tt) p st = DeleteObject p st.
Proof.
  unfold DeleteObject_with, DeleteObject.
  apply bind_cong. intros cb s1 Hl.
  destruct p as [b|]; [|done].
  assert (s1 = st ∧ blocks st !! b = Some cb ∧ freed cb = false) as (-> & Hb & Hf).
  { unfold load in Hl. destruct (blocks st !! b) as [cb'|]; [|done].
    destruct (freed cb') eqn:Hf'; [done|]. injection Hl as <- <-. done. }
  rewrite !bind_emit.
  destruct (object_ cb) as [|m|] eqn:Ho; [done| |done].
  rewrite bind_ret.
  destruct m as [|w]; cbn [destroy_object].
  - rewrite !bind_ret. erewrite modify_ok by side.
    unfold mark_destroyed. cbn [log blocks]. by rewrite Hb.
  - unfold M_bind.
    destruct (destroy_EnableSharedFromThis w (log (EvDeleteObject b) st)) as [[] s2| |] eqn:Hd;
      [|done|done].
    unfold destroy_EnableSharedFromThis in Hd.
    destruct (block_ w) as [b'|] eqn:Hw; [|done].
    unfold M_bind, modify, M_bind, load in Hd. cbn [log blocks] in Hd.
    destruct (blocks st !! b') as [cbw|] eqn:Hbw; [|done].
    destruct (freed cbw) eqn:Hfw; [done|]. cbn in Hd. injection Hd as <-.
    unfold mark_destroyed, modify, M_bind, load. cbn [set_blocks log blocks].
    destruct (decide (b = b')) as [<-|Hne].
    + rewrite lookup_insert_eq. cbn [freed DecreaseWeakCounter].
      assert (cbw = cb) as -> by congruence. by rewrite Hf.
    + rewrite lookup_insert_ne by congruence. by rewrite Hb, Hf.
Qed.

Lemma SharedPtr_Decrement_without_members this st :
  SharedPtr_Decrement_with (M_ret tt) this st = SharedPtr_Decrement this st.
Proof.
  unfold SharedPtr_Decrement_with, SharedPtr_Decrement.
  destruct (non_null (block_ this)); [|done].
  apply bind_cong. intros [] s1 _. apply bind_cong. intros s s2 _.
  apply bind_cong. intros w s3 _.
  destruct ((s =? 0) && negb (w =? 0)).
  - unfold M_bind at 1 3. by rewrite DeleteObject_without_members.
  - destruct ((s =? 0) && (w =? 0)); [|done].
    unfold M_bind. by rewrite DeleteObject_without_members.
Qed.

(** The parent owns the child through a SharedPtr member, the child holds a
    WeakPtr to the parent: the destructor of the parent destroys the child,
    whose destructor frees the block of the parent. *)
Lemma child_back_pointer_frees_parent st this P C cbP cbC pp pc :
  P ≠ C → block_ this = Some P →
  blocks st !! P = Some cbP → freed cbP = false →
  strong_counter_ cbP = 1 → weak_counter_ cbP = 1 → object_ cbP = Alive Plain →
  blocks st !! C = Some cbC → freed cbC = false →
  strong_counter_ cbC = 1 → weak_counter_ cbC = 0 → object_ cbC = Alive Plain →
  SharedPtr_Decrement_with
    (SharedPtr_Decrement_with (WeakPtr_Decrement (mkHandle pp (Some P))) (mkHandle pc (Some C)))
    this st
  = Undefined UseAfterFree.
Proof.
  intros Hne Ht HP HfP HsP HwP HoP HC HfC HsC HwC HoC.
  destruct cbP as [sP wP gP oP fP]. destruct cbC as [sC wC gC oC fC]. cbn in *. subst.
  unfold SharedPtr_Decrement_with at 1. rewrite Ht. cbn [non_null].
  unfold SharedPtr_Decrement_with, DeleteObject_with, WeakPtr_Decrement, mark_destroyed,
    delete_block, read, modify, load, emit, M_bind, M_ret, undefined, set_blocks, log.
  cbn -[lookup insert].
  repeat (rewrite ?lookup_insert_eq, ?insert_insert_eq, ?HP, ?HC, ?Z.sub_diag, ?Z.eqb_refl;
          rewrite ?(lookup_insert_ne _ P C), ?(lookup_insert_ne _ C P) by congruence;
          try change (1 =? 0) with false;
          cbn -[lookup insert Z.sub Z.eqb]).
  reflexivity.
Qed.

(** The destructor of a managed object that holds a WeakPtr on its own
    block frees the block inside DeleteObject(). *)
Lemma member_WeakPtr_frees_own_block st this b cb p :
  block_ this = Some b → blocks st !! b = Some cb → freed cb = false →
  strong_counter_ cb = 1 → weak_counter_ cb = 1 → object_ cb = Alive Plain →
  DeleteObject_with (WeakPtr_Decrement (mkHandle p (Some b))) (Some b)
    (set_blocks <[b := DecreaseStrongCounter cb]> st)
  = Ok tt (mkState (<[b := mkBlock 0 0 (GetPointer cb) Destroyed true]> (blocks st))
                   (shared st) (weak st)
                   (trace st ++ [EvDeleteObject b; EvDeleteBlock b])).
Proof.
  intros Ht Hb Hf Hs Hw Ho. unfold DeleteObject_with.
  erewrite bind_ok by (apply load_ok; [cbn; apply lookup_insert_eq|exact Hf]).
  rewrite bind_emit. cbn [object_ DecreaseStrongCounter]. rewrite Ho.
  erewrite bind_ok.
  2:{ apply (WeakPtr_Decrement_ok _ _ b (DecreaseStrongCounter cb));
        [reflexivity|cbn; apply lookup_insert_eq|exact Hf]. }
  cbn [destroy_object]. rewrite bind_ret.
  unfold mark_destroyed. cbn [blocks log set_blocks]. rewrite lookup_insert_eq.
  unfold weak_released, weak_released_events, set_blocks.
  cbn [blocks shared weak trace strong_counter_ weak_counter_ DecreaseStrongCounter
       GetPointer object_ freed set_object log].
  rewrite Hs, Hw. cbn. rewrite !insert_insert_eq, <-app_assoc. reflexivity.
Qed.

(** Back in SharedPtr::Decrement(), the test of the weak counter reads the
    block that the member freed. *)
Lemma own_WeakPtr_use_after_free st this b cb p :
  block_ this = Some b → blocks st !! b = Some cb → freed cb = false →
  strong_counter_ cb = 1 → weak_counter_ cb = 1 → object_ cb = Alive Plain →
  SharedPtr_Decrement_with (WeakPtr_Decrement (mkHandle p (Some b))) this st
  = Undefined UseAfterFree.
Proof.
  intros Ht Hb Hf Hs Hw Ho.
  pose proof (member_WeakPtr_frees_own_block st this b cb p Ht Hb Hf Hs Hw Ho) as Hdel.
  unfold SharedPtr_Decrement_with. rewrite Ht. cbn [non_null].
  erewrite bind_modify by side. erewrite bind_read by side. erewrite bind_read by side.
  cbn [GetStrongCounter GetWeakCounter DecreaseStrongCounter strong_counter_
       weak_counter_].
  rewrite Hs, Hw. change (1 - 1 =? 0) with true. change (1 =? 0) with false.
  cbn [andb negb].
  rewrite (bind_ok _ _ _ _ _ Hdel).
  unfold read, M_bind, load. cbn [blocks]. by rewrite lookup_insert_eq.
Qed.

Lemma Node_with_self_ok st :
  Node_with_self st
  = let b := fresh (dom (blocks st)) in
    Ok (mkHandle (Some b) (Some b), mkHandle (Some b) (Some b))
       (set_blocks <[b := mkBlock 1 1 (Some b) (Alive Plain) false]> st).
Proof.
  unfold Node_with_self.
  rewrite (bind_ok _ _ _ _ _ (MakeShared_plain st KPlain eq_refl)). cbn zeta.
  unfold WeakPtr_from_shared.
  erewrite bind_ok.
  2:{ apply (WeakPtr_copy_ok _ _ (fresh (dom (blocks st)))
               (fresh_block (Some (fresh (dom (blocks st)))) (Alive (new_object KPlain))));
        [reflexivity|cbn; apply lookup_insert_eq|reflexivity]. }
  unfold WeakPtr_assign_move_body.
  rewrite bind_assoc.
  rewrite (bind_ok _ _ _ _ _ (WeakPtr_Decrement_null _ (mkHandle nullptr nullptr) eq_refl)).
  rewrite bind_ret. cbn [fst snd ptr_ block_].
  rewrite (bind_ok _ _ _ _ _ (WeakPtr_Decrement_null _ (mkHandle nullptr nullptr) eq_refl)).
  unfold M_ret, set_blocks, fresh_block, IncreaseWeakCounter.
  cbn [blocks shared weak trace strong_counter_ weak_counter_ GetPointer object_ freed
       new_object].
  by rewrite insert_insert_eq.
Qed.

(** C2. The code frees the control block exactly once only as long as no
    managed object holds a WeakPtr.  When the managed object holds a WeakPtr
    on its own block (a Node with a WeakPtr to itself), or owns a child that
    holds a WeakPtr to it (a back pointer to the parent), and the last
    SharedPtr lets go while that WeakPtr is the only weak owner, the
    destructor of the object runs ~WeakPtr() inside DeleteObject(): both
    counters are 0 by then, so WeakPtr::Decrement() runs [delete block_].
    Back in SharedPtr::Decrement(), [block_->GetWeakCounter()] reads the
    freed block (and, finding 0 there, runs [delete block_] a second time).
    The last part runs the whole program
    [auto sp = MakeShared<Node>(); sp->self = sp; sp.Reset();]. *)
Theorem member_WeakPtr_frees_block_inside_DeleteObject :
  (∀ st this b cb p,
     block_ this = Some b → blocks st !! b = Some cb → freed cb = false →
     strong_counter_ cb = 1 → weak_counter_ cb = 1 → object_ cb = Alive Plain →
     (∃ st1,
        DeleteObject_with (WeakPtr_Decrement (mkHandle p (Some b))) (Some b)
          (set_blocks <[b := DecreaseStrongCounter cb]> st) = Ok tt st1
        ∧ freed_of st1 b = Some true
        ∧ trace st1 = trace st ++ [EvDeleteObject b; EvDeleteBlock b])
     ∧ SharedPtr_Decrement_with (WeakPtr_Decrement (mkHandle p (Some b))) this st
       = Undefined UseAfterFree)
  ∧ (∀ st this P C cbP cbC pp pc,
       P ≠ C → block_ this = Some P →
       blocks st !! P = Some cbP → freed cbP = false →
       strong_counter_ cbP = 1 → weak_counter_ cbP = 1 → object_ cbP = Alive Plain →
       blocks st !! C = Some cbC → freed cbC = false →
       strong_counter_ cbC = 1 → weak_counter_ cbC = 0 → object_ cbC = Alive Plain →
       SharedPtr_Decrement_with
         (SharedPtr_Decrement_with (WeakPtr_Decrement (mkHandle pp (Some P)))
            (mkHandle pc (Some C)))
         this st
       = Undefined UseAfterFree)
  ∧ (∀ st, release_Node_with_self st = Undefined UseAfterFree).
Proof.
  split; [|split].
  - intros st this b cb p Ht Hb Hf Hs Hw Ho. split.
    + eexists. split; [by apply (member_WeakPtr_frees_own_block st this)|].
      split; [|reflexivity].
      unfold freed_of. cbn [blocks]. by rewrite lookup_insert_eq.
    + by apply (own_WeakPtr_use_after_free st this b cb).
  - intros st this P C cbP cbC pp pc. apply child_back_pointer_frees_parent.
  - intros st. unfold release_Node_with_self.
    rewrite (bind_ok _ _ _ _ _ (Node_with_self_ok st)). cbn zeta. cbn [fst snd].
    set (b := fresh (dom (blocks st))).
    apply (own_WeakPtr_use_after_free _ _ b (mkBlock 1 1 (Some b) (Alive Plain) false));
      try reflexivity.
    cbn. apply lookup_insert_eq.
Qed.

Lemma member_WeakPtr_frees_block_inside_DeleteObject_witness :
  SharedPtr_Decrement_with (WeakPtr_Decrement (mkHandle (Some 0%nat) (Some 0%nat)))
    (mkHandle (Some 0%nat) (Some 0%nat))
    (mkState (<[0%nat := mkBlock 1 1 (Some 0%nat) (Alive Plain) false]> ∅) ∅ ∅ [])
  = Undefined UseAfterFree
  ∧ SharedPtr_Decrement_with
      (SharedPtr_Decrement_with (WeakPtr_Decrement (mkHandle (Some 0%nat) (Some 0%nat)))
         (mkHandle (Some 1%nat) (Some 1%nat)))
      (mkHandle (Some 0%nat) (Some 0%nat))
      (mkState (<[1%nat := mkBlock 1 0 (Some 1%nat) (Alive Plain) false]>
                  (<[0%nat := mkBlock 1 1 (Some 0%nat) (Alive Plain) false]> ∅)) ∅ ∅ [])
    = Undefined UseAfterFree.
Proof.
  split.
  - apply (proj2 (proj1 member_WeakPtr_frees_block_inside_DeleteObject
                    (mkState (<[0%nat := mkBlock 1 1 (Some 0%nat) (Alive Plain) false]> ∅)
                             ∅ ∅ [])
                    (mkHandle (Some 0%nat) (Some 0%nat)) 0%nat
                    (mkBlock 1 1 (Some 0%nat) (Alive Plain) false) (Some 0%nat)
                    ltac:(reflexivity) ltac:(vm_compute; reflexivity) ltac:(reflexivity)
                    ltac:(reflexivity) ltac:(reflexivity) ltac:(reflexivity))).
  - apply (proj1 (proj2 member_WeakPtr_frees_block_inside_DeleteObject)
             (mkState (<[1%nat := mkBlock 1 0 (Some 1%nat) (Alive Plain) false]>
                         (<[0%nat := mkBlock 1 1 (Some 0%nat) (Alive Plain) false]> ∅))
                      ∅ ∅ [])
             (mkHandle (Some 0%nat) (Some 0%nat)) 0%nat 1%nat
             (mkBlock 1 1 (Some 0%nat) (Alive Plain) false)
             (mkBlock 1 0 (Some 1%nat) (Alive Plain) false) (Some 0%nat) (Some 1%nat)
             ltac:(lia) ltac:(reflexivity) ltac:(vm_compute; reflexivity)
             ltac:(reflexivity) ltac:(reflexivity) ltac:(reflexivity) ltac:(reflexivity)
             ltac:(vm_compute; reflexivity) ltac:(reflexivity) ltac:(reflexivity)
             ltac:(reflexivity) ltac:(reflexivity)).
Defined.

(** ** The single-counter SharedPtr *)

(** Decrement() of src/shared/shared.h destroys the object and frees the
    block exactly when it takes the counter from 1 to 0. *)
Lemma Basic_Decrement_effect (st : Basic.Heap) this b cb :
  block_ this = Some b → Basic.blocks st !! b = Some cb →
  Basic.freed cb = false → Basic.deleted cb = false →
  Basic.SharedPtr_Decrement this st
  = if decide (Basic.counter_ cb = 1)
    then Ok tt (Basic.mkHeap (<[b := Basic.mkBase 0 (Basic.GetPointer cb) true true]>
                                (Basic.blocks st))
                             (Basic.trace st ++ [EvDeleteObject b; EvDeleteBlock b]))
    else Ok tt (Basic.mkHeap
                  (<[b := Basic.mkBase (Basic.counter_ cb - 1) (Basic.GetPointer cb)
                            false false]> (Basic.blocks st))
                  (Basic.trace st)).
Proof.
  intros Ht Hb Hf Hd. destruct cb as [c g d f]. cbn in Hf, Hd. subst d f.
  unfold Basic.SharedPtr_Decrement, Basic.DeleteObject, Basic.delete_block,
    Basic.modify, Basic.load, Basic.emit, M_bind, M_ret, undefined.
  rewrite Ht. cbn [non_null Basic.blocks Basic.trace]. rewrite Hb.
  cbn [Basic.freed Basic.blocks]. rewrite lookup_insert_eq.
  cbn [Basic.freed Basic.GetCounter Basic.DecreaseCounter Basic.counter_ Basic.deleted
       Basic.GetPointer].
  case_decide as Hc.
  - cbn [Basic.counter_] in Hc. subst c. change (1 - 1 =? 0) with true. cbn iota.
    repeat (rewrite ?lookup_insert_eq, ?insert_insert_eq;
            cbn [Basic.freed Basic.deleted Basic.counter_ Basic.blocks Basic.trace
                 Basic.DecreaseCounter Basic.GetCounter Basic.GetPointer]).
    by rewrite <-app_assoc.
  - cbn [Basic.counter_] in Hc. destruct (Z.eqb_spec (c - 1) 0); [lia|]. reflexivity.
Qed.

(** The aliasing constructor of src/shared/shared.h reads through the block
    pointer of an empty parent. *)
Lemma Basic_alias_of_empty (st : Basic.Heap) p q :
  Basic.SharedPtr_alias (mkHandle q nullptr) p st = Undefined NullDeref.
Proof. reflexivity. Qed.

(** * Further properties of the shared-from-this SharedPtr and WeakPtr *)

(** ** Use counts, liveness, leaks *)

Lemma SharedPtr_UseCount_null st x :
  block_ x = None → SharedPtr_UseCount x st = Ok 0 st.
Proof. intros Hx. unfold SharedPtr_UseCount. by rewrite Hx. Qed.

Lemma SharedPtr_UseCount_ok st x b cb :
  block_ x = Some b → blocks st !! b = Some cb → freed cb = false →
  SharedPtr_UseCount x st = Ok (strong_counter_ cb) st.
Proof.
  intros Hx Hb Hf. unfold SharedPtr_UseCount, read. rewrite Hx. cbn [non_null].
  by rewrite (bind_ok _ _ _ _ _ (load_ok _ _ _ Hb Hf)).
Qed.

(** X1. In every store a program reaches, UseCount() of a live
    SharedPtr is the number of live SharedPtrs that refer to its block,
    which is at least 1; it is 0 for a SharedPtr without a block.
    UseCount() of a WeakPtr is the number of live SharedPtrs on its block,
    and 0 for an unbound WeakPtr. *)
Theorem UseCount_counts_owners ops st :
  run init ops = Some st →
  (∀ h x, shared st !! h = Some x →
     match block_ x with
     | Some b => SharedPtr_UseCount x st = Ok (refs (shared st) b) st
                 ∧ 1 ≤ refs (shared st) b
     | None => SharedPtr_UseCount x st = Ok 0 st
     end)
  ∧ (∀ w x, weak st !! w = Some x →
       match block_ x with
       | Some b => WeakPtr_UseCount x st = Ok (refs (shared st) b) st
       | None => WeakPtr_UseCount x st = Ok 0 st
       end).
Proof.
  intros Hrun. pose proof (reachable_inv _ _ Hrun) as Hi. split.
  - intros h x Hh. destruct (block_ x) as [b|] eqn:Hb.
    + destruct (inv_shared_owner _ _ _ _ Hi Hh Hb) as (cb & Hcb & Hf & Hs & Hbi).
      rewrite <-(bi_strong _ _ _ Hbi). split; [|exact Hs].
      by apply (SharedPtr_UseCount_ok _ _ b).
    + by apply SharedPtr_UseCount_null.
  - intros w x Hw. destruct (block_ x) as [b|] eqn:Hb.
    + destruct (inv_weak_owner _ _ _ _ Hi Hw Hb) as (cb & Hcb & Hf & _ & Hbi).
      rewrite <-(bi_strong _ _ _ Hbi). by apply (WeakPtr_UseCount_ok _ _ b).
    + by apply WeakPtr_UseCount_null.
Qed.

Lemma UseCount_counts_owners_witness :
  ∃ st x,
    run init [SpMakeShared KPlain 0%nat; SpCopy 1%nat 0%nat; SpAlias 2%nat 1%nat (Some 9%nat);
              WpFromShared 3%nat 0%nat; SpDtor 0%nat] = Some st
    ∧ shared st !! 2%nat = Some x
    ∧ SharedPtr_UseCount x st = Ok 2 st.
Proof.
  eexists _, _.
  split; [vm_compute; reflexivity|].
  split; [vm_compute; reflexivity|].
  pose proof (proj1 (UseCount_counts_owners
                [SpMakeShared KPlain 0%nat; SpCopy 1%nat 0%nat;
                 SpAlias 2%nat 1%nat (Some 9%nat);
                 WpFromShared 3%nat 0%nat; SpDtor 0%nat] _
                ltac:(vm_compute; reflexivity)) 2%nat _ ltac:(vm_compute; reflexivity)) as H.
  cbn [block_] in H. destruct H as [H _].
  rewrite H. f_equal.
Defined.


Ltac well_used_tac :=
  repeat (split; [vm_compute; reflexivity|];
          let st' := fresh "st" in let H := fresh "H" in
          intros st' H; vm_compute in H; injection H as <-);
  exact I.


Lemma run_dead ops st st' b :
  inv st → run st ops = Some st' → strong_of st b = Some 0 →
  inv st' ∧ strong_of st' b = Some 0.
Proof.
  revert st. induction ops as [|op ops IH]; intros st Hinv H Hz; cbn in H.
  - injection H as <-. by split.
  - destruct (exec st op) as [st1|] eqn:Hop; [|discriminate H].
    destruct (exec_sound _ _ _ Hinv Hop) as [Hi1 [_ Hrel]].
    apply (IH st1 Hi1 H).
    specialize (Hrel b). unfold strong_of in Hz |- *.
    destruct (blocks st !! b) as [cb|]; [|discriminate Hz].
    destruct Hrel as (cb' & -> & Hstep). cbn in Hz |- *. injection Hz as Hz.
    by rewrite (bs_dead _ _ Hstep Hz).
Qed.

(** X3. A block whose strong counter reached 0 keeps it at 0
    whatever the program does next: no SharedPtr refers to it again, and
    every WeakPtr on it stays expired, Lock() on it returns the empty
    SharedPtr and the promoting constructor throws BadWeakPtr. *)
Theorem expired_stays_expired ops ops' st st' b :
  run init ops = Some st → run st ops' = Some st' →
  strong_of st b = Some 0 →
  strong_of st' b = Some 0
  ∧ refs (shared st') b = 0
  ∧ ∀ w x, weak st' !! w = Some x → block_ x = Some b →
      WeakPtr_Expired x st' = Ok true st'
      ∧ WeakPtr_Lock x st' = Ok (mkHandle nullptr nullptr) st'
      ∧ SharedPtr_from_weak x st' = Throw BadWeakPtr st'.
Proof.
  intros Hrun Hrun' Hz.
  destruct (run_dead _ _ _ b (reachable_inv _ _ Hrun) Hrun' Hz) as [Hi Hz'].
  split; [exact Hz'|].
  unfold strong_of in Hz'. destruct (blocks st' !! b) as [cb|] eqn:Hb; [|discriminate Hz'].
  cbn in Hz'. injection Hz' as Hs.
  split.
  { pose proof (Hi b) as Hbi. rewrite Hb in Hbi. by rewrite <-(bi_strong _ _ _ Hbi). }
  intros w x Hw Hx.
  destruct (inv_weak_owner _ _ _ _ Hi Hw Hx) as (cb' & Hcb & Hf & _ & _).
  rewrite Hb in Hcb. injection Hcb as <-.
  split; [|split].
  - rewrite (WeakPtr_Expired_ok _ _ b cb Hx Hb Hf). by rewrite Hs.
  - by apply (WeakPtr_Lock_expired _ _ b cb).
  - by apply (SharedPtr_from_weak_expired _ _ b cb).
Qed.

Lemma expired_stays_expired_witness :
  ∃ st st' x,
    run init [SpMakeShared KPlain 0%nat; WpFromShared 1%nat 0%nat; SpDtor 0%nat] = Some st
    ∧ run st [SpMakeShared KPlain 0%nat; WpCopy 2%nat 1%nat; WpLock 3%nat 2%nat] = Some st'
    ∧ weak st' !! 2%nat = Some x
    ∧ WeakPtr_Expired x st' = Ok true st'.
Proof.
  eexists _, _, _.
  split; [vm_compute; reflexivity|].
  split; [vm_compute; reflexivity|].
  split; [vm_compute; reflexivity|].
  apply (proj2 (proj2 (expired_stays_expired
           [SpMakeShared KPlain 0%nat; WpFromShared 1%nat 0%nat; SpDtor 0%nat]
           [SpMakeShared KPlain 0%nat; WpCopy 2%nat 1%nat; WpLock 3%nat 2%nat] _ _ 0%nat
           ltac:(vm_compute; reflexivity) ltac:(vm_compute; reflexivity)
           ltac:(vm_compute; reflexivity))) 2%nat _
           ltac:(vm_compute; reflexivity) ltac:(vm_compute; reflexivity)).
Defined.



(** ** Exceptions *)

Lemma no_throw_ret {A} (a : A) : no_throw (M_ret a).
Proof. intros st e st' H. discriminate H. Qed.

Lemma no_throw_undefined {A} u : no_throw (@undefined State A u).
Proof. intros st e st' H. discriminate H. Qed.

Lemma no_throw_bind {A B} (m : M State A) (k : A → M State B) :
  no_throw m → (∀ a, no_throw (k a)) → no_throw (M_bind k m).
Proof.
  intros Hm Hk st e st' H. unfold M_bind in H.
  destruct (m st) as [a s1|e1 s1|] eqn:Hms.
  - by apply (Hk a s1 e st').
  - by apply (Hm st e1 s1).
  - discriminate H.
Qed.

Lemma no_throw_load p : no_throw (load p).
Proof.
  intros st e st' H. unfold load in H.
  destruct p as [b|]; [|discriminate H].
  destruct (blocks st !! b) as [cb|]; [|discriminate H].
  destruct (freed cb); discriminate H.
Qed.

Lemma no_throw_emit e : no_throw (emit e).
Proof. intros st e' st' H. discriminate H. Qed.

Lemma no_throw_new_block mk : no_throw (new_block mk).
Proof. intros st e' st' H. discriminate H. Qed.

Lemma no_throw_get_shared a : no_throw (get_shared a).
Proof. intros st e st' H. unfold get_shared in H. destruct (shared st !! a); discriminate H. Qed.

Lemma no_throw_put_shared a x : no_throw (put_shared a x).
Proof. intros st e st' H. discriminate H. Qed.

Lemma no_throw_new_shared a x : no_throw (new_shared a x).
Proof. intros st e st' H. unfold new_shared in H. destruct (shared st !! a); discriminate H. Qed.

Lemma no_throw_del_shared a : no_throw (del_shared a).
Proof. intros st e st' H. discriminate H. Qed.

Lemma no_throw_get_weak a : no_throw (get_weak a).
Proof. intros st e st' H. unfold get_weak in H. destruct (weak st !! a); discriminate H. Qed.

Lemma no_throw_put_weak a x : no_throw (put_weak a x).
Proof. intros st e st' H. discriminate H. Qed.

Lemma no_throw_new_weak a x : no_throw (new_weak a x).
Proof. intros st e st' H. unfold new_weak in H. destruct (weak st !! a); discriminate H. Qed.

Lemma no_throw_del_weak a : no_throw (del_weak a).
Proof. intros st e st' H. discriminate H. Qed.

Lemma no_throw_set_blocks f : no_throw (λ st, Ok tt (set_blocks f st)).
Proof. intros st e st' H. discriminate H. Qed.

Ltac no_throw_step :=
  first
    [ apply no_throw_ret | apply no_throw_undefined | apply no_throw_load
    | apply no_throw_emit | apply no_throw_new_block
    | apply no_throw_get_shared | apply no_throw_put_shared
    | apply no_throw_new_shared | apply no_throw_del_shared
    | apply no_throw_get_weak | apply no_throw_put_weak
    | apply no_throw_new_weak | apply no_throw_del_weak
    | apply no_throw_set_blocks
    | match goal with H : _ |- _ => apply H end
    | apply no_throw_bind; [|intros ?]
    | match goal with
      | |- no_throw (if ?c then _ else _) => destruct c
      | |- no_throw (match ?c with _ => _ end) => destruct c
      end ].
Ltac no_throw_tac := repeat no_throw_step.

Lemma no_throw_read {A} p (f : ControlBlock → A) : no_throw (read p f).
Proof. unfold read. no_throw_tac. Qed.

Lemma no_throw_modify p f : no_throw (modify p f).
Proof. unfold modify. no_throw_tac. Qed.

Lemma no_throw_delete_block p : no_throw (delete_block p).
Proof. unfold delete_block. pose proof no_throw_modify. no_throw_tac. Qed.

Lemma no_throw_WeakPtr_copy o : no_throw (WeakPtr_copy o).
Proof. unfold WeakPtr_copy. pose proof no_throw_modify. no_throw_tac. Qed.

Lemma no_throw_WeakPtr_Decrement t : no_throw (WeakPtr_Decrement t).
Proof.
  unfold WeakPtr_Decrement.
  pose proof no_throw_modify. pose proof (@no_throw_read Z). pose proof no_throw_delete_block.
  no_throw_tac.
Qed.

Lemma no_throw_DeleteObject p : no_throw (DeleteObject p).
Proof.
  unfold DeleteObject, destroy_object, destroy_EnableSharedFromThis.
  pose proof no_throw_modify. pose proof no_throw_WeakPtr_Decrement.
  no_throw_tac.
Qed.

Lemma no_throw_SharedPtr_Decrement t : no_throw (SharedPtr_Decrement t).
Proof.
  unfold SharedPtr_Decrement.
  pose proof no_throw_modify. pose proof (@no_throw_read Z). pose proof no_throw_delete_block.
  pose proof no_throw_DeleteObject.
  no_throw_tac.
Qed.

Lemma no_throw_SharedPtr_copy o : no_throw (SharedPtr_copy o).
Proof. unfold SharedPtr_copy. pose proof no_throw_modify. no_throw_tac. Qed.

Lemma no_throw_SharedPtr_alias o p : no_throw (SharedPtr_alias o p).
Proof. unfold SharedPtr_alias. pose proof no_throw_modify. no_throw_tac. Qed.

(** Lock() tests the strong counter before it calls the promoting
    constructor, which then finds it as Lock() did. *)
Lemma no_throw_WeakPtr_Lock t : no_throw (WeakPtr_Lock t).
Proof.
  intros st e st' H. unfold WeakPtr_Lock in H.
  destruct (block_ t) as [b|] eqn:Ht; [|discriminate H]. cbn [non_null] in H.
  unfold SharedPtr_from_weak, read, modify, load, M_bind, M_ret, throw in H.
  cbn [block_] in H. rewrite Ht in H.
  destruct (blocks st !! b) as [cb|] eqn:Hb; [|discriminate H].
  destruct (freed cb) eqn:Hf; [discriminate H|].
  destruct (GetStrongCounter cb =? 0) eqn:Hs; [discriminate H|].
  rewrite Hb, Hf, Hs in H. cbn [non_null negb orb] in H.
  rewrite Hb, Hf in H. discriminate H.
Qed.

Lemma no_throw_get_weak_this home : no_throw (get_weak_this home).
Proof. unfold get_weak_this. no_throw_tac. Qed.

Lemma no_throw_set_weak_this home w : no_throw (set_weak_this home w).
Proof. unfold set_weak_this. pose proof no_throw_modify. no_throw_tac. Qed.

Lemma no_throw_SetWeakThis self home arg : no_throw (SetWeakThis self home arg).
Proof.
  unfold SetWeakThis, WeakPtr_from_shared, WeakPtr_assign_move_body.
  pose proof no_throw_SharedPtr_copy. pose proof no_throw_WeakPtr_copy.
  pose proof no_throw_get_weak_this. pose proof no_throw_set_weak_this.
  pose proof no_throw_WeakPtr_Decrement. pose proof no_throw_SharedPtr_Decrement.
  no_throw_tac.
Qed.

Lemma no_throw_SharedPtr_from_holder k block : no_throw (SharedPtr_from_holder k block).
Proof.
  unfold SharedPtr_from_holder.
  pose proof (@no_throw_read ptr). pose proof no_throw_SetWeakThis.
  no_throw_tac.
Qed.

(** The one place that throws: the promoting constructor, for a WeakPtr
    bound to a block whose strong counter is 0; it has changed nothing. *)
Lemma SharedPtr_from_weak_throws o st e st' :
  SharedPtr_from_weak o st = Throw e st' →
  st' = st ∧ ∃ b cb, block_ o = Some b ∧ blocks st !! b = Some cb ∧ freed cb = false
                     ∧ strong_counter_ cb = 0.
Proof.
  intros H. unfold SharedPtr_from_weak, read, modify, load, M_bind, M_ret, throw in H.
  cbn [block_] in H.
  destruct (block_ o) as [b|] eqn:Ho; [|discriminate H].
  destruct (blocks st !! b) as [cb|] eqn:Hb; [|discriminate H].
  destruct (freed cb) eqn:Hf; [discriminate H|].
  cbn [non_null negb] in H. rewrite orb_false_r in H.
  destruct (Z.eqb_spec (GetStrongCounter cb) 0) as [Hs|Hs].
  - assert (st' = st) as -> by congruence. split; [reflexivity|]. by exists b, cb.
  - rewrite Hb, Hf in H. discriminate H.
Qed.

(** X5. Of the operations that allocate no control block (all but
    SharedPtr(X* ptr), MakeShared and Reset(ptr), where [operator new] or the
    constructor of the managed object may throw), run on managed objects
    whose destructors throw nothing, the only one that throws is the
    promoting constructor SharedPtr(const WeakPtr&), and only for a WeakPtr
    bound to an allocated block whose strong counter is 0; the store is
    then exactly as before the call.  In particular Lock(),
    SharedFromThis(), copies, assignments, Reset() and the destructors never
    throw. *)
Theorem only_expired_promotion_throws op st e st' :
  allocates op = false → step op st = Throw e st' →
  st' = st
  ∧ ∃ h w x b cb,
      op = SpFromWeak h w ∧ weak st !! w = Some x ∧ block_ x = Some b
      ∧ blocks st !! b = Some cb ∧ freed cb = false ∧ strong_counter_ cb = 0.
Proof.
  intros Hal H.
  pose proof no_throw_SharedPtr_copy. pose proof no_throw_WeakPtr_copy.
  pose proof no_throw_SharedPtr_alias. pose proof no_throw_WeakPtr_Lock.
  pose proof no_throw_get_weak_this.
  pose proof no_throw_WeakPtr_Decrement. pose proof no_throw_SharedPtr_Decrement.
  pose proof no_throw_modify.
  destruct op; try discriminate Hal; cbn [step] in H;
    try (exfalso; revert H;
         match goal with |- ?m st = Throw e st' → False => cut (no_throw m) end;
         [intros Hn; apply Hn|];
         unfold SharedPtr_assign_copy, SharedPtr_assign_move,
           SharedPtr_assign_copy_body, SharedPtr_assign_move_body,
           SharedPtr_Reset, SharedPtr_Swap, SharedPtr_dtor,
           WeakPtr_from_shared, WeakPtr_assign_copy, WeakPtr_assign_move,
           WeakPtr_assign_copy_body, WeakPtr_assign_move_body,
           WeakPtr_Reset, WeakPtr_Swap, WeakPtr_dtor, SharedFromThis, WeakFromThis;
         no_throw_tac; fail).
  unfold M_bind at 1 in H. unfold get_weak in H.
  destruct (weak st !! w) as [x|] eqn:Hw; [|discriminate H].
  unfold M_bind in H.
  destruct (SharedPtr_from_weak x st) as [y s1|e1 s1|] eqn:Hp.
  - exfalso. revert H. apply no_throw_new_shared.
  - assert (s1 = st') as -> by congruence. clear H.
    destruct (SharedPtr_from_weak_throws _ _ _ _ Hp) as (-> & b & cb & Hx & Hb & Hf & Hs).
    split; [reflexivity|]. by exists h, w, x, b, cb.
  - discriminate H.
Qed.

Lemma only_expired_promotion_throws_witness :
  ∃ cb,
    step (SpFromWeak 2%nat 1%nat)
      (state_after [SpMakeShared KPlain 0%nat; WpFromShared 1%nat 0%nat; SpDtor 0%nat])
    = Throw BadWeakPtr
        (state_after [SpMakeShared KPlain 0%nat; WpFromShared 1%nat 0%nat; SpDtor 0%nat])
    ∧ blocks (state_after [SpMakeShared KPlain 0%nat; WpFromShared 1%nat 0%nat; SpDtor 0%nat])
        !! 0%nat = Some cb
    ∧ strong_counter_ cb = 0.
Proof.
  assert (Hs : step (SpFromWeak 2%nat 1%nat)
                 (state_after [SpMakeShared KPlain 0%nat; WpFromShared 1%nat 0%nat;
                               SpDtor 0%nat])
               = Throw BadWeakPtr
                   (state_after [SpMakeShared KPlain 0%nat; WpFromShared 1%nat 0%nat;
                                 SpDtor 0%nat]))
    by (vm_compute; reflexivity).
  destruct (only_expired_promotion_throws (SpFromWeak 2%nat 1%nat) _ _ _ eq_refl Hs)
    as (_ & h & w & x & b & cb & Hop & Hw & Hx & Hb & _ & Hz).
  injection Hop as <- <-.
  vm_compute in Hw. injection Hw as <-. injection Hx as <-.
  exists cb. split; [exact Hs|]. split; [exact Hb|exact Hz].
Defined.

(** ** What a WeakPtr cannot do *)

Lemma owners_untouched_refl st : owners_untouched st st.
Proof.
  split; try reflexivity. exists []. split; [by rewrite app_nil_r|constructor].
Qed.

Lemma owners_untouched_trans st1 st2 st3 :
  owners_untouched st1 st2 → owners_untouched st2 st3 → owners_untouched st1 st3.
Proof.
  intros [Hs1 Hc1 Ho1 (e1 & Ht1 & He1)] [Hs2 Hc2 Ho2 (e2 & Ht2 & He2)]. split.
  - congruence.
  - intros b. by rewrite Hc2.
  - intros b. by rewrite Ho2.
  - exists (e1 ++ e2). split; [by rewrite Ht2, Ht1, app_assoc|by apply Forall_app].
Qed.

Lemma leaves_ret {A} (a : A) : leaves_owners (M_ret a).
Proof. intros st a' st' [= _ <-]. apply owners_untouched_refl. Qed.

Lemma leaves_undefined {A} u : leaves_owners (@undefined State A u).
Proof. intros st a st' H. discriminate H. Qed.

Lemma leaves_bind {A B} (m : M State A) (k : A → M State B) :
  leaves_owners m → (∀ a, leaves_owners (k a)) → leaves_owners (M_bind k m).
Proof.
  intros Hm Hk st b st' H. unfold M_bind in H.
  destruct (m st) as [a s1| |] eqn:Hms; try discriminate H.
  apply (owners_untouched_trans st s1 st'); [by apply (Hm _ _ _ Hms)|by apply (Hk a _ _ _ H)].
Qed.

Lemma leaves_load p : leaves_owners (load p).
Proof.
  intros st a st' H. unfold load in H.
  destruct p as [b|]; [|discriminate H].
  destruct (blocks st !! b) as [cb|]; [|discriminate H].
  destruct (freed cb); [discriminate H|]. injection H as _ <-. apply owners_untouched_refl.
Qed.

Lemma leaves_read {A} p (f : ControlBlock → A) : leaves_owners (read p f).
Proof. apply leaves_bind; [apply leaves_load|intros; apply leaves_ret]. Qed.

(** A change of the weak counter or of the freed flag. *)
Lemma leaves_modify p f :
  (∀ cb, strong_counter_ (f cb) = strong_counter_ cb) →
  (∀ cb, object_ (f cb) = object_ cb) →
  leaves_owners (modify p f).
Proof.
  intros Hs Ho st a st' H. unfold modify, M_bind, load, undefined in H.
  destruct p as [b|]; [|discriminate H].
  destruct (blocks st !! b) as [cb|] eqn:Hb; [|discriminate H].
  destruct (freed cb); [discriminate H|]. injection H as _ <-.
  split; cbn [set_blocks shared blocks trace].
  - reflexivity.
  - intros b'. unfold strong_of. cbn. destruct (decide (b' = b)) as [->|Hne].
    + by rewrite lookup_insert_eq, Hb; cbn; rewrite Hs.
    + by rewrite lookup_insert_ne by congruence.
  - intros b'. unfold object_of. cbn. destruct (decide (b' = b)) as [->|Hne].
    + by rewrite lookup_insert_eq, Hb; cbn; rewrite Ho.
    + by rewrite lookup_insert_ne by congruence.
  - exists []. split; [by rewrite app_nil_r|constructor].
Qed.

Lemma leaves_emit_block b : leaves_owners (emit (EvDeleteBlock b)).
Proof.
  intros st a st' [= _ <-]. split; try reflexivity.
  exists [EvDeleteBlock b]. split; [reflexivity|]. repeat constructor. by exists b.
Qed.

Lemma leaves_delete_block p : leaves_owners (delete_block p).
Proof.
  apply leaves_bind; [apply leaves_load|]. intros cb. destruct p; [|apply leaves_undefined].
  apply leaves_bind; [by apply leaves_modify|intros; apply leaves_emit_block].
Qed.

Lemma leaves_WeakPtr_Decrement t : leaves_owners (WeakPtr_Decrement t).
Proof.
  unfold WeakPtr_Decrement. destruct (non_null _); [|apply leaves_ret].
  apply leaves_bind; [by apply leaves_modify|]. intros _.
  apply leaves_bind; [apply leaves_read|]. intros s.
  apply leaves_bind; [apply leaves_read|]. intros w.
  destruct (_ && _); [apply leaves_delete_block|apply leaves_ret].
Qed.

Lemma leaves_WeakPtr_copy o : leaves_owners (WeakPtr_copy o).
Proof.
  unfold WeakPtr_copy. apply leaves_bind; [|intros; apply leaves_ret].
  destruct (non_null _); [by apply leaves_modify|apply leaves_ret].
Qed.

Lemma leaves_get_shared a : leaves_owners (get_shared a).
Proof.
  intros st x st' H. unfold get_shared in H.
  destruct (shared st !! a); [|discriminate H]. injection H as _ <-.
  apply owners_untouched_refl.
Qed.

Lemma leaves_get_weak a : leaves_owners (get_weak a).
Proof.
  intros st x st' H. unfold get_weak in H.
  destruct (weak st !! a); [|discriminate H]. injection H as _ <-.
  apply owners_untouched_refl.
Qed.

Lemma leaves_set_weak f st : owners_untouched st (set_weak f st).
Proof.
  split; try reflexivity. exists []. split; [by rewrite app_nil_r|constructor].
Qed.

Lemma leaves_put_weak a x : leaves_owners (put_weak a x).
Proof. intros st u st' [= _ <-]. apply leaves_set_weak. Qed.

Lemma leaves_new_weak a x : leaves_owners (new_weak a x).
Proof.
  intros st u st' H. unfold new_weak in H.
  destruct (weak st !! a); [discriminate H|]. injection H as _ <-. apply leaves_set_weak.
Qed.

Lemma leaves_del_weak a : leaves_owners (del_weak a).
Proof. intros st u st' [= _ <-]. apply leaves_set_weak. Qed.

Lemma leaves_get_weak_this home : leaves_owners (get_weak_this home).
Proof.
  unfold get_weak_this. apply leaves_bind; [apply leaves_load|]. intros cb.
  destruct (object_ cb) as [|[|w]|]; first [apply leaves_ret|apply leaves_undefined].
Qed.

Lemma weak_op_leaves_owners op : is_weak_op op = true → leaves_owners (step op).
Proof.
  intros Hop. destruct op; try discriminate Hop; cbn [step];
    unfold WeakPtr_from_shared, WeakPtr_assign_copy, WeakPtr_assign_move,
      WeakPtr_assign_copy_body, WeakPtr_assign_move_body,
      WeakPtr_Reset, WeakPtr_Swap, WeakPtr_dtor, WeakFromThis;
    repeat first
      [ apply leaves_ret | apply leaves_get_shared | apply leaves_get_weak
      | apply leaves_put_weak | apply leaves_new_weak | apply leaves_del_weak
      | apply leaves_WeakPtr_copy | apply leaves_WeakPtr_Decrement
      | apply leaves_get_weak_this
      | apply leaves_modify; reflexivity
      | apply leaves_bind; [|intros ?]
      | match goal with
        | |- leaves_owners (if ?c then _ else _) => destruct c
        end ].
Qed.

Lemma weak_op_no_throw op : is_weak_op op = true → no_throw (step op).
Proof.
  intros Hop.
  pose proof no_throw_WeakPtr_copy. pose proof no_throw_WeakPtr_Decrement.
  pose proof no_throw_get_weak_this. pose proof no_throw_modify.
  destruct op; try discriminate Hop; cbn [step];
    unfold WeakPtr_from_shared, WeakPtr_assign_copy, WeakPtr_assign_move,
      WeakPtr_assign_copy_body, WeakPtr_assign_move_body,
      WeakPtr_Reset, WeakPtr_Swap, WeakPtr_dtor, WeakFromThis;
    no_throw_tac.
Qed.

Lemma count_ev_no_object b evs :
  Forall (λ e, ∃ b', e = EvDeleteBlock b') evs → count_ev (EvDeleteObject b) evs = 0.
Proof.
  induction 1 as [|e evs [b' ->] _ IH]; [reflexivity|].
  rewrite count_ev_cons, IH. by rewrite decide_False.
Qed.

(** X6. Constructing, copying, moving, assigning, resetting,
    swapping or destroying a WeakPtr, and WeakFromThis(), never throw,
    change no SharedPtr, no strong counter and no managed object, and never
    run DeleteObject(): short of Lock(), a WeakPtr has no influence on the
    lifetime of the object. *)
Theorem WeakPtr_operations_leave_owners_alone op st st' :
  is_weak_op op = true → exec st op = Some st' →
  step op st = Ok tt st'
  ∧ shared st' = shared st
  ∧ (∀ b, strong_of st' b = strong_of st b)
  ∧ (∀ b, object_of st' b = object_of st b)
  ∧ (∀ b, count_ev (EvDeleteObject b) (new_events st st') = 0).
Proof.
  intros Hop He. unfold exec in He.
  destruct (step op st) as [[] s1|e s1|] eqn:Hs; [| |discriminate He].
  - injection He as ->.
    destruct (weak_op_leaves_owners op Hop _ _ _ Hs) as [H1 H2 H3 (evs & Ht & Hev)].
    split; [reflexivity|]. split; [exact H1|]. split; [exact H2|]. split; [exact H3|].
    intros b. rewrite (new_events_app _ _ _ Ht). by apply count_ev_no_object.
  - by destruct (weak_op_no_throw op Hop _ _ _ Hs).
Qed.

Lemma WeakPtr_operations_leave_owners_alone_witness :
  ∃ st',
    exec (state_after [SpMakeShared KPlain 0%nat; WpFromShared 1%nat 0%nat; SpDtor 0%nat])
      (WpDtor 1%nat) = Some st'
    ∧ freed_of st' 0%nat = Some true
    ∧ strong_of st' 0%nat = Some 0
    ∧ count_ev (EvDeleteObject 0%nat)
        (new_events
           (state_after [SpMakeShared KPlain 0%nat; WpFromShared 1%nat 0%nat; SpDtor 0%nat])
           st') = 0.
Proof.
  eexists. split; [vm_compute; reflexivity|].
  split; [vm_compute; reflexivity|]. split; [vm_compute; reflexivity|].
  apply (WeakPtr_operations_leave_owners_alone (WpDtor 1%nat)
           (state_after [SpMakeShared KPlain 0%nat; WpFromShared 1%nat 0%nat; SpDtor 0%nat]));
    vm_compute; reflexivity.
Defined.

(** ** Swap, and WeakPtr(SharedPtr) followed by Lock() *)

Lemma Handle_eta x : mkHandle (ptr_ x) (block_ x) = x.
Proof. by destruct x. Qed.

Lemma State_eta st : mkState (blocks st) (shared st) (weak st) (trace st) = st.
Proof. by destruct st. Qed.

Lemma ControlBlock_eta cb :
  mkBlock (strong_counter_ cb) (weak_counter_ cb) (GetPointer cb) (object_ cb) (freed cb) = cb.
Proof. by destruct cb. Qed.

Lemma swap_back {A} (m : gmap nat A) h o x y :
  m !! h = Some x → m !! o = Some y →
  <[o := if decide (h = o) then x else y]> (<[h := x]> (<[o := x]> (<[h := y]> m))) = m.
Proof.
  intros Hh Ho. apply map_eq. intros i.
  destruct (decide (i = o)) as [->|Hio].
  - rewrite lookup_insert_eq. case_decide; congruence.
  - rewrite lookup_insert_ne by congruence.
    destruct (decide (i = h)) as [->|Hih].
    + by rewrite lookup_insert_eq.
    + by rewrite !lookup_insert_ne by congruence.
Qed.

Lemma SharedPtr_Swap_ok st h o x y :
  shared st !! h = Some x → shared st !! o = Some y →
  step (SpSwap h o) st
  = Ok tt (mkState (blocks st) (<[o := x]> (<[h := y]> (shared st))) (weak st) (trace st)).
Proof.
  intros Hh Ho. cbn [step]. unfold SharedPtr_Swap.
  rewrite bind_get_shared, Hh, bind_get_shared, Ho, bind_put_shared.
  by rewrite !Handle_eta.
Qed.

Lemma WeakPtr_Swap_ok st h o x y :
  weak st !! h = Some x → weak st !! o = Some y →
  step (WpSwap h o) st
  = Ok tt (mkState (blocks st) (shared st) (<[o := x]> (<[h := y]> (weak st))) (trace st)).
Proof.
  intros Hh Ho. cbn [step]. unfold WeakPtr_Swap.
  rewrite bind_get_weak, Hh, bind_get_weak, Ho, bind_put_weak.
  by rewrite !Handle_eta.
Qed.

(** X7. Swap() of two SharedPtrs, and of two WeakPtrs,
    exchanges the two handles and touches nothing else: no counter, no
    block, no event.  A second Swap() of the same two handles restores the
    store, also when both are the same handle. *)
Theorem Swap_exchanges_and_undoes st h o x y :
  (shared st !! h = Some x → shared st !! o = Some y →
   ∃ st1,
     step (SpSwap h o) st = Ok tt st1
     ∧ st1 = mkState (blocks st) (<[o := x]> (<[h := y]> (shared st))) (weak st) (trace st)
     ∧ step (SpSwap h o) st1 = Ok tt st)
  ∧ (weak st !! h = Some x → weak st !! o = Some y →
     ∃ st1,
       step (WpSwap h o) st = Ok tt st1
       ∧ st1 = mkState (blocks st) (shared st) (<[o := x]> (<[h := y]> (weak st))) (trace st)
       ∧ step (WpSwap h o) st1 = Ok tt st).
Proof.
  split; intros Hh Ho; eexists; (split; [|split; [reflexivity|]]).
  - by apply SharedPtr_Swap_ok.
  - rewrite (SharedPtr_Swap_ok _ h o (if decide (h = o) then x else y) x).
    + cbn [blocks shared weak trace]. rewrite (swap_back _ _ _ _ _ Hh Ho). by rewrite State_eta.
    + cbn [shared]. case_decide as Hd.
      * subst o. by rewrite lookup_insert_eq.
      * rewrite lookup_insert_ne by congruence. by rewrite lookup_insert_eq.
    + cbn [shared]. by rewrite lookup_insert_eq.
  - by apply WeakPtr_Swap_ok.
  - rewrite (WeakPtr_Swap_ok _ h o (if decide (h = o) then x else y) x).
    + cbn [blocks shared weak trace]. rewrite (swap_back _ _ _ _ _ Hh Ho). by rewrite State_eta.
    + cbn [weak]. case_decide as Hd.
      * subst o. by rewrite lookup_insert_eq.
      * rewrite lookup_insert_ne by congruence. by rewrite lookup_insert_eq.
    + cbn [weak]. by rewrite lookup_insert_eq.
Qed.

Lemma Swap_exchanges_and_undoes_witness :
  ∃ st1,
    step (SpSwap 0%nat 1%nat) (state_after [SpMakeShared KPlain 0%nat; SpDefault 1%nat])
    = Ok tt st1
    ∧ shared st1 !! 0%nat = Some (mkHandle nullptr nullptr)
    ∧ shared st1 !! 1%nat = Some (mkHandle (Some 0%nat) (Some 0%nat))
    ∧ step (SpSwap 0%nat 1%nat) st1
      = Ok tt (state_after [SpMakeShared KPlain 0%nat; SpDefault 1%nat]).
Proof.
  destruct (proj1 (Swap_exchanges_and_undoes
                     (state_after [SpMakeShared KPlain 0%nat; SpDefault 1%nat])
                     0%nat 1%nat (mkHandle (Some 0%nat) (Some 0%nat))
                     (mkHandle nullptr nullptr))
              ltac:(vm_compute; reflexivity) ltac:(vm_compute; reflexivity))
    as (st1 & H1 & -> & H2).
  eexists. split; [exact H1|]. split; [vm_compute; reflexivity|].
  split; [vm_compute; reflexivity|exact H2].
Defined.

(** X8. In a store a program reaches, building a WeakPtr from a
    live SharedPtr and calling Lock() on it gives back a SharedPtr with the
    same pointer and block (equal under operator==), with one more strong
    and one more weak owner and no event.  From a SharedPtr without a
    block, Lock() gives the empty SharedPtr, whatever pointer the SharedPtr
    held. *)
Theorem demote_then_Lock ops st h x w h2 :
  run init ops = Some st → shared st !! h = Some x →
  weak st !! w = None → shared st !! h2 = None →
  ∃ st' y,
    run st [WpFromShared w h; WpLock h2 w] = Some st'
    ∧ shared st' = <[h2 := y]> (shared st)
    ∧ weak st' = <[w := x]> (weak st)
    ∧ trace st' = trace st
    ∧ match block_ x with
      | Some b =>
          y = x ∧ SharedPtr_eq y x = true
          ∧ strong_of st' b = (λ n, n + 1) <$> strong_of st b
          ∧ weak_of st' b = (λ n, n + 1) <$> weak_of st b
      | None => y = mkHandle nullptr nullptr ∧ blocks st' = blocks st
      end.
Proof.
  intros Hrun Hh Hw Hh2. pose proof (reachable_inv _ _ Hrun) as Hi.
  destruct (block_ x) as [b|] eqn:Hb.
  - destruct (inv_shared_owner _ _ _ _ Hi Hh Hb) as (cb & Hcb & Hf & Hs & _).
    assert (Hx : mkHandle (ptr_ x) (Some b) = x) by (by rewrite <-Hb, Handle_eta).
    set (st1 := set_weak <[w := mkHandle (ptr_ x) (Some b)]>
                  (set_blocks <[b := IncreaseWeakCounter cb]> st)).
    assert (Hl : WeakPtr_Lock (mkHandle (ptr_ x) (Some b)) st1
                 = Ok (mkHandle (ptr_ x) (Some b))
                      (set_blocks <[b := IncreaseStrongCounter (IncreaseWeakCounter cb)]> st1)).
    { apply (WeakPtr_Lock_ok st1 (mkHandle (ptr_ x) (Some b)) b (IncreaseWeakCounter cb)).
      - reflexivity.
      - cbn. apply lookup_insert_eq.
      - exact Hf.
      - cbn. lia. }
    eexists _, x. split.
    { cbn [run]. unfold exec at 1. cbn [step].
      rewrite bind_get_shared, Hh. unfold WeakPtr_from_shared.
      rewrite (bind_ok _ _ _ _ _ (WeakPtr_copy_ok st x b cb Hb Hcb Hf)).
      rewrite new_weak_eq. cbn [set_blocks weak]. rewrite Hw.
      fold (set_blocks <[b := IncreaseWeakCounter cb]> st). fold st1.
      unfold exec. cbn [step]. rewrite bind_get_weak.
      replace (weak st1 !! w) with (Some (mkHandle (ptr_ x) (Some b)))
        by (symmetry; apply lookup_insert_eq).
      rewrite (bind_ok _ _ _ _ _ Hl).
      rewrite new_shared_eq.
      replace (shared (set_blocks <[b := IncreaseStrongCounter (IncreaseWeakCounter cb)]> st1) !! h2)
        with (@None Handle) by (symmetry; exact Hh2).
      rewrite Hx. reflexivity. }
    subst st1. rewrite Hx.
    cbn [set_shared set_blocks set_weak shared weak trace blocks].
    split; [reflexivity|]. split; [reflexivity|]. split; [reflexivity|].
    split; [reflexivity|]. split.
    { unfold SharedPtr_eq. by rewrite !bool_decide_eq_true_2. }
    unfold strong_of, weak_of, set_shared, set_blocks, set_weak. cbn [blocks].
    rewrite lookup_insert_eq, Hcb. split; reflexivity.
  - assert (Hx : mkHandle (ptr_ x) nullptr = x) by (by rewrite <-Hb, Handle_eta).
    eexists _, _. split.
    { cbn [run]. unfold exec at 1. cbn [step].
      rewrite bind_get_shared, Hh. unfold WeakPtr_from_shared.
      rewrite (bind_ok _ _ _ _ _ (WeakPtr_copy_null st x Hb)).
      rewrite new_weak_eq, Hw.
      unfold exec. cbn [step]. rewrite bind_get_weak. cbn [set_weak weak].
      rewrite lookup_insert_eq.
      rewrite (bind_ok _ _ _ _ _ (WeakPtr_Lock_null _ (mkHandle (ptr_ x) nullptr) eq_refl)).
      rewrite new_shared_eq. unfold set_weak at 1. cbn [shared]. rewrite Hh2. rewrite Hx. reflexivity. }
    unfold set_shared, set_weak. cbn [shared weak trace blocks]. repeat split; reflexivity.
Qed.

Lemma demote_then_Lock_witness :
  ∃ st',
    run (state_after [SpMakeShared KPlain 0%nat]) [WpFromShared 1%nat 0%nat; WpLock 2%nat 1%nat]
    = Some st'
    ∧ shared st' !! 2%nat = shared st' !! 0%nat
    ∧ strong_of st' 0%nat = Some 2.
Proof.
  destruct (demote_then_Lock [SpMakeShared KPlain 0%nat]
              (state_after [SpMakeShared KPlain 0%nat]) 0%nat
              (mkHandle (Some 0%nat) (Some 0%nat)) 1%nat 2%nat
              ltac:(vm_compute; reflexivity) ltac:(vm_compute; reflexivity)
              ltac:(vm_compute; reflexivity) ltac:(vm_compute; reflexivity))
    as (st' & y & Hrun & Hs & _ & _ & Hy & _ & Hst & _).
  exists st'. split; [exact Hrun|]. rewrite Hs, Hy. split.
  - rewrite lookup_insert_eq. by rewrite lookup_insert_ne by lia.
  - rewrite Hst. vm_compute. reflexivity.
Defined.

(** ** Temporaries *)

Lemma Decrease_Increase_strong cb : DecreaseStrongCounter (IncreaseStrongCounter cb) = cb.
Proof. destruct cb. unfold DecreaseStrongCounter, IncreaseStrongCounter. cbn. f_equal. lia. Qed.

Lemma step_SpCopy_ok st h src o b cb :
  shared st !! src = Some o → shared st !! h = None →
  block_ o = Some b → blocks st !! b = Some cb → freed cb = false →
  step (SpCopy h src) st
  = Ok tt (mkState (<[b := IncreaseStrongCounter cb]> (blocks st))
                   (<[h := o]> (shared st)) (weak st) (trace st)).
Proof.
  intros Hsrc Hh Ho Hb Hf. cbn [step]. rewrite bind_get_shared, Hsrc.
  rewrite (bind_ok _ _ _ _ _ (SharedPtr_copy_ok st o b cb Ho Hb Hf)).
  rewrite new_shared_eq. cbn [set_blocks shared]. rewrite Hh.
  by rewrite <-Ho, Handle_eta.
Qed.

Lemma step_SpCopy_null st h src o :
  shared st !! src = Some o → shared st !! h = None → block_ o = None →
  step (SpCopy h src) st
  = Ok tt (mkState (blocks st) (<[h := o]> (shared st)) (weak st) (trace st)).
Proof.
  intros Hsrc Hh Ho. cbn [step]. rewrite bind_get_shared, Hsrc.
  rewrite (bind_ok _ _ _ _ _ (SharedPtr_copy_null st o Ho)).
  rewrite new_shared_eq, Hh. by rewrite <-Ho, Handle_eta.
Qed.

Lemma step_SpDtor_more st h x b cb :
  shared st !! h = Some x → block_ x = Some b → blocks st !! b = Some cb →
  freed cb = false → strong_counter_ cb ≠ 1 →
  step (SpDtor h) st
  = Ok tt (mkState (<[b := DecreaseStrongCounter cb]> (blocks st))
                   (delete h (shared st)) (weak st) (trace st)).
Proof.
  intros Hh Hx Hb Hf Hs. cbn [step]. unfold SharedPtr_dtor.
  rewrite bind_get_shared, Hh.
  by rewrite (bind_ok _ _ _ _ _ (SharedPtr_Decrement_more st x b cb Hx Hb Hf Hs)).
Qed.

Lemma step_SpDtor_null st h x :
  shared st !! h = Some x → block_ x = None →
  step (SpDtor h) st
  = Ok tt (mkState (blocks st) (delete h (shared st)) (weak st) (trace st)).
Proof.
  intros Hh Hx. cbn [step]. unfold SharedPtr_dtor.
  rewrite bind_get_shared, Hh.
  by rewrite (bind_ok _ _ _ _ _ (SharedPtr_Decrement_null st x Hx)).
Qed.

Lemma step_WpFromShared_ok st w h o b cb :
  shared st !! h = Some o → weak st !! w = None →
  block_ o = Some b → blocks st !! b = Some cb → freed cb = false →
  step (WpFromShared w h) st
  = Ok tt (mkState (<[b := IncreaseWeakCounter cb]> (blocks st))
                   (shared st) (<[w := o]> (weak st)) (trace st)).
Proof.
  intros Hh Hw Ho Hb Hf. cbn [step]. rewrite bind_get_shared, Hh.
  unfold WeakPtr_from_shared.
  rewrite (bind_ok _ _ _ _ _ (WeakPtr_copy_ok st o b cb Ho Hb Hf)).
  rewrite new_weak_eq. cbn [set_blocks weak]. rewrite Hw.
  by rewrite <-Ho, Handle_eta.
Qed.

Lemma step_WpFromShared_null st w h o :
  shared st !! h = Some o → weak st !! w = None → block_ o = None →
  step (WpFromShared w h) st
  = Ok tt (mkState (blocks st) (shared st) (<[w := o]> (weak st)) (trace st)).
Proof.
  intros Hh Hw Ho. cbn [step]. rewrite bind_get_shared, Hh.
  unfold WeakPtr_from_shared.
  rewrite (bind_ok _ _ _ _ _ (WeakPtr_copy_null st o Ho)).
  rewrite new_weak_eq, Hw. by rewrite <-Ho, Handle_eta.
Qed.

Lemma step_WpDtor_ok st w x b cb :
  weak st !! w = Some x → block_ x = Some b → blocks st !! b = Some cb → freed cb = false →
  step (WpDtor w) st
  = Ok tt (mkState (<[b := weak_released cb]> (blocks st)) (shared st)
                   (delete w (weak st)) (trace st ++ weak_released_events b cb)).
Proof.
  intros Hw Hx Hb Hf. cbn [step]. unfold WeakPtr_dtor.
  rewrite bind_get_weak, Hw.
  by rewrite (bind_ok _ _ _ _ _ (WeakPtr_Decrement_ok st x b cb Hx Hb Hf)).
Qed.

Lemma step_WpDtor_null st w x :
  weak st !! w = Some x → block_ x = None →
  step (WpDtor w) st
  = Ok tt (mkState (blocks st) (shared st) (delete w (weak st)) (trace st)).
Proof.
  intros Hw Hx. cbn [step]. unfold WeakPtr_dtor.
  rewrite bind_get_weak, Hw.
  by rewrite (bind_ok _ _ _ _ _ (WeakPtr_Decrement_null st x Hx)).
Qed.

Lemma move_back {A} (m : gmap nat A) h src o n :
  m !! src = Some o → m !! h = None →
  delete h (<[h := n]> (<[src := o]> (<[h := o]> (<[src := n]> m)))) = m.
Proof.
  intros Hs Hh. assert (h ≠ src) by congruence. apply map_eq. intros i.
  destruct (decide (i = h)) as [->|Hih].
  - by rewrite lookup_delete_eq.
  - rewrite lookup_delete_ne, lookup_insert_ne by congruence.
    destruct (decide (i = src)) as [->|His].
    + by rewrite lookup_insert_eq.
    + by rewrite !lookup_insert_ne by congruence.
Qed.

(** X9. In a store a program reaches, copying a live SharedPtr
    and destroying the copy, building a WeakPtr from it and destroying the
    WeakPtr, and moving it out and back again each leave the store exactly
    as it was. *)
Theorem temporary_copy_leaves_no_trace ops st h src w :
  run init ops = Some st → is_Some (shared st !! src) →
  shared st !! h = None → weak st !! w = None →
  run st [SpCopy h src; SpDtor h] = Some st
  ∧ run st [WpFromShared w src; WpDtor w] = Some st
  ∧ run st [SpMove h src; SpAssignMove src h; SpDtor h] = Some st.
Proof.
  intros Hrun [o Hsrc] Hh Hw. pose proof (reachable_inv _ _ Hrun) as Hi.
  assert (Hne : h ≠ src) by congruence.
  split; [|split].
  - cbn [run]. destruct (block_ o) as [b|] eqn:Ho.
    + destruct (inv_shared_owner _ _ _ _ Hi Hsrc Ho) as (cb & Hcb & Hf & Hs & _).
      rewrite (exec_of_step _ _ _ (step_SpCopy_ok st h src o b cb Hsrc Hh Ho Hcb Hf)).
      erewrite exec_of_step; [|apply (step_SpDtor_more _ h o b (IncreaseStrongCounter cb))].
      * cbn [blocks shared weak trace].
        rewrite insert_insert_eq, Decrease_Increase_strong, insert_id by exact Hcb.
        rewrite delete_insert_id by exact Hh. by rewrite State_eta.
      * cbn. apply lookup_insert_eq.
      * exact Ho.
      * cbn. apply lookup_insert_eq.
      * exact Hf.
      * cbn. lia.
    + rewrite (exec_of_step _ _ _ (step_SpCopy_null st h src o Hsrc Hh Ho)).
      erewrite exec_of_step; [|apply (step_SpDtor_null _ h o)].
      * cbn [blocks shared weak trace].
        rewrite delete_insert_id by exact Hh. by rewrite State_eta.
      * cbn. apply lookup_insert_eq.
      * exact Ho.
  - cbn [run]. destruct (block_ o) as [b|] eqn:Ho.
    + destruct (inv_shared_owner _ _ _ _ Hi Hsrc Ho) as (cb & Hcb & Hf & Hs & _).
      rewrite (exec_of_step _ _ _ (step_WpFromShared_ok st w src o b cb Hsrc Hw Ho Hcb Hf)).
      erewrite exec_of_step; [|apply (step_WpDtor_ok _ w o b (IncreaseWeakCounter cb))].
      * cbn [blocks shared weak trace].
        unfold weak_released, weak_released_events.
        cbn [IncreaseWeakCounter strong_counter_ weak_counter_ GetPointer object_].
        destruct (Z.eqb_spec (strong_counter_ cb) 0) as [Hz|_]; [lia|]. cbn [andb].
        rewrite app_nil_r, insert_insert_eq.
        replace (weak_counter_ cb + 1 - 1) with (weak_counter_ cb) by lia.
        rewrite <-Hf, ControlBlock_eta, insert_id by exact Hcb.
        rewrite delete_insert_id by exact Hw. by rewrite State_eta.
      * cbn. apply lookup_insert_eq.
      * exact Ho.
      * cbn. apply lookup_insert_eq.
      * exact Hf.
    + rewrite (exec_of_step _ _ _ (step_WpFromShared_null st w src o Hsrc Hw Ho)).
      erewrite exec_of_step; [|apply (step_WpDtor_null _ w o)].
      * cbn [blocks shared weak trace].
        rewrite delete_insert_id by exact Hw. by rewrite State_eta.
      * cbn. apply lookup_insert_eq.
      * exact Ho.
  - cbn [run]. unfold exec at 1. cbn [step].
    rewrite bind_get_shared, Hsrc, bind_put_shared, new_shared_eq.
    unfold set_shared, SharedPtr_move. cbn [shared fst snd blocks weak trace].
    rewrite lookup_insert_ne by congruence. rewrite Hh.
    unfold exec at 1. cbn [step]. unfold SharedPtr_assign_move.
    rewrite bool_decide_eq_false_2 by congruence.
    rewrite bind_get_shared. cbn [shared].
    rewrite lookup_insert_ne by congruence. rewrite lookup_insert_eq.
    rewrite bind_get_shared. cbn [shared]. rewrite lookup_insert_eq.
    unfold SharedPtr_assign_move_body.
    rewrite bind_assoc.
    erewrite bind_ok by (by apply SharedPtr_Decrement_null).
    rewrite bind_ret. cbn [fst snd ptr_ block_]. rewrite bind_put_shared.
    unfold put_shared, set_shared. cbn [blocks shared weak trace].
    erewrite exec_of_step; [|apply (step_SpDtor_null _ h (mkHandle nullptr nullptr))].
    + cbn [blocks shared weak trace]. rewrite Handle_eta.
      rewrite (move_back _ _ _ _ _ Hsrc Hh). by rewrite State_eta.
    + cbn. apply lookup_insert_eq.
    + reflexivity.
Qed.

Lemma temporary_copy_leaves_no_trace_witness :
  run (state_after [SpMakeShared KMixin 0%nat]) [SpCopy 1%nat 0%nat; SpDtor 1%nat]
  = Some (state_after [SpMakeShared KMixin 0%nat]).
Proof.
  apply (temporary_copy_leaves_no_trace [SpMakeShared KMixin 0%nat] _ 1%nat 0%nat 0%nat).
  - vm_compute. reflexivity.
  - vm_compute. eexists. reflexivity.
  - vm_compute. reflexivity.
  - vm_compute. reflexivity.
Defined.

(** ** Release through the destructor, Reset() and Reset(ptr) *)

Lemma UseCount_of_inv st h y :
  inv st → shared st !! h = Some y →
  UseCount_of st h = Some (if block_ y is Some b then refs (shared st) b else 0).
Proof.
  intros Hi Hh. unfold UseCount_of. rewrite Hh.
  destruct (block_ y) as [b|] eqn:Hb.
  - destruct (inv_shared_owner _ _ _ _ Hi Hh Hb) as (cb & Hcb & Hf & _ & Hbi).
    rewrite (SharedPtr_UseCount_ok _ _ b cb Hb Hcb Hf). by rewrite (bi_strong _ _ _ Hbi).
  - by rewrite (SharedPtr_UseCount_null _ _ Hb).
Qed.

Lemma exec_inv st op st' : inv st → exec st op = Some st' → inv st'.
Proof. intros Hi He. by destruct (exec_sound _ _ _ Hi He). Qed.

(** What is left of the stores once Decrement() returned. *)
Lemma SharedPtr_Decrement_then {A} x (k : M State A) st st' :
  match M_bind (λ _, k) (SharedPtr_Decrement x) st with
  | Ok _ s | Throw _ s => Some s
  | Undefined _ => None
  end = Some st' →
  ∃ s1, SharedPtr_Decrement x st = Ok tt s1 ∧ shared s1 = shared st ∧ weak s1 = weak st
        ∧ match k s1 with Ok _ s | Throw _ s => Some s | Undefined _ => None end = Some st'.
Proof.
  intros H. unfold M_bind in H.
  destruct (SharedPtr_Decrement x st) as [[] s1|e s1|] eqn:Hd.
  - exists s1. destruct (keeps_SharedPtr_Decrement x _ _ _ Hd) as [Hs Hw]. by repeat split.
  - by destruct (no_throw_SharedPtr_Decrement x _ _ _ Hd).
  - discriminate H.
Qed.

(** What the destructor, Reset() and Reset(ptr) of a SharedPtr leave
    behind, whenever they return. *)
Lemma release_effect ops st st' h x :
  run init ops = Some st → shared st !! h = Some x →
  (exec st (SpDtor h) = Some st' →
   shared st' = delete h (shared st) ∧ weak st' = weak st
   ∧ ∀ h' y, h' ≠ h → shared st !! h' = Some y →
       UseCount_of st' h'
       = Some (if block_ y is Some b then refs (shared st) b - owns b x else 0))
  ∧ (exec st (SpReset h) = Some st' →
     shared st' = <[h := mkHandle nullptr nullptr]> (shared st) ∧ weak st' = weak st
     ∧ UseCount_of st' h = Some 0
     ∧ ∀ h' y, h' ≠ h → shared st !! h' = Some y →
         UseCount_of st' h'
         = Some (if block_ y is Some b then refs (shared st) b - owns b x else 0))
  ∧ (∀ k p, exec st (SpResetPtr k h p) = Some st' →
     ∃ b', shared st' = <[h := mkHandle p (Some b')]> (shared st) ∧ weak st' = weak st
       ∧ UseCount_of st' h = Some 1
       ∧ ∀ h' y, h' ≠ h → shared st !! h' = Some y →
           block_ y ≠ Some b'
           ∧ UseCount_of st' h'
             = Some (if block_ y is Some b then refs (shared st) b - owns b x else 0)).
Proof.
  intros Hrun Hh. pose proof (reachable_inv _ _ Hrun) as Hi.
  split; [|split].
  - intros He. pose proof (exec_inv _ _ _ Hi He) as Hi'.
    unfold exec in He. cbn [step] in He. unfold SharedPtr_dtor in He.
    rewrite bind_get_shared, Hh in He.
    apply SharedPtr_Decrement_then in He as (s1 & _ & Hs & Hw & He).
    cbn in He. injection He as <-. cbn [set_shared shared weak].
    rewrite Hs, Hw. split; [reflexivity|]. split; [reflexivity|].
    intros h' y Hne Hy.
    rewrite (UseCount_of_inv _ h' y Hi').
    + destruct (block_ y) as [b|]; [|reflexivity]. cbn [set_shared shared].
      by rewrite Hs, refs_delete, Hh.
    + cbn [set_shared shared]. rewrite Hs. by rewrite lookup_delete_ne by congruence.
  - intros He. pose proof (exec_inv _ _ _ Hi He) as Hi'.
    unfold exec in He. cbn [step] in He. unfold SharedPtr_Reset in He.
    rewrite bind_get_shared, Hh in He.
    apply SharedPtr_Decrement_then in He as (s1 & _ & Hs & Hw & He).
    cbn in He. injection He as <-. cbn [set_shared shared weak].
    rewrite Hs, Hw. split; [reflexivity|]. split; [reflexivity|]. split.
    + rewrite (UseCount_of_inv _ h (mkHandle nullptr nullptr) Hi'); [reflexivity|].
      cbn [set_shared shared]. apply lookup_insert_eq.
    + intros h' y Hne Hy.
      rewrite (UseCount_of_inv _ h' y Hi').
      * destruct (block_ y) as [b|]; [|reflexivity]. cbn [set_shared shared].
        rewrite Hs, refs_insert, Hh. cbn [owns_opt]. rewrite owns_null. f_equal. lia.
      * cbn [set_shared shared]. rewrite Hs. by rewrite lookup_insert_ne by congruence.
  - intros k p He. pose proof (exec_inv _ _ _ Hi He) as Hi'.
    unfold exec in He. cbn [step] in He. unfold SharedPtr_Reset_ptr in He.
    rewrite bind_get_shared, Hh in He. unfold SharedPtr_Reset_ptr_body in He.
    rewrite bind_assoc in He.
    apply SharedPtr_Decrement_then in He as (s1 & _ & Hs & Hw & He).
    cbn in He. injection He as <-.
    set (b' := fresh (dom (blocks s1))) in *.
    set (cb' := fresh_block p (if p is Some _ then Alive (new_object k) else NoObject)) in *.
    set (st' := set_shared <[h := mkHandle p (Some b')]> (set_blocks <[b' := cb']> s1)) in *.
    assert (Hs' : shared st' = <[h := mkHandle p (Some b')]> (shared st)).
    { subst st'. cbn [set_shared set_blocks shared]. by rewrite Hs. }
    assert (Hr : refs (shared st') b' = 1).
    { pose proof (Hi' b') as Hbi. subst st'. cbn [set_shared set_blocks blocks] in Hbi.
      rewrite lookup_insert_eq in Hbi. by rewrite <-(bi_strong _ _ _ Hbi). }
    exists b'. split; [exact Hs'|]. split; [subst st'; cbn; exact Hw|]. split.
    + rewrite (UseCount_of_inv _ h (mkHandle p (Some b')) Hi').
      * cbn [block_]. by rewrite Hr.
      * rewrite Hs'. apply lookup_insert_eq.
    + intros h' y Hne Hy.
      assert (Hyb : block_ y ≠ Some b').
      { intros Hyb. rewrite Hs', refs_insert in Hr.
        rewrite <-refs_delete in Hr.
        assert (1 ≤ refs (delete h (shared st)) b').
        { apply (refs_lookup _ h' y); [|exact Hyb]. by rewrite lookup_delete_ne by congruence. }
        unfold owns in Hr. rewrite decide_True in Hr by reflexivity. lia. }
      split; [exact Hyb|].
      rewrite (UseCount_of_inv _ h' y Hi').
      * destruct (block_ y) as [b|]; [|reflexivity].
        rewrite Hs', refs_insert, Hh. cbn [owns_opt]. f_equal.
        unfold owns at 2. cbn [block_]. rewrite decide_False by congruence. lia.
      * rewrite Hs'. by rewrite lookup_insert_ne by congruence.
Qed.

(** X10. In a store that a correctly used program reaches (managed
    objects without SharedPtr or WeakPtr members), the destructor and
    Reset() of a live SharedPtr run without undefined behaviour and remove or
    empty that handle only, and every other SharedPtr reads a UseCount()
    that is one lower if it shared the block and unchanged otherwise.
    Reset(ptr), given a raw pointer that no block manages and whose object
    has no mixin to wire, makes the handle the single owner (UseCount() 1)
    of a new block that no other handle refers to. *)
Theorem release_lowers_UseCount ops st h x :
  well_used init ops → run init ops = Some st → shared st !! h = Some x →
  (∃ st',
     exec st (SpDtor h) = Some st'
     ∧ shared st' = delete h (shared st) ∧ weak st' = weak st
     ∧ ∀ h' y, h' ≠ h → shared st !! h' = Some y →
         UseCount_of st' h'
         = Some (if block_ y is Some b then refs (shared st) b - owns b x else 0))
  ∧ (∃ st',
       exec st (SpReset h) = Some st'
       ∧ shared st' = <[h := mkHandle nullptr nullptr]> (shared st) ∧ weak st' = weak st
       ∧ UseCount_of st' h = Some 0
       ∧ ∀ h' y, h' ≠ h → shared st !! h' = Some y →
           UseCount_of st' h'
           = Some (if block_ y is Some b then refs (shared st) b - owns b x else 0))
  ∧ (∀ k p, needs_no_wiring k p = true → unowned st p = true →
       ∃ st' b',
         exec st (SpResetPtr k h p) = Some st'
         ∧ shared st' = <[h := mkHandle p (Some b')]> (shared st) ∧ weak st' = weak st
         ∧ UseCount_of st' h = Some 1
         ∧ ∀ h' y, h' ≠ h → shared st !! h' = Some y →
             block_ y ≠ Some b'
             ∧ UseCount_of st' h'
               = Some (if block_ y is Some b then refs (shared st) b - owns b x else 0)).
Proof.
  intros Hok Hrun Hh. destruct (well_used_reaches _ _ Hok Hrun) as [Hi Hw].
  assert (Hlive : live_shared st h = true) by (unfold live_shared; by rewrite Hh).
  split; [|split].
  - destruct (exec_defined st (SpDtor h) Hi Hw Hlive) as (st' & He & _).
    exists st'. split; [exact He|].
    apply (proj1 (release_effect ops st st' h x Hrun Hh) He).
  - destruct (exec_defined st (SpReset h) Hi Hw Hlive) as (st' & He & _).
    exists st'. split; [exact He|].
    apply (proj1 (proj2 (release_effect ops st st' h x Hrun Hh)) He).
  - intros k p Hk Hp.
    destruct (exec_defined st (SpResetPtr k h p) Hi Hw) as (st' & He & _).
    { cbn [op_ok]. by rewrite Hlive, Hk, Hp. }
    destruct (proj2 (proj2 (release_effect ops st st' h x Hrun Hh)) k p He)
      as (b' & Hrest).
    exists st', b'. split; [exact He|exact Hrest].
Qed.

Lemma release_lowers_UseCount_witness :
  ∃ st',
    exec (state_after [SpMakeShared KPlain 0%nat; SpCopy 1%nat 0%nat; SpCopy 2%nat 0%nat])
      (SpReset 1%nat) = Some st'
    ∧ UseCount_of st' 0%nat = Some 2
    ∧ UseCount_of st' 1%nat = Some 0.
Proof.
  destruct (proj1 (proj2 (release_lowers_UseCount
              [SpMakeShared KPlain 0%nat; SpCopy 1%nat 0%nat; SpCopy 2%nat 0%nat]
              (state_after [SpMakeShared KPlain 0%nat; SpCopy 1%nat 0%nat;
                            SpCopy 2%nat 0%nat])
              1%nat (mkHandle (Some 0%nat) (Some 0%nat))
              ltac:(repeat (split; [vm_compute; reflexivity|];
                            let st' := fresh "st" in let H := fresh "H" in
                            intros st' H; vm_compute in H; injection H as <-); exact I)
              ltac:(vm_compute; reflexivity) ltac:(vm_compute; reflexivity))))
    as (st' & He & _ & _ & H0 & Hothers).
  exists st'. split; [exact He|]. split; [|exact H0].
  rewrite (Hothers 0%nat (mkHandle (Some 0%nat) (Some 0%nat)) ltac:(lia)
             ltac:(vm_compute; reflexivity)).
  vm_compute. reflexivity.
Defined.

(** ** Assignment *)

(** The handle the copy constructor builds, whenever it returns. *)
Lemma SharedPtr_copy_result o st x st' :
  SharedPtr_copy o st = Ok x st' → x = o ∧ shared st' = shared st ∧ weak st' = weak st.
Proof.
  intros H. unfold SharedPtr_copy in H. cbn [block_] in H.
  assert (keeps_handles
            (if non_null (block_ o) then modify (block_ o) IncreaseStrongCounter
             else M_ret tt)) as Hk.
  { destruct (non_null _); [apply keeps_modify|apply keeps_ret]. }
  unfold M_bind in H.
  destruct ((if non_null (block_ o) then modify (block_ o) IncreaseStrongCounter
             else M_ret tt) st) as [[] s1| |] eqn:Hm;
    try discriminate H.
  injection H as <- <-. destruct (Hk _ _ _ Hm) as [Hs Hw].
  split; [apply Handle_eta|]. by split.
Qed.

(** What copy and move assignment leave behind, whenever they return. *)
Lemma assignment_effect ops st st' h src t o :
  run init ops = Some st → h ≠ src →
  shared st !! h = Some t → shared st !! src = Some o →
  (exec st (SpAssignCopy h src) = Some st' →
   shared st' = <[h := o]> (shared st) ∧ weak st' = weak st
   ∧ (∀ x y, shared st' !! h = Some x → shared st' !! src = Some y →
        SharedPtr_eq x y = true)
   ∧ UseCount_of st' h = UseCount_of st' src
   ∧ UseCount_of st' src
     = Some (if block_ o is Some b then refs (shared st) b - owns b t + 1 else 0))
  ∧ (exec st (SpAssignMove h src) = Some st' →
     shared st' = <[src := mkHandle nullptr nullptr]> (<[h := o]> (shared st))
     ∧ weak st' = weak st
     ∧ UseCount_of st' src = Some 0
     ∧ UseCount_of st' h
       = Some (if block_ o is Some b then refs (shared st) b - owns b t else 0)).
Proof.
  intros Hrun Hne Hh Hsrc. pose proof (reachable_inv _ _ Hrun) as Hi. split.
  - intros He. pose proof (exec_inv _ _ _ Hi He) as Hi'.
    unfold exec in He. cbn [step] in He. unfold SharedPtr_assign_copy in He.
    rewrite bool_decide_eq_true_2 in He by exact Hne.
    rewrite bind_get_shared, Hh, bind_get_shared, Hsrc in He.
    unfold SharedPtr_assign_copy_body in He. rewrite bind_assoc in He.
    apply SharedPtr_Decrement_then in He as (s1 & _ & Hs & Hw & He).
    fold (SharedPtr_copy o) in He. unfold M_bind in He.
    destruct (SharedPtr_copy o s1) as [x s2|e s2|] eqn:Hc; [| |discriminate He].
    2:{ by destruct (no_throw_SharedPtr_copy o _ _ _ Hc). }
    destruct (SharedPtr_copy_result _ _ _ _ Hc) as (-> & Hs2 & Hw2).
    cbn in He. injection He as <-.
    assert (Hs' : shared (set_shared <[h := o]> s2) = <[h := o]> (shared st))
      by (cbn; by rewrite Hs2, Hs).
    split; [exact Hs'|]. split; [cbn; by rewrite Hw2, Hw|]. split.
    { intros x y. rewrite Hs', lookup_insert_eq.
      rewrite lookup_insert_ne by congruence. rewrite Hsrc.
      intros [= <-] [= <-]. unfold SharedPtr_eq. by rewrite !bool_decide_eq_true_2. }
    rewrite (UseCount_of_inv _ h o Hi') by (rewrite Hs'; apply lookup_insert_eq).
    rewrite (UseCount_of_inv _ src o Hi')
      by (rewrite Hs'; by rewrite lookup_insert_ne by congruence).
    split; [reflexivity|].
    destruct (block_ o) as [b|] eqn:Hb; [|reflexivity].
    rewrite Hs', refs_insert, Hh. cbn [owns_opt]. f_equal.
    unfold owns at 2. rewrite decide_True by exact Hb. lia.
  - intros He. pose proof (exec_inv _ _ _ Hi He) as Hi'.
    unfold exec in He. cbn [step] in He. unfold SharedPtr_assign_move in He.
    rewrite bool_decide_eq_false_2 in He by exact Hne.
    rewrite bind_get_shared, Hh, bind_get_shared, Hsrc in He.
    unfold SharedPtr_assign_move_body in He. rewrite bind_assoc in He.
    apply SharedPtr_Decrement_then in He as (s1 & _ & Hs & Hw & He).
    cbn in He. rewrite Handle_eta in He. injection He as <-.
    assert (Hs' : shared (set_shared <[src := mkHandle nullptr nullptr]>
                            (set_shared <[h := o]> s1))
                  = <[src := mkHandle nullptr nullptr]> (<[h := o]> (shared st)))
      by (cbn; by rewrite Hs).
    split; [exact Hs'|]. split; [cbn; exact Hw|]. split.
    + rewrite (UseCount_of_inv _ src (mkHandle nullptr nullptr) Hi'); [reflexivity|].
      rewrite Hs'. apply lookup_insert_eq.
    + rewrite (UseCount_of_inv _ h o Hi').
      * destruct (block_ o) as [b|] eqn:Hb; [|reflexivity].
        rewrite Hs', !refs_insert, Hh.
        rewrite lookup_insert_ne by congruence. rewrite Hsrc. cbn [owns_opt].
        rewrite owns_null. f_equal. lia.
      * rewrite Hs'. rewrite lookup_insert_ne by congruence. apply lookup_insert_eq.
Qed.

(** X11. In a store that a correctly used program reaches, for two
    distinct live SharedPtrs held in variables (managed objects without
    SharedPtr or WeakPtr members, so the source is not part of an object
    the destination owns), copy assignment runs without undefined behaviour
    and leaves the destination holding the pointer and block of the source,
    so that both compare equal and read the same UseCount(); move
    assignment leaves the destination holding what the source held and the
    source empty with UseCount() 0.  The owner the destination was before
    is given up either way. *)
Theorem assignment_result ops st h src t o :
  well_used init ops → run init ops = Some st → h ≠ src →
  shared st !! h = Some t → shared st !! src = Some o →
  (∃ st',
     exec st (SpAssignCopy h src) = Some st'
     ∧ shared st' = <[h := o]> (shared st) ∧ weak st' = weak st
     ∧ (∀ x y, shared st' !! h = Some x → shared st' !! src = Some y →
          SharedPtr_eq x y = true)
     ∧ UseCount_of st' h = UseCount_of st' src
     ∧ UseCount_of st' src
       = Some (if block_ o is Some b then refs (shared st) b - owns b t + 1 else 0))
  ∧ (∃ st',
       exec st (SpAssignMove h src) = Some st'
       ∧ shared st' = <[src := mkHandle nullptr nullptr]> (<[h := o]> (shared st))
       ∧ weak st' = weak st
       ∧ UseCount_of st' src = Some 0
       ∧ UseCount_of st' h
         = Some (if block_ o is Some b then refs (shared st) b - owns b t else 0)).
Proof.
  intros Hok Hrun Hne Hh Hsrc. destruct (well_used_reaches _ _ Hok Hrun) as [Hi Hw].
  assert (Hlive : live_shared st h && live_shared st src = true).
  { unfold live_shared. by rewrite Hh, Hsrc. }
  split.
  - destruct (exec_defined st (SpAssignCopy h src) Hi Hw Hlive) as (st' & He & _).
    exists st'. split; [exact He|].
    apply (proj1 (assignment_effect ops st st' h src t o Hrun Hne Hh Hsrc) He).
  - destruct (exec_defined st (SpAssignMove h src) Hi Hw Hlive) as (st' & He & _).
    exists st'. split; [exact He|].
    apply (proj2 (assignment_effect ops st st' h src t o Hrun Hne Hh Hsrc) He).
Qed.

Lemma assignment_result_witness :
  ∃ st',
    exec (state_after [SpMakeShared KPlain 0%nat; SpMakeShared KPlain 1%nat;
                       SpCopy 2%nat 1%nat])
      (SpAssignCopy 0%nat 1%nat) = Some st'
    ∧ shared st' !! 0%nat = shared st' !! 1%nat
    ∧ UseCount_of st' 0%nat = Some 3.
Proof.
  destruct (proj1 (assignment_result
              [SpMakeShared KPlain 0%nat; SpMakeShared KPlain 1%nat; SpCopy 2%nat 1%nat]
              (state_after [SpMakeShared KPlain 0%nat; SpMakeShared KPlain 1%nat;
                            SpCopy 2%nat 1%nat])
              0%nat 1%nat (mkHandle (Some 0%nat) (Some 0%nat))
              (mkHandle (Some 1%nat) (Some 1%nat))
              ltac:(repeat (split; [vm_compute; reflexivity|];
                            let st' := fresh "st" in let H := fresh "H" in
                            intros st' H; vm_compute in H; injection H as <-); exact I)
              ltac:(vm_compute; reflexivity) ltac:(lia)
              ltac:(vm_compute; reflexivity) ltac:(vm_compute; reflexivity)))
    as (st' & He & Hs & _ & _ & Hu & Hv).
  exists st'. split; [exact He|]. split.
  - rewrite Hs. rewrite lookup_insert_eq. rewrite lookup_insert_ne by lia.
    vm_compute. reflexivity.
  - rewrite Hu, Hv. vm_compute. reflexivity.
Defined.

(** ** Null raw pointers, empty parents, SharedFromThis() *)

Lemma step_SpDtor_last st h x b cb :
  shared st !! h = Some x → block_ x = Some b → blocks st !! b = Some cb →
  freed cb = false → strong_counter_ cb = 1 → object_ cb ≠ Destroyed →
  (∀ w, object_ cb = Alive (SelfRef w) → block_ w = Some b) →
  self_reg b cb ≤ weak_counter_ cb →
  step (SpDtor h) st
  = Ok tt (mkState (<[b := released b cb]> (blocks st)) (delete h (shared st)) (weak st)
                   (trace st ++ released_events b cb)).
Proof.
  intros Hh Hx Hb Hf Hs Ho Hw Hr. cbn [step]. unfold SharedPtr_dtor.
  rewrite bind_get_shared, Hh.
  by rewrite (bind_ok _ _ _ _ _ (SharedPtr_Decrement_last st x b cb Hx Hb Hf Hs Ho Hw Hr)).
Qed.

(** X12. SharedPtr<X>(p) for a null raw pointer p still
    allocates a control block: the handle tests false and returns null from
    Get() but has UseCount() 1, and its destructor runs DeleteObject() and
    frees the block.  If X has the mixin, the constructor calls
    SetWeakThis through the null pointer. *)
Theorem SharedPtr_of_null_raw_pointer st h :
  shared st !! h = None →
  (∀ k, k ≠ KMixin →
     ∃ st1 st2,
       step (SpFromRaw k h nullptr) st = Ok tt st1
       ∧ shared st1 !! h = Some (mkHandle nullptr (Some (fresh (dom (blocks st)))))
       ∧ SharedPtr_bool (mkHandle nullptr (Some (fresh (dom (blocks st))))) = false
       ∧ blocks st1 !! fresh (dom (blocks st)) = Some (mkBlock 1 0 nullptr NoObject false)
       ∧ UseCount_of st1 h = Some 1
       ∧ step (SpDtor h) st1 = Ok tt st2
       ∧ blocks st2 !! fresh (dom (blocks st)) = Some (mkBlock 0 0 nullptr NoObject true)
       ∧ trace st2 = trace st ++ [EvDeleteObject (fresh (dom (blocks st)));
                                  EvDeleteBlock (fresh (dom (blocks st)))])
  ∧ step (SpFromRaw KMixin h nullptr) st = Undefined NullDeref.
Proof.
  intros Hh. split; [|reflexivity].
  intros k Hk. set (b := fresh (dom (blocks st))).
  assert (Hc : is_convertible_X k = false) by (by destruct k).
  set (st1 := set_shared <[h := mkHandle nullptr (Some b)]>
                (set_blocks <[b := fresh_block nullptr NoObject]> st)).
  assert (H1 : step (SpFromRaw k h nullptr) st = Ok tt st1).
  { cbn [step]. rewrite (bind_ok _ _ _ _ _ (SharedPtr_from_raw_plain st k nullptr Hc)).
    rewrite new_shared_eq. cbn [set_blocks shared]. by rewrite Hh. }
  assert (Hb1 : blocks st1 !! b = Some (fresh_block nullptr NoObject))
    by (cbn; apply lookup_insert_eq).
  assert (Hh1 : shared st1 !! h = Some (mkHandle nullptr (Some b)))
    by (cbn; apply lookup_insert_eq).
  eexists st1, _. split; [exact H1|]. split; [exact Hh1|]. split; [reflexivity|].
  split; [exact Hb1|]. split.
  { unfold UseCount_of. rewrite Hh1.
    by rewrite (SharedPtr_UseCount_ok st1 _ b (fresh_block nullptr NoObject)). }
  split.
  { apply (step_SpDtor_last st1 h _ b (fresh_block nullptr NoObject) Hh1);
      try reflexivity; try done. }
  cbn [blocks trace]. split; [apply lookup_insert_eq|reflexivity].
Qed.

Lemma SharedPtr_of_null_raw_pointer_witness :
  ∃ st1,
    step (SpFromRaw KPlain 0%nat nullptr) init = Ok tt st1
    ∧ UseCount_of st1 0%nat = Some 1
    ∧ step (SpFromRaw KMixin 0%nat nullptr) init = Undefined NullDeref.
Proof.
  destruct (SharedPtr_of_null_raw_pointer init 0%nat ltac:(reflexivity)) as [H1 H2].
  destruct (H1 KPlain ltac:(discriminate)) as (st1 & st2 & Hs & _ & _ & _ & Hu & _).
  exists st1. split; [exact Hs|]. split; [exact Hu|exact H2].
Defined.

(** X13. The aliasing constructor over a parent without a block
    gives, in shared-from-this/shared.h, a SharedPtr that holds the given
    pointer and no block: it tests true when the pointer is not null, has
    UseCount() 0, and its destructor does nothing.  The aliasing
    constructor of shared/shared.h does not test the block and reads
    through the null pointer. *)
Theorem alias_of_empty_parent st h src o p :
  shared st !! src = Some o → block_ o = None → shared st !! h = None →
  (∃ st1,
     step (SpAlias h src p) st = Ok tt st1
     ∧ st1 = mkState (blocks st) (<[h := mkHandle p nullptr]> (shared st)) (weak st) (trace st)
     ∧ SharedPtr_bool (mkHandle p nullptr) = non_null p
     ∧ UseCount_of st1 h = Some 0
     ∧ step (SpDtor h) st1 = Ok tt st)
  ∧ ∀ bst, Basic.SharedPtr_alias o p bst = Undefined NullDeref.
Proof.
  intros Hsrc Ho Hh. split.
  - eexists. split.
    { cbn [step]. rewrite bind_get_shared, Hsrc.
      rewrite (bind_ok _ _ _ _ _ (SharedPtr_alias_null st o p Ho)).
      rewrite new_shared_eq, Hh. reflexivity. }
    split; [reflexivity|]. split; [reflexivity|]. split.
    { unfold UseCount_of, set_shared. cbn [shared]. by rewrite lookup_insert_eq. }
    rewrite (step_SpDtor_null _ h (mkHandle p nullptr)).
    + unfold set_shared. cbn [blocks shared weak trace].
      rewrite delete_insert_id by exact Hh. by rewrite State_eta.
    + cbn. apply lookup_insert_eq.
    + reflexivity.
  - intros bst. unfold Basic.SharedPtr_alias. cbn [block_]. by rewrite Ho.
Qed.

Lemma alias_of_empty_parent_witness :
  ∃ st1,
    step (SpAlias 1%nat 0%nat (Some 5%nat)) (state_after [SpDefault 0%nat]) = Ok tt st1
    ∧ shared st1 !! 1%nat = Some (mkHandle (Some 5%nat) nullptr)
    ∧ UseCount_of st1 1%nat = Some 0.
Proof.
  destruct (proj1 (alias_of_empty_parent (state_after [SpDefault 0%nat]) 1%nat 0%nat
                     (mkHandle nullptr nullptr) (Some 5%nat)
                     ltac:(vm_compute; reflexivity) ltac:(reflexivity)
                     ltac:(vm_compute; reflexivity)))
    as (st1 & H1 & -> & _ & Hu & _).
  eexists. split; [exact H1|]. split; [vm_compute; reflexivity|exact Hu].
Defined.

Lemma get_weak_this_ok st home cb w :
  blocks st !! home = Some cb → freed cb = false → object_ cb = Alive (SelfRef w) →
  get_weak_this home st = Ok w st.
Proof.
  intros Hb Hf Ho. unfold get_weak_this.
  rewrite (bind_ok _ _ _ _ _ (load_ok _ _ _ Hb Hf)). by rewrite Ho.
Qed.

(** SharedFromThis() and WeakFromThis() on the object of a block whose
    weak_this_ refers to the block. *)
Lemma FromThis_wired st h2 w2 b cb x :
  blocks st !! b = Some cb → freed cb = false → strong_counter_ cb ≠ 0 →
  object_ cb = Alive (SelfRef x) → block_ x = Some b →
  shared st !! h2 = None → weak st !! w2 = None →
  run st [SpSharedFromThis h2 b; WpWeakFromThis w2 b]
  = Some (mkState (<[b := IncreaseWeakCounter (IncreaseStrongCounter cb)]> (blocks st))
                  (<[h2 := x]> (shared st)) (<[w2 := x]> (weak st)) (trace st)).
Proof.
  intros Hb Hf Hs Ho Hx Hh2 Hw2. cbn [run].
  assert (Hx' : mkHandle (ptr_ x) (Some b) = x) by (by rewrite <-Hx, Handle_eta).
  erewrite exec_of_step.
  2:{ cbn [step]. unfold SharedFromThis.
      rewrite bind_assoc, (bind_ok _ _ _ _ _ (get_weak_this_ok st b cb x Hb Hf Ho)).
      rewrite (bind_ok _ _ _ _ _ (WeakPtr_Lock_ok st x b cb Hx Hb Hf Hs)).
      rewrite new_shared_eq. cbn [set_blocks shared]. rewrite Hh2, Hx'. reflexivity. }
  set (st1 := set_shared _ _).
  assert (Hb1 : blocks st1 !! b = Some (IncreaseStrongCounter cb))
    by (cbn; apply lookup_insert_eq).
  erewrite exec_of_step.
  2:{ cbn [step]. unfold WeakFromThis.
      rewrite bind_assoc.
      rewrite (bind_ok _ _ _ _ _ (get_weak_this_ok st1 b _ x Hb1 Hf Ho)).
      rewrite (bind_ok _ _ _ _ _ (WeakPtr_copy_ok st1 x b _ Hx Hb1 Hf)).
      rewrite new_weak_eq. subst st1. cbn [set_blocks set_shared weak]. rewrite Hw2, Hx'.
      reflexivity. }
  subst st1. unfold set_weak, set_blocks, set_shared. cbn [blocks shared weak trace].
  by rewrite insert_insert_eq.
Qed.

(** ... and on an object that no constructor wired. *)
Lemma FromThis_unwired st h2 w2 b cb p :
  blocks st !! b = Some cb → freed cb = false →
  object_ cb = Alive (SelfRef (mkHandle p nullptr)) →
  shared st !! h2 = None → weak st !! w2 = None →
  run st [SpSharedFromThis h2 b; WpWeakFromThis w2 b]
  = Some (mkState (blocks st) (<[h2 := mkHandle nullptr nullptr]> (shared st))
                  (<[w2 := mkHandle p nullptr]> (weak st)) (trace st)).
Proof.
  intros Hb Hf Ho Hh2 Hw2. cbn [run].
  erewrite exec_of_step.
  2:{ cbn [step]. unfold SharedFromThis.
      rewrite bind_assoc, (bind_ok _ _ _ _ _ (get_weak_this_ok st b cb _ Hb Hf Ho)).
      rewrite (bind_ok _ _ _ _ _ (WeakPtr_Lock_null st (mkHandle p nullptr) eq_refl)).
      rewrite new_shared_eq, Hh2. reflexivity. }
  erewrite exec_of_step.
  2:{ cbn [step]. unfold WeakFromThis.
      rewrite bind_assoc.
      rewrite (bind_ok _ _ _ _ _
                 (get_weak_this_ok (set_shared <[h2 := SharedPtr_nullptr]> st) b cb _ Hb Hf Ho)).
      rewrite (bind_ok _ _ _ _ _ (WeakPtr_copy_null _ (mkHandle p nullptr) eq_refl)).
      rewrite new_weak_eq. cbn [set_shared weak]. rewrite Hw2. reflexivity. }
  reflexivity.
Qed.

(** X14. For an object with the mixin built by
    SharedPtr<X>(X* ptr) or by MakeShared<X>, SharedFromThis() returns a
    SharedPtr with the pointer and block of the SharedPtr that owns it and
    WeakFromThis() a WeakPtr on that block; the block then has two strong
    and two weak owners.  On an object that the constructor did not wire,
    both return empty handles and nothing is thrown. *)
Theorem SharedFromThis_after_construction st h h2 w2 :
  shared st !! h = None → shared st !! h2 = None → h2 ≠ h → weak st !! w2 = None →
  (∀ a,
     run st [SpFromRaw KMixin h (Some a); SpSharedFromThis h2 (fresh (dom (blocks st)));
             WpWeakFromThis w2 (fresh (dom (blocks st)))]
     = Some (mkState
               (<[fresh (dom (blocks st)) :=
                    mkBlock 2 2 (Some a)
                      (Alive (SelfRef (mkHandle (Some a) (Some (fresh (dom (blocks st)))))))
                      false]> (blocks st))
               (<[h2 := mkHandle (Some a) (Some (fresh (dom (blocks st))))]>
                  (<[h := mkHandle (Some a) (Some (fresh (dom (blocks st))))]> (shared st)))
               (<[w2 := mkHandle (Some a) (Some (fresh (dom (blocks st))))]> (weak st))
               (trace st)))
  ∧ run st [SpMakeShared KMixin h; SpSharedFromThis h2 (fresh (dom (blocks st)));
            WpWeakFromThis w2 (fresh (dom (blocks st)))]
    = Some (mkState
              (<[fresh (dom (blocks st)) :=
                   mkBlock 2 2 (Some (fresh (dom (blocks st))))
                     (Alive (SelfRef (mkHandle (Some (fresh (dom (blocks st))))
                                               (Some (fresh (dom (blocks st)))))))
                     false]> (blocks st))
              (<[h2 := mkHandle (Some (fresh (dom (blocks st))))
                                (Some (fresh (dom (blocks st))))]>
                 (<[h := mkHandle (Some (fresh (dom (blocks st))))
                                  (Some (fresh (dom (blocks st))))]> (shared st)))
              (<[w2 := mkHandle (Some (fresh (dom (blocks st))))
                                (Some (fresh (dom (blocks st))))]> (weak st))
              (trace st))
  ∧ (∀ a,
       run st [SpFromRaw KMixinHidden h (Some a);
               SpSharedFromThis h2 (fresh (dom (blocks st)));
               WpWeakFromThis w2 (fresh (dom (blocks st)))]
       = Some (mkState
                 (<[fresh (dom (blocks st)) :=
                      mkBlock 1 0 (Some a) (Alive (SelfRef (mkHandle nullptr nullptr))) false]>
                    (blocks st))
                 (<[h2 := mkHandle nullptr nullptr]>
                    (<[h := mkHandle (Some a) (Some (fresh (dom (blocks st))))]> (shared st)))
                 (<[w2 := mkHandle nullptr nullptr]> (weak st))
                 (trace st))).
Proof.
  intros Hh Hh2 Hne Hw2. set (b := fresh (dom (blocks st))).
  split; [|split].
  - intros a. change (run st (?op :: ?ops)) with
      (match exec st op with Some st' => run st' ops | None => None end).
    erewrite exec_of_step.
    2:{ cbn [step]. rewrite (bind_ok _ _ _ _ _ (SharedPtr_from_raw_mixin st a)).
        rewrite new_shared_eq. cbn [set_blocks shared]. rewrite Hh. reflexivity. }
    rewrite (FromThis_wired _ h2 w2 b (wired_block (Some a) b) (mkHandle (Some a) (Some b)));
      try reflexivity; try done.
    + unfold set_shared, set_blocks. cbn [blocks shared weak trace].
      by rewrite insert_insert_eq.
    + cbn. apply lookup_insert_eq.
    + cbn. by rewrite lookup_insert_ne by congruence.
  - change (run st (?op :: ?ops)) with
      (match exec st op with Some st' => run st' ops | None => None end).
    erewrite exec_of_step.
    2:{ cbn [step]. rewrite (bind_ok _ _ _ _ _ (MakeShared_mixin st)).
        rewrite new_shared_eq. cbn [set_blocks shared]. rewrite Hh. reflexivity. }
    rewrite (FromThis_wired _ h2 w2 b (wired_block (Some b) b) (mkHandle (Some b) (Some b)));
      try reflexivity; try done.
    + unfold set_shared, set_blocks. cbn [blocks shared weak trace].
      by rewrite insert_insert_eq.
    + cbn. apply lookup_insert_eq.
    + cbn. by rewrite lookup_insert_ne by congruence.
  - intros a. change (run st (?op :: ?ops)) with
      (match exec st op with Some st' => run st' ops | None => None end).
    erewrite exec_of_step.
    2:{ cbn [step].
        rewrite (bind_ok _ _ _ _ _ (SharedPtr_from_raw_plain st KMixinHidden (Some a) eq_refl)).
        rewrite new_shared_eq. cbn [set_blocks shared]. rewrite Hh. reflexivity. }
    rewrite (FromThis_unwired _ h2 w2 b
               (fresh_block (Some a) (Alive (new_object KMixinHidden))) nullptr);
      try reflexivity; try done.
    + cbn. apply lookup_insert_eq.
    + cbn. by rewrite lookup_insert_ne by congruence.
Qed.

Lemma SharedFromThis_after_construction_witness :
  ∃ st', run init [SpMakeShared KMixin 0%nat; SpSharedFromThis 1%nat 0%nat;
                   WpWeakFromThis 2%nat 0%nat] = Some st'
    ∧ shared st' !! 1%nat = shared st' !! 0%nat
    ∧ UseCount_of st' 1%nat = Some 2.
Proof.
  eexists. split.
  - apply (proj1 (proj2 (SharedFromThis_after_construction init 0%nat 1%nat 2%nat
                           ltac:(reflexivity) ltac:(reflexivity) ltac:(lia)
                           ltac:(reflexivity)))).
  - split; vm_compute; reflexivity.
Defined.



(** * The single-counter SharedPtr as a whole *)

Lemma Basic_inv_init : BasicOps.inv BasicOps.init.
Proof.
  intros b. cbn. rewrite lookup_empty. split; cbn; by rewrite ?refs_empty.
Qed.

Lemma Basic_inv_owner st h t b :
  BasicOps.inv st → BasicOps.shared st !! h = Some t → block_ t = Some b →
  ∃ cb, Basic.blocks (BasicOps.heap st) !! b = Some cb
        ∧ Basic.freed cb = false ∧ Basic.deleted cb = false
        ∧ 1 ≤ Basic.counter_ cb ∧ BasicOps.block_inv st b cb.
Proof.
  intros Hinv Hh Ht. specialize (Hinv b).
  pose proof (refs_lookup _ _ _ _ Hh Ht) as Hr.
  destruct (Basic.blocks (BasicOps.heap st) !! b) as [cb|].
  - exists cb. pose proof (BasicOps.bi_counter _ _ _ Hinv).
    assert ((Basic.counter_ cb =? 0) = false) as Hz by (apply Z.eqb_neq; lia).
    split; [done|].
    split; [by rewrite (BasicOps.bi_freed _ _ _ Hinv)|].
    split; [by rewrite (BasicOps.bi_deleted _ _ _ Hinv)|].
    split; [lia|done].
  - pose proof (BasicOps.un_refs _ _ Hinv). lia.
Qed.

(** Only handles changed, and no block gained or lost an owner. *)
Lemma Basic_inv_handles st s' :
  BasicOps.inv st → (∀ b, refs s' b = refs (BasicOps.shared st) b) →
  BasicOps.inv (BasicOps.mkStore (BasicOps.heap st) s').
Proof.
  intros Hinv Hr b. specialize (Hinv b). cbn.
  destruct (Basic.blocks (BasicOps.heap st) !! b) as [cb|].
  - destruct Hinv as [H1 H2 H3 H4 H5]. split; cbn; try done. by rewrite Hr.
  - destruct Hinv as [H1 H2 H3]. split; cbn; try done. by rewrite Hr.
Qed.

(** A block with an owner gains one. *)
Lemma Basic_inv_acquire st b cb s' :
  BasicOps.inv st → Basic.blocks (BasicOps.heap st) !! b = Some cb →
  1 ≤ Basic.counter_ cb →
  (∀ b', refs s' b' = refs (BasicOps.shared st) b' + (if decide (b' = b) then 1 else 0)) →
  BasicOps.inv
    (BasicOps.mkStore
       (Basic.mkHeap (<[b := Basic.IncreaseCounter cb]> (Basic.blocks (BasicOps.heap st)))
                     (Basic.trace (BasicOps.heap st)))
       s').
Proof.
  intros Hinv Hb Hc Hr b'. pose proof (Hinv b') as Hb'. cbn.
  destruct (decide (b' = b)) as [->|Hne].
  - rewrite lookup_insert_eq. rewrite Hb in Hb'. destruct Hb' as [H1 H2 H3 H4 H5].
    assert ((Basic.counter_ cb =? 0) = false) as Hz by (apply Z.eqb_neq; lia).
    assert ((Basic.counter_ cb + 1 =? 0) = false) as Hz' by (apply Z.eqb_neq; lia).
    rewrite Hz in *.
    split; cbn; rewrite ?Hz'; try done.
    rewrite Hr, decide_True by done. lia.
  - rewrite lookup_insert_ne by congruence. specialize (Hr b').
    rewrite decide_False in Hr by done.
    destruct (Basic.blocks (BasicOps.heap st) !! b') as [cb'|].
    + destruct Hb' as [H1 H2 H3 H4 H5]. split; cbn; try done. rewrite Hr. lia.
    + destruct Hb' as [H1 H2 H3]. split; cbn; try done. rewrite Hr. lia.
Qed.

(** A new block gets its first owner. *)
Lemma Basic_inv_new st s' g :
  BasicOps.inv st →
  (∀ b', refs s' b'
         = refs (BasicOps.shared st) b'
           + (if decide (b' = fresh (dom (Basic.blocks (BasicOps.heap st)))) then 1 else 0)) →
  BasicOps.inv
    (BasicOps.mkStore
       (Basic.mkHeap (<[fresh (dom (Basic.blocks (BasicOps.heap st)))
                        := Basic.mkBase 1 g false false]> (Basic.blocks (BasicOps.heap st)))
                     (Basic.trace (BasicOps.heap st)))
       s').
Proof.
  intros Hinv Hr b'. pose proof (Hinv b') as Hb'. cbn.
  set (b := fresh (dom (Basic.blocks (BasicOps.heap st)))) in *.
  assert (Basic.blocks (BasicOps.heap st) !! b = None) as Hfresh.
  { apply not_elem_of_dom. apply is_fresh. }
  destruct (decide (b' = b)) as [->|Hne].
  - rewrite lookup_insert_eq. rewrite Hfresh in Hb'. destruct Hb' as [H1 H2 H3].
    split; cbn; try done. rewrite Hr, decide_True by done. lia.
  - rewrite lookup_insert_ne by congruence. specialize (Hr b').
    rewrite decide_False in Hr by done.
    destruct (Basic.blocks (BasicOps.heap st) !! b') as [cb'|].
    + destruct Hb' as [H1 H2 H3 H4 H5]. split; cbn; try done. rewrite Hr. lia.
    + destruct Hb' as [H1 H2 H3]. split; cbn; try done. rewrite Hr. lia.
Qed.

(** An owner lets go: Decrement() runs, and the block has one owner less. *)
Lemma Basic_inv_release st t s' :
  BasicOps.inv st →
  (∀ b, block_ t = Some b → 1 ≤ refs (BasicOps.shared st) b) →
  (∀ b', refs s' b' = refs (BasicOps.shared st) b' - owns b' t) →
  ∃ h', Basic.SharedPtr_Decrement t (BasicOps.heap st) = Ok tt h'
        ∧ BasicOps.inv (BasicOps.mkStore h' s').
Proof.
  intros Hinv Ht Hr. destruct (block_ t) as [b|] eqn:Hb.
  - specialize (Ht b eq_refl). pose proof (Hinv b) as Hbi.
    destruct (Basic.blocks (BasicOps.heap st) !! b) as [cb|] eqn:Hcb;
      [|pose proof (BasicOps.un_refs _ _ Hbi); lia].
    destruct Hbi as [H1 H2 H3 H4 H5].
    assert ((Basic.counter_ cb =? 0) = false) as Hz by (apply Z.eqb_neq; lia).
    rewrite Hz in *.
    rewrite (Basic_Decrement_effect _ t b cb Hb Hcb H3 H2).
    case_decide as Hc.
    + eexists. split; [reflexivity|]. intros b'. pose proof (Hinv b') as Hb'. cbn.
      specialize (Hr b'). unfold owns in Hr. rewrite Hb in Hr.
      destruct (decide (b' = b)) as [->|Hne].
      * rewrite lookup_insert_eq. rewrite decide_True in Hr by done.
        split; cbn; try done; [lia|..].
        -- rewrite !count_ev_app, H4, !count_ev_cons, count_ev_nil.
           rewrite decide_True by done. rewrite decide_False by done. lia.
        -- rewrite !count_ev_app, H5, !count_ev_cons, count_ev_nil.
           rewrite decide_False by done. rewrite decide_True by done. lia.
      * rewrite lookup_insert_ne by congruence.
        rewrite decide_False in Hr by congruence.
        assert (∀ e, (e = EvDeleteObject b' ∨ e = EvDeleteBlock b') →
                  count_ev e (Basic.trace (BasicOps.heap st)
                              ++ [EvDeleteObject b; EvDeleteBlock b])
                  = count_ev e (Basic.trace (BasicOps.heap st))) as Hev.
        { intros e He. rewrite count_ev_app, !count_ev_cons, count_ev_nil.
          rewrite !decide_False; [lia|destruct He; congruence|destruct He; congruence]. }
        destruct (Basic.blocks (BasicOps.heap st) !! b') as [cb'|].
        -- destruct Hb' as [G1 G2 G3 G4 G5].
           split; cbn; try done; [rewrite Hr; lia|..]; rewrite Hev by auto; done.
        -- destruct Hb' as [G1 G2 G3].
           split; cbn; [rewrite Hr; lia|..]; rewrite Hev by auto; done.
    + eexists. split; [reflexivity|]. intros b'. pose proof (Hinv b') as Hb'. cbn.
      specialize (Hr b'). unfold owns in Hr. rewrite Hb in Hr.
      destruct (decide (b' = b)) as [->|Hne].
      * rewrite lookup_insert_eq. rewrite decide_True in Hr by done.
        assert ((Basic.counter_ cb - 1 =? 0) = false) as Hz' by (apply Z.eqb_neq; lia).
        split; cbn; rewrite ?Hz'; try done. lia.
      * rewrite lookup_insert_ne by congruence.
        rewrite decide_False in Hr by congruence.
        destruct (Basic.blocks (BasicOps.heap st) !! b') as [cb'|].
        -- destruct Hb' as [G1 G2 G3 G4 G5]. split; cbn; try done. rewrite Hr. lia.
        -- destruct Hb' as [G1 G2 G3]. split; cbn; try done. rewrite Hr. lia.
  - exists (BasicOps.heap st). split.
    + unfold Basic.SharedPtr_Decrement. by rewrite Hb.
    + apply Basic_inv_handles; [exact Hinv|].
      intros b. rewrite Hr. unfold owns. rewrite Hb. rewrite decide_False by done. lia.
Qed.

Lemma Basic_bind_on_heap {A B} (m : M Basic.Heap A) (k : A → M BasicOps.Store B) st a h' :
  m (BasicOps.heap st) = Ok a h' →
  M_bind k (BasicOps.on_heap m) st = k a (BasicOps.mkStore h' (BasicOps.shared st)).
Proof. intros Hm. unfold M_bind, BasicOps.on_heap. by rewrite Hm. Qed.

Lemma Basic_bind_get {B} (k : Handle → M BasicOps.Store B) st a x :
  BasicOps.shared st !! a = Some x → M_bind k (BasicOps.get_shared a) st = k x st.
Proof. intros Ha. unfold M_bind, BasicOps.get_shared. by rewrite Ha. Qed.

Lemma Basic_new_shared st a x :
  BasicOps.shared st !! a = None →
  BasicOps.new_shared a x st
  = Ok tt (BasicOps.mkStore (BasicOps.heap st) (<[a := x]> (BasicOps.shared st))).
Proof. intros Ha. unfold BasicOps.new_shared. by rewrite Ha. Qed.

Lemma Basic_new_shared_at hp s a x :
  s !! a = None →
  BasicOps.new_shared a x (BasicOps.mkStore hp s) = Ok tt (BasicOps.mkStore hp (<[a := x]> s)).
Proof. intros Ha. unfold BasicOps.new_shared. cbn. by rewrite Ha. Qed.

Lemma Basic_copy_ok (h : Basic.Heap) o b cb :
  block_ o = Some b → Basic.blocks h !! b = Some cb → Basic.freed cb = false →
  Basic.SharedPtr_copy o h
  = Ok (mkHandle (ptr_ o) (Some b))
       (Basic.mkHeap (<[b := Basic.IncreaseCounter cb]> (Basic.blocks h)) (Basic.trace h)).
Proof.
  intros Ho Hb Hf. unfold Basic.SharedPtr_copy, Basic.modify, Basic.load, M_bind, M_ret.
  cbn [block_]. rewrite Ho. cbn [non_null]. by rewrite Hb, Hf.
Qed.

Lemma Basic_copy_null (h : Basic.Heap) o :
  block_ o = None → Basic.SharedPtr_copy o h = Ok (mkHandle (ptr_ o) nullptr) h.
Proof.
  intros Ho. unfold Basic.SharedPtr_copy, M_bind, M_ret. cbn [block_]. by rewrite Ho.
Qed.

Lemma Basic_alias_ok (h : Basic.Heap) o p b cb :
  block_ o = Some b → Basic.blocks h !! b = Some cb → Basic.freed cb = false →
  Basic.SharedPtr_alias o p h
  = Ok (mkHandle p (Some b))
       (Basic.mkHeap (<[b := Basic.IncreaseCounter cb]> (Basic.blocks h)) (Basic.trace h)).
Proof.
  intros Ho Hb Hf. unfold Basic.SharedPtr_alias, Basic.modify, Basic.load, M_bind, M_ret.
  cbn [block_]. rewrite Ho. by rewrite Hb, Hf.
Qed.

Lemma owns_unbound b p : owns b (mkHandle p nullptr) = 0.
Proof. reflexivity. Qed.

Lemma owns_bound b' p b :
  owns b' (mkHandle p (Some b)) = if decide (b' = b) then 1 else 0.
Proof. unfold owns. cbn. repeat case_decide; congruence. Qed.

Ltac basic_ok H :=
  repeat match type of H with
    | (_ && _ = true) => let H1 := fresh "Hok" in apply andb_true_iff in H as [H1 H]
    end.

Lemma Basic_free_None st h : BasicOps.free st h = true → BasicOps.shared st !! h = None.
Proof. unfold BasicOps.free. by destruct (BasicOps.shared st !! h). Qed.

Lemma Basic_live_Some st h : BasicOps.live st h = true → ∃ x, BasicOps.shared st !! h = Some x.
Proof. unfold BasicOps.live. destruct (BasicOps.shared st !! h) as [x|]; [by exists x|done]. Qed.

Lemma Basic_bound_Some st h :
  BasicOps.bound st h = true →
  ∃ x b, BasicOps.shared st !! h = Some x ∧ block_ x = Some b.
Proof.
  unfold BasicOps.bound. destruct (BasicOps.shared st !! h) as [x|]; [|done].
  destruct (block_ x) as [b|] eqn:Hb; [|done]. by exists x, b.
Qed.

Lemma Basic_blocks_rel_refl R h :
  (∀ cb, R cb cb) → BasicOps.blocks_rel R h h.
Proof.
  intros HR b. destruct (Basic.blocks h !! b) as [cb|] eqn:Hb.
  - exists cb. split; [reflexivity|apply HR].
  - intros cb' Hcb'. discriminate Hcb'.
Qed.

Lemma Basic_grows_refl h : BasicOps.grows h h.
Proof.
  split; [exists []; by rewrite app_nil_r|].
  apply Basic_blocks_rel_refl. intros cb. split; [lia|done].
Qed.

Lemma Basic_grows_shrinks h h' : BasicOps.grows h h' → BasicOps.shrinks h h'.
Proof.
  intros [Ht Hb]. split; [exact Ht|]. intros b. specialize (Hb b).
  destruct (Basic.blocks h !! b) as [cb|]; [|exact Hb].
  destruct Hb as (cb' & Hcb' & [Hi Hd]). exists cb'. split; [exact Hcb'|].
  split; [lia|exact Hd].
Qed.

Lemma Basic_shrinks_grows h1 h2 h3 :
  BasicOps.shrinks h1 h2 → BasicOps.grows h2 h3 → BasicOps.shrinks h1 h3.
Proof.
  intros [[e1 Ht1] Hb1] [[e2 Ht2] Hb2]. split.
  - exists (e1 ++ e2). by rewrite Ht2, Ht1, app_assoc.
  - intros b. specialize (Hb1 b). specialize (Hb2 b).
    destruct (Basic.blocks h1 !! b) as [cb1|].
    + destruct Hb1 as (cb2 & Hcb2 & [Hd1 Hz1]). rewrite Hcb2 in Hb2.
      destruct Hb2 as (cb3 & Hcb3 & [Hi2 Hz2]). exists cb3. split; [exact Hcb3|].
      split; [lia|auto].
    + intros cb3 Hcb3. destruct (Basic.blocks h2 !! b) as [cb2|] eqn:Hcb2.
      * destruct Hb2 as (cb3' & Hcb3' & [Hi2 _]).
        assert (cb3' = cb3) as -> by congruence.
        specialize (Hb1 cb2 eq_refl). lia.
      * by apply Hb2.
Qed.

(** A block with an owner gains one. *)
Lemma Basic_grows_acquire h b cb :
  Basic.blocks h !! b = Some cb → 1 ≤ Basic.counter_ cb →
  BasicOps.grows h (Basic.mkHeap (<[b := Basic.IncreaseCounter cb]> (Basic.blocks h))
                                 (Basic.trace h)).
Proof.
  intros Hb Hc. split; [exists []; cbn; by rewrite app_nil_r|].
  intros b'. cbn. destruct (decide (b' = b)) as [->|Hne].
  - rewrite Hb, lookup_insert_eq. eexists. split; [reflexivity|].
    split; cbn; lia.
  - rewrite lookup_insert_ne by congruence.
    destruct (Basic.blocks h !! b') as [cb'|] eqn:Hb'.
    + exists cb'. split; [reflexivity|]. split; [lia|done].
    + intros cb' Hcb'. discriminate Hcb'.
Qed.

(** A new block starts with one owner. *)
Lemma Basic_grows_new h g :
  BasicOps.grows h
    (Basic.mkHeap (<[fresh (dom (Basic.blocks h)) := Basic.mkBase 1 g false false]>
                     (Basic.blocks h))
                  (Basic.trace h)).
Proof.
  split; [exists []; cbn; by rewrite app_nil_r|].
  assert (Basic.blocks h !! fresh (dom (Basic.blocks h)) = None) as Hfresh.
  { apply not_elem_of_dom. apply is_fresh. }
  intros b'. cbn. destruct (decide (b' = fresh (dom (Basic.blocks h)))) as [->|Hne].
  - rewrite Hfresh, lookup_insert_eq. intros cb' [= <-]. cbn. lia.
  - rewrite lookup_insert_ne by congruence.
    destruct (Basic.blocks h !! b') as [cb'|] eqn:Hb'.
    + exists cb'. split; [reflexivity|]. split; [lia|done].
    + intros cb' Hcb'. discriminate Hcb'.
Qed.

(** An owner lets go. *)
Lemma Basic_shrinks_release st t h' :
  BasicOps.inv st →
  (∀ b, block_ t = Some b → 1 ≤ refs (BasicOps.shared st) b) →
  Basic.SharedPtr_Decrement t (BasicOps.heap st) = Ok tt h' →
  BasicOps.shrinks (BasicOps.heap st) h'.
Proof.
  intros Hinv Ht Hd. destruct (block_ t) as [b|] eqn:Hb.
  2:{ unfold Basic.SharedPtr_Decrement in Hd. rewrite Hb in Hd. injection Hd as <-.
      apply Basic_grows_shrinks, Basic_grows_refl. }
  specialize (Ht b eq_refl). pose proof (Hinv b) as Hbi.
  destruct (Basic.blocks (BasicOps.heap st) !! b) as [cb|] eqn:Hcb;
    [|pose proof (BasicOps.un_refs _ _ Hbi); lia].
  destruct Hbi as [H1 H2 H3 H4 H5].
  assert ((Basic.counter_ cb =? 0) = false) as Hz by (apply Z.eqb_neq; lia).
  rewrite Hz in *.
  rewrite (Basic_Decrement_effect _ t b cb Hb Hcb H3 H2) in Hd.
  assert (∀ c d f evs,
            Basic.counter_ cb - 1 ≤ c →
            BasicOps.shrinks (BasicOps.heap st)
              (Basic.mkHeap (<[b := Basic.mkBase c (Basic.GetPointer cb) d f]>
                               (Basic.blocks (BasicOps.heap st)))
                            (Basic.trace (BasicOps.heap st) ++ evs))) as Hsh.
  { intros c d f evs Hc. split; [by exists evs|].
    intros b'. cbn. destruct (decide (b' = b)) as [->|Hne].
    - rewrite Hcb, lookup_insert_eq. eexists. split; [reflexivity|].
      split; cbn; lia.
    - rewrite lookup_insert_ne by congruence.
      destruct (Basic.blocks (BasicOps.heap st) !! b') as [cb'|] eqn:Hb'.
      + exists cb'. split; [reflexivity|]. split; [lia|done].
      + intros cb' Hcb'. discriminate Hcb'. }
  case_decide as Hc; injection Hd as <-.
  - apply Hsh. lia.
  - rewrite <-(app_nil_r (Basic.trace (BasicOps.heap st))). apply Hsh. lia.
Qed.

Lemma Basic_step_defined st op :
  BasicOps.inv st → BasicOps.op_ok st op = true →
  ∃ st', BasicOps.step op st = Ok tt st' ∧ BasicOps.inv st'
         ∧ BasicOps.shrinks (BasicOps.heap st) (BasicOps.heap st').
Proof.
  intros Hinv Hok. destruct op; cbn [BasicOps.op_ok BasicOps.step] in *.
  - (* BpDefault *)
    apply Basic_free_None in Hok.
    rewrite (Basic_new_shared _ _ _ Hok). eexists. split; [reflexivity|]. cbn.
    split; [|apply Basic_grows_shrinks, Basic_grows_refl].
    apply (Basic_inv_handles st); [exact Hinv|].
    intros b. cbn. rewrite refs_insert_fresh by exact Hok. rewrite owns_null. lia.
  - (* BpFromRaw *)
    apply andb_true_iff in Hok as [Hok _]. apply Basic_free_None in Hok.
    erewrite Basic_bind_on_heap by reflexivity. rewrite (Basic_new_shared_at _ _ _ _ Hok).
    eexists. split; [reflexivity|]. cbn.
    split; [|apply Basic_grows_shrinks, Basic_grows_new].
    apply (Basic_inv_new st); [exact Hinv|].
    intros b. cbn. rewrite refs_insert_fresh by exact Hok. by rewrite owns_bound.
  - (* BpMakeShared *)
    apply Basic_free_None in Hok.
    erewrite Basic_bind_on_heap by reflexivity. rewrite (Basic_new_shared_at _ _ _ _ Hok).
    eexists. split; [reflexivity|]. cbn.
    split; [|apply Basic_grows_shrinks, Basic_grows_new].
    apply (Basic_inv_new st); [exact Hinv|].
    intros b. cbn. rewrite refs_insert_fresh by exact Hok. by rewrite owns_bound.
  - (* BpCopy *)
    basic_ok Hok. apply Basic_free_None in Hok0. apply Basic_live_Some in Hok as [o Ho].
    rewrite (Basic_bind_get _ _ _ o Ho).
    destruct (block_ o) as [b|] eqn:Hb.
    + destruct (Basic_inv_owner _ _ _ _ Hinv Ho Hb) as (cb & Hcb & Hf & _ & Hc & _).
      erewrite Basic_bind_on_heap by (by apply (Basic_copy_ok (BasicOps.heap st) o b cb)).
      rewrite (Basic_new_shared_at _ _ _ _ Hok0). eexists. split; [reflexivity|]. cbn.
      split; [|by apply Basic_grows_shrinks, Basic_grows_acquire].
      apply (Basic_inv_acquire st b cb); [exact Hinv|exact Hcb|exact Hc|].
      intros b'. cbn. rewrite refs_insert_fresh by exact Hok0. by rewrite owns_bound.
    + erewrite Basic_bind_on_heap by (by apply (Basic_copy_null (BasicOps.heap st) o)).
      rewrite (Basic_new_shared_at _ _ _ _ Hok0). eexists. split; [reflexivity|]. cbn.
      split; [|apply Basic_grows_shrinks, Basic_grows_refl].
      apply (Basic_inv_handles st); [exact Hinv|].
      intros b. cbn. rewrite refs_insert_fresh by exact Hok0. rewrite owns_unbound. lia.
  - (* BpMove *)
    basic_ok Hok. apply Basic_free_None in Hok0. apply Basic_live_Some in Hok as [o Ho].
    rewrite (Basic_bind_get _ _ _ o Ho).
    assert (h ≠ src) as Hne by congruence.
    unfold M_bind at 1. unfold BasicOps.put_shared at 1. cbn [BasicOps.heap BasicOps.shared].
    rewrite Basic_new_shared_at by (by rewrite lookup_insert_ne by congruence).
    eexists. split; [reflexivity|]. cbn.
    split; [|apply Basic_grows_shrinks, Basic_grows_refl].
    apply (Basic_inv_handles st); [exact Hinv|].
    intros b. cbn.
    rewrite refs_insert_fresh by (by rewrite lookup_insert_ne by congruence).
    rewrite refs_insert, Ho. cbn [owns_opt]. rewrite owns_null.
    unfold owns. cbn [block_]. lia.
  - (* BpAlias *)
    basic_ok Hok. apply Basic_free_None in Hok0.
    apply Basic_bound_Some in Hok as (o & b & Ho & Hb). rewrite (Basic_bind_get _ _ _ o Ho).
    destruct (Basic_inv_owner _ _ _ _ Hinv Ho Hb) as (cb & Hcb & Hf & _ & Hc & _).
    erewrite Basic_bind_on_heap by (by apply (Basic_alias_ok (BasicOps.heap st) o p b cb)).
    rewrite (Basic_new_shared_at _ _ _ _ Hok0). eexists. split; [reflexivity|]. cbn.
    split; [|by apply Basic_grows_shrinks, Basic_grows_acquire].
    apply (Basic_inv_acquire st b cb); [exact Hinv|exact Hcb|exact Hc|].
    intros b'. cbn. rewrite refs_insert_fresh by exact Hok0. by rewrite owns_bound.
  - (* BpAssignCopy *)
    basic_ok Hok. apply Basic_live_Some in Hok0 as [t Ht].
    apply Basic_live_Some in Hok as [o Ho].
    case_bool_decide as Hne.
    2:{ exists st. split; [reflexivity|]. split; [exact Hinv|].
        apply Basic_grows_shrinks, Basic_grows_refl. }
    rewrite (Basic_bind_get _ _ _ t Ht), (Basic_bind_get _ _ _ o Ho).
    assert (Hown : ∀ b, block_ t = Some b → 1 ≤ refs (BasicOps.shared st) b).
    { intros b Hb. by apply (refs_lookup _ h t). }
    destruct (Basic_inv_release st t (<[h := mkHandle nullptr nullptr]> (BasicOps.shared st))
                Hinv Hown) as (h1 & Hd & Hi1).
    { intros b. cbn. rewrite refs_insert, Ht. cbn [owns_opt]. rewrite owns_null. lia. }
    pose proof (Basic_shrinks_release st t h1 Hinv Hown Hd) as Hsh.
    cbn in Hd. erewrite Basic_bind_on_heap by exact Hd.
    cbn [BasicOps.shared].
    assert (Ho1 : BasicOps.shared (BasicOps.mkStore h1 (<[h := mkHandle nullptr nullptr]> (BasicOps.shared st)))
                  !! src = Some o) by (cbn; by rewrite lookup_insert_ne by congruence).
    destruct (block_ o) as [b|] eqn:Hb.
    + destruct (Basic_inv_owner _ _ _ _ Hi1 Ho1 Hb) as (cb & Hcb & Hf & _ & Hc & _).
      erewrite Basic_bind_on_heap by (by apply (Basic_copy_ok h1 o b cb)).
      eexists. split; [reflexivity|]. cbn.
      split.
      2:{ apply (Basic_shrinks_grows _ h1); [exact Hsh|]. by apply Basic_grows_acquire. }
      replace (<[h := mkHandle (ptr_ o) (Some b)]> (BasicOps.shared st))
        with (<[h := mkHandle (ptr_ o) (Some b)]> (<[h := mkHandle nullptr nullptr]> (BasicOps.shared st)))
        by apply insert_insert_eq.
      apply (Basic_inv_acquire _ b cb _ Hi1 Hcb Hc).
      intros b'. cbn. rewrite (refs_insert (<[h := _]> (BasicOps.shared st))), lookup_insert_eq.
      cbn [owns_opt]. rewrite owns_null, owns_bound. lia.
    + erewrite Basic_bind_on_heap by (by apply (Basic_copy_null h1 o)).
      eexists. split; [reflexivity|]. cbn.
      split; [|exact Hsh].
      replace (<[h := mkHandle (ptr_ o) nullptr]> (BasicOps.shared st))
        with (<[h := mkHandle (ptr_ o) nullptr]> (<[h := mkHandle nullptr nullptr]> (BasicOps.shared st)))
        by apply insert_insert_eq.
      apply (Basic_inv_handles _ _ Hi1).
      intros b'. cbn. rewrite (refs_insert (<[h := _]> (BasicOps.shared st))), lookup_insert_eq.
      cbn [owns_opt]. rewrite owns_null, owns_unbound. lia.
  - (* BpAssignMove *)
    basic_ok Hok. apply Basic_live_Some in Hok0 as [t Ht].
    apply Basic_live_Some in Hok as [o Ho].
    case_bool_decide as Hne.
    { exists st. split; [reflexivity|]. split; [exact Hinv|].
      apply Basic_grows_shrinks, Basic_grows_refl. }
    rewrite (Basic_bind_get _ _ _ t Ht), (Basic_bind_get _ _ _ o Ho).
    assert (Hown : ∀ b, block_ t = Some b → 1 ≤ refs (BasicOps.shared st) b).
    { intros b Hb. by apply (refs_lookup _ h t). }
    destruct (Basic_inv_release st t (<[h := mkHandle nullptr nullptr]> (BasicOps.shared st))
                Hinv Hown) as (h1 & Hd & Hi1).
    { intros b. cbn. rewrite refs_insert, Ht. cbn [owns_opt]. rewrite owns_null. lia. }
    pose proof (Basic_shrinks_release st t h1 Hinv Hown Hd) as Hsh.
    cbn in Hd. erewrite Basic_bind_on_heap by exact Hd.
    eexists. split; [reflexivity|]. cbn.
    split; [|exact Hsh].
    apply (Basic_inv_handles _ _ Hi1).
    intros b. cbn. rewrite !refs_insert.
    rewrite lookup_insert_ne by congruence. rewrite Ho, Ht. cbn [owns_opt].
    rewrite !owns_null. rewrite Handle_eta. lia.
  - (* BpReset *)
    apply Basic_live_Some in Hok as [t Ht].
    rewrite (Basic_bind_get _ _ _ t Ht).
    assert (Hown : ∀ b, block_ t = Some b → 1 ≤ refs (BasicOps.shared st) b).
    { intros b Hb. by apply (refs_lookup _ h t). }
    destruct (Basic_inv_release st t (<[h := mkHandle nullptr nullptr]> (BasicOps.shared st))
                Hinv Hown) as (h1 & Hd & Hi1).
    { intros b. cbn. rewrite refs_insert, Ht. cbn [owns_opt]. rewrite owns_null. lia. }
    pose proof (Basic_shrinks_release st t h1 Hinv Hown Hd) as Hsh.
    cbn in Hd. erewrite Basic_bind_on_heap by exact Hd.
    eexists. split; [reflexivity|]. split; [exact Hi1|exact Hsh].
  - (* BpResetPtr *)
    apply andb_true_iff in Hok as [Hok _]. apply Basic_live_Some in Hok as [t Ht].
    rewrite (Basic_bind_get _ _ _ t Ht).
    assert (Hown : ∀ b, block_ t = Some b → 1 ≤ refs (BasicOps.shared st) b).
    { intros b Hb. by apply (refs_lookup _ h t). }
    destruct (Basic_inv_release st t (<[h := mkHandle nullptr nullptr]> (BasicOps.shared st))
                Hinv Hown) as (h1 & Hd & Hi1).
    { intros b. cbn. rewrite refs_insert, Ht. cbn [owns_opt]. rewrite owns_null. lia. }
    pose proof (Basic_shrinks_release st t h1 Hinv Hown Hd) as Hsh.
    cbn in Hd. erewrite Basic_bind_on_heap by exact Hd.
    erewrite Basic_bind_on_heap by reflexivity.
    eexists. split; [reflexivity|]. cbn.
    split; [|apply (Basic_shrinks_grows _ h1); [exact Hsh|apply Basic_grows_new]].
    replace (<[h := mkHandle p (Some (fresh (dom (Basic.blocks h1))))]> (BasicOps.shared st))
      with (<[h := mkHandle p (Some (fresh (dom (Basic.blocks h1))))]>
              (<[h := mkHandle nullptr nullptr]> (BasicOps.shared st)))
      by apply insert_insert_eq.
    apply (Basic_inv_new _ _ _ Hi1).
    intros b'. cbn. rewrite (refs_insert (<[h := _]> (BasicOps.shared st))), lookup_insert_eq.
    cbn [owns_opt]. rewrite owns_null, owns_bound. lia.
  - (* BpSwap *)
    basic_ok Hok. apply Basic_live_Some in Hok0 as [t Ht].
    apply Basic_live_Some in Hok as [o Ho].
    rewrite (Basic_bind_get _ _ _ t Ht), (Basic_bind_get _ _ _ o Ho).
    eexists. split; [reflexivity|]. cbn.
    split; [|apply Basic_grows_shrinks, Basic_grows_refl].
    apply (Basic_inv_handles st); [exact Hinv|].
    intros b. cbn. rewrite !Handle_eta, !refs_insert.
    destruct (decide (other = h)) as [->|Hne].
    + rewrite lookup_insert_eq. cbn [owns_opt]. rewrite Ht. cbn [owns_opt].
      assert (t = o) by congruence. subst. lia.
    + rewrite lookup_insert_ne by congruence. rewrite Ho, Ht. cbn [owns_opt]. lia.
  - (* BpDtor *)
    apply Basic_live_Some in Hok as [t Ht].
    rewrite (Basic_bind_get _ _ _ t Ht).
    assert (Hown : ∀ b, block_ t = Some b → 1 ≤ refs (BasicOps.shared st) b).
    { intros b Hb. by apply (refs_lookup _ h t). }
    destruct (Basic_inv_release st t (delete h (BasicOps.shared st)) Hinv Hown)
      as (h1 & Hd & Hi1).
    { intros b. cbn. by rewrite refs_delete, Ht. }
    pose proof (Basic_shrinks_release st t h1 Hinv Hown Hd) as Hsh.
    cbn in Hd. erewrite Basic_bind_on_heap by exact Hd.
    eexists. split; [reflexivity|]. split; [exact Hi1|exact Hsh].
Qed.

Lemma Basic_well_used_runs ops st :
  BasicOps.inv st → BasicOps.well_used st ops →
  ∃ st', BasicOps.run st ops = Some st' ∧ BasicOps.inv st'.
Proof.
  revert st. induction ops as [|op ops IH]; intros st Hinv Hok; cbn in *.
  - by exists st.
  - destruct Hok as [Hop Hrest].
    destruct (Basic_step_defined st op Hinv Hop) as (st1 & Hs & Hi1 & _).
    unfold BasicOps.exec in *. rewrite Hs in *. apply IH; auto.
Qed.





(** ** Destruction of the managed object, both implementations *)




(** X16. A correctly used program over the single-counter
    SharedPtr of shared/shared.h (handles built on free addresses and used
    while alive, each raw pointer handed to one constructor or Reset(ptr)
    only, the aliasing constructor given a parent with a block; managed
    objects that hold no SharedPtr of their own) runs without undefined
    behaviour.  In the store it reaches UseCount() is the
    number of live SharedPtrs on the block, the counter of every block is
    that number, and DeleteObject() and [delete block_] ran on a block once
    if no SharedPtr refers to it any more and not at all otherwise. *)
Theorem Basic_SharedPtr_program ops :
  BasicOps.well_used BasicOps.init ops →
  ∃ st,
    BasicOps.run BasicOps.init ops = Some st
    ∧ (∀ h x, BasicOps.shared st !! h = Some x →
         BasicOps.SharedPtr_UseCount x (BasicOps.heap st)
         = Ok (if block_ x is Some b then refs (BasicOps.shared st) b else 0)
              (BasicOps.heap st))
    ∧ (∀ b cb, Basic.blocks (BasicOps.heap st) !! b = Some cb →
         Basic.counter_ cb = refs (BasicOps.shared st) b
         ∧ Basic.deleted cb = bool_decide (Basic.counter_ cb = 0)
         ∧ Basic.freed cb = bool_decide (Basic.counter_ cb = 0)
         ∧ count_ev (EvDeleteObject b) (Basic.trace (BasicOps.heap st))
           = (if decide (Basic.counter_ cb = 0) then 1 else 0)
         ∧ count_ev (EvDeleteBlock b) (Basic.trace (BasicOps.heap st))
           = (if decide (Basic.counter_ cb = 0) then 1 else 0))
    ∧ (∀ b, Basic.blocks (BasicOps.heap st) !! b = None →
         refs (BasicOps.shared st) b = 0
         ∧ count_ev (EvDeleteObject b) (Basic.trace (BasicOps.heap st)) = 0
         ∧ count_ev (EvDeleteBlock b) (Basic.trace (BasicOps.heap st)) = 0).
Proof.
  intros Hok.
  destruct (Basic_well_used_runs ops _ Basic_inv_init Hok) as (st & Hrun & Hi).
  exists st. split; [exact Hrun|]. split; [|split].
  - intros h x Hh. unfold BasicOps.SharedPtr_UseCount.
    destruct (block_ x) as [b|] eqn:Hb; [|reflexivity]. cbn [non_null].
    destruct (Basic_inv_owner _ _ _ _ Hi Hh Hb) as (cb & Hcb & Hf & _ & _ & Hbi).
    unfold Basic.load, M_bind, M_ret. rewrite Hcb, Hf.
    unfold Basic.GetCounter. by rewrite (BasicOps.bi_counter _ _ _ Hbi).
  - intros b cb Hb. specialize (Hi b). rewrite Hb in Hi.
    destruct Hi as [H1 H2 H3 H4 H5].
    rewrite H2, H3, H4, H5.
    destruct (Z.eqb_spec (Basic.counter_ cb) 0) as [Hz|Hz].
    + rewrite bool_decide_eq_true_2, decide_True by done. done.
    + rewrite bool_decide_eq_false_2, decide_False by done. done.
  - intros b Hb. specialize (Hi b). rewrite Hb in Hi. by destruct Hi.
Qed.

Lemma Basic_SharedPtr_program_witness :
  ∃ st,
    BasicOps.run BasicOps.init
      [BasicOps.BpMakeShared 0%nat; BasicOps.BpCopy 1%nat 0%nat; BasicOps.BpAlias 2%nat 1%nat (Some 4%nat);
       BasicOps.BpDtor 0%nat; BasicOps.BpReset 1%nat; BasicOps.BpDtor 2%nat] = Some st
    ∧ Basic.trace (BasicOps.heap st) = [EvDeleteObject 0%nat; EvDeleteBlock 0%nat].
Proof.
  destruct (Basic_SharedPtr_program
              [BasicOps.BpMakeShared 0%nat; BasicOps.BpCopy 1%nat 0%nat; BasicOps.BpAlias 2%nat 1%nat (Some 4%nat);
               BasicOps.BpDtor 0%nat; BasicOps.BpReset 1%nat; BasicOps.BpDtor 2%nat]) as (st & Hrun & _).
  - repeat (split; [vm_compute; reflexivity|];
            let st' := fresh "st" in let H := fresh "H" in
            intros st' H; vm_compute in H; injection H as <-).
    exact I.
  - exists st. split; [exact Hrun|].
    vm_compute in Hrun. injection Hrun as <-. reflexivity.
Defined.

(** * UniquePtr as a whole *)

Section UniqueProgramFacts.
Context {Deleter : Type} `{Unique.DefaultConstructible Deleter} `{Unique.Movable Deleter}.
Implicit Types (st : Unique.Store Deleter) (d : Deleter) (p : ptr).

Lemma policy_ran_on_snoc st objs d p :
  policy_ran_on (Unique.mkStore objs (Unique.calls st ++ [(d, p)]))
  = policy_ran_on st ++ (if p is Some q then [q] else []).
Proof. unfold policy_ran_on. cbn. rewrite omap_app. by destruct p. Qed.

Lemma policy_ran_on_same st objs :
  policy_ran_on (Unique.mkStore objs (Unique.calls st)) = policy_ran_on st.
Proof. reflexivity. Qed.

Lemma unique_inv_empty : unique_inv (@Unique.empty Deleter).
Proof.
  split.
  - constructor.
  - intros a x q Ha. cbn in Ha. by rewrite lookup_empty in Ha.
  - intros a a' x x' q Ha. cbn in Ha. by rewrite lookup_empty in Ha.
Qed.

(** The policy is called on a pointer that some UniquePtr held alone. *)
Lemma NoDup_policy_snoc st a x p :
  unique_inv st → Unique.objects st !! a = Some x → Unique.GetFirst x = p →
  NoDup (policy_ran_on st ++ (if p is Some q then [q] else [])).
Proof.
  intros Hi Ha Hp. destruct p as [q|]; [|rewrite app_nil_r; apply (ui_once _ Hi)].
  apply NoDup_app. split; [apply (ui_once _ Hi)|]. split; [|apply NoDup_singleton].
  intros y Hy Hq. apply list_elem_of_singleton in Hq as ->.
  by apply (ui_live _ Hi a x q).
Qed.

Lemma in_snoc_policy (q : nat) l (p : ptr) :
  q ∈ l ++ (if p is Some y then [y] else []) → q ∈ l ∨ p = Some q.
Proof.
  intros Hq. apply elem_of_app in Hq as [Hq|Hq]; [by left|].
  destruct p as [y'|]; [|by apply elem_of_nil in Hq].
  apply list_elem_of_singleton in Hq as ->. by right.
Qed.

Ltac lookups :=
  repeat match goal with
    | H : <[_ := _]> _ !! _ = Some _ |- _ => apply lookup_insert_Some in H as [[? ?]|[? ?]]
    | H : delete _ _ !! _ = Some _ |- _ => apply lookup_delete_Some in H as [? ?]
    | H : _ ∈ _ ++ _ |- _ => apply in_snoc_policy in H as [H|H]
    end;
  simplify_eq /=.

(** Two UniquePtrs of the old store that hold one pointer are one. *)
Ltac same_owner Huniq :=
  match goal with
  | H1 : Unique.objects ?st !! ?a = Some ?x, H2 : Unique.objects ?st !! ?b = Some ?y |- _ =>
      lazymatch a with b => fail | _ => idtac end;
      assert (a = b) by (by eapply (Huniq a b x y));
      simplify_eq; solve [done | congruence]
  end.

Ltac usolve Hlive Huniq :=
  lookups;
  first
    [ done
    | solve [eauto 3]
    | exfalso;
      match goal with
      | H1 : Unique.objects ?st !! ?a = Some ?x, Hq : ?q ∈ policy_ran_on ?st |- _ =>
          by eapply (Hlive a x q)
      end
    | same_owner Huniq
    | exfalso; same_owner Huniq
    | match goal with
      | Hf : map_Forall _ _, H1 : Unique.objects _ !! _ = Some _ |- _ =>
          by destruct (Hf _ _ H1)
      end
    | idtac ].

Lemma UniquePtr_exec_inv st op st' :
  unique_inv st → UniqueOp_ok st op → UniquePtr_exec st op = Some st' → unique_inv st'.
Proof.
  intros Hi Hok He. unfold UniquePtr_exec in He.
  pose proof Hi as [Hnd Hlive Huniq].
  destruct op as [a p|a p d|a src|a src|a src|a|a|a p|a other|a];
    cbn [UniquePtr_step UniqueOp_ok] in *.
  - (* UpCtor *)
    unfold Unique.UniquePtr_ctor, Unique.construct in He.
    destruct (Unique.objects st !! a) eqn:Ha; [discriminate He|]. injection He as <-.
    split; cbn [Unique.objects]; rewrite ?policy_ran_on_same.
    + exact Hnd.
    + intros a1 x q H1 Hq. destruct p; [destruct Hok as [Hnew Hf]|]; usolve Hlive Huniq.
    + intros a1 a2 x x' q H1 H2 Hq Hq'.
      destruct p; [destruct Hok as [Hnew Hf]|]; usolve Hlive Huniq.
  - (* UpCtorDeleter *)
    unfold Unique.UniquePtr_ctor_deleter, Unique.construct in He.
    destruct (Unique.objects st !! a) eqn:Ha; [discriminate He|]. injection He as <-.
    split; cbn [Unique.objects]; rewrite ?policy_ran_on_same.
    + exact Hnd.
    + intros a1 x q H1 Hq. destruct p; [destruct Hok as [Hnew Hf]|]; usolve Hlive Huniq.
    + intros a1 a2 x x' q H1 H2 Hq Hq'.
      destruct p; [destruct Hok as [Hnew Hf]|]; usolve Hlive Huniq.
  - (* UpMove *)
    unfold Unique.UniquePtr_move_ctor, M_bind, Unique.get, Unique.put, Unique.construct in He.
    destruct (Unique.objects st !! src) as [o|] eqn:Hs; [|discriminate He].
    cbn [Unique.objects] in He.
    destruct (<[src := _]> (Unique.objects st) !! a) eqn:Ha; [discriminate He|].
    injection He as <-.
    apply lookup_insert_None in Ha as [Ha Hne].
    split; cbn [Unique.objects Unique.calls]; rewrite ?policy_ran_on_same.
    + exact Hnd.
    + intros a1 x q H1 Hq. usolve Hlive Huniq.
    + intros a1 a2 x x' q H1 H2 Hq Hq'. usolve Hlive Huniq.
  - (* UpMoveConverting *)
    unfold Unique.UniquePtr_move_ctor_converting, Unique.UniquePtr_Release,
      M_bind, M_ret, Unique.get, Unique.put, Unique.construct in He.
    destruct (Unique.objects st !! src) as [o|] eqn:Hs; [|discriminate He].
    cbn [Unique.objects] in He. rewrite lookup_insert_eq in He.
    cbn [Unique.objects Unique.calls] in He. rewrite insert_insert_eq in He.
    destruct (<[src := _]> (Unique.objects st) !! a) eqn:Ha; [discriminate He|].
    injection He as <-.
    apply lookup_insert_None in Ha as [Ha Hne].
    split; cbn [Unique.objects Unique.calls]; rewrite ?policy_ran_on_same.
    + exact Hnd.
    + intros a1 x q H1 Hq. usolve Hlive Huniq.
    + intros a1 a2 x x' q H1 H2 Hq Hq'. usolve Hlive Huniq.
  - (* UpAssignMove *)
    unfold Unique.UniquePtr_assign_move in He.
    case_bool_decide as Heq; [by injection He as <-|].
    unfold M_bind, Unique.get, Unique.put, Unique.invoke in He.
    destruct (Unique.objects st !! a) as [t|] eqn:Ht; [|discriminate He].
    destruct (Unique.objects st !! src) as [o|] eqn:Hs; [|discriminate He].
    injection He as <-.
    split; cbn [Unique.objects Unique.calls]; rewrite ?policy_ran_on_snoc.
    + by apply (NoDup_policy_snoc st a t).
    + intros a1 x q H1 Hq Hin. usolve Hlive Huniq.
    + intros a1 a2 x x' q H1 H2 Hq Hq'. usolve Hlive Huniq.
  - (* UpAssignNull *)
    unfold Unique.UniquePtr_assign_nullptr, M_bind, Unique.get, Unique.put, Unique.invoke in He.
    destruct (Unique.objects st !! a) as [t|] eqn:Ht; [|discriminate He].
    injection He as <-.
    split; cbn [Unique.objects Unique.calls]; rewrite ?policy_ran_on_snoc.
    + by apply (NoDup_policy_snoc st a t).
    + intros a1 x q H1 Hq Hin. usolve Hlive Huniq.
    + intros a1 a2 x x' q H1 H2 Hq Hq'. usolve Hlive Huniq.
  - (* UpRelease *)
    unfold Unique.UniquePtr_Release, M_bind, M_ret, Unique.get, Unique.put in He.
    destruct (Unique.objects st !! a) as [t|] eqn:Ht; [|discriminate He].
    injection He as <-.
    split; cbn [Unique.objects Unique.calls]; rewrite ?policy_ran_on_same.
    + exact Hnd.
    + intros a1 x q H1 Hq. usolve Hlive Huniq.
    + intros a1 a2 x x' q H1 H2 Hq Hq'. usolve Hlive Huniq.
  - (* UpReset *)
    unfold Unique.UniquePtr_Reset, M_bind, Unique.get, Unique.put, Unique.invoke in He.
    destruct (Unique.objects st !! a) as [t|] eqn:Ht; [|discriminate He].
    injection He as <-.
    split; cbn [Unique.objects Unique.calls Unique.GetSecond Unique.GetFirst Unique.set_first
                Unique.first_ Unique.second_]; rewrite ?policy_ran_on_snoc.
    + by apply (NoDup_policy_snoc st a t).
    + intros a1 x q H1 Hq Hin.
      destruct p; [destruct Hok as [Hnew Hf]|]; usolve Hlive Huniq.
    + intros a1 a2 x x' q H1 H2 Hq Hq'.
      destruct p; [destruct Hok as [Hnew Hf]|]; usolve Hlive Huniq.
  - (* UpSwap *)
    unfold Unique.UniquePtr_Swap, M_bind, Unique.get, Unique.put in He.
    destruct (Unique.objects st !! a) as [t|] eqn:Ht; [|discriminate He].
    destruct (Unique.objects st !! other) as [o|] eqn:Ho; [|discriminate He].
    injection He as <-.
    split; cbn [Unique.objects Unique.calls]; rewrite ?policy_ran_on_same.
    + exact Hnd.
    + intros a1 x q H1 Hq. usolve Hlive Huniq.
    + intros a1 a2 x x' q H1 H2 Hq Hq'. usolve Hlive Huniq.
  - (* UpDtor *)
    unfold Unique.UniquePtr_dtor, M_bind, M_ret, Unique.get, Unique.destroy, Unique.invoke in He.
    destruct (Unique.objects st !! a) as [t|] eqn:Ht; [|discriminate He].
    destruct (Unique.GetFirst t) as [q0|] eqn:Hq0; cbn [non_null] in He; injection He as <-.
    + split; cbn [Unique.objects Unique.calls]; rewrite ?policy_ran_on_snoc.
      * replace [q0] with (if Unique.GetFirst t is Some q then [q] else [])
          by (by rewrite Hq0).
        by apply (NoDup_policy_snoc st a t).
      * intros a1 x q H1 Hq Hin.
        change [q0] with (if Some q0 is Some q then [q] else []) in Hin.
        usolve Hlive Huniq.
      * intros a1 a2 x x' q H1 H2 Hq Hq'. usolve Hlive Huniq.
    + split; cbn [Unique.objects Unique.calls]; rewrite ?policy_ran_on_same.
      * exact Hnd.
      * intros a1 x q H1 Hq. usolve Hlive Huniq.
      * intros a1 a2 x x' q H1 H2 Hq Hq'. usolve Hlive Huniq.
Qed.

Lemma UniquePtr_run_inv ops st st' :
  unique_inv st → UniquePtr_well_used st ops → UniquePtr_run st ops = Some st' →
  unique_inv st'.
Proof.
  revert st. induction ops as [|op ops IH]; intros st Hi Hok Hrun; cbn in Hrun.
  - by injection Hrun as <-.
  - destruct Hok as [Hop Hrest].
    destruct (UniquePtr_exec st op) as [st1|] eqn:He; [|discriminate Hrun].
    apply (IH st1); [by apply (UniquePtr_exec_inv st op)|by apply Hrest|exact Hrun].
Qed.

End UniqueProgramFacts.

(** X17. In a program that hands a UniquePtr only raw
    pointers that no live UniquePtr holds and no destruction policy was
    called on, the policy is called at most once on each object, no live
    UniquePtr holds an object the policy was called on, and no two live
    UniquePtrs hold the same object. *)
Theorem UniquePtr_never_deletes_twice (Deleter : Type)
    `{Unique.DefaultConstructible Deleter} `{Unique.Movable Deleter}
    (ops : list (@UniqueOp Deleter)) st :
  UniquePtr_well_used Unique.empty ops → UniquePtr_run Unique.empty ops = Some st →
  NoDup (policy_ran_on st)
  ∧ (∀ a x q, Unique.objects st !! a = Some x → Unique.GetFirst x = Some q →
       q ∉ policy_ran_on st)
  ∧ (∀ a a' x x' q,
       Unique.objects st !! a = Some x → Unique.objects st !! a' = Some x' →
       Unique.GetFirst x = Some q → Unique.GetFirst x' = Some q → a = a').
Proof.
  intros Hok Hrun.
  destruct (UniquePtr_run_inv ops _ st unique_inv_empty Hok Hrun) as [H1 H2 H3].
  split; [exact H1|]. split; [exact H2|exact H3].
Qed.

Lemma UniquePtr_never_deletes_twice_witness :
  ∃ st,
    UniquePtr_run Unique.empty
      [UpCtor 0%nat (Some 7%nat); UpMove 1%nat 0%nat; UpAssignNull 1%nat;
       UpDtor 1%nat; UpDtor 0%nat] = Some st
    ∧ policy_ran_on st = [7%nat]
    ∧ NoDup (policy_ran_on st).
Proof.
  eexists. split; [vm_compute; reflexivity|]. split; [vm_compute; reflexivity|].
  refine (proj1 (UniquePtr_never_deletes_twice Unique.CustomDeleter
            [UpCtor 0%nat (Some 7%nat); UpMove 1%nat 0%nat; UpAssignNull 1%nat;
             UpDtor 1%nat; UpDtor 0%nat] _ _ _)).
  - split.
    { split; [vm_compute; apply not_elem_of_nil|apply map_Forall_empty]. }
    repeat (let st' := fresh "st" in let H := fresh "H" in
            intros st' H; vm_compute in H; injection H as <-;
            try (split; [exact I|])).
    exact I.
  - vm_compute. reflexivity.
Defined.

Section UniqueLeakFacts.
Context {Deleter : Type} `{Unique.DefaultConstructible Deleter} `{Unique.Movable Deleter}.
Implicit Types (st : Unique.Store Deleter) (d : Deleter) (p : ptr).

Lemma ran_snoc st objs d p q :
  q ∈ policy_ran_on st ∨ p = Some q →
  q ∈ policy_ran_on (Unique.mkStore objs (Unique.calls st ++ [(d, p)])).
Proof.
  intros Hq. rewrite policy_ran_on_snoc. apply elem_of_app.
  destruct Hq as [Hq| ->]; [by left|right]. by apply list_elem_of_singleton.
Qed.

(** One operation loses no object: what was held or destroyed, and what
    the operation adopts, is afterwards held, destroyed, or handed back. *)
Lemma UniquePtr_exec_accounts st op st' q :
  UniquePtr_exec st op = Some st' →
  held st q ∨ q ∈ policy_ran_on st ∨ adopts op = Some q →
  held st' q ∨ q ∈ policy_ran_on st' ∨ gives_back st op = Some q.
Proof.
  intros He Hq. unfold UniquePtr_exec in He.
  destruct op as [a p|a p d|a src|a src|a src|a|a|a p|a other|a];
    cbn [UniquePtr_step adopts gives_back] in *.
  - unfold Unique.UniquePtr_ctor, Unique.construct in He.
    destruct (Unique.objects st !! a) eqn:Ha; [discriminate He|]. injection He as <-.
    destruct Hq as [(a1 & x & H1 & Hx)|[Hq|Hq]].
    + left. exists a1, x. split; [|exact Hx]. cbn.
      rewrite lookup_insert_ne; [exact H1|congruence].
    + right. by left.
    + left. exists a. eexists. split; [cbn; apply lookup_insert_eq|exact Hq].
  - unfold Unique.UniquePtr_ctor_deleter, Unique.construct in He.
    destruct (Unique.objects st !! a) eqn:Ha; [discriminate He|]. injection He as <-.
    destruct Hq as [(a1 & x & H1 & Hx)|[Hq|Hq]].
    + left. exists a1, x. split; [|exact Hx]. cbn.
      rewrite lookup_insert_ne; [exact H1|congruence].
    + right. by left.
    + left. exists a. eexists. split; [cbn; apply lookup_insert_eq|exact Hq].
  - unfold Unique.UniquePtr_move_ctor, M_bind, Unique.get, Unique.put, Unique.construct in He.
    destruct (Unique.objects st !! src) as [o|] eqn:Hs; [|discriminate He].
    cbn [Unique.objects Unique.calls] in He.
    destruct (<[src := _]> (Unique.objects st) !! a) eqn:Ha; [discriminate He|].
    injection He as <-. apply lookup_insert_None in Ha as [Ha Hne].
    destruct Hq as [(a1 & x & H1 & Hx)|[Hq|Hq]]; [|right; by left|discriminate Hq].
    left. destruct (decide (a1 = src)) as [->|Hn].
    + exists a, x. split; [|exact Hx]. cbn. rewrite lookup_insert_eq. congruence.
    + exists a1, x. split; [|exact Hx]. cbn.
      rewrite !lookup_insert_ne; [exact H1|congruence|congruence].
  - unfold Unique.UniquePtr_move_ctor_converting, Unique.UniquePtr_Release,
      M_bind, M_ret, Unique.get, Unique.put, Unique.construct in He.
    destruct (Unique.objects st !! src) as [o|] eqn:Hs; [|discriminate He].
    cbn [Unique.objects] in He. rewrite lookup_insert_eq in He.
    cbn [Unique.objects Unique.calls] in He. rewrite insert_insert_eq in He.
    destruct (<[src := _]> (Unique.objects st) !! a) eqn:Ha; [discriminate He|].
    injection He as <-. apply lookup_insert_None in Ha as [Ha Hne].
    destruct Hq as [(a1 & x & H1 & Hx)|[Hq|Hq]]; [|right; by left|discriminate Hq].
    left. destruct (decide (a1 = src)) as [->|Hn].
    + exists a. eexists. split; [cbn; apply lookup_insert_eq|]. cbn. congruence.
    + exists a1, x. split; [|exact Hx]. cbn.
      rewrite !lookup_insert_ne; [exact H1|congruence|congruence].
  - unfold Unique.UniquePtr_assign_move in He.
    case_bool_decide as Heq.
    { injection He as <-. destruct Hq as [Hq|[Hq|Hq]]; [by left|right; by left|discriminate Hq]. }
    unfold M_bind, Unique.get, Unique.put, Unique.invoke in He.
    destruct (Unique.objects st !! a) as [t|] eqn:Ht; [|discriminate He].
    destruct (Unique.objects st !! src) as [o|] eqn:Hs; [|discriminate He].
    injection He as <-.
    destruct Hq as [(a1 & x & H1 & Hx)|[Hq|Hq]]; [| |discriminate Hq].
    + destruct (decide (a1 = a)) as [->|Hna].
      { right. left. apply ran_snoc. right. cbn. congruence. }
      left. destruct (decide (a1 = src)) as [->|Hns].
      * exists a. eexists. split.
        { cbn. rewrite lookup_insert_ne by congruence. apply lookup_insert_eq. }
        cbn. congruence.
      * exists a1, x. split; [|exact Hx]. cbn.
        rewrite !lookup_insert_ne; [exact H1|congruence|congruence].
    + right. left. apply ran_snoc. by left.
  - unfold Unique.UniquePtr_assign_nullptr, M_bind, Unique.get, Unique.put, Unique.invoke in He.
    destruct (Unique.objects st !! a) as [t|] eqn:Ht; [|discriminate He].
    injection He as <-.
    destruct Hq as [(a1 & x & H1 & Hx)|[Hq|Hq]]; [| |discriminate Hq].
    + destruct (decide (a1 = a)) as [->|Hna].
      { right. left. apply ran_snoc. right. cbn. congruence. }
      left. exists a1, x. split; [|exact Hx]. cbn.
      rewrite lookup_insert_ne; [exact H1|congruence].
    + right. left. apply ran_snoc. by left.
  - unfold Unique.UniquePtr_Release, M_bind, M_ret, Unique.get, Unique.put in He.
    destruct (Unique.objects st !! a) as [t|] eqn:Ht; [|discriminate He].
    injection He as <-.
    destruct Hq as [(a1 & x & H1 & Hx)|[Hq|Hq]]; [|right; by left|discriminate Hq].
    destruct (decide (a1 = a)) as [->|Hna].
    { right. right. congruence. }
    left. exists a1, x. split; [|exact Hx]. cbn.
    rewrite lookup_insert_ne; [exact H1|congruence].
  - unfold Unique.UniquePtr_Reset, M_bind, Unique.get, Unique.put, Unique.invoke in He.
    destruct (Unique.objects st !! a) as [t|] eqn:Ht; [|discriminate He].
    injection He as <-.
    destruct Hq as [(a1 & x & H1 & Hx)|[Hq|Hq]].
    + destruct (decide (a1 = a)) as [->|Hna].
      { right. left. apply ran_snoc. right. cbn. congruence. }
      left. exists a1, x. split; [|exact Hx]. cbn.
      rewrite lookup_insert_ne; [exact H1|congruence].
    + right. left. apply ran_snoc. by left.
    + left. exists a. eexists. split; [cbn; apply lookup_insert_eq|exact Hq].
  - unfold Unique.UniquePtr_Swap, M_bind, Unique.get, Unique.put in He.
    destruct (Unique.objects st !! a) as [t|] eqn:Ht; [|discriminate He].
    destruct (Unique.objects st !! other) as [o|] eqn:Ho; [|discriminate He].
    injection He as <-.
    destruct Hq as [(a1 & x & H1 & Hx)|[Hq|Hq]]; [|right; by left|discriminate Hq].
    left. destruct (decide (a1 = a)) as [->|Hna].
    { exists other, x. split; [|exact Hx]. cbn. rewrite lookup_insert_eq. congruence. }
    destruct (decide (a1 = other)) as [->|Hno].
    { exists a, x. split; [|exact Hx]. cbn.
      rewrite lookup_insert_ne by congruence. rewrite lookup_insert_eq. congruence. }
    exists a1, x. split; [|exact Hx]. cbn.
    rewrite !lookup_insert_ne; [exact H1|congruence|congruence].
  - unfold Unique.UniquePtr_dtor, M_bind, M_ret, Unique.get, Unique.destroy, Unique.invoke in He.
    destruct (Unique.objects st !! a) as [t|] eqn:Ht; [|discriminate He].
    destruct (Unique.GetFirst t) as [q0|] eqn:Hq0; cbn [non_null] in He; injection He as <-.
    + destruct Hq as [(a1 & x & H1 & Hx)|[Hq|Hq]]; [| |discriminate Hq].
      * destruct (decide (a1 = a)) as [->|Hna].
        { right. left. apply ran_snoc. right. congruence. }
        left. exists a1, x. split; [|exact Hx]. cbn.
        rewrite lookup_delete_ne; [exact H1|congruence].
      * right. left. apply ran_snoc. by left.
    + destruct Hq as [(a1 & x & H1 & Hx)|[Hq|Hq]]; [|right; by left|discriminate Hq].
      destruct (decide (a1 = a)) as [->|Hna]; [congruence|].
      left. exists a1, x. split; [|exact Hx]. cbn.
      rewrite lookup_delete_ne; [exact H1|congruence].
Qed.

Lemma UniquePtr_run_accounts ops st st' q :
  UniquePtr_run st ops = Some st' →
  held st q ∨ q ∈ policy_ran_on st ∨ q ∈ omap adopts ops →
  held st' q ∨ q ∈ policy_ran_on st' ∨ q ∈ given_back st ops.
Proof.
  revert st. induction ops as [|op ops IH]; intros st Hrun Hq; cbn in Hrun.
  - injection Hrun as <-. destruct Hq as [Hq|[Hq|Hq]]; [by left|right; by left|].
    by apply elem_of_nil in Hq.
  - destruct (UniquePtr_exec st op) as [st1|] eqn:He; [|discriminate Hrun].
    cbn [given_back]. rewrite He.
    assert (held st1 q ∨ q ∈ policy_ran_on st1 ∨ gives_back st op = Some q
            ∨ q ∈ omap adopts ops) as Hq1.
    { assert (omap adopts (op :: ops)
              = match adopts op with
                | Some y => y :: omap adopts ops
                | None => omap adopts ops
                end) as Hcons by reflexivity.
      rewrite Hcons in Hq. clear Hcons.
      destruct Hq as [Hq|[Hq|Hq]].
      - destruct (UniquePtr_exec_accounts st op st1 q He) as [?|[?|?]]; auto.
      - destruct (UniquePtr_exec_accounts st op st1 q He) as [?|[?|?]]; auto.
      - destruct (adopts op) as [q'|] eqn:Hop; [|auto].
        apply elem_of_cons in Hq as [->|Hq]; [|auto].
        destruct (UniquePtr_exec_accounts st op st1 q' He) as [?|[?|?]]; auto. }
    destruct Hq1 as [Hq1|[Hq1|[Hq1|Hq1]]].
    + destruct (IH st1 Hrun) as [?|[?|?]]; auto.
      right. right. apply elem_of_app. by right.
    + destruct (IH st1 Hrun) as [?|[?|?]]; auto.
      right. right. apply elem_of_app. by right.
    + right. right. apply elem_of_app. left. rewrite Hq1. cbn. by apply list_elem_of_singleton.
    + destruct (IH st1 Hrun) as [?|[?|?]]; auto.
      right. right. apply elem_of_app. by right.
Qed.

End UniqueLeakFacts.

(** X18. Every object a program handed to a UniquePtr through
    a constructor or Reset(ptr) is, at any later point, held by a live
    UniquePtr, or the destruction policy was called on it, or Release()
    handed it back to the program. *)
Theorem UniquePtr_loses_no_object (Deleter : Type)
    `{Unique.DefaultConstructible Deleter} `{Unique.Movable Deleter}
    (ops : list (@UniqueOp Deleter)) st q :
  UniquePtr_run Unique.empty ops = Some st → q ∈ omap adopts ops →
  held st q ∨ q ∈ policy_ran_on st ∨ q ∈ given_back Unique.empty ops.
Proof.
  intros Hrun Hq. apply (UniquePtr_run_accounts ops Unique.empty st q Hrun). auto.
Qed.

Lemma UniquePtr_loses_no_object_witness :
  ∃ st,
    UniquePtr_run Unique.empty
      [UpCtor 0%nat (Some 7%nat); UpCtor 1%nat (Some 8%nat); UpAssignMove 1%nat 0%nat;
       UpRelease 1%nat; UpDtor 1%nat; UpDtor 0%nat] = Some st
    ∧ Unique.objects st = ∅
    ∧ (8%nat ∈ policy_ran_on st
       ∨ 8%nat ∈ given_back (@Unique.empty Unique.CustomDeleter)
                   [UpCtor 0%nat (Some 7%nat); UpCtor 1%nat (Some 8%nat);
                    UpAssignMove 1%nat 0%nat; UpRelease 1%nat; UpDtor 1%nat; UpDtor 0%nat]).
Proof.
  eexists. split; [vm_compute; reflexivity|]. split; [vm_compute; reflexivity|].
  destruct (UniquePtr_loses_no_object Unique.CustomDeleter
              [UpCtor 0%nat (Some 7%nat); UpCtor 1%nat (Some 8%nat); UpAssignMove 1%nat 0%nat;
               UpRelease 1%nat; UpDtor 1%nat; UpDtor 0%nat] _ 8%nat
              ltac:(vm_compute; reflexivity)
              ltac:(vm_compute; apply elem_of_cons; right; apply elem_of_cons; by left))
    as [(a & x & Ha & _)|Hq]; [|exact Hq].
  vm_compute in Ha. discriminate Ha.
Defined.

Section UniqueEdges.
Context {Deleter : Type} `{Unique.DefaultConstructible Deleter} `{Unique.Movable Deleter}.
Implicit Types (st : Unique.Store Deleter) (d : Deleter) (p q : ptr).

Lemma Store_eta st : Unique.mkStore (Unique.objects st) (Unique.calls st) = st.
Proof. by destruct st. Qed.

(** X19. On a UniquePtr that holds null, Reset(q),
    operator=(nullptr_t) and operator=(UniquePtr&&) call the destruction
    policy with the null pointer; only the destructor tests the pointer and
    calls nothing. *)
Theorem UniquePtr_policy_called_on_null st a d :
  Unique.objects st !! a = Some (Unique.mkPair nullptr d) →
  (∀ q, Unique.UniquePtr_Reset a q st
        = Ok tt (Unique.mkStore (<[a := Unique.mkPair q d]> (Unique.objects st))
                                (Unique.calls st ++ [(d, nullptr)])))
  ∧ Unique.UniquePtr_assign_nullptr a st
    = Ok tt (Unique.mkStore (<[a := Unique.mkPair nullptr d]> (Unique.objects st))
                            (Unique.calls st ++ [(d, nullptr)]))
  ∧ (∀ b r dr, b ≠ a → Unique.objects st !! b = Some (Unique.mkPair r dr) →
       Unique.UniquePtr_assign_move a b st
       = Ok tt (Unique.mkStore
                  (<[b := Unique.mkPair nullptr (Unique.moved_from dr)]>
                     (<[a := Unique.mkPair r dr]> (Unique.objects st)))
                  (Unique.calls st ++ [(d, nullptr)])))
  ∧ Unique.UniquePtr_dtor a st
    = Ok tt (Unique.mkStore (delete a (Unique.objects st)) (Unique.calls st)).
Proof.
  intros Ha. split; [|split; [|split]].
  - intros q. unfold Unique.UniquePtr_Reset, M_bind, Unique.get. by rewrite Ha.
  - unfold Unique.UniquePtr_assign_nullptr, M_bind, Unique.get. by rewrite Ha.
  - intros b r dr Hne Hb. unfold Unique.UniquePtr_assign_move.
    rewrite bool_decide_eq_false_2 by congruence.
    unfold M_bind, Unique.get. by rewrite Ha, Hb.
  - unfold Unique.UniquePtr_dtor, M_bind, Unique.get. by rewrite Ha.
Qed.

(** X20. UniquePtr::Swap exchanges pointer and deleter of the
    two UniquePtrs and calls no destruction policy; a second Swap of the same
    two restores the store, also when both are the same UniquePtr. *)
Theorem UniquePtr_Swap_exchanges st a b x y :
  Unique.objects st !! a = Some x → Unique.objects st !! b = Some y →
  ∃ st1,
    Unique.UniquePtr_Swap a b st = Ok tt st1
    ∧ st1 = Unique.mkStore (<[b := x]> (<[a := y]> (Unique.objects st))) (Unique.calls st)
    ∧ Unique.UniquePtr_Swap a b st1 = Ok tt st.
Proof.
  intros Ha Hb.
  assert (Hsw : ∀ (s : Unique.Store Deleter) u v, Unique.objects s !! a = Some u → Unique.objects s !! b = Some v →
            Unique.UniquePtr_Swap a b s
            = Ok tt (Unique.mkStore (<[b := u]> (<[a := v]> (Unique.objects s)))
                                    (Unique.calls s))).
  { intros s u v Hu Hv. unfold Unique.UniquePtr_Swap, M_bind, Unique.get. by rewrite Hu, Hv. }
  eexists. split; [by apply Hsw|]. split; [reflexivity|].
  rewrite (Hsw _ (if decide (a = b) then x else y) x).
  - cbn [Unique.objects Unique.calls]. rewrite (swap_back _ _ _ _ _ Ha Hb).
    by rewrite Store_eta.
  - cbn [Unique.objects]. case_decide as Hd.
    + subst b. by rewrite lookup_insert_eq.
    + rewrite lookup_insert_ne by congruence. by rewrite lookup_insert_eq.
  - cbn [Unique.objects]. by rewrite lookup_insert_eq.
Qed.

(** X21. The converting move constructor
    UniquePtr(UniquePtr<U, E>&&) takes the pointer with Release() and moves
    the deleter out of its source: the new UniquePtr holds the pointer and
    the value the deleter had, the source holds null and the deleter as the
    move left it, no policy is called, the destructor of the source then
    calls nothing and the destructor of the new UniquePtr calls the deleter
    it received once, on the pointer that was moved. *)
Theorem UniquePtr_converting_move st a b p d :
  Unique.objects st !! a = Some (Unique.mkPair p d) → Unique.objects st !! b = None →
  ∃ st1,
    Unique.UniquePtr_move_ctor_converting b a st = Ok tt st1
    ∧ st1 = Unique.mkStore
              (<[b := Unique.mkPair p d]>
                 (<[a := Unique.mkPair nullptr (Unique.moved_from d)]> (Unique.objects st)))
              (Unique.calls st)
    ∧ Unique.UniquePtr_dtor a st1
      = Ok tt (Unique.mkStore (delete a (Unique.objects st1)) (Unique.calls st))
    ∧ (p ≠ nullptr →
       Unique.UniquePtr_dtor b st1
       = Ok tt (Unique.mkStore (delete b (Unique.objects st1))
                               (Unique.calls st ++ [(d, p)]))).
Proof.
  intros Ha Hb. assert (b ≠ a) as Hne by congruence.
  eexists. split.
  { unfold Unique.UniquePtr_move_ctor_converting, Unique.UniquePtr_Release,
      M_bind, M_ret, Unique.get, Unique.put, Unique.construct.
    rewrite Ha. cbn [Unique.objects]. rewrite lookup_insert_eq.
    cbn [Unique.objects]. rewrite insert_insert_eq.
    rewrite lookup_insert_ne by congruence. rewrite Hb.
    reflexivity. }
  split; [reflexivity|]. split.
  - unfold Unique.UniquePtr_dtor, M_bind, Unique.get. cbn [Unique.objects].
    rewrite lookup_insert_ne by congruence. rewrite lookup_insert_eq. reflexivity.
  - intros Hp. unfold Unique.UniquePtr_dtor, M_bind, Unique.get. cbn [Unique.objects].
    rewrite lookup_insert_eq. by destruct p.
Qed.

End UniqueEdges.

Lemma UniquePtr_policy_called_on_null_witness :
  Unique.UniquePtr_Reset 0%nat (Some 3%nat)
    (Unique.mkStore (<[0%nat := Unique.mkPair nullptr Unique.CustomDeleter_value]> ∅) [])
  = Ok tt (Unique.mkStore
             (<[0%nat := Unique.mkPair (Some 3%nat) Unique.CustomDeleter_value]>
                (<[0%nat := Unique.mkPair nullptr Unique.CustomDeleter_value]> ∅))
             [(Unique.CustomDeleter_value, nullptr)]).
Proof.
  set (st := Unique.mkStore
               (<[0%nat := Unique.mkPair nullptr Unique.CustomDeleter_value]> ∅) []).
  assert (Ha : Unique.objects st !! 0%nat
               = Some (Unique.mkPair nullptr Unique.CustomDeleter_value))
    by (vm_compute; reflexivity).
  apply (proj1 (UniquePtr_policy_called_on_null st 0%nat Unique.CustomDeleter_value Ha)).
Defined.

Lemma UniquePtr_Swap_exchanges_witness :
  ∃ st1,
    Unique.UniquePtr_Swap 0%nat 1%nat
      (Unique.mkStore (<[1%nat := Unique.mkPair nullptr Unique.CustomDeleter_value]>
                         (<[0%nat := Unique.mkPair (Some 3%nat) Unique.CustomDeleter_value]> ∅))
                      []) = Ok tt st1
    ∧ Unique.objects st1 !! 1%nat = Some (Unique.mkPair (Some 3%nat) Unique.CustomDeleter_value)
    ∧ Unique.calls st1 = [].
Proof.
  set (st := Unique.mkStore
               (<[1%nat := Unique.mkPair nullptr Unique.CustomDeleter_value]>
                  (<[0%nat := Unique.mkPair (Some 3%nat) Unique.CustomDeleter_value]> ∅))
               []).
  assert (Ha : Unique.objects st !! 0%nat
               = Some (Unique.mkPair (Some 3%nat) Unique.CustomDeleter_value))
    by (vm_compute; reflexivity).
  assert (Hb : Unique.objects st !! 1%nat
               = Some (Unique.mkPair nullptr Unique.CustomDeleter_value))
    by (vm_compute; reflexivity).
  destruct (UniquePtr_Swap_exchanges st 0%nat 1%nat _ _ Ha Hb) as (st1 & H1 & -> & _).
  eexists. split; [exact H1|]. split; vm_compute; reflexivity.
Defined.

Lemma UniquePtr_converting_move_witness :
  ∃ st1,
    Unique.UniquePtr_move_ctor_converting 1%nat 0%nat
      (Unique.mkStore (<[0%nat := Unique.mkPair (Some 3%nat) Unique.CustomDeleter_value]> ∅) [])
    = Ok tt st1
    ∧ Unique.objects st1 !! 0%nat = Some (Unique.mkPair nullptr Unique.CustomDeleter_value)
    ∧ Unique.objects st1 !! 1%nat
      = Some (Unique.mkPair (Some 3%nat) Unique.CustomDeleter_value).
Proof.
  set (st := Unique.mkStore
               (<[0%nat := Unique.mkPair (Some 3%nat) Unique.CustomDeleter_value]> ∅) []).
  assert (Ha : Unique.objects st !! 0%nat
               = Some (Unique.mkPair (Some 3%nat) Unique.CustomDeleter_value))
    by (vm_compute; reflexivity).
  assert (Hb : Unique.objects st !! 1%nat = None) by (vm_compute; reflexivity).
  destruct (UniquePtr_converting_move st 0%nat 1%nat _ _ Ha Hb) as (st1 & H1 & -> & _).
  eexists. split; [exact H1|]. split; vm_compute; reflexivity.
Defined.
